(** * linkify scanner: a shallow embedding of [src/linkify/core/scanner.js]

    The scanner builds, once, a graph of character states (a trie of the
    configured literals with fall-back edges layered on top) and then
    tokenizes a string by longest match with roll-back.

    Strings are JavaScript strings: sequences of UTF-16 code units, here
    [list N].  States live in a store (a list of records) and are named by
    their index; the construction code of the module is a computation in a
    state-and-error monad over that store. *)

From Stdlib Require Import List ZArith NArith Bool Lia String Ascii.
Import ListNotations.

(* ------------------------------------------------------------------ *)
(** ** JavaScript strings *)

Definition char := N.
Definition jsstring := list char.

Definition chr (a : ascii) : char := N_of_ascii a.
Definition js (s : string) : jsstring := map chr (list_ascii_of_string s).

(** [str.substr(start, length)] *)
Definition substr (s : jsstring) (start length : Z) : jsstring :=
  let size := Z.of_nat (List.length s) in
  let start' := if (start <? 0)%Z then Z.max 0 (size + start) else start in
  firstn (Z.to_nat length) (skipn (Z.to_nat start') s).

(** [s[i]]: [None] stands for [undefined]. *)
Definition charAt (s : jsstring) (i : Z) : option char :=
  if (i <? 0)%Z then None else nth_error s (Z.to_nat i).

(** The callback of [str.replace(/[A-Z]/g, (c) => c.toLowerCase())]. *)
Definition toLowerAZ (c : char) : char :=
  if ((65 <=? c) && (c <=? 90))%N then (c + 32)%N else c.

Definition lowerAZ (s : jsstring) : jsstring := map toLowerAZ s.

(* ------------------------------------------------------------------ *)
(** ** Token classes *)

(** Modelled from the spec: [./tokens] is not part of the sources at hand.
    Section 4.1 describes a closed enumeration of categories; the names are
    the ones [scanner.js] reads off [TOKENS]. *)
Module TOKENS.
Inductive TokenClass : Set :=
| DOMAIN | LOCALHOST | NUM | PROTOCOL | TLD | WS
| AT | DOT | PLUS | POUND | QUERY | SLASH | COLON
| OPENBRACE | OPENBRACKET | OPENPAREN
| CLOSEBRACE | CLOSEBRACKET | CLOSEPAREN
| PUNCTUATION | NL | SYM.

Definition eqb (a b : TokenClass) : bool :=
  match a, b with
  | DOMAIN, DOMAIN | LOCALHOST, LOCALHOST | NUM, NUM | PROTOCOL, PROTOCOL
  | TLD, TLD | WS, WS | AT, AT | DOT, DOT | PLUS, PLUS | POUND, POUND
  | QUERY, QUERY | SLASH, SLASH | COLON, COLON | OPENBRACE, OPENBRACE
  | OPENBRACKET, OPENBRACKET | OPENPAREN, OPENPAREN
  | CLOSEBRACE, CLOSEBRACE | CLOSEBRACKET, CLOSEBRACKET
  | CLOSEPAREN, CLOSEPAREN | PUNCTUATION, PUNCTUATION | NL, NL
  | SYM, SYM => true
  | _, _ => false
  end.
End TOKENS.
Export TOKENS(TokenClass).

(** A token instance: [new TOKEN(text)]. *)
Record Token : Set := mkToken { tokenClass : TokenClass; text : jsstring }.

(* ------------------------------------------------------------------ *)
(** ** States and the store *)

(** Modelled from the spec: [./state] ([CharacterState], [makeStartState],
    [stateify]) is not part of the sources at hand.  Section 3: a state has
    a mapping from single characters to a successor, an optional default
    successor ([d] in [scanner.js], line 135) and an optional accept tag.
    The character edges are kept in registration order and the first
    registration of a character wins (section 4.2: fall-back edges apply to
    characters "not already mapped"). *)
Record CharacterState : Set := mkState {
  jumps : list (char * nat);
  d : option nat;
  tag : option TokenClass
}.

Definition Store := list CharacterState.

(** Construction either yields a value and a new store or throws. *)
Definition M (A : Type) : Type := Store -> option (A * Store).

Definition ret {A} (a : A) : M A := fun st => Some (a, st).
Definition bind {A B} (m : M A) (k : A -> M B) : M B :=
  fun st => match m st with
            | Some (a, st') => k a st'
            | None => None
            end.
Definition throw {A} : M A := fun _ => None.

Notation "x <- m ;; k" := (bind m (fun x => k))
  (at level 61, m at next level, right associativity).
Notation "m ;;; k" := (bind m (fun _ => k))
  (at level 61, right associativity).

(** Replace the state at index [s]. *)
Fixpoint update (st : Store) (s : nat) (f : CharacterState -> CharacterState)
  : Store :=
  match st, s with
  | [], _ => []
  | x :: r, O => f x :: r
  | x :: r, S s' => x :: update r s' f
  end.

Definition addJump (symbol : char) (t : nat) (x : CharacterState) :=
  mkState (jumps x ++ [(symbol, t)]) (d x) (tag x).

Definition setDefault (t : nat) (x : CharacterState) :=
  mkState (jumps x) (Some t) (tag x).

(** [new State(tokenClass)]: a fresh state with no edges. *)
Definition makeState (tokenClass : option TokenClass) : M nat :=
  fun st => Some (List.length st, st ++ [mkState [] None tokenClass]).

(** Modelled from the spec: [makeStartState] is not in the sources at hand;
    the start state is a state with no accept tag (section 3) whose default
    successor is only set at the end of construction. *)
Definition makeStartState : M nat := makeState None.

(** [state.on(symbol, next)], modelled from the spec (section 4.3,
    [transitionOn]): registers one edge.  Calling it on something that is
    not a state throws. *)
Definition on (s : nat) (symbol : char) (t : nat) : M unit :=
  fun st => match nth_error st s with
            | Some _ => Some (tt, update st s (addJump symbol t))
            | None => None
            end.

(** [state.on([c1, ..., cn], next)]: one edge per character, in order. *)
Fixpoint onEach (s : nat) (symbols : list char) (t : nat) : M unit :=
  match symbols with
  | [] => ret tt
  | c :: r => on s c t ;;; onEach s r t
  end.

(** [state.d = next] *)
Definition setD (s t : nat) : M unit :=
  fun st => match nth_error st s with
            | Some _ => Some (tt, update st s (setDefault t))
            | None => None
            end.

Definition lookupJump (symbol : char) (l : list (char * nat)) : option nat :=
  match find (fun e => N.eqb (fst e) symbol) l with
  | Some e => Some (snd e)
  | None => None
  end.

(** [state.next(character)], modelled from the spec (section 4.3): the
    mapped successor if present, else the default successor if one is
    registered, else none. *)
Definition next (st : Store) (s : nat) (c : char) : option nat :=
  match nth_error st s with
  | Some x => match lookupJump c (jumps x) with
              | Some t => Some t
              | None => d x
              end
  | None => None
  end.

(** [state.accepts()] and [state.emit()], modelled from the spec. *)
Definition emit (st : Store) (s : nat) : option TokenClass :=
  match nth_error st s with
  | Some x => tag x
  | None => None
  end.

Definition accepts (st : Store) (s : nat) : bool :=
  match emit st s with Some _ => true | None => false end.

(** Modelled from the spec: [stateify] is not in the sources at hand.
    Section 4.2, [insertLiteral(word, fromState, tailTag, intermediateTag)]:
    walk the word from [state]; an existing transition is reused, otherwise
    a state is created, tagged [endToken] if it ends the word and
    [defaultToken] if not.  A tag is given to a state when it is created
    and there is no operation that changes it afterwards, so a reused state
    keeps the tag it has.  The result lists the states created. *)
Fixpoint stateify (word : jsstring) (state : nat)
    (endToken defaultToken : TokenClass) : M (list nat) :=
  match word with
  | [] => ret []
  | c :: rest =>
      fun st =>
        match next st state c with
        | Some nextState => stateify rest nextState endToken defaultToken st
        | None =>
            (nextState <- makeState
               (Some (match rest with [] => endToken | _ => defaultToken end)) ;;
             on state c nextState ;;;
             newStates <- stateify rest nextState endToken defaultToken ;;
             ret (nextState :: newStates)) st
        end
  end.

(** [array.pop()]: the last element, [None] for [undefined]. *)
Definition pop (l : list nat) : option nat := last (map Some l) None.

(** Using an [undefined] value as a state throws a [TypeError]. *)
Definition theState (o : option nat) : M nat :=
  match o with Some s => ret s | None => throw end.

(* ------------------------------------------------------------------ *)
(** ** Construction of the scanner's automaton (lines 13 to 135) *)

Definition NUM : list char := js "0123456789".
Definition ALPHANUM : list char := js "0123456789abcdefghijklmnopqrstuvwxyz".
(** [' ', '\f', '\r', '\t', '\v'] *)
Definition WHITESPACE : list char := [32; 12; 13; 9; 11]%N.
Definition COLON : char := chr ":".
Definition HYPHEN : char := chr "-".
Definition NEWLINE : char := 10%N.

Definition T_DOMAIN := TOKENS.DOMAIN.
Definition T_LOCALHOST := TOKENS.LOCALHOST.
Definition T_NUM := TOKENS.NUM.
Definition T_PROTOCOL := TOKENS.PROTOCOL.
Definition T_TLD := TOKENS.TLD.
Definition T_WS := TOKENS.WS.

(** The frequently used states (lines 32 to 37). *)
Record Named : Set := mkNamed {
  S_START : nat;
  S_NUM : nat;
  S_DOMAIN : nat;
  S_DOMAIN_HYPHEN : nat;
  S_WS : nat
}.

Definition namedStates : M Named :=
  s_start <- makeStartState ;;
  s_num <- makeState (Some T_NUM) ;;
  s_domain <- makeState (Some T_DOMAIN) ;;
  s_domain_hyphen <- makeState None ;;
  s_ws <- makeState (Some T_WS) ;;
  ret (mkNamed s_start s_num s_domain s_domain_hyphen s_ws).

(** [state.on(symbol, makeState(tokenClass))] *)
Definition onNew (s : nat) (symbol : char) (tokenClass : TokenClass) : M unit :=
  t <- makeState (Some tokenClass) ;; on s symbol t.

(** Lines 40 to 63: special symbols and whitespace. *)
Definition symbolStates (n : Named) : M unit :=
  onNew (S_START n) (chr "@") TOKENS.AT ;;;
  onNew (S_START n) (chr ".") TOKENS.DOT ;;;
  onNew (S_START n) (chr "+") TOKENS.PLUS ;;;
  onNew (S_START n) (chr "#") TOKENS.POUND ;;;
  onNew (S_START n) (chr "?") TOKENS.QUERY ;;;
  onNew (S_START n) (chr "/") TOKENS.SLASH ;;;
  onNew (S_START n) COLON TOKENS.COLON ;;;
  onNew (S_START n) (chr "{") TOKENS.OPENBRACE ;;;
  onNew (S_START n) (chr "[") TOKENS.OPENBRACKET ;;;
  onNew (S_START n) (chr "(") TOKENS.OPENPAREN ;;;
  onNew (S_START n) (chr "}") TOKENS.CLOSEBRACE ;;;
  onNew (S_START n) (chr "]") TOKENS.CLOSEBRACKET ;;;
  onNew (S_START n) (chr ")") TOKENS.CLOSEPAREN ;;;
  (p <- makeState (Some TOKENS.PUNCTUATION) ;;
   onEach (S_START n) [chr ","; chr ";"; chr "!"; 34%N] p) ;;;
  onNew (S_START n) NEWLINE TOKENS.NL ;;;
  onEach (S_START n) WHITESPACE (S_WS n) ;;;
  onEach (S_WS n) WHITESPACE (S_WS n).

(** Lines 67 to 70: one [stateify] per top-level domain. *)
Fixpoint tldStates (tlds : list jsstring) (start : nat)
    (domainStates : list nat) : M (list nat) :=
  match tlds with
  | [] => ret domainStates
  | w :: rest =>
      newStates <- stateify w start T_TLD T_DOMAIN ;;
      tldStates rest start (domainStates ++ newStates)
  end.

(** Lines 123 to 127: every generated state jumps to DOMAIN. *)
Fixpoint domainJumps (domainStates : list nat) (n : Named) : M unit :=
  match domainStates with
  | [] => ret tt
  | s :: rest =>
      on s HYPHEN (S_DOMAIN_HYPHEN n) ;;;
      onEach s ALPHANUM (S_DOMAIN n) ;;;
      domainJumps rest n
  end.

(** Lines 65 to 135.  [tlds] stands for the macro [__TLDS__], which the
    build script substitutes and which is not part of the sources at hand:
    it is a parameter of the construction. *)
Definition wire (tlds : list jsstring) (n : Named) : M unit :=
  domainStates <- tldStates tlds (S_START n) [] ;;
  partialProtocolFileStates <- stateify (js "file") (S_START n) T_DOMAIN T_DOMAIN ;;
  partialProtocolFtpStates <- stateify (js "ftp") (S_START n) T_DOMAIN T_DOMAIN ;;
  partialProtocolHttpStates <- stateify (js "http") (S_START n) T_DOMAIN T_DOMAIN ;;
  let domainStates := domainStates ++ partialProtocolFileStates in
  let domainStates := domainStates ++ partialProtocolFtpStates in
  let domainStates := domainStates ++ partialProtocolHttpStates in
  let S_PROTOCOL_FILE := pop partialProtocolFileStates in
  let S_PROTOCOL_FTP := pop partialProtocolFtpStates in
  let S_PROTOCOL_HTTP := pop partialProtocolHttpStates in
  S_PROTOCOL_SECURE <- makeState (Some T_DOMAIN) ;;
  S_FULL_PROTOCOL <- makeState (Some T_PROTOCOL) ;;
  (ftp <- theState S_PROTOCOL_FTP ;;
   on ftp (chr "s") S_PROTOCOL_SECURE ;;;
   on ftp COLON S_FULL_PROTOCOL) ;;;
  (http <- theState S_PROTOCOL_HTTP ;;
   on http (chr "s") S_PROTOCOL_SECURE ;;;
   on http COLON S_FULL_PROTOCOL) ;;;
  let domainStates := domainStates ++ [S_PROTOCOL_SECURE] in
  (file <- theState S_PROTOCOL_FILE ;; on file COLON S_FULL_PROTOCOL) ;;;
  on S_PROTOCOL_SECURE COLON S_FULL_PROTOCOL ;;;
  partialLocalhostStates <-
    stateify (js "localhost") (S_START n) T_LOCALHOST T_DOMAIN ;;
  let domainStates := domainStates ++ partialLocalhostStates in
  onEach (S_START n) NUM (S_NUM n) ;;;
  on (S_NUM n) HYPHEN (S_DOMAIN_HYPHEN n) ;;;
  onEach (S_NUM n) NUM (S_NUM n) ;;;
  onEach (S_NUM n) ALPHANUM (S_DOMAIN n) ;;;
  on (S_DOMAIN n) HYPHEN (S_DOMAIN_HYPHEN n) ;;;
  onEach (S_DOMAIN n) ALPHANUM (S_DOMAIN n) ;;;
  domainJumps domainStates n ;;;
  on (S_DOMAIN_HYPHEN n) HYPHEN (S_DOMAIN_HYPHEN n) ;;;
  onEach (S_DOMAIN_HYPHEN n) NUM (S_DOMAIN n) ;;;
  onEach (S_DOMAIN_HYPHEN n) ALPHANUM (S_DOMAIN n) ;;;
  (sym <- makeState (Some TOKENS.SYM) ;; setD (S_START n) sym).

(** The module's top-level code: the automaton and its start state
    ([let start = S_START]). *)
Record Scanner : Set := mkScanner { states : Store; start : nat }.

Definition scanner (tlds : list jsstring) : option Scanner :=
  match (n <- namedStates ;; symbolStates n ;;; wire tlds n ;;; ret n) [] with
  | Some (n, st) => Some (mkScanner st (S_START n))
  | None => None
  end.

(* ------------------------------------------------------------------ *)
(** ** The scanning loop (lines 145 to 198) *)

(** What a call can do: return, throw, or still be looping when the step
    budget of the model is used up. *)
Inductive Outcome (A : Type) : Type :=
| Returns (a : A)
| Throws
| OutOfFuel.
Arguments Returns {A} a.
Arguments Throws {A}.
Arguments OutOfFuel {A}.

(** The variables of one round of the outer loop.  ([secondState] is only
    ever assigned [null] and is left out.) *)
Record Vars : Set := mkVars {
  cursor : Z;
  state : nat;
  tokenLength : Z;
  latestAccepting : option nat;
  sinceAccepts : Z
}.

Section Run.

Variable A : Scanner.

(** The body of the inner loop (lines 169 to 181), entered with
    [nextState]. *)
Definition innerBody (v : Vars) (nextState : nat) : Vars :=
  let acc := accepts (states A) nextState in
  mkVars (cursor v + 1) nextState (tokenLength v + 1)
    (if acc then Some nextState else latestAccepting v)
    (if acc then 0
     else if (sinceAccepts v >=? 0)%Z then sinceAccepts v + 1
     else sinceAccepts v)%Z.

(** The inner loop (line 168).  Every round increments [cursor] and the
    guard needs [cursor < len], so [len - cursor] rounds are all it can
    make; [rounds] is that bound. *)
Fixpoint inner (rounds : nat) (lowerStr : jsstring) (len : Z) (v : Vars)
  : Vars :=
  match rounds with
  | O => v
  | S rounds' =>
      if (cursor v <? len)%Z then
        match charAt lowerStr (cursor v) with
        | Some c =>
            match next (states A) (state v) c with
            | Some nextState =>
                inner rounds' lowerStr len (innerBody v nextState)
            | None => v
            end
        | None => v
        end
      else v
  end.

(** The outer loop (lines 158 to 195); [fuel] bounds its rounds. *)
Fixpoint outer (fuel : nat) (str lowerStr : jsstring) (len : Z)
    (cur : Z) (tokens : list Token) : Outcome (list Token) :=
  if (cur <? len)%Z then
    match fuel with
    | O => OutOfFuel
    | S fuel' =>
        let v := inner (Z.to_nat (len - cur)) lowerStr len
                   (mkVars cur (start A) 0 None (-1)) in
        if (sinceAccepts v <? 0)%Z then
          outer fuel' str lowerStr len (cursor v) tokens
        else
          let cur' := (cursor v - sinceAccepts v)%Z in
          let tokenLength' := (tokenLength v - sinceAccepts v)%Z in
          match latestAccepting v with
          | Some s =>
              match emit (states A) s with
              | Some TOKEN =>
                  outer fuel' str lowerStr len cur'
                    (tokens ++
                     [mkToken TOKEN
                        (substr str (cur' - tokenLength') tokenLength')])
              | None => Throws
              end
          | None => Throws
          end
    end
  else Returns tokens.

Definition runFuel (fuel : nat) (str : jsstring) : Outcome (list Token) :=
  let lowerStr := lowerAZ str in
  let len := Z.of_nat (List.length str) in
  outer fuel str lowerStr len 0 [].

(** [run(str)]; one round per character is enough whenever the loop ends
    at all (see [runFuel_enough]). *)
Definition run (str : jsstring) : Outcome (list Token) :=
  runFuel (List.length str) str.

End Run.


(* ------------------------------------------------------------------ *)
(** ** Walks through the automaton *)

Section Walks.

Variable st : Store.

(** The states the inner loop enters, in order, when it reads [rest]
    from state [s]: it goes on for as long as a successor exists. *)
Fixpoint steps (s : nat) (rest : jsstring) : list nat :=
  match rest with
  | [] => []
  | c :: r =>
      match next st s c with
      | Some n => n :: steps n r
      | None => []
      end
  end.

(** The state reached by reading all of [w] from [s], if every
    transition on the way exists. *)
Fixpoint walk (s : nat) (w : jsstring) : option nat :=
  match w with
  | [] => Some s
  | c :: r =>
      match next st s c with
      | Some n => walk n r
      | None => None
      end
  end.

(** The last accepting state among the visited ones, with its position
    counted from one. *)
Fixpoint lastAcc (vis : list nat) : option (nat * nat) :=
  match vis with
  | [] => None
  | s :: r =>
      match lastAcc r with
      | Some (L, s') => Some (S L, s')
      | None => if accepts st s then Some (1, s) else None
      end
  end.

End Walks.

Section Tokenizes.

Variable A : Scanner.

(** What a returning scan produces, read off the remaining text:
    [str] is what remains of the original string, [lowerStr] of the
    working copy. *)
Inductive Tokenizes : jsstring -> jsstring -> list Token -> Prop :=
| Tok_done : forall str, Tokenizes str [] []
| Tok_emit : forall str lowerStr L s TOKEN tokens,
    lowerStr <> [] ->
    lastAcc (states A) (steps (states A) (start A) lowerStr) = Some (L, s) ->
    emit (states A) s = Some TOKEN ->
    Tokenizes (skipn L str) (skipn L lowerStr) tokens ->
    Tokenizes str lowerStr (mkToken TOKEN (firstn L str) :: tokens)
| Tok_skip : forall str lowerStr tokens,
    lowerStr <> [] ->
    lastAcc (states A) (steps (states A) (start A) lowerStr) = None ->
    let k := List.length (steps (states A) (start A) lowerStr) in
    Tokenizes (skipn k str) (skipn k lowerStr) tokens ->
    Tokenizes str lowerStr tokens.

(** From the start state every character leads to an accepting state. *)
Definition Progress : Prop :=
  forall c, exists n,
    next (states A) (start A) c = Some n /\ accepts (states A) n = true.

End Tokenizes.

(* ------------------------------------------------------------------ *)
(** ** Vocabulary for reasoning about the construction *)

Definition addJumps (symbols : list char) (t : nat) (x : CharacterState) :=
  mkState (jumps x ++ map (fun c => (c, t)) symbols) (d x) (tag x).

(** No state has a default successor (true until the last line of the
    construction). *)
Definition NoDefault (st : Store) : Prop :=
  forall s x, nth_error st s = Some x -> d x = None.

(** Every registered edge satisfies [G]. *)
Definition Typed (G : Store -> nat -> char -> nat -> Prop) (st : Store) : Prop :=
  forall s x c t, nth_error st s = Some x -> In (c, t) (jumps x) -> G st s c t.

(** [st'] has the states of [st], with the same tags, and maybe more. *)
Definition TagExt (st st' : Store) : Prop :=
  forall s x, nth_error st s = Some x ->
    exists x', nth_error st' s = Some x' /\ tag x' = tag x.

(** [st'] has the states of [st] with the edges [f s] appended. *)
Definition Overlay (f : nat -> list (char * nat)) (st st' : Store) : Prop :=
  List.length st' = List.length st /\
  forall s x, nth_error st s = Some x ->
    nth_error st' s = Some (mkState (jumps x ++ f s) (d x) (tag x)).

(** [st'] keeps every edge of [st] in place: edges are only appended. *)
Definition Grows (st st' : Store) : Prop :=
  forall s x, nth_error st s = Some x ->
    exists x', nth_error st' s = Some x' /\ tag x' = tag x /\ d x' = d x /\
               exists more, jumps x' = jumps x ++ more.

Definition tagIs (st : Store) (s : nat) (tc : TokenClass) : Prop :=
  emit st s = Some tc.

(** The store after lines 33 to 63. *)
Definition st0 : Store :=
  Eval vm_compute in
    match (n <- namedStates ;; symbolStates n) [] with
    | Some (_, st) => st
    | None => []
    end.

Definition named0 : Named := mkNamed 0 1 2 3 4.

(** The successor the start state has for a symbol, whitespace or newline
    character after lines 33 to 63. *)
Definition symbolTarget (c : char) : option nat :=
  match nth_error st0 0 with
  | Some x => lookupJump c (jumps x)
  | None => None
  end.

(** A character that is not one of those: letters, digits, the hyphen and
    everything outside the scanner's alphabet. *)
Definition plainChar (c : char) : Prop := symbolTarget c = None.
Definition plainWord (w : jsstring) : Prop := Forall plainChar w.
Definition plainTlds (tlds : list jsstring) : Prop := Forall plainWord tlds.

Definition isPrefix (p w : jsstring) : Prop := exists r, w = p ++ r.

(** [st'] extends [st]: the old states keep their tag and default and gain
    edges satisfying [R]; the new states have a tag satisfying [Tg], no
    default, and edges satisfying [R]. *)
Definition Ext (R : nat -> char -> nat -> Prop) (Tg : option TokenClass -> Prop)
    (st st' : Store) : Prop :=
  (forall s x, nth_error st s = Some x ->
     exists x', nth_error st' s = Some x' /\ tag x' = tag x /\ d x' = d x /\
       exists more, jumps x' = jumps x ++ more /\
                    forall c t, In (c, t) more -> R s c t) /\
  (forall s x', nth_error st' s = Some x' -> (List.length st <= s)%nat ->
     Tg (tag x') /\ d x' = None /\
     forall c t, In (c, t) (jumps x') -> R s c t).

(** Every edge leads to a state of the store. *)
Definition WF (st : Store) : Prop :=
  forall s x c t, nth_error st s = Some x -> In (c, t) (jumps x) ->
                  (t < List.length st)%nat.

(** The store after lines 87 to 103, given the store [st] after line 76 and
    the three protocol states. *)
Definition withProtocols (st : Store) (file ftp http : nat) : Store :=
  let secure := List.length st in
  let full := S (List.length st) in
  let st := (st ++ [mkState [] None (Some T_DOMAIN)])
               ++ [mkState [] None (Some T_PROTOCOL)] in
  let st := update st ftp (addJump (chr "s") secure) in
  let st := update st ftp (addJump COLON full) in
  let st := update st http (addJump (chr "s") secure) in
  let st := update st http (addJump COLON full) in
  let st := update st file (addJump COLON full) in
  update st secure (addJump COLON full).

(** The edges lines 91 to 103 append to state [i]; [n] is the secure
    state and [S n] the state that completes a protocol. *)
Definition protocolEdges (n file ftp http : nat) (i : nat) : list (char * nat) :=
  ((((((if Nat.eqb i ftp then [(chr "s", n)] else []) ++
       (if Nat.eqb i ftp then [(COLON, S n)] else [])) ++
      (if Nat.eqb i http then [(chr "s", n)] else [])) ++
     (if Nat.eqb i http then [(COLON, S n)] else [])) ++
    (if Nat.eqb i file then [(COLON, S n)] else [])) ++
   (if Nat.eqb i n then [(COLON, S n)] else [])).

Definition domainEdges : list (char * nat) :=
  (HYPHEN, 3) :: map (fun c => (c, 2)) ALPHANUM.

(** The edges lines 112 to 132 append to state [s]. *)
Definition fallback (domainStates : list nat) (s : nat) : list (char * nat) :=
  (if Nat.eqb s 0 then map (fun c => (c, 1)) NUM else []) ++
  (if Nat.eqb s 1
   then (HYPHEN, 3) :: map (fun c => (c, 1)) NUM ++ map (fun c => (c, 2)) ALPHANUM
   else []) ++
  (if Nat.eqb s 2 then domainEdges else []) ++
  List.concat (map (fun s' => if Nat.eqb s s' then domainEdges else []) domainStates) ++
  (if Nat.eqb s 3
   then (HYPHEN, 3) :: map (fun c => (c, 2)) NUM ++ map (fun c => (c, 2)) ALPHANUM
   else []).

(** The last line of the construction (line 135). *)
Definition withDefault (st : Store) : Store :=
  update (st ++ [mkState [] None (Some TOKENS.SYM)]) 0
         (setDefault (List.length st)).

(** How a successful construction unfolds: the stores after the loop over
    the top-level domains ([st1]), after each of the three protocols
    ([st2], [st3], [st4]), after "localhost" ([st7]) and after the
    fall-back edges ([st8]). *)
Inductive Trace (tlds : list jsstring) (A : Scanner) : Prop :=
| mkTrace (tld : list nat) (st1 : Store)
    (file : list nat) (st2 : Store)
    (ftp : list nat) (st3 : Store)
    (http : list nat) (st4 : Store)
    (sfile sftp shttp : nat)
    (localhost : list nat) (st7 st8 : Store)
    (tr_tlds : tldStates tlds 0 [] st0 = Some (tld, st1))
    (tr_file : stateify (js "file") 0 T_DOMAIN T_DOMAIN st1 = Some (file, st2))
    (tr_ftp : stateify (js "ftp") 0 T_DOMAIN T_DOMAIN st2 = Some (ftp, st3))
    (tr_http : stateify (js "http") 0 T_DOMAIN T_DOMAIN st3 = Some (http, st4))
    (tr_pop_file : pop file = Some sfile)
    (tr_pop_ftp : pop ftp = Some sftp)
    (tr_pop_http : pop http = Some shttp)
    (tr_localhost :
       stateify (js "localhost") 0 T_LOCALHOST T_DOMAIN
         (withProtocols st4 sfile sftp shttp) = Some (localhost, st7))
    (tr_overlay :
       Overlay (fallback (tld ++ file ++ ftp ++ http
                          ++ [List.length st4] ++ localhost)) st7 st8)
    (tr_states : states A = withDefault st8)
    (tr_start : start A = 0%nat).

(** The tags of the states inside a domain label. *)
Definition domTag (st : Store) (s : nat) : Prop :=
  emit st s = Some TOKENS.DOMAIN \/ emit st s = Some TOKENS.TLD \/
  emit st s = Some TOKENS.LOCALHOST.

(** The states a literal can be attached to: the start state and the
    states made for literals. *)
Definition srcOK (st : Store) (s : nat) : Prop :=
  s = 0%nat \/ ((20 <= s)%nat /\ domTag st s).

(** The four kinds of edges there are before the fall-back edges are
    added, when no configured literal contains a symbol or whitespace
    character: the symbol edges of the start state, the whitespace loop,
    the edges spelling the literals (and the [s] of the secure protocols),
    and the colon that completes a protocol. *)
Definition EdgeA (st : Store) (s : nat) (c : char) (t : nat) : Prop :=
  (s = 0%nat /\ symbolTarget c = Some t) \/
  (s = 4%nat /\ In c WHITESPACE /\ t = 4%nat) \/
  (srcOK st s /\ plainChar c /\ (20 <= t)%nat /\ domTag st t) \/
  ((20 <= s)%nat /\ domTag st s /\ c = COLON /\ (20 <= t)%nat /\
   emit st t = Some TOKENS.PROTOCOL).

(** The basic invariant of the construction before the fall-back edges. *)
Record InvA (st : Store) : Prop := mkInvA {
  invA_nodefault : NoDefault st;
  invA_wf : WF st;
  invA_len : (20 <= List.length st)%nat;
  invA_typed : Typed EdgeA st
}.

(** The literals inserted so far form a trie under the start state: a
    walk from the start state to a literal's state spells a prefix of an
    inserted literal, spells one in full when the state is tagged as a
    top-level domain, and is the only walk to that state. *)
Record TrieInv (words : list jsstring) (st : Store) : Prop := mkTrieInv {
  trie_prefix : forall u m, walk st 0 u = Some m -> (20 <= m)%nat ->
                            exists w, In w words /\ isPrefix u w;
  trie_tld : forall u m, walk st 0 u = Some m -> (20 <= m)%nat ->
                         emit st m = Some TOKENS.TLD -> In u words;
  trie_inj : forall u v m, walk st 0 u = Some m -> walk st 0 v = Some m ->
                           (m = 0 \/ 20 <= m)%nat -> u = v
}.

Definition isIn (c : char) (l : list char) : bool := existsb (N.eqb c) l.

(** The fall-back successor of a state inside a domain label. *)
Definition fbEdge (c : char) : option nat :=
  if N.eqb c HYPHEN then Some 3%nat
  else if isIn c ALPHANUM then Some 2%nat else None.

(** The successor the fall-back edges give state [s]; [dom] tells whether
    [s] is one of the states made for the literals. *)
Definition fbNext (dom : bool) (s : nat) (c : char) : option nat :=
  match s with
  | 0%nat => if isIn c NUM then Some 1%nat else None
  | 1%nat => if N.eqb c HYPHEN then Some 3%nat
             else if isIn c NUM then Some 1%nat
             else if isIn c ALPHANUM then Some 2%nat else None
  | 2%nat | 3%nat => fbEdge c
  | _ => if dom then fbEdge c else None
  end.

(** The schemes with their colon. *)
Definition protocolTexts : list jsstring :=
  map js ["file:"; "ftp:"; "http:"; "ftps:"; "https:"]%string.

(** What is known of the store [M] before the fall-back edges when no
    top-level domain contains a symbol or whitespace character. *)
Record PlainFacts (tlds : list jsstring) (M : Store) (full : nat) : Prop :=
  mkPlainFacts {
    pf_inv : InvA M;
    pf_full : emit M full = Some TOKENS.PROTOCOL;
    pf_tld : forall l1 w l2,
        tlds = l1 ++ w :: l2 -> w <> [] ->
        (forall u, In u l1 -> ~ isPrefix w u) ->
        exists m, walk M 0 w = Some m /\ emit M m = Some TOKENS.TLD;
    pf_tld_only : forall u m,
        walk M 0 u = Some m -> emit M m = Some TOKENS.TLD -> In u tlds;
    pf_localhost : forall s c m,
        next M s c = Some m -> emit M m = Some TOKENS.LOCALHOST ->
        In c (js "localhost");
    pf_localhost_new :
        (forall u, In u tlds -> ~ isPrefix (js "localhost") u) ->
        exists m, walk M 0 (js "localhost") = Some m /\
                  emit M m = Some TOKENS.LOCALHOST /\
                  forall c, next M m c = None;
    pf_protocol_texts : forall u m,
        walk M 0 u = Some m -> emit M m = Some TOKENS.PROTOCOL ->
        In u protocolTexts
  }.

(** What is known of a scanner that was built, whatever the list of
    top-level domains: [M] is the store before the fall-back edges are
    added, [full] the state that completes a protocol. *)
Inductive Built (tlds : list jsstring) (A : Scanner) : Prop :=
| mkBuilt (M : Store) (full file ftp http secure : nat)
    (b_start : start A = 0%nat)
    (b_nodefault : NoDefault M)
    (b_wf : WF M)
    (b_ext : Ext (fun _ _ t => (20 <= t)%nat)
                 (fun tg => tg <> None /\ tg <> Some TOKENS.SYM) st0 M)
    (b_full : (20 <= full < List.length M)%nat)
    (b_length : List.length (states A) = S (List.length M))
    (b_next : forall s c, (s < List.length M)%nat ->
        next (states A) s c =
        match next M s c with
        | Some t => Some t
        | None =>
            match fbNext (Nat.leb 20 s && negb (Nat.eqb s full)) s c with
            | Some t => Some t
            | None => if Nat.eqb s 0 then Some (List.length M) else None
            end
        end)
    (b_next_sym : forall c, next (states A) (List.length M) c = None)
    (b_emit : forall s, (s < List.length M)%nat ->
                        emit (states A) s = emit M s)
    (b_emit_sym : emit (states A) (List.length M) = Some TOKENS.SYM)
    (b_walkable : forall w, In w tlds -> exists m, walk M 0 w = Some m)
    (b_file : walk M 0 (js "file") = Some file /\
              emit M file = Some TOKENS.DOMAIN /\
              next M file COLON = Some full)
    (b_ftp : walk M 0 (js "ftp") = Some ftp /\
             emit M ftp = Some TOKENS.DOMAIN /\
             next M ftp (chr "s") = Some secure /\
             next M ftp COLON = Some full)
    (b_http : walk M 0 (js "http") = Some http /\
              emit M http = Some TOKENS.DOMAIN /\
              next M http (chr "s") = Some secure /\
              next M http COLON = Some full)
    (b_secure : emit M secure = Some TOKENS.DOMAIN /\
                next M secure COLON = Some full)
    (b_localhost : exists m, walk M 0 (js "localhost") = Some m)
    (b_keys : forall s x c t,
        nth_error M s = Some x -> In (c, t) (jumps x) ->
        symbolTarget c <> None \/ In c (List.concat tlds) \/
        In c (js "fileftphttplocalhost:s"))
    (b_default : exists x, nth_error (states A) 0 = Some x /\
                           d x = Some (List.length M))
    (b_plain : plainTlds tlds -> PlainFacts tlds M full).

(* ------------------------------------------------------------------ *)
(** ** Rounds of the outer loop, literals, and a sample configuration *)

(** The variables at the end of the inner loop of the round that starts
    with the cursor at [cur] (line 182). *)
Definition round (A : Scanner) (str : jsstring) (cur : Z) : Vars :=
  let len := Z.of_nat (List.length str) in
  inner A (Z.to_nat (len - cur)) (lowerAZ str) len
        (mkVars cur (start A) 0 None (-1)).

(** The number of characters that round gives back (line 187). *)
Definition rollback (A : Scanner) (str : jsstring) (cur : Z) : Z :=
  sinceAccepts (round A str cur).

(** The configured literals and the length of the longest of them. *)
Definition literals (tlds : list jsstring) : list jsstring :=
  tlds ++ map js ["file"; "ftp"; "http"; "ftps"; "https"; "localhost"]%string.

Definition longestLiteral (tlds : list jsstring) : nat :=
  fold_right Nat.max 0%nat (map (@List.length char) (literals tlds)).

(** [w] is a top-level domain of the list that gets its own state: no
    literal before it in the list has it as a prefix. *)
Definition recognised (tlds : list jsstring) (w : jsstring) : Prop :=
  w <> [] /\
  exists l1 l2, tlds = l1 ++ w :: l2 /\ forall u, In u l1 -> ~ isPrefix w u.

(** Some top-level domain starts with [c]. *)
Definition startsTld (tlds : list jsstring) (c : char) : Prop :=
  exists w, In (c :: w) tlds.

(** A small list of top-level domains, in alphabetical order. *)
Definition sampleTlds : list jsstring :=
  map js ["ac"; "biz"; "co"; "com"; "de"; "edu"; "gov"; "io"; "jp"; "net";
          "org"; "ru"; "tv"; "uk"; "vn"]%string.

Definition sampleScanner : Scanner :=
  Eval vm_compute in
    match scanner sampleTlds with
    | Some A => A
    | None => mkScanner [] 0
    end.

(** The scanner built with no top-level domain at all. *)
Definition bareScanner : Scanner :=
  Eval vm_compute in
    match scanner [] with
    | Some A => A
    | None => mkScanner [] 0
    end.

(** A list with an internationalised top-level domain, whose name holds
    hyphens. *)
Definition punycodeTlds : list jsstring := map js ["com"; "xn--p1ai"]%string.

Definition punycodeScanner : Scanner :=
  Eval vm_compute in
    match scanner punycodeTlds with
    | Some A => A
    | None => mkScanner [] 0
    end.

Definition hyphens (n : nat) : jsstring := repeat HYPHEN n.

(** A state inside a domain label: the shared DOMAIN state or a state
    made for a literal, tagged as a domain label, a top-level domain or
    "localhost". *)
Definition domLike (A : Scanner) (s : nat) : Prop :=
  (s = 2%nat \/ (20 <= s)%nat) /\ domTag (states A) s.

(** The characters of a domain label: digits and lower-case letters. *)
Definition alnumWord (w : jsstring) : Prop := Forall (fun c => In c ALPHANUM) w.

(** A character outside the scanner's alphabet: after lower-casing it is
    no symbol or whitespace character, no letter or digit, not the hyphen,
    and it occurs in no top-level domain. *)
Definition outside (tlds : list jsstring) (c : char) : Prop :=
  symbolTarget c = None /\ ~ In c (List.concat tlds) /\
  ~ In c ALPHANUM /\ c <> HYPHEN.

(** The schemes the scanner knows. *)
Definition schemes : list jsstring :=
  map js ["file"; "ftp"; "http"; "ftps"; "https"]%string.

(** The symbols of lines 40 to 59 with the class of the state each leads
    to from the start state. *)
Definition symbolTable : list (char * TokenClass) :=
  [(chr "@", TOKENS.AT); (chr ".", TOKENS.DOT); (chr "+", TOKENS.PLUS);
   (chr "#", TOKENS.POUND); (chr "?", TOKENS.QUERY); (chr "/", TOKENS.SLASH);
   (COLON, TOKENS.COLON); (chr "{", TOKENS.OPENBRACE);
   (chr "[", TOKENS.OPENBRACKET); (chr "(", TOKENS.OPENPAREN);
   (chr "}", TOKENS.CLOSEBRACE); (chr "]", TOKENS.CLOSEBRACKET);
   (chr ")", TOKENS.CLOSEPAREN); (chr ",", TOKENS.PUNCTUATION);
   (chr ";", TOKENS.PUNCTUATION); (chr "!", TOKENS.PUNCTUATION);
   (34%N, TOKENS.PUNCTUATION); (NEWLINE, TOKENS.NL)].

(** A token with its text changed character by character. *)
Definition retext (f : char -> char) (t : Token) : Token :=
  mkToken (tokenClass t) (map f (text t)).

(** The order of the code units, word by word: the alphabetical order. *)
Fixpoint lexleb (u v : jsstring) : bool :=
  match u, v with
  | [], _ => true
  | _ :: _, [] => false
  | a :: u', b :: v' =>
      if (a <? b)%N then true else if (a =? b)%N then lexleb u' v' else false
  end.

Fixpoint alphabetical (tlds : list jsstring) : Prop :=
  match tlds with
  | [] => True
  | w :: rest =>
      Forall (fun v => lexleb w v = true) rest /\ alphabetical rest
  end.

(** A word of digits. *)
Definition digits (w : jsstring) : Prop := Forall (fun c => In c NUM) w.

(** The characters of a label: letters, digits and hyphens. *)
Definition labelChars (w : jsstring) : Prop :=
  Forall (fun c => In c ALPHANUM \/ c = HYPHEN) w.

(** The classes of the tokens made of letters, digits and hyphens. *)
Definition labelClass (tc : TokenClass) : Prop :=
  tc = TOKENS.DOMAIN \/ tc = TOKENS.TLD \/ tc = TOKENS.LOCALHOST \/
  tc = TOKENS.NUM.

(* ------------------------------------------------------------------ *)
(** * The scanning loop, for an arbitrary automaton *)

Lemma length_lowerAZ (s : jsstring) : List.length (lowerAZ s) = List.length s.
Proof. apply length_map. Qed.

Lemma charAt_skipn (l : jsstring) (i : Z) :
  (0 <= i)%Z -> charAt l i = hd_error (skipn (Z.to_nat i) l).
Proof.
  intros Hi. unfold charAt.
  destruct (Z.ltb_spec i 0); [lia|].
  generalize (Z.to_nat i) as n. clear.
  induction l as [|x l IH]; intros [|n]; simpl; auto.
Qed.

Lemma skipn_hd_tl (l : jsstring) (n : nat) (c : char) :
  hd_error (skipn n l) = Some c -> skipn n l = c :: skipn (S n) l.
Proof.
  revert n. induction l as [|x l IH]; intros [|n]; simpl; try discriminate.
  - intros [= ->]. reflexivity.
  - intros H. apply IH in H. exact H.
Qed.

Section RunTheory.

Variable A : Scanner.

Lemma inner_steps (lowerStr : jsstring) (len : Z) :
  len = Z.of_nat (List.length lowerStr) ->
  forall rounds v,
    (0 <= cursor v)%Z ->
    (Z.to_nat (len - cursor v) <= rounds)%nat ->
    inner A rounds lowerStr len v =
    fold_left (innerBody A)
      (steps (states A) (state v) (skipn (Z.to_nat (cursor v)) lowerStr)) v.
Proof.
  intros Hlen. induction rounds as [|rounds IH]; intros v H0 Hr.
  - simpl. rewrite skipn_all2 by lia. reflexivity.
  - simpl. destruct (Z.ltb_spec (cursor v) len) as [Hlt|Hge].
    + rewrite charAt_skipn by assumption.
      destruct (hd_error (skipn (Z.to_nat (cursor v)) lowerStr)) as [c|] eqn:Hc.
      * rewrite (skipn_hd_tl _ _ _ Hc). simpl.
        destruct (next (states A) (state v) c) as [n|]; [|reflexivity].
        rewrite IH; simpl; try lia.
        replace (Z.to_nat (cursor v + 1)) with (S (Z.to_nat (cursor v))) by lia.
        reflexivity.
      * destruct (skipn (Z.to_nat (cursor v)) lowerStr); [reflexivity|discriminate].
    + rewrite skipn_all2 by lia. reflexivity.
Qed.

Lemma fold_innerBody (vis : list nat) :
  forall v,
    let v' := fold_left (innerBody A) vis v in
    cursor v' = (cursor v + Z.of_nat (List.length vis))%Z /\
    tokenLength v' = (tokenLength v + Z.of_nat (List.length vis))%Z /\
    match lastAcc (states A) vis with
    | Some (L, s) =>
        latestAccepting v' = Some s /\
        sinceAccepts v' = (Z.of_nat (List.length vis) - Z.of_nat L)%Z
    | None =>
        latestAccepting v' = latestAccepting v /\
        sinceAccepts v' =
          (if (sinceAccepts v >=? 0)%Z
           then sinceAccepts v + Z.of_nat (List.length vis)
           else sinceAccepts v)%Z
    end.
Proof.
  induction vis as [|s r IH]; intros v; cbv zeta.
  - simpl. repeat split; try lia. destruct (sinceAccepts v >=? 0)%Z; lia.
  - cbn [fold_left lastAcc List.length].
    specialize (IH (innerBody A v s)). cbv zeta in IH.
    destruct IH as (Hc & Ht & Hl).
    rewrite Hc, Ht. cbn [innerBody cursor tokenLength].
    split; [lia|]. split; [lia|].
    destruct (lastAcc (states A) r) as [[L s']|].
    + destruct Hl as [-> ->]. split; [reflexivity|lia].
    + destruct Hl as [Hl1 Hl2]. rewrite Hl1, Hl2. unfold innerBody.
      cbn [sinceAccepts latestAccepting].
      destruct (accepts (states A) s).
      * change (0 >=? 0)%Z with true. cbv iota. split; [reflexivity|lia].
      * destruct (Z.geb_spec (sinceAccepts v) 0).
        -- destruct (Z.geb_spec (sinceAccepts v + 1) 0); split; auto; lia.
        -- destruct (Z.geb_spec (sinceAccepts v) 0); split; auto; lia.
Qed.

Lemma lastAcc_bounds (vis : list nat) (L s : nat) :
  lastAcc (states A) vis = Some (L, s) ->
  (1 <= L <= List.length vis)%nat /\
  nth_error vis (L - 1) = Some s /\
  accepts (states A) s = true /\
  (forall k s', (L <= k)%nat -> nth_error vis k = Some s' ->
                accepts (states A) s' = false).
Proof.
  revert L s. induction vis as [|x r IH]; intros L s; simpl; [discriminate|].
  destruct (lastAcc (states A) r) as [[L' s'']|] eqn:E.
  - intros [= <- <-]. destruct (IH _ _ eq_refl) as (Hb & Hn & Ha & Hk).
    split; [lia|]. split.
    + replace (S L' - 1)%nat with (S (L' - 1)) by lia. exact Hn.
    + split; [exact Ha|]. intros [|k] s' Hle; [lia|]. simpl. apply Hk. lia.
  - destruct (accepts (states A) x) eqn:Ex; [|discriminate].
    intros [= <- <-]. simpl. split; [lia|]. split; [reflexivity|].
    split; [exact Ex|]. intros [|k] s' Hle; [lia|]. simpl.
    clear - E. revert k. induction r as [|y r IH]; intros [|k]; simpl;
      try discriminate; simpl in E; destruct (lastAcc (states A) r) as [[? ?]|];
      try discriminate; destruct (accepts (states A) y) eqn:Ey;
      try discriminate.
    + intros [= <-]. exact Ey.
    + apply IH. reflexivity.
Qed.

Lemma lastAcc_none (vis : list nat) :
  lastAcc (states A) vis = None ->
  forall s, In s vis -> accepts (states A) s = false.
Proof.
  induction vis as [|x r IH]; simpl; [tauto|].
  destruct (lastAcc (states A) r) as [[? ?]|]; [discriminate|].
  destruct (accepts (states A) x) eqn:Ex; [discriminate|].
  intros _ s [<-|Hs]; auto.
Qed.

Lemma substr_firstn_skipn (s : jsstring) (start : Z) (L : nat) :
  (0 <= start)%Z ->
  substr s start (Z.of_nat L) = firstn L (skipn (Z.to_nat start) s).
Proof.
  intros H. unfold substr. destruct (Z.ltb_spec start 0); [lia|].
  rewrite Nat2Z.id. reflexivity.
Qed.

(** One round of the outer loop, read off the remaining text. *)
Lemma round_spec (lowerStr : jsstring) (len cur : Z) :
  len = Z.of_nat (List.length lowerStr) ->
  (0 <= cur)%Z ->
  let v := inner A (Z.to_nat (len - cur)) lowerStr len
             (mkVars cur (start A) 0 None (-1)) in
  let vis := steps (states A) (start A) (skipn (Z.to_nat cur) lowerStr) in
  match lastAcc (states A) vis with
  | Some (L, s) =>
      (0 <= sinceAccepts v)%Z /\
      sinceAccepts v = (Z.of_nat (List.length vis) - Z.of_nat L)%Z /\
      latestAccepting v = Some s /\
      (cursor v - sinceAccepts v = cur + Z.of_nat L)%Z /\
      (tokenLength v - sinceAccepts v = Z.of_nat L)%Z
  | None =>
      sinceAccepts v = (-1)%Z /\
      cursor v = (cur + Z.of_nat (List.length vis))%Z
  end.
Proof.
  intros Hlen Hcur v vis. subst v.
  rewrite (inner_steps lowerStr len Hlen) by (simpl; lia).
  cbn [state cursor]. fold vis.
  pose proof (fold_innerBody vis (mkVars cur (start A) 0 None (-1))) as H.
  cbv zeta in H. destruct H as (Hc & Ht & Hl).
  cbn [cursor tokenLength latestAccepting sinceAccepts] in *.
  destruct (lastAcc (states A) vis) as [[L s]|] eqn:E.
  - destruct Hl as [Hl1 Hl2]. destruct (lastAcc_bounds _ _ _ E) as (Hb & _).
    repeat split; try assumption; lia.
  - destruct Hl as [Hl1 Hl2]. split; [exact Hl2|exact Hc].
Qed.

Lemma skipn_nonempty (l : jsstring) (cur len : Z) :
  len = Z.of_nat (List.length l) -> (0 <= cur < len)%Z ->
  skipn (Z.to_nat cur) l <> [].
Proof.
  intros Hlen Hc E.
  assert (H : List.length (skipn (Z.to_nat cur) l) = O) by (rewrite E; reflexivity).
  rewrite length_skipn in H. lia.
Qed.

Section Outer.

Variables (str lowerStr : jsstring) (len : Z).
Hypothesis Hlen : len = Z.of_nat (List.length lowerStr).
Hypothesis Hstr : List.length str = List.length lowerStr.

Lemma outer_sound :
  forall fuel cur tokens result,
    (0 <= cur)%Z ->
    outer A fuel str lowerStr len cur tokens = Returns result ->
    exists more,
      result = tokens ++ more /\
      Tokenizes A (skipn (Z.to_nat cur) str)
                  (skipn (Z.to_nat cur) lowerStr) more.
Proof.
  induction fuel as [|fuel IH]; intros cur tokens result Hcur;
    cbn [outer]; destruct (Z.ltb_spec cur len) as [Hlt|Hge];
    try discriminate;
    try (intros [= <-]; exists []; rewrite app_nil_r; split; auto;
         rewrite (skipn_all2 lowerStr) by lia; constructor).
  pose proof (round_spec lowerStr len cur Hlen Hcur) as R. cbv zeta in R.
  set (v := inner A (Z.to_nat (len - cur)) lowerStr len
              (mkVars cur (start A) 0 None (-1))) in *.
  set (vis := steps (states A) (start A) (skipn (Z.to_nat cur) lowerStr)) in *.
  assert (Hne : skipn (Z.to_nat cur) lowerStr <> [])
    by (apply skipn_nonempty with (len := len); auto; lia).
  destruct (lastAcc (states A) vis) as [[L s]|] eqn:E.
  - destruct R as (R0 & _ & R1 & R2 & R3).
    destruct (Z.ltb_spec (sinceAccepts v) 0); [lia|].
    rewrite R1, R2, R3.
    destruct (emit (states A) s) as [TOKEN|] eqn:Em; [|discriminate].
    intros Hr. apply IH in Hr; [|lia]. destruct Hr as (more & -> & Hm).
    exists (mkToken TOKEN (substr str (cur + Z.of_nat L - Z.of_nat L) (Z.of_nat L)) :: more).
    split; [rewrite <- app_assoc; reflexivity|].
    replace (cur + Z.of_nat L - Z.of_nat L)%Z with cur by lia.
    rewrite substr_firstn_skipn by assumption.
    apply Tok_emit with (s := s); auto.
    rewrite !skipn_skipn.
    replace (L + Z.to_nat cur)%nat with (Z.to_nat (cur + Z.of_nat L)) by lia.
    exact Hm.
  - destruct R as (R0 & R1).
    destruct (Z.ltb_spec (sinceAccepts v) 0); [|lia].
    intros Hr. apply IH in Hr; [|lia]. destruct Hr as (more & -> & Hm).
    exists more. split; [reflexivity|].
    apply Tok_skip; auto. cbv zeta. fold vis.
    rewrite !skipn_skipn.
    replace (List.length vis + Z.to_nat cur)%nat
      with (Z.to_nat (cursor v)) by lia.
    exact Hm.
Qed.

Lemma outer_never_throws :
  forall fuel cur tokens,
    (0 <= cur)%Z ->
    outer A fuel str lowerStr len cur tokens <> Throws.
Proof.
  induction fuel as [|fuel IH]; intros cur tokens Hcur;
    cbn [outer]; destruct (Z.ltb_spec cur len) as [Hlt|Hge];
    try discriminate.
  pose proof (round_spec lowerStr len cur Hlen Hcur) as R. cbv zeta in R.
  set (v := inner A (Z.to_nat (len - cur)) lowerStr len
              (mkVars cur (start A) 0 None (-1))) in *.
  set (vis := steps (states A) (start A) (skipn (Z.to_nat cur) lowerStr)) in *.
  destruct (lastAcc (states A) vis) as [[L s]|] eqn:E.
  - destruct R as (R0 & _ & R1 & R2 & R3).
    destruct (Z.ltb_spec (sinceAccepts v) 0); [lia|].
    rewrite R1, R2.
    destruct (lastAcc_bounds _ _ _ E) as (_ & _ & Hacc & _).
    unfold accepts in Hacc.
    destruct (emit (states A) s) as [TOKEN|]; [|discriminate].
    apply IH. lia.
  - destruct R as (R0 & R1).
    destruct (Z.ltb_spec (sinceAccepts v) 0); [|lia].
    apply IH. lia.
Qed.

Lemma outer_fuel_mono :
  forall fuel cur tokens result,
    outer A fuel str lowerStr len cur tokens = Returns result ->
    forall fuel', (fuel <= fuel')%nat ->
      outer A fuel' str lowerStr len cur tokens = Returns result.
Proof.
  induction fuel as [|fuel IH]; intros cur tokens result H fuel' Hle.
  - cbn [outer] in H. destruct (Z.ltb_spec cur len); [discriminate|].
    destruct fuel'; cbn [outer]; destruct (Z.ltb_spec cur len); auto; lia.
  - destruct fuel' as [|fuel']; [lia|].
    cbn [outer] in *. destruct (cur <? len)%Z; [|exact H].
    destruct (sinceAccepts _ <? 0)%Z.
    + apply IH; [exact H|lia].
    + destruct (latestAccepting _) as [s|]; [|discriminate].
      destruct (emit (states A) s); [|discriminate].
      apply IH; [exact H|lia].
Qed.

Hypothesis progress : Progress A.

Lemma progress_lastAcc (rest : jsstring) :
  rest <> [] ->
  exists L s, lastAcc (states A) (steps (states A) (start A) rest) = Some (L, s).
Proof.
  destruct rest as [|c r]; [congruence|]. intros _.
  destruct (progress c) as (n & Hn & Ha). simpl. rewrite Hn. simpl.
  destruct (lastAcc (states A) (steps (states A) n r)) as [[L s]|]; eauto.
  rewrite Ha. eauto.
Qed.

Lemma outer_terminates :
  forall fuel cur tokens,
    (0 <= cur)%Z ->
    (Z.to_nat (len - cur) <= fuel)%nat ->
    exists result, outer A fuel str lowerStr len cur tokens = Returns result.
Proof.
  induction fuel as [|fuel IH]; intros cur tokens Hcur Hf;
    cbn [outer]; destruct (Z.ltb_spec cur len) as [Hlt|Hge];
    eauto; try lia.
  pose proof (round_spec lowerStr len cur Hlen Hcur) as R. cbv zeta in R.
  set (v := inner A (Z.to_nat (len - cur)) lowerStr len
              (mkVars cur (start A) 0 None (-1))) in *.
  set (vis := steps (states A) (start A) (skipn (Z.to_nat cur) lowerStr)) in *.
  assert (Hne : skipn (Z.to_nat cur) lowerStr <> [])
    by (apply skipn_nonempty with (len := len); auto; lia).
  destruct (progress_lastAcc _ Hne) as (L & s & E). fold vis in E.
  rewrite E in R. destruct R as (R0 & _ & R1 & R2 & R3).
  destruct (Z.ltb_spec (sinceAccepts v) 0); [lia|].
  rewrite R1, R2.
  destruct (lastAcc_bounds _ _ _ E) as (Hb & _ & Hacc & _).
  unfold accepts in Hacc.
  destruct (emit (states A) s) as [TOKEN|]; [|discriminate].
  apply IH; lia.
Qed.

End Outer.

End RunTheory.

(* ------------------------------------------------------------------ *)
(** * What a returning scan looks like *)

Section WalkFacts.

Variable st : Store.

Lemma steps_length (s : nat) (rest : jsstring) :
  (List.length (steps st s rest) <= List.length rest)%nat.
Proof.
  revert s. induction rest as [|c r IH]; intros s; simpl; [lia|].
  destruct (next st s c); simpl; [specialize (IH n)|]; lia.
Qed.

Lemma steps_walk (rest : jsstring) :
  forall s k s',
    nth_error (steps st s rest) k = Some s' ->
    walk st s (firstn (S k) rest) = Some s'.
Proof.
  induction rest as [|c r IH]; intros s k s'; simpl.
  - destruct k; discriminate.
  - destruct (next st s c) as [n|]; [|destruct k; discriminate].
    destruct k as [|k]; simpl.
    + intros [= <-]. destruct r; reflexivity.
    + intros H. apply IH in H. exact H.
Qed.

Lemma walk_steps (rest : jsstring) :
  forall s k s',
    (S k <= List.length rest)%nat ->
    walk st s (firstn (S k) rest) = Some s' ->
    nth_error (steps st s rest) k = Some s'.
Proof.
  induction rest as [|c r IH]; intros s k s' Hk; simpl in *; [lia|].
  destruct (next st s c) as [n|]; [|discriminate].
  destruct k as [|k]; simpl.
  + destruct r; simpl; congruence.
  + intros H. apply IH; [lia|exact H].
Qed.

Lemma walk_app (u v : jsstring) :
  forall s, walk st s (u ++ v) =
            match walk st s u with
            | Some m => walk st m v
            | None => None
            end.
Proof.
  induction u as [|c u IH]; intros s; simpl; [reflexivity|].
  destruct (next st s c); auto.
Qed.

Lemma steps_all (s : nat) (w : jsstring) (m : nat) :
  walk st s w = Some m ->
  forall r, steps st s (w ++ r) = steps st s w ++ steps st m r.
Proof.
  revert s. induction w as [|c w IH]; intros s; simpl.
  - intros [= <-] r. reflexivity.
  - destruct (next st s c) as [n|]; [|discriminate].
    intros H r. rewrite (IH _ H). reflexivity.
Qed.

Lemma steps_complete (s : nat) (w : jsstring) (m : nat) :
  walk st s w = Some m -> List.length (steps st s w) = List.length w.
Proof.
  revert s. induction w as [|c w IH]; intros s; simpl; [reflexivity|].
  destruct (next st s c) as [n|]; [|discriminate].
  intros H. simpl. rewrite (IH _ H). reflexivity.
Qed.

Lemma steps_last (s : nat) (w : jsstring) (m : nat) :
  walk st s w = Some m -> w <> [] ->
  exists pre, steps st s w = pre ++ [m].
Proof.
  revert s. induction w as [|c w IH]; intros s; simpl; [congruence|].
  destruct (next st s c) as [n|]; [|discriminate].
  intros H _. destruct w as [|c' w].
  - simpl in H. injection H as <-. exists []. reflexivity.
  - destruct (IH _ H) as (pre & E); [discriminate|].
    exists (n :: pre). rewrite E. reflexivity.
Qed.

Lemma lastAcc_app_acc (pre : list nat) (m : nat) :
  accepts st m = true ->
  lastAcc st (pre ++ [m]) = Some (S (List.length pre), m).
Proof.
  intros Hm. induction pre as [|x pre IH]; simpl.
  - rewrite Hm. reflexivity.
  - rewrite IH. reflexivity.
Qed.

End WalkFacts.

Section TokenFacts.

Variable A : Scanner.

Lemma Tokenizes_det (str lowerStr : jsstring) (t1 : list Token) :
  Tokenizes A str lowerStr t1 ->
  forall t2, Tokenizes A str lowerStr t2 -> t1 = t2.
Proof.
  induction 1 as [str|str lowerStr L s TOKEN tokens Hne HL He HT IH
                 |str lowerStr tokens Hne HL k HT IH];
    intros t2 H2; inversion H2; subst; try congruence.
  - rewrite HL in H0. injection H0 as <- <-.
    rewrite He in H1. injection H1 as <-.
    f_equal. apply IH. assumption.
  - apply IH. assumption.
Qed.

(** Tokens are never empty. *)
Lemma Tokenizes_nonempty (str lowerStr : jsstring) (tokens : list Token) :
  Tokenizes A str lowerStr tokens ->
  List.length str = List.length lowerStr ->
  Forall (fun t => text t <> []) tokens.
Proof.
  induction 1 as [str|str lowerStr L s TOKEN tokens Hne HL He HT IH
                 |str lowerStr tokens Hne HL k HT IH]; intros Hlen.
  - constructor.
  - constructor.
    + simpl. destruct (lastAcc_bounds _ _ _ _ HL) as (Hb & _).
      destruct str as [|c str]; [destruct lowerStr; [congruence|discriminate]|].
      destruct L; [lia|]. discriminate.
    + apply IH. rewrite !length_skipn. lia.
  - apply IH. rewrite !length_skipn. lia.
Qed.

(** With [Progress], the tokens tile the string. *)
Lemma Tokenizes_tiles (str lowerStr : jsstring) (tokens : list Token) :
  Progress A ->
  Tokenizes A str lowerStr tokens ->
  List.length str = List.length lowerStr ->
  List.concat (map text tokens) = str.
Proof.
  intros P.
  induction 1 as [str|str lowerStr L s TOKEN tokens Hne HL He HT IH
                 |str lowerStr tokens Hne HL k HT IH]; intros Hlen.
  - destruct str; [reflexivity|discriminate].
  - simpl. rewrite IH by (rewrite !length_skipn; lia).
    apply firstn_skipn.
  - exfalso. destruct lowerStr as [|c r]; [congruence|].
    destruct (P c) as (n & Hn & Ha). simpl in HL. rewrite Hn in HL.
    simpl in HL. destruct (lastAcc (states A) (steps (states A) n r)) as [[? ?]|];
      [discriminate|]. rewrite Ha in HL. discriminate.
Qed.

End TokenFacts.

Section RunFacts.

Variable A : Scanner.

Lemma runFuel_sound (fuel : nat) (str : jsstring) (tokens : list Token) :
  runFuel A fuel str = Returns tokens ->
  Tokenizes A str (lowerAZ str) tokens.
Proof.
  unfold runFuel. intros H.
  apply outer_sound in H;
    rewrite ?length_lowerAZ; try reflexivity; try lia.
  destruct H as (more & -> & H). exact H.
Qed.

Lemma runFuel_never_throws (fuel : nat) (str : jsstring) :
  runFuel A fuel str <> Throws.
Proof.
  unfold runFuel.
  apply outer_never_throws; rewrite ?length_lowerAZ; try reflexivity; lia.
Qed.

Lemma runFuel_mono (fuel fuel' : nat) (str : jsstring) (tokens : list Token) :
  runFuel A fuel str = Returns tokens -> (fuel <= fuel')%nat ->
  runFuel A fuel' str = Returns tokens.
Proof.
  unfold runFuel. intros H Hle.
  eapply outer_fuel_mono; rewrite ?length_lowerAZ; eauto.
Qed.

(** With [Progress], one round per character suffices. *)
Lemma runFuel_enough (fuel : nat) (str : jsstring) :
  Progress A -> (List.length str <= fuel)%nat ->
  exists tokens, runFuel A fuel str = Returns tokens.
Proof.
  intros P Hf. unfold runFuel.
  apply outer_terminates; rewrite ?length_lowerAZ; auto; lia.
Qed.

Lemma run_Tokenizes (str : jsstring) (tokens : list Token) :
  Progress A ->
  Tokenizes A str (lowerAZ str) tokens ->
  run A str = Returns tokens.
Proof.
  intros P HT. destruct (runFuel_enough (List.length str) str P (le_n _))
    as (tokens' & H).
  unfold run. rewrite H. f_equal.
  eapply Tokenizes_det; [|exact HT]. eapply runFuel_sound; eauto.
Qed.

End RunFacts.

(* ------------------------------------------------------------------ *)
(** * The store *)

Lemma length_update (st : Store) (s : nat) f :
  List.length (update st s f) = List.length st.
Proof.
  revert s. induction st as [|x st IH]; intros [|s]; simpl; auto.
Qed.

Lemma nth_error_update (st : Store) (s : nat) f (i : nat) :
  nth_error (update st s f) i =
  if Nat.eqb i s then option_map f (nth_error st i) else nth_error st i.
Proof.
  revert s i. induction st as [|x st IH]; intros [|s] [|i]; simpl; auto.
  all: try (destruct (Nat.eqb i s); reflexivity).
Qed.

Lemma nth_error_update_eq (st : Store) (s : nat) f x :
  nth_error st s = Some x -> nth_error (update st s f) s = Some (f x).
Proof.
  intros H. rewrite nth_error_update, Nat.eqb_refl, H. reflexivity.
Qed.

Lemma nth_error_update_neq (st : Store) (s i : nat) f :
  i <> s -> nth_error (update st s f) i = nth_error st i.
Proof.
  intros H. rewrite nth_error_update.
  destruct (Nat.eqb_spec i s); [contradiction|reflexivity].
Qed.

Lemma nth_error_snoc (st : Store) (y : CharacterState) (i : nat) :
  nth_error (st ++ [y]) i =
  if Nat.ltb i (List.length st) then nth_error st i
  else if Nat.eqb i (List.length st) then Some y else None.
Proof.
  destruct (Nat.ltb_spec i (List.length st)).
  - apply nth_error_app1. assumption.
  - rewrite nth_error_app2 by assumption.
    destruct (Nat.eqb_spec i (List.length st)) as [->|Hne].
    + rewrite Nat.sub_diag. reflexivity.
    + destruct (i - List.length st)%nat as [|k] eqn:E; [lia|].
      simpl. destruct k; reflexivity.
Qed.

Lemma nth_error_lt (st : Store) (s : nat) x :
  nth_error st s = Some x -> (s < List.length st)%nat.
Proof. intros H. apply nth_error_Some. congruence. Qed.

Lemma nth_error_ex (st : Store) (s : nat) :
  (s < List.length st)%nat -> exists x, nth_error st s = Some x.
Proof.
  intros H. destruct (nth_error st s) eqn:E; eauto.
  apply nth_error_None in E. lia.
Qed.

(** ** The primitive operations, as equations *)

Lemma makeState_eq tg st n st' :
  makeState tg st = Some (n, st') ->
  n = List.length st /\ st' = st ++ [mkState [] None tg].
Proof. unfold makeState. intros [= <- <-]. auto. Qed.

Lemma on_eq s c t st u st' :
  on s c t st = Some (u, st') ->
  (s < List.length st)%nat /\ st' = update st s (addJump c t).
Proof.
  unfold on. destruct (nth_error st s) eqn:E; [|discriminate].
  intros [= <- <-]. split; [eapply nth_error_lt; eauto|reflexivity].
Qed.

Lemma bind_eq {X Y} (m : M X) (k : X -> M Y) st y st' :
  bind m k st = Some (y, st') ->
  exists x st1, m st = Some (x, st1) /\ k x st1 = Some (y, st').
Proof.
  unfold bind. destruct (m st) as [[x st1]|]; [|discriminate].
  intros H. eauto.
Qed.

Lemma ret_eq {X} (x : X) st y st' :
  ret x st = Some (y, st') -> y = x /\ st' = st.
Proof. unfold ret. intros [= <- <-]. auto. Qed.

(** ** [lookupJump] and [next] *)

Lemma lookupJump_In c l t : lookupJump c l = Some t -> In (c, t) l.
Proof.
  unfold lookupJump.
  destruct (find (fun e => N.eqb (fst e) c) l) as [[c' t']|] eqn:E; [|discriminate].
  intros [= <-]. apply find_some in E. destruct E as [Hin Heq].
  simpl in Heq. apply N.eqb_eq in Heq. subst c'. exact Hin.
Qed.

Lemma lookupJump_app c l l' :
  lookupJump c (l ++ l') =
  match lookupJump c l with
  | Some t => Some t
  | None => lookupJump c l'
  end.
Proof.
  unfold lookupJump. induction l as [|[c' t'] l IH]; simpl; [reflexivity|].
  destruct (N.eqb c' c); [reflexivity|exact IH].
Qed.

Lemma lookupJump_None c l :
  lookupJump c l = None -> forall t, ~ In (c, t) l.
Proof.
  unfold lookupJump.
  destruct (find (fun e => N.eqb (fst e) c) l) eqn:E; [discriminate|].
  intros _ t Hin. eapply find_none in E; eauto. simpl in E.
  rewrite N.eqb_refl in E. discriminate.
Qed.

Lemma lookupJump_map_in c cs t :
  In c cs -> lookupJump c (map (fun c' => (c', t)) cs) = Some t.
Proof.
  unfold lookupJump. induction cs as [|c' cs IH]; simpl; [tauto|].
  intros [->|Hin].
  - rewrite N.eqb_refl. reflexivity.
  - destruct (N.eqb c' c); [reflexivity|auto].
Qed.

Lemma lookupJump_map_out c cs t :
  ~ In c cs -> lookupJump c (map (fun c' => (c', t)) cs) = None.
Proof.
  unfold lookupJump. induction cs as [|c' cs IH]; simpl; [reflexivity|].
  intros Hn. destruct (N.eqb_spec c' c); [tauto|]. apply IH. tauto.
Qed.

Lemma next_edge st s c t x :
  NoDefault st -> nth_error st s = Some x -> next st s c = Some t ->
  In (c, t) (jumps x).
Proof.
  intros Hd Hx. unfold next. rewrite Hx.
  destruct (lookupJump c (jumps x)) eqn:E.
  - intros [= <-]. apply lookupJump_In. exact E.
  - rewrite (Hd _ _ Hx). discriminate.
Qed.

Lemma next_lt st s c t : next st s c = Some t -> (s < List.length st)%nat.
Proof.
  unfold next. destruct (nth_error st s) eqn:E; [|discriminate].
  intros _. eapply nth_error_lt; eauto.
Qed.

(** An edge found by lookup stays the one found when edges are appended. *)
Lemma next_Grows st st' s c t :
  NoDefault st -> Grows st st' -> next st s c = Some t -> next st' s c = Some t.
Proof.
  intros Hd Hg. unfold next.
  destruct (nth_error st s) as [x|] eqn:Hx; [|discriminate].
  destruct (Hg _ _ Hx) as (x' & Hx' & _ & _ & more & Hj).
  rewrite Hx', Hj, lookupJump_app.
  destruct (lookupJump c (jumps x)); [auto|].
  rewrite (Hd _ _ Hx). discriminate.
Qed.

Lemma walk_Grows st st' w :
  NoDefault st -> Grows st st' ->
  forall s m, walk st s w = Some m -> walk st' s w = Some m.
Proof.
  intros Hd Hg. induction w as [|c w IH]; intros s m; simpl; [auto|].
  destruct (next st s c) as [n|] eqn:E; [|discriminate].
  rewrite (next_Grows _ _ _ _ _ Hd Hg E). apply IH.
Qed.

Lemma Grows_refl st : Grows st st.
Proof. intros s x H. exists x. repeat split; auto. exists []. symmetry. apply app_nil_r. Qed.

Lemma Grows_trans st1 st2 st3 : Grows st1 st2 -> Grows st2 st3 -> Grows st1 st3.
Proof.
  intros H1 H2 s x Hx.
  destruct (H1 _ _ Hx) as (x' & Hx' & Ht & Hd & more & Hj).
  destruct (H2 _ _ Hx') as (x'' & Hx'' & Ht' & Hd' & more' & Hj').
  exists x''. repeat split; try congruence.
  exists (more ++ more'). rewrite Hj', Hj, app_assoc. reflexivity.
Qed.

Lemma Grows_snoc st y : Grows st (st ++ [y]).
Proof.
  intros s x Hx. exists x. rewrite nth_error_app1 by (eapply nth_error_lt; eauto).
  repeat split; auto. exists []. symmetry. apply app_nil_r.
Qed.

Lemma Grows_addJump st s c t : Grows st (update st s (addJump c t)).
Proof.
  intros i x Hx. rewrite nth_error_update, Hx.
  destruct (Nat.eqb i s); simpl.
  - eexists. split; [reflexivity|]. repeat split. eexists. reflexivity.
  - exists x. repeat split; auto. exists []. symmetry. apply app_nil_r.
Qed.

Lemma Grows_length st st' : Grows st st' -> (List.length st <= List.length st')%nat.
Proof.
  intros H. destruct st as [|x0 st] ; [simpl; lia|].
  destruct (nth_error_ex (x0 :: st) (List.length st)) as (x & Hx); [simpl; lia|].
  destruct (H _ _ Hx) as (x' & Hx' & _). apply nth_error_lt in Hx'. simpl. lia.
Qed.

Lemma Grows_emit st st' s tc : Grows st st' -> emit st s = Some tc -> emit st' s = Some tc.
Proof.
  unfold emit. intros H. destruct (nth_error st s) as [x|] eqn:Hx; [|discriminate].
  destruct (H _ _ Hx) as (x' & -> & Ht & _). congruence.
Qed.

Lemma NoDefault_snoc st tg : NoDefault st -> NoDefault (st ++ [mkState [] None tg]).
Proof.
  intros H s x. rewrite nth_error_snoc.
  destruct (Nat.ltb s (List.length st)); [apply H|].
  destruct (Nat.eqb s (List.length st)); [|discriminate].
  intros [= <-]. reflexivity.
Qed.

Lemma NoDefault_addJump st s c t : NoDefault st -> NoDefault (update st s (addJump c t)).
Proof.
  intros H i x. rewrite nth_error_update.
  destruct (Nat.eqb i s); [|apply H].
  destruct (nth_error st i) as [y|] eqn:E; [|discriminate].
  simpl. intros [= <-]. simpl. eapply H; eauto.
Qed.

(* ------------------------------------------------------------------ *)
(** * Growth of the store during construction *)

Lemma Ext_Grows R Tg st st' : Ext R Tg st st' -> Grows st st'.
Proof.
  intros [H _] s x Hx. destruct (H _ _ Hx) as (x' & ? & ? & ? & more & ? & _).
  exists x'. repeat split; eauto.
Qed.

Lemma Ext_length R Tg st st' : Ext R Tg st st' -> (List.length st <= List.length st')%nat.
Proof. intros H. eapply Grows_length, Ext_Grows; eauto. Qed.

Lemma Ext_refl R Tg st : Ext R Tg st st.
Proof.
  split.
  - intros s x Hx. exists x. repeat split; auto.
    exists []. split; [symmetry; apply app_nil_r|intros ? ? []].
  - intros s x Hx Hle. apply nth_error_lt in Hx. lia.
Qed.

Lemma Ext_weaken (R R' : nat -> char -> nat -> Prop) (Tg Tg' : option TokenClass -> Prop) st st' :
  (forall s c t, R s c t -> R' s c t) -> (forall tg, Tg tg -> Tg' tg) ->
  Ext R Tg st st' -> Ext R' Tg' st st'.
Proof.
  intros HR HT [H1 H2]. split.
  - intros s x Hx. destruct (H1 _ _ Hx) as (x' & ? & ? & ? & more & ? & Hm).
    exists x'. repeat split; auto. exists more. split; auto.
  - intros s x' Hx' Hle. destruct (H2 _ _ Hx' Hle) as (? & ? & Hm).
    repeat split; auto.
Qed.

Lemma Ext_trans R Tg st1 st2 st3 :
  Ext R Tg st1 st2 -> Ext R Tg st2 st3 -> Ext R Tg st1 st3.
Proof.
  intros E1 E2. pose proof (Ext_length _ _ _ _ E1) as L1.
  destruct E1 as [A1 B1], E2 as [A2 B2]. split.
  - intros s x Hx.
    destruct (A1 _ _ Hx) as (x' & Hx' & Ht & Hd & more & Hj & Hm).
    destruct (A2 _ _ Hx') as (x'' & Hx'' & Ht' & Hd' & more' & Hj' & Hm').
    exists x''. repeat split; try congruence.
    exists (more ++ more'). split; [rewrite Hj', Hj, app_assoc; reflexivity|].
    intros c t Hin. apply in_app_or in Hin. destruct Hin; auto.
  - intros s x'' Hx'' Hle.
    destruct (Nat.lt_ge_cases s (List.length st2)) as [Hlt|Hge].
    + destruct (nth_error_ex _ _ Hlt) as (x' & Hx').
      destruct (B1 _ _ Hx' Hle) as (HT & Hd & Hm).
      destruct (A2 _ _ Hx') as (y & Hy & Ht' & Hd' & more' & Hj' & Hm').
      rewrite Hx'' in Hy. injection Hy as <-.
      repeat split; try congruence.
      intros c t Hin. rewrite Hj' in Hin. apply in_app_or in Hin.
      destruct Hin; auto.
    + apply B2; auto.
Qed.

Lemma Ext_snoc (R : nat -> char -> nat -> Prop) (Tg : option TokenClass -> Prop) st tg :
  Tg tg -> Ext R Tg st (st ++ [mkState [] None tg]).
Proof.
  intros HT. split.
  - intros s x Hx. exists x.
    rewrite nth_error_app1 by (eapply nth_error_lt; eauto).
    repeat split; auto. exists []. split; [symmetry; apply app_nil_r|intros ? ? []].
  - intros s x'. rewrite nth_error_snoc.
    destruct (Nat.ltb_spec s (List.length st)); [lia|].
    destruct (Nat.eqb s (List.length st)); [|discriminate].
    intros [= <-] _. simpl. repeat split; auto. intros ? ? [].
Qed.

Lemma Ext_addJump (R : nat -> char -> nat -> Prop) (Tg : option TokenClass -> Prop) st s c t :
  R s c t -> Ext R Tg st (update st s (addJump c t)).
Proof.
  intros HR. split.
  - intros i x Hx. rewrite nth_error_update, Hx.
    destruct (Nat.eqb_spec i s) as [->|Hne]; simpl.
    + eexists. split; [reflexivity|]. repeat split.
      exists [(c, t)]. split; [reflexivity|].
      intros c' t' [[= <- <-]|[]]. exact HR.
    + exists x. repeat split; auto.
      exists []. split; [symmetry; apply app_nil_r|intros ? ? []].
  - intros i x' Hx' Hle. apply nth_error_lt in Hx'.
    rewrite length_update in Hx'. lia.
Qed.

Lemma Ext_NoDefault R Tg st st' : Ext R Tg st st' -> NoDefault st -> NoDefault st'.
Proof.
  intros [A B] Hd s x' Hx'.
  destruct (Nat.lt_ge_cases s (List.length st)) as [Hlt|Hge].
  - destruct (nth_error_ex _ _ Hlt) as (x & Hx).
    destruct (A _ _ Hx) as (y & Hy & _ & Hdy & _).
    rewrite Hx' in Hy. injection Hy as <-. rewrite Hdy. eapply Hd; eauto.
  - destruct (B _ _ Hx' Hge) as (_ & ? & _). assumption.
Qed.

Lemma next_addJump_new st s c n x y :
  nth_error st s = Some x -> next st s c = None ->
  next (update (st ++ [y]) s (addJump c n)) s c = Some n.
Proof.
  intros Hx Hn. unfold next in *. rewrite Hx in Hn.
  rewrite nth_error_update, Nat.eqb_refl.
  rewrite nth_error_app1 by (eapply nth_error_lt; eauto).
  rewrite Hx. simpl. rewrite lookupJump_app.
  destruct (lookupJump c (jumps x)); [discriminate|].
  unfold lookupJump. simpl. rewrite N.eqb_refl. reflexivity.
Qed.

Lemma WF_snoc st tg : WF st -> WF (st ++ [mkState [] None tg]).
Proof.
  intros H s x c t. rewrite nth_error_snoc, length_app. simpl.
  destruct (Nat.ltb s (List.length st)).
  - intros Hx Hin. specialize (H _ _ _ _ Hx Hin). lia.
  - destruct (Nat.eqb s (List.length st)); [|discriminate].
    intros [= <-] [].
Qed.

Lemma WF_addJump st s c t :
  WF st -> (t < List.length st)%nat -> WF (update st s (addJump c t)).
Proof.
  intros H Ht i x c' t'. rewrite nth_error_update, length_update.
  destruct (Nat.eqb i s); [|apply H].
  destruct (nth_error st i) as [y|] eqn:E; [|discriminate].
  simpl. intros [= <-]. simpl. intros Hin. apply in_app_or in Hin.
  destruct Hin as [Hin|[[= <- <-]|[]]]; [eapply H; eauto|exact Ht].
Qed.

Lemma Ext_WF (R : nat -> char -> nat -> Prop) Tg st st' :
  (forall s c t, R s c t -> (t < List.length st')%nat) ->
  Ext R Tg st st' -> WF st -> WF st'.
Proof.
  intros HR HE Hw s x' c t Hx' Hin.
  pose proof (Ext_length _ _ _ _ HE) as HL. destruct HE as [A B].
  destruct (Nat.lt_ge_cases s (List.length st)) as [Hlt|Hge].
  - destruct (nth_error_ex _ _ Hlt) as (x & Hx).
    destruct (A _ _ Hx) as (y & Hy & _ & _ & more & Hj & Hm).
    rewrite Hx' in Hy. injection Hy as <-. rewrite Hj in Hin.
    apply in_app_or in Hin. destruct Hin as [Hin|Hin].
    + specialize (Hw _ _ _ _ Hx Hin). lia.
    + eapply HR; eauto.
  - destruct (B _ _ Hx' Hge) as (_ & _ & Hm). eapply HR; eauto.
Qed.

Lemma next_WF st s c t :
  NoDefault st -> WF st -> next st s c = Some t -> (t < List.length st)%nat.
Proof.
  intros Hd Hw Hn. pose proof (next_lt _ _ _ _ Hn) as Hs.
  destruct (nth_error_ex _ _ Hs) as (x & Hx).
  eapply Hw; eauto. eapply next_edge; eauto.
Qed.

Lemma pop_cons n l : l <> [] -> pop (n :: l) = pop l.
Proof. unfold pop. destruct l; [congruence|reflexivity]. Qed.

Lemma pop_In l m : pop l = Some m -> In m l.
Proof.
  unfold pop. induction l as [|a l IH]; simpl; [discriminate|].
  destruct l as [|b l]; simpl in *.
  - intros [= <-]. auto.
  - intros H. right. apply IH. exact H.
Qed.

Section Stateify.

Variables endToken defaultToken : TokenClass.

Lemma stateify_Ext (word : jsstring) :
  forall state st news st',
    stateify word state endToken defaultToken st = Some (news, st') ->
    Ext (fun _ c t => In c word /\ (List.length st <= t < List.length st')%nat)
        (fun tg => tg = Some endToken \/ tg = Some defaultToken) st st' /\
    news = seq (List.length st) (List.length st' - List.length st).
Proof.
  induction word as [|c rest IH]; intros state st news st'; cbn [stateify].
  - intros H. apply ret_eq in H. destruct H as [-> ->].
    split; [apply Ext_refl|]. rewrite Nat.sub_diag. reflexivity.
  - destruct (next st state c) as [n|] eqn:En.
    + intros H. apply IH in H. destruct H as [HE ->]. split; [|reflexivity].
      eapply Ext_weaken; [| |exact HE]; cbv beta; [|auto].
      intros _ c' t [Hin Hb]. split; [right; exact Hin|exact Hb].
    + intros H. apply bind_eq in H. destruct H as (n & st1 & H1 & H).
      apply makeState_eq in H1. destruct H1 as [-> ->].
      apply bind_eq in H. destruct H as ([] & st2 & H2 & H).
      apply on_eq in H2. destruct H2 as [Hs ->].
      apply bind_eq in H. destruct H as (news' & st3 & H3 & H).
      apply ret_eq in H. destruct H as [-> ->].
      apply IH in H3. destruct H3 as [HE ->].
      pose proof (Ext_length _ _ _ _ HE) as HL.
      rewrite length_update, length_app in HL. simpl in HL.
      rewrite length_update, length_app. simpl. split.
      * eapply Ext_trans; [eapply Ext_trans|].
        -- apply Ext_snoc with
             (tg := Some match rest with [] => endToken | _ :: _ => defaultToken end).
           destruct rest; auto.
        -- apply Ext_addJump. split; [left; reflexivity|].
           split; [apply Nat.le_refl|lia].
        -- eapply Ext_weaken; [| |exact HE]; cbv beta; [|auto].
           intros _ c' t [Hin Hb]. rewrite length_update, length_app in Hb.
           simpl in Hb. split; [right; exact Hin|lia].
      * replace (List.length st3 - List.length st)%nat
          with (S (List.length st3 - (List.length st + 1))) by lia.
        simpl. f_equal. f_equal. lia.
Qed.

Lemma stateify_WF word state st news st' :
  WF st ->
  stateify word state endToken defaultToken st = Some (news, st') ->
  WF st'.
Proof.
  intros Hw H. apply stateify_Ext in H. destruct H as [HE _].
  eapply Ext_WF; [|exact HE|exact Hw]. cbv beta. intros _ _ t [_ Hb]. lia.
Qed.

Lemma stateify_walk (word : jsstring) :
  forall state st news st',
    NoDefault st -> WF st -> (state < List.length st)%nat ->
    stateify word state endToken defaultToken st = Some (news, st') ->
    (news = [] -> exists m, walk st state word = Some m) /\
    (news <> [] ->
     exists m x, walk st' state word = Some m /\ pop news = Some m /\
                 nth_error st' m = Some x /\ tag x = Some endToken /\
                 jumps x = []).
Proof.
  induction word as [|c rest IH]; intros state st news st' Hd Hw Hvalid;
    cbn [stateify].
  - intros H. apply ret_eq in H. destruct H as [-> ->].
    split; [eexists; reflexivity|congruence].
  - destruct (next st state c) as [n|] eqn:En.
    + intros H. pose proof (stateify_Ext _ _ _ _ _ H) as [HE _].
      apply IH in H; [|assumption|assumption|eapply next_WF; eauto].
      destruct H as [Ha Hb]. split.
      * intros Hn. simpl. rewrite En. auto.
      * intros Hn. destruct (Hb Hn) as (m & x & Hwk & Hrest).
        exists m, x. split; [|exact Hrest]. simpl.
        rewrite (next_Grows _ _ _ _ _ Hd (Ext_Grows _ _ _ _ HE) En). exact Hwk.
    + intros H. apply bind_eq in H. destruct H as (n & st1 & H1 & H).
      apply makeState_eq in H1. destruct H1 as [-> ->].
      apply bind_eq in H. destruct H as ([] & st2 & H2 & H).
      apply on_eq in H2. destruct H2 as [Hs ->].
      apply bind_eq in H. destruct H as (news' & st3 & H3 & H).
      apply ret_eq in H. destruct H as [-> ->].
      split; [discriminate|]. intros _.
      rewrite length_app in Hs. simpl in Hs.
      set (y := mkState [] None
                  (Some match rest with [] => endToken | _ :: _ => defaultToken end)) in *.
      set (st1 := update (st ++ [y]) state (addJump c (List.length st))) in *.
      assert (Hd1 : NoDefault st1).
      { apply NoDefault_addJump, NoDefault_snoc, Hd. }
      assert (Hw1 : WF st1).
      { apply WF_addJump; [apply WF_snoc, Hw|].
        rewrite length_app. simpl. lia. }
      assert (Hv1 : (List.length st < List.length st1)%nat).
      { unfold st1. rewrite length_update, length_app. simpl. lia. }
      destruct (nth_error_ex _ _ Hvalid) as (x0 & Hx0).
      assert (Hstep : next st1 state c = Some (List.length st)).
      { eapply next_addJump_new; eauto. }
      assert (Hnew : nth_error st1 (List.length st) = Some y).
      { unfold st1. rewrite nth_error_update_neq by lia.
        rewrite nth_error_snoc, Nat.ltb_irrefl, Nat.eqb_refl. reflexivity. }
      pose proof (stateify_Ext _ _ _ _ _ H3) as [HE _].
      pose proof (IH _ _ _ _ Hd1 Hw1 Hv1 H3) as [Ha Hb].
      destruct news' as [|k news'].
      * destruct (Ha eq_refl) as (m & Hm).
        destruct rest as [|c' rest].
        -- simpl in H3. apply ret_eq in H3. destruct H3 as [_ <-].
           exists (List.length st), y. simpl. rewrite Hstep.
           repeat split; auto.
        -- exfalso. simpl in Hm. unfold next in Hm. rewrite Hnew in Hm.
           simpl in Hm. discriminate.
      * destruct Hb as (m & x & Hwk & Hp & Hrest); [discriminate|].
        exists m, x. split.
        -- simpl.
           rewrite (next_Grows _ _ _ _ _ Hd1 (Ext_Grows _ _ _ _ HE) Hstep).
           exact Hwk.
        -- split; [|exact Hrest]. rewrite pop_cons by discriminate. exact Hp.
Qed.

End Stateify.

(* ------------------------------------------------------------------ *)
(** * Unfolding a successful construction *)

Lemma Overlay_trans f g st1 st2 st3 :
  Overlay f st1 st2 -> Overlay g st2 st3 ->
  Overlay (fun s => f s ++ g s) st1 st3.
Proof.
  intros [L1 H1] [L2 H2]. split; [congruence|].
  intros s x Hx. rewrite (H2 _ _ (H1 _ _ Hx)). simpl.
  rewrite app_assoc. reflexivity.
Qed.

Lemma Overlay_on s c t st u st' :
  on s c t st = Some (u, st') ->
  Overlay (fun i => if Nat.eqb i s then [(c, t)] else []) st st'.
Proof.
  intros H. apply on_eq in H. destruct H as [_ ->]. split.
  - apply length_update.
  - intros i x Hx. rewrite nth_error_update, Hx.
    destruct (Nat.eqb i s); simpl; [reflexivity|].
    rewrite app_nil_r. destruct x; reflexivity.
Qed.

Lemma Overlay_ext f g st st' :
  (forall s, f s = g s) -> Overlay f st st' -> Overlay g st st'.
Proof.
  intros E [L H]. split; [exact L|]. intros s x Hx. rewrite <- E. auto.
Qed.

Lemma Overlay_onEach s cs t :
  forall st u st',
    onEach s cs t st = Some (u, st') ->
    Overlay (fun i => if Nat.eqb i s then map (fun c => (c, t)) cs else []) st st'.
Proof.
  induction cs as [|c cs IH]; intros st u st' H; cbn [onEach] in H.
  - apply ret_eq in H. destruct H as [_ ->]. split; [reflexivity|].
    intros i x Hx. rewrite Hx. simpl. destruct (Nat.eqb i s);
      rewrite app_nil_r; destruct x; reflexivity.
  - apply bind_eq in H. destruct H as ([] & st1 & H1 & H).
    apply Overlay_on in H1. apply IH in H.
    eapply Overlay_ext; [|eapply Overlay_trans; eauto].
    intros i. simpl. destruct (Nat.eqb i s); reflexivity.
Qed.

Lemma Overlay_domainJumps ds :
  forall st u st',
    domainJumps ds named0 st = Some (u, st') ->
    Overlay (fun i => List.concat (map (fun s' => if Nat.eqb i s' then domainEdges else []) ds))
            st st'.
Proof.
  induction ds as [|s ds IH]; intros st u st' H;
    cbn [domainJumps S_DOMAIN_HYPHEN S_DOMAIN named0] in H.
  - apply ret_eq in H. destruct H as [_ ->]. split; [reflexivity|].
    intros i x Hx. rewrite Hx. simpl. rewrite app_nil_r. destruct x; reflexivity.
  - apply bind_eq in H. destruct H as ([] & st1 & H1 & H).
    apply bind_eq in H. destruct H as ([] & st2 & H2 & H).
    apply Overlay_on in H1. apply Overlay_onEach in H2. apply IH in H.
    eapply Overlay_ext; [|eapply Overlay_trans; [eapply Overlay_trans|]; eauto].
    intros i. simpl. unfold domainEdges. destruct (Nat.eqb i s); reflexivity.
Qed.

Lemma scanner_unfold (tlds : list jsstring) :
  scanner tlds =
  match wire tlds named0 st0 with
  | Some (_, st) => Some (mkScanner st 0)
  | None => None
  end.
Proof.
  assert (H : exists s5, namedStates [] = Some (named0, s5) /\
                         symbolStates named0 s5 = Some (tt, st0)).
  { eexists. split; [reflexivity|vm_compute; reflexivity]. }
  destruct H as (s5 & H1 & H2).
  unfold scanner. unfold bind at 1. rewrite H1.
  unfold bind at 1. rewrite H2.
  unfold bind at 1. destruct (wire tlds named0 st0) as [[[] st]|]; reflexivity.
Qed.

Lemma theState_eq o st s st' :
  theState o st = Some (s, st') -> o = Some s /\ st' = st.
Proof.
  destruct o; simpl; [|discriminate]. intros H. apply ret_eq in H.
  destruct H as [-> ->]. auto.
Qed.

Ltac step_bind H x st :=
  apply bind_eq in H; destruct H as (x & st & ? & H).

Lemma scanner_Trace (tlds : list jsstring) (A : Scanner) :
  scanner tlds = Some A -> Trace tlds A.
Proof.
  rewrite scanner_unfold.
  destruct (wire tlds named0 st0) as [[[] stF]|] eqn:W; [|discriminate].
  intros [= <-]. unfold wire in W. cbn [S_START S_NUM S_DOMAIN S_DOMAIN_HYPHEN S_WS named0] in W.
  apply bind_eq in W. destruct W as (ds & st1 & Htld & W).
  apply bind_eq in W. destruct W as (pf & st2 & Hfile & W).
  apply bind_eq in W. destruct W as (pp & st3 & Hftp & W).
  apply bind_eq in W. destruct W as (ph & st4 & Hhttp & W).
  cbv zeta in W.
  apply bind_eq in W. destruct W as (secure & st5 & Hsec & W).
  apply makeState_eq in Hsec. destruct Hsec as [-> ->].
  apply bind_eq in W. destruct W as (full & st5 & Hfull & W).
  apply makeState_eq in Hfull. destruct Hfull as [-> ->].
  apply bind_eq in W. destruct W as ([] & st5 & Hb & W).
  apply bind_eq in Hb. destruct Hb as (ftp & st5' & Hftp' & Hb).
  apply theState_eq in Hftp'. destruct Hftp' as [Hpftp ->].
  apply bind_eq in Hb. destruct Hb as ([] & st5' & Ha1 & Ha2).
  apply on_eq in Ha1. destruct Ha1 as [_ ->].
  apply on_eq in Ha2. destruct Ha2 as [_ ->].
  apply bind_eq in W. destruct W as ([] & st5 & Hb & W).
  apply bind_eq in Hb. destruct Hb as (http & st5' & Hhttp' & Hb).
  apply theState_eq in Hhttp'. destruct Hhttp' as [Hphttp ->].
  apply bind_eq in Hb. destruct Hb as ([] & st5' & Ha1 & Ha2).
  apply on_eq in Ha1. destruct Ha1 as [_ ->].
  apply on_eq in Ha2. destruct Ha2 as [_ ->].
  apply bind_eq in W. destruct W as ([] & st5 & Hb & W).
  apply bind_eq in Hb. destruct Hb as (file & st5' & Hfile' & Hb).
  apply theState_eq in Hfile'. destruct Hfile' as [Hpfile ->].
  apply on_eq in Hb. destruct Hb as [_ ->].
  apply bind_eq in W. destruct W as ([] & st5 & Hb & W).
  apply on_eq in Hb. destruct Hb as [_ ->].
  apply bind_eq in W. destruct W as (pl & st7 & Hloc & W).
  apply bind_eq in W. destruct W as ([] & sa & Ha & W). apply Overlay_onEach in Ha.
  apply bind_eq in W. destruct W as ([] & sb & Hb & W). apply Overlay_on in Hb.
  apply bind_eq in W. destruct W as ([] & sc & Hc & W). apply Overlay_onEach in Hc.
  apply bind_eq in W. destruct W as ([] & sd & Hd & W). apply Overlay_onEach in Hd.
  apply bind_eq in W. destruct W as ([] & se & He & W). apply Overlay_on in He.
  apply bind_eq in W. destruct W as ([] & sf & Hf & W). apply Overlay_onEach in Hf.
  apply bind_eq in W. destruct W as ([] & sg & Hg & W). apply Overlay_domainJumps in Hg.
  apply bind_eq in W. destruct W as ([] & sh & Hh & W). apply Overlay_on in Hh.
  apply bind_eq in W. destruct W as ([] & si & Hi & W). apply Overlay_onEach in Hi.
  apply bind_eq in W. destruct W as ([] & st8 & Hj & W). apply Overlay_onEach in Hj.
  apply bind_eq in W. destruct W as (sym & st9 & Hsym & W).
  apply makeState_eq in Hsym. destruct Hsym as [-> ->].
  unfold setD in W.
  destruct (nth_error (st8 ++ [mkState [] None (Some TOKENS.SYM)]) 0); [|discriminate].
  injection W as <-.
  rewrite !length_app in Hloc. cbn [List.length] in Hloc.
  rewrite Nat.add_1_r in Hloc.
  rewrite <- !app_assoc in Hg.
  eapply mkTrace with (st8 := st8); eauto.
  eapply Overlay_ext;
      [|eapply Overlay_trans; [eapply Overlay_trans; [eapply Overlay_trans;
         [eapply Overlay_trans; [eapply Overlay_trans; [eapply Overlay_trans;
         [eapply Overlay_trans; [eapply Overlay_trans; [eapply Overlay_trans|]|]|]|]|]|]|]|];
       [exact Ha|exact Hb|exact Hc|exact Hd|exact He|exact Hf|exact Hg
       |exact Hh|exact Hi|exact Hj]].
  intros s. unfold fallback, domainEdges.
  rewrite <- !app_assoc.
  destruct (Nat.eqb s 0), (Nat.eqb s 1), (Nat.eqb s 2), (Nat.eqb s 3);
    cbn [app]; rewrite ?app_nil_r; reflexivity.
Qed.

(* ------------------------------------------------------------------ *)
(** * Inserting a literal *)

Section StateifyInd.

Variables endToken defaultToken : TokenClass.
Variable w : jsstring.
Variable I : jsstring -> nat -> Store -> Prop.

Hypothesis follow :
  forall p c rest a st n,
    w = p ++ c :: rest -> I p a st -> next st a c = Some n ->
    I (p ++ [c]) n st.

Hypothesis create :
  forall p c rest a st,
    w = p ++ c :: rest -> I p a st -> next st a c = None ->
    I (p ++ [c]) (List.length st)
      (update
         (st ++ [mkState [] None
                   (Some match rest with [] => endToken | _ :: _ => defaultToken end)])
         a (addJump c (List.length st))).

Lemma stateify_ind :
  forall rest p a st news st',
    w = p ++ rest -> I p a st ->
    stateify rest a endToken defaultToken st = Some (news, st') ->
    exists a', I w a' st'.
Proof.
  induction rest as [|c rest IH]; intros p a st news st' Hw HI; cbn [stateify].
  - intros H. apply ret_eq in H. destruct H as [_ ->].
    rewrite app_nil_r in Hw. subst p. eauto.
  - assert (Hw' : w = (p ++ [c]) ++ rest) by (rewrite <- app_assoc; exact Hw).
    destruct (next st a c) as [n|] eqn:En.
    + intros H. eapply IH; [exact Hw'| |exact H]. eapply follow; eauto.
    + intros H. apply bind_eq in H. destruct H as (n & st1 & H1 & H).
      apply makeState_eq in H1. destruct H1 as [-> ->].
      apply bind_eq in H. destruct H as ([] & st2 & H2 & H).
      apply on_eq in H2. destruct H2 as [Hs ->].
      apply bind_eq in H. destruct H as (news' & st3 & H3 & H).
      apply ret_eq in H. destruct H as [_ ->].
      eapply IH; [exact Hw'| |exact H3].
      eapply create; eauto.
Qed.

End StateifyInd.

(** ** The typed-edge invariant *)

Lemma domTag_Grows st st' s : Grows st st' -> domTag st s -> domTag st' s.
Proof.
  intros G [H|[H|H]]; [left|right; left|right; right];
    eapply Grows_emit; eauto.
Qed.

Lemma srcOK_Grows st st' s : Grows st st' -> srcOK st s -> srcOK st' s.
Proof.
  intros G [H|[H1 H2]]; [left; exact H|right].
  split; [exact H1|eapply domTag_Grows; eauto].
Qed.

Lemma EdgeA_Grows st st' s c t : Grows st st' -> EdgeA st s c t -> EdgeA st' s c t.
Proof.
  intros G [H|[H|[(H1 & H2 & H3 & H4)|(H1 & H2 & H3 & H4 & H5)]]].
  - left. exact H.
  - right; left. exact H.
  - right; right; left. repeat split; auto.
    + eapply srcOK_Grows; eauto.
    + eapply domTag_Grows; eauto.
  - right; right; right. repeat split; auto.
    + eapply domTag_Grows; eauto.
    + eapply Grows_emit; eauto.
Qed.

Lemma Typed_snoc st tg : Typed EdgeA st -> Typed EdgeA (st ++ [mkState [] None tg]).
Proof.
  intros H s x c t. rewrite nth_error_snoc.
  destruct (Nat.ltb s (List.length st)).
  - intros Hx Hin. eapply EdgeA_Grows; [apply Grows_snoc|]. eapply H; eauto.
  - destruct (Nat.eqb s (List.length st)); [|discriminate].
    intros [= <-] [].
Qed.

Lemma Typed_addJump st s c t :
  Typed EdgeA st -> EdgeA st s c t -> Typed EdgeA (update st s (addJump c t)).
Proof.
  intros H He i x c' t'. rewrite nth_error_update.
  destruct (Nat.eqb_spec i s) as [->|Hne].
  - destruct (nth_error st s) as [y|] eqn:E; [|discriminate].
    simpl. intros [= <-]. simpl. intros Hin. apply in_app_or in Hin.
    eapply EdgeA_Grows; [apply Grows_addJump|].
    destruct Hin as [Hin|[[= <- <-]|[]]]; [eapply H; eauto|exact He].
  - intros Hx Hin. eapply EdgeA_Grows; [apply Grows_addJump|]. eapply H; eauto.
Qed.

Lemma InvA_snoc st tg : InvA st -> InvA (st ++ [mkState [] None tg]).
Proof.
  intros [H1 H2 H3 H4]. split.
  - apply NoDefault_snoc, H1.
  - apply WF_snoc, H2.
  - rewrite length_app. lia.
  - apply Typed_snoc, H4.
Qed.

Lemma InvA_addJump st s c t :
  InvA st -> (t < List.length st)%nat -> EdgeA st s c t ->
  InvA (update st s (addJump c t)).
Proof.
  intros [H1 H2 H3 H4] Ht He. split.
  - apply NoDefault_addJump, H1.
  - apply WF_addJump; assumption.
  - rewrite length_update. exact H3.
  - apply Typed_addJump; assumption.
Qed.

Lemma emit_snoc_new st y : emit (st ++ [y]) (List.length st) = tag y.
Proof.
  unfold emit. rewrite nth_error_snoc, Nat.ltb_irrefl, Nat.eqb_refl. reflexivity.
Qed.

Lemma plainChar_COLON : ~ plainChar COLON.
Proof. unfold plainChar. vm_compute. discriminate. Qed.

Lemma plainChar_WS c : In c WHITESPACE -> ~ plainChar c.
Proof.
  unfold plainChar. intros H.
  repeat (destruct H as [<-|H]; [vm_compute; discriminate|]). destruct H.
Qed.

Lemma InvA_st0 : InvA st0.
Proof.
  split.
  - intros s x Hx.
    do 20 (destruct s as [|s]; [simpl in Hx; injection Hx as <-; reflexivity|]).
    destruct s; discriminate.
  - intros s x c t Hx Hin.
    do 20 (destruct s as [|s];
           [simpl in Hx; injection Hx as <-; simpl in Hin;
            repeat (destruct Hin as [[= <- <-]|Hin]; [simpl; lia|]);
            destruct Hin|]).
    destruct s; discriminate.
  - simpl. lia.
  - intros s x c t Hx Hin.
    destruct s as [|s].
    { simpl in Hx. injection Hx as <-. simpl in Hin. left. split; [reflexivity|].
      repeat (destruct Hin as [[= <- <-]|Hin]; [vm_compute; reflexivity|]).
      destruct Hin. }
    do 3 (destruct s as [|s]; [simpl in Hx; injection Hx as <-; destruct Hin|]).
    destruct s as [|s].
    { simpl in Hx. injection Hx as <-. simpl in Hin. right; left.
      repeat (destruct Hin as [[= <- <-]|Hin];
              [split; [reflexivity|split; [simpl; tauto|reflexivity]]|]).
      destruct Hin. }
    do 15 (destruct s as [|s]; [simpl in Hx; injection Hx as <-; destruct Hin|]).
    destruct s; discriminate.
Qed.

Section StateifyA.

Variables endToken defaultToken : TokenClass.
Hypothesis endOK :
  endToken = TOKENS.DOMAIN \/ endToken = TOKENS.TLD \/ endToken = TOKENS.LOCALHOST.
Hypothesis defaultOK :
  defaultToken = TOKENS.DOMAIN \/ defaultToken = TOKENS.TLD \/
  defaultToken = TOKENS.LOCALHOST.

Definition IA (st : Store) (a : nat) : Prop :=
  InvA st /\ srcOK st a /\ (a < List.length st)%nat.

Lemma IA_follow st a c n :
  plainChar c -> IA st a -> next st a c = Some n -> IA st n.
Proof.
  intros Hc (HI & Hs & Ha) Hn. split; [exact HI|].
  destruct (nth_error_ex _ _ Ha) as (x & Hx).
  pose proof (next_edge _ _ _ _ _ (invA_nodefault _ HI) Hx Hn) as Hin.
  pose proof (invA_wf _ HI _ _ _ _ Hx Hin) as Hlt.
  split; [|exact Hlt].
  destruct (invA_typed _ HI _ _ _ _ Hx Hin)
    as [[_ H]|[[H _]|[(_ & _ & H3 & H4)|(_ & _ & H & _)]]].
  - unfold plainChar in Hc. congruence.
  - subst a. destruct Hs as [Hs|[Hs _]]; [discriminate|lia].
  - right. split; assumption.
  - subst c. destruct (plainChar_COLON Hc).
Qed.

Lemma IA_create st a c (rest : jsstring) :
  plainChar c -> IA st a -> next st a c = None ->
  IA (update
        (st ++ [mkState [] None
                  (Some match rest with [] => endToken | _ :: _ => defaultToken end)])
        a (addJump c (List.length st)))
     (List.length st).
Proof.
  intros Hc (HI & Hs & Ha) Hn.
  set (y := mkState [] None
              (Some match rest with [] => endToken | _ :: _ => defaultToken end)).
  assert (Hy : domTag (st ++ [y]) (List.length st)).
  { unfold domTag. rewrite emit_snoc_new. simpl.
    destruct rest; [destruct endOK as [-> | [-> | ->] ]
                   |destruct defaultOK as [-> | [-> | ->] ]]; auto. }
  assert (H20 : (20 <= List.length st)%nat) by (apply invA_len; exact HI).
  split; [|split].
  - apply InvA_addJump.
    + apply InvA_snoc. exact HI.
    + rewrite length_app. simpl. lia.
    + right; right; left. repeat split; auto.
      eapply srcOK_Grows; [apply Grows_snoc|exact Hs].
  - right. split; [exact H20|].
    eapply domTag_Grows; [apply Grows_addJump|exact Hy].
  - rewrite length_update, length_app. simpl. lia.
Qed.

Lemma stateify_InvA (word : jsstring) (a : nat) (st : Store) news st' :
  plainWord word -> InvA st -> srcOK st a -> (a < List.length st)%nat ->
  stateify word a endToken defaultToken st = Some (news, st') ->
  InvA st'.
Proof.
  intros Hp HI Hs Ha H.
  assert (X : exists a', IA st' a').
  { eapply (stateify_ind endToken defaultToken word (fun _ a st => IA st a))
      with (p := @nil char) (rest := word) (a := a) (st := st); [| | | |exact H].
    - intros p c rest a0 st0' n Hw HIA Hn. eapply IA_follow; eauto.
      unfold plainWord in Hp. rewrite Hw in Hp.
      apply Forall_app in Hp. destruct Hp as [_ Hp]. inversion Hp; assumption.
    - intros p c rest a0 st0' Hw HIA Hn. apply IA_create; auto.
      unfold plainWord in Hp. rewrite Hw in Hp.
      apply Forall_app in Hp. destruct Hp as [_ Hp]. inversion Hp; assumption.
    - reflexivity.
    - split; [assumption|split; assumption]. }
  destruct X as (a' & HI' & _). exact HI'.
Qed.

End StateifyA.

(* ------------------------------------------------------------------ *)
(** * The trie of top-level domains *)

Lemma walk_snoc st s u c :
  walk st s (u ++ [c]) =
  match walk st s u with
  | Some m => next st m c
  | None => None
  end.
Proof.
  rewrite walk_app. destruct (walk st s u) as [m|]; [|reflexivity].
  simpl. destruct (next st m c); reflexivity.
Qed.

Lemma symbolTarget_range c t : symbolTarget c = Some t -> (4 <= t < 20)%nat.
Proof.
  unfold symbolTarget. intros H. apply lookupJump_In in H. simpl in H.
  repeat (destruct H as [[= <- <-]|H]; [lia|]). destruct H.
Qed.

Lemma EdgeA_target st s c t : EdgeA st s c t -> (4 <= t)%nat.
Proof.
  intros [[_ H]|[(_ & _ & ->)|[(_ & _ & H & _)|(_ & _ & _ & H & _)]]];
    try lia. apply symbolTarget_range in H. lia.
Qed.

Lemma next_target st s c t : InvA st -> next st s c = Some t -> (4 <= t < List.length st)%nat.
Proof.
  intros HI Hn. pose proof (next_lt _ _ _ _ Hn) as Hs.
  destruct (nth_error_ex _ _ Hs) as (x & Hx).
  pose proof (next_edge _ _ _ _ _ (invA_nodefault _ HI) Hx Hn) as Hin.
  split.
  - eapply EdgeA_target. eapply invA_typed; eauto.
  - eapply invA_wf; eauto.
Qed.

Lemma walk_zero st u : InvA st -> walk st 0 u = Some 0%nat -> u = [].
Proof.
  intros HI. destruct u as [|c u] using rev_ind; [reflexivity|].
  rewrite walk_snoc. destruct (walk st 0 u) as [m|]; [|discriminate].
  intros H. apply next_target in H; [lia|exact HI].
Qed.

Lemma walk_srcOK st u :
  InvA st -> plainWord u ->
  forall a m, srcOK st a -> (a < List.length st)%nat ->
              walk st a u = Some m -> srcOK st m /\ (m < List.length st)%nat.
Proof.
  intros HI. induction u as [|c u IH]; intros Hp a m Hs Ha; simpl.
  - intros [= <-]. auto.
  - inversion Hp as [|? ? Hc Hu]; subst.
    destruct (next st a c) as [n|] eqn:En; [|discriminate].
    destruct (IA_follow st a c n Hc) as (_ & Hs' & Ha'); auto.
    { split; [exact HI|split; assumption]. }
    apply IH; assumption.
Qed.

(** The walks of the store after one state has been attached. *)
Lemma walk_insert st a c y :
  InvA st -> (a < List.length st)%nat -> next st a c = None ->
  jumps y = [] -> d y = None ->
  forall u m,
    walk (update (st ++ [y]) a (addJump c (List.length st))) 0 u = Some m ->
    ((m < List.length st)%nat /\ walk st 0 u = Some m) \/
    (m = List.length st /\ exists v, u = v ++ [c] /\ walk st 0 v = Some a).
Proof.
  intros HI Ha Hn Hy Hdy.
  set (st1 := update (st ++ [y]) a (addJump c (List.length st))).
  pose proof (invA_len _ HI) as H20.
  induction u as [|c' u IH] using rev_ind; intros m.
  - simpl. intros [= <-]. left. split; [lia|reflexivity].
  - rewrite walk_snoc.
    destruct (walk st1 0 u) as [s'|] eqn:Eu; [|discriminate].
    intros Hm. destruct (IH _ eq_refl) as [[Hlt Hw]|[-> _]].
    + rewrite walk_snoc, Hw.
      unfold next in Hm. unfold st1 in Hm. rewrite nth_error_update in Hm.
      rewrite nth_error_app1 in Hm by exact Hlt.
      destruct (nth_error_ex _ _ Hlt) as (x & Hx). rewrite Hx in Hm.
      destruct (Nat.eqb_spec s' a) as [->|Hne].
      * simpl in Hm. rewrite lookupJump_app in Hm.
        destruct (lookupJump c' (jumps x)) as [t|] eqn:El.
        -- injection Hm as <-.
           assert (Hnx : next st a c' = Some t) by (unfold next; rewrite Hx, El; reflexivity).
           left. split; [|exact Hnx]. eapply next_target; eauto.
        -- unfold lookupJump in Hm. simpl in Hm.
           destruct (N.eqb_spec c c') as [<-|Hcc].
           ++ injection Hm as <-. right. split; [reflexivity|]. eauto.
           ++ rewrite (invA_nodefault _ HI _ _ Hx) in Hm. discriminate.
      * assert (Hnx : next st s' c' = Some m) by (unfold next; rewrite Hx; exact Hm).
        left. split; [|exact Hnx]. eapply next_target; eauto.
    + exfalso. unfold next, st1 in Hm.
      rewrite nth_error_update_neq in Hm by lia.
      rewrite nth_error_snoc, Nat.ltb_irrefl, Nat.eqb_refl in Hm.
      rewrite Hy, Hdy in Hm. discriminate.
Qed.

Lemma TrieInv_incl ws ws' st :
  incl ws ws' -> TrieInv ws st -> TrieInv ws' st.
Proof.
  intros Hi [H1 H2 H3]. split.
  - intros u m Hu Hm. destruct (H1 _ _ Hu Hm) as (w & Hw & Hp). eauto.
  - intros u m Hu Hm Ht. apply Hi. eauto.
  - exact H3.
Qed.

Lemma TrieInv_st0 : TrieInv [] st0.
Proof.
  pose proof InvA_st0 as HI.
  assert (H : forall u m, walk st0 0 u = Some m -> (20 <= m)%nat -> False).
  { intros u m Hu Hm. destruct u as [|c u] using rev_ind.
    - simpl in Hu. injection Hu as <-. lia.
    - rewrite walk_snoc in Hu. destruct (walk st0 0 u); [|discriminate].
      apply next_target in Hu; [|exact HI]. simpl in Hu. lia. }
  split.
  - intros u m Hu Hm. destruct (H _ _ Hu Hm).
  - intros u m Hu Hm. destruct (H _ _ Hu Hm).
  - intros u v m Hu Hv [->|Hm]; [|destruct (H _ _ Hu Hm)].
    apply walk_zero in Hu; [|exact HI]. apply walk_zero in Hv; [|exact HI].
    congruence.
Qed.

Lemma emit_insert_old st a c y s :
  (s < List.length st)%nat ->
  emit (update (st ++ [y]) a (addJump c (List.length st))) s = emit st s.
Proof.
  intros Hs. unfold emit. rewrite nth_error_update.
  rewrite nth_error_app1 by exact Hs.
  destruct (Nat.eqb s a); [|reflexivity].
  destruct (nth_error st s); reflexivity.
Qed.

Lemma emit_insert_new st a c y :
  (a < List.length st)%nat ->
  emit (update (st ++ [y]) a (addJump c (List.length st))) (List.length st) = tag y.
Proof.
  intros Ha. unfold emit. rewrite nth_error_update_neq by lia.
  rewrite nth_error_snoc, Nat.ltb_irrefl, Nat.eqb_refl. reflexivity.
Qed.

(** Attaching a state for the next character of a literal keeps the trie. *)
Lemma TrieInv_insert ws st w p c rest a :
  InvA st -> TrieInv ws st -> In w ws -> w = p ++ c :: rest ->
  walk st 0 p = Some a -> srcOK st a -> (a < List.length st)%nat ->
  next st a c = None ->
  TrieInv ws
    (update
       (st ++ [mkState [] None
                 (Some match rest with [] => T_TLD | _ :: _ => T_DOMAIN end)])
       a (addJump c (List.length st))).
Proof.
  intros HI [H1 H2 H3] Hin Hw Hp Hs Ha Hn.
  set (y := mkState [] None
              (Some match rest with [] => T_TLD | _ :: _ => T_DOMAIN end)).
  pose proof (walk_insert st a c y HI Ha Hn eq_refl eq_refl) as W.
  assert (Ha' : (a = 0 \/ 20 <= a)%nat) by (destruct Hs as [->|[? _]]; auto).
  split.
  - intros u m Hu Hm. destruct (W _ _ Hu) as [[Hlt Hu']|[-> (v & -> & Hv)]].
    + eauto.
    + exists w. split; [exact Hin|].
      rewrite (H3 _ _ _ Hv Hp Ha'). exists rest. rewrite Hw, <- app_assoc. reflexivity.
  - intros u m Hu Hm Ht. destruct (W _ _ Hu) as [[Hlt Hu']|[-> (v & -> & Hv)]].
    + rewrite emit_insert_old in Ht by exact Hlt. eauto.
    + rewrite emit_insert_new in Ht by exact Ha. simpl in Ht.
      destruct rest; [|discriminate].
      rewrite (H3 _ _ _ Hv Hp Ha'). rewrite <- Hw. exact Hin.
  - intros u v m Hu Hv Hm.
    destruct (W _ _ Hu) as [[Hlt Hu']|[-> (u1 & -> & Hu1)]];
      destruct (W _ _ Hv) as [[Hlt' Hv']|[E (v1 & -> & Hv1)]]; try lia.
    + eauto.
    + f_equal. eauto.
Qed.

Lemma T_TLD_ok :
  T_TLD = TOKENS.DOMAIN \/ T_TLD = TOKENS.TLD \/ T_TLD = TOKENS.LOCALHOST.
Proof. right; left; reflexivity. Qed.

Lemma T_DOMAIN_ok :
  T_DOMAIN = TOKENS.DOMAIN \/ T_DOMAIN = TOKENS.TLD \/ T_DOMAIN = TOKENS.LOCALHOST.
Proof. left; reflexivity. Qed.

Lemma T_LOCALHOST_ok :
  T_LOCALHOST = TOKENS.DOMAIN \/ T_LOCALHOST = TOKENS.TLD \/
  T_LOCALHOST = TOKENS.LOCALHOST.
Proof. right; right; reflexivity. Qed.

Lemma srcOK_start st : srcOK st 0.
Proof. left. reflexivity. Qed.

Lemma InvA_start st : InvA st -> (0 < List.length st)%nat.
Proof. intros H. pose proof (invA_len _ H). lia. Qed.

Lemma stateify_Trie ws w st news st' :
  plainWord w -> InvA st -> TrieInv ws st -> In w ws ->
  stateify w 0 T_TLD T_DOMAIN st = Some (news, st') ->
  InvA st' /\ TrieInv ws st'.
Proof.
  intros Hp HI HT Hin H.
  assert (X : exists a', (IA st' a' /\ walk st' 0 w = Some a') /\ TrieInv ws st').
  { eapply (stateify_ind T_TLD T_DOMAIN w
              (fun p a st => (IA st a /\ walk st 0 p = Some a) /\ TrieInv ws st))
      with (p := @nil char) (rest := w) (a := 0%nat) (st := st); [| | | |exact H].
    - intros p c rest a s n Hw [[HIA Hwk] HTs] Hn.
      assert (Hc : plainChar c).
      { unfold plainWord in Hp. rewrite Hw in Hp. apply Forall_app in Hp.
        destruct Hp as [_ Hp]. inversion Hp; assumption. }
      split; [split|exact HTs].
      + eapply IA_follow; eauto.
      + rewrite walk_snoc, Hwk. exact Hn.
    - intros p c rest a s Hw [[HIA Hwk] HTs] Hn.
      assert (Hc : plainChar c).
      { unfold plainWord in Hp. rewrite Hw in Hp. apply Forall_app in Hp.
        destruct Hp as [_ Hp]. inversion Hp; assumption. }
      destruct HIA as (HIs & Hsrc & Hlt).
      split; [split|].
      + apply IA_create; auto using T_TLD_ok, T_DOMAIN_ok.
        split; [assumption|split; assumption].
      + rewrite walk_snoc.
        erewrite walk_Grows; [| |eapply Grows_trans; [apply Grows_snoc|apply Grows_addJump]|exact Hwk].
        * destruct (nth_error_ex _ _ Hlt) as (x & Hx).
          eapply next_addJump_new; eauto.
        * apply invA_nodefault. exact HIs.
      + eapply TrieInv_insert; eauto.
    - reflexivity.
    - split; [split|exact HT]; [|reflexivity].
      split; [exact HI|split; [apply srcOK_start|apply InvA_start; exact HI]]. }
  destruct X as (a' & [[(HI' & _) _] HT']). auto.
Qed.

Lemma tldStates_Ext tlds :
  forall ds st ds' st',
    tldStates tlds 0 ds st = Some (ds', st') ->
    Ext (fun _ c t => In c (List.concat tlds) /\
                      (List.length st <= t < List.length st')%nat)
        (fun tg => tg = Some T_TLD \/ tg = Some T_DOMAIN) st st' /\
    ds' = ds ++ seq (List.length st) (List.length st' - List.length st).
Proof.
  induction tlds as [|w tlds IH]; intros ds st ds' st' H; cbn [tldStates] in H.
  - apply ret_eq in H. destruct H as [-> ->]. split; [apply Ext_refl|].
    rewrite Nat.sub_diag, app_nil_r. reflexivity.
  - apply bind_eq in H. destruct H as (news & st1 & H1 & H).
    apply stateify_Ext in H1. destruct H1 as [E1 ->].
    apply IH in H. destruct H as [E2 ->].
    pose proof (Ext_length _ _ _ _ E1) as L1.
    pose proof (Ext_length _ _ _ _ E2) as L2.
    split.
    + eapply Ext_trans; (eapply Ext_weaken; [| |eassumption]); cbv beta; auto.
      * intros _ c t [Hin Hb]. split; [simpl; apply in_or_app; auto|lia].
      * intros _ c t [Hin Hb]. split; [simpl; apply in_or_app; auto|lia].
    + rewrite <- app_assoc. f_equal.
      replace (List.length st' - List.length st)%nat
        with ((List.length st1 - List.length st) + (List.length st' - List.length st1))%nat
        by lia.
      rewrite seq_app. f_equal. f_equal. lia.
Qed.

Lemma tldStates_inv tlds :
  forall ws ds st ds' st',
    plainTlds tlds -> InvA st -> TrieInv ws st ->
    tldStates tlds 0 ds st = Some (ds', st') ->
    InvA st' /\ TrieInv (ws ++ tlds) st'.
Proof.
  induction tlds as [|w tlds IH]; intros ws ds st ds' st' Hp HI HT H;
    cbn [tldStates] in H.
  - apply ret_eq in H. destruct H as [_ ->]. rewrite app_nil_r. auto.
  - inversion Hp as [|? ? Hw Hp']; subst.
    apply bind_eq in H. destruct H as (news & st1 & H1 & H).
    apply (stateify_Trie (ws ++ [w])) in H1; auto.
    + destruct H1 as [HI1 HT1].
      replace (ws ++ w :: tlds) with ((ws ++ [w]) ++ tlds)
        by (rewrite <- app_assoc; reflexivity).
      eapply IH; eauto.
    + eapply TrieInv_incl; [|exact HT]. intros u Hu. apply in_or_app. auto.
    + apply in_or_app. right. left. reflexivity.
Qed.

(** A top-level domain none of whose predecessors in the list it is a
    prefix of gets its own state, tagged as a top-level domain. *)
Lemma tldStates_recognised tlds :
  forall ws ds st ds' st',
    plainTlds tlds -> InvA st -> TrieInv ws st ->
    tldStates tlds 0 ds st = Some (ds', st') ->
    forall l1 w l2,
      tlds = l1 ++ w :: l2 -> w <> [] ->
      (forall u, In u (ws ++ l1) -> ~ isPrefix w u) ->
      exists m, walk st' 0 w = Some m /\ emit st' m = Some TOKENS.TLD.
Proof.
  induction tlds as [|w0 tlds IH]; intros ws ds st ds' st' Hp HI HT H l1 w l2 E Hne Hfresh.
  - destruct l1; discriminate.
  - inversion Hp as [|? ? Hw0 Hp']; subst.
    cbn [tldStates] in H.
    apply bind_eq in H. destruct H as (news & st1 & H1 & H).
    pose proof H1 as H1'.
    apply (stateify_Trie (ws ++ [w0])) in H1'; auto;
      [|eapply TrieInv_incl; [|exact HT]; intros u Hu; apply in_or_app; auto
       |apply in_or_app; right; left; reflexivity].
    destruct H1' as [HI1 HT1].
    destruct l1 as [|w1 l1]; simpl in E; injection E as -> ->.
    + (* the literal inserted now *)
      pose proof (stateify_walk _ _ _ _ _ _ _
                    (invA_nodefault _ HI) (invA_wf _ HI) (InvA_start _ HI) H1)
        as [Ha Hb].
      destruct news as [|k news].
      * exfalso. destruct (Ha eq_refl) as (m & Hm).
        destruct (walk_srcOK st w HI Hw0 0%nat m (srcOK_start st) (InvA_start _ HI) Hm)
          as [[->|[Hm20 _]] _].
        -- apply walk_zero in Hm; [|exact HI]. contradiction.
        -- destruct (trie_prefix _ _ HT _ _ Hm Hm20) as (u & Hu & Hpre).
           apply (Hfresh u); [|exact Hpre]. rewrite app_nil_r. exact Hu.
      * destruct Hb as (m & x & Hwk & _ & Hx & Htag & _); [discriminate|].
        apply tldStates_Ext in H. destruct H as [E2 _].
        exists m. split.
        -- eapply walk_Grows; [apply invA_nodefault; exact HI1
                               |eapply Ext_Grows; exact E2|exact Hwk].
        -- eapply Grows_emit; [eapply Ext_Grows; exact E2|].
           unfold emit. rewrite Hx. exact Htag.
    + eapply (IH (ws ++ [w1])); eauto.
      intros u Hu. apply Hfresh. rewrite <- app_assoc in Hu. exact Hu.
Qed.

(** Every inserted literal can be walked from the start state. *)
Lemma tldStates_walkable tlds :
  forall ds st ds' st',
    NoDefault st -> WF st -> (0 < List.length st)%nat ->
    tldStates tlds 0 ds st = Some (ds', st') ->
    forall w, In w tlds -> exists m, walk st' 0 w = Some m.
Proof.
  induction tlds as [|w0 tlds IH]; intros ds st ds' st' Hd Hw Hl H w Hin;
    [destruct Hin|].
  cbn [tldStates] in H.
  apply bind_eq in H. destruct H as (news & st1 & H1 & H).
  pose proof (stateify_Ext _ _ _ _ _ _ _ H1) as [E1 _].
  pose proof (tldStates_Ext _ _ _ _ _ H) as [E2 _].
  assert (Hd1 : NoDefault st1) by (eapply Ext_NoDefault; [exact E1|exact Hd]).
  destruct Hin as [<-|Hin].
  - pose proof (stateify_walk _ _ _ _ _ _ _ Hd Hw Hl H1) as [Ha Hb].
    destruct news as [|k news].
    + destruct (Ha eq_refl) as (m & Hm). exists m.
      eapply walk_Grows; [exact Hd1|eapply Ext_Grows; exact E2|].
      eapply walk_Grows; [exact Hd|eapply Ext_Grows; exact E1|exact Hm].
    + destruct Hb as (m & x & Hwk & _); [discriminate|]. exists m.
      eapply walk_Grows; [exact Hd1|eapply Ext_Grows; exact E2|exact Hwk].
  - eapply IH; [exact Hd1| | |exact H|exact Hin].
    + eapply stateify_WF; eauto.
    + pose proof (Ext_length _ _ _ _ E1). lia.
Qed.

(** ** Literals that are no top-level domains *)

Section TrieOther.

Variables e dft : TokenClass.
Hypothesis eOK :
  e = TOKENS.DOMAIN \/ e = TOKENS.TLD \/ e = TOKENS.LOCALHOST.
Hypothesis dOK :
  dft = TOKENS.DOMAIN \/ dft = TOKENS.TLD \/ dft = TOKENS.LOCALHOST.
Hypothesis eNT : e <> TOKENS.TLD.
Hypothesis dNT : dft <> TOKENS.TLD.

Lemma TrieInv_insert_other ws st w p c rest a :
  InvA st -> TrieInv ws st -> In w ws -> w = p ++ c :: rest ->
  walk st 0 p = Some a -> srcOK st a -> (a < List.length st)%nat ->
  next st a c = None ->
  TrieInv ws
    (update
       (st ++ [mkState [] None
                 (Some match rest with [] => e | _ :: _ => dft end)])
       a (addJump c (List.length st))).
Proof.
  intros HI [H1 H2 H3] Hin Hw Hp Hs Ha Hn.
  set (y := mkState [] None
              (Some match rest with [] => e | _ :: _ => dft end)).
  pose proof (walk_insert st a c y HI Ha Hn eq_refl eq_refl) as W.
  assert (Ha' : (a = 0 \/ 20 <= a)%nat) by (destruct Hs as [->|[? _]]; auto).
  split.
  - intros u m Hu Hm. destruct (W _ _ Hu) as [[Hlt Hu']|[-> (v & -> & Hv)]].
    + eauto.
    + exists w. split; [exact Hin|].
      rewrite (H3 _ _ _ Hv Hp Ha'). exists rest. rewrite Hw, <- app_assoc. reflexivity.
  - intros u m Hu Hm Ht. destruct (W _ _ Hu) as [[Hlt Hu']|[-> (v & -> & Hv)]].
    + rewrite emit_insert_old in Ht by exact Hlt. eauto.
    + exfalso. rewrite emit_insert_new in Ht by exact Ha. simpl in Ht.
      destruct rest; injection Ht as Ht; auto.
  - intros u v m Hu Hv Hm.
    destruct (W _ _ Hu) as [[Hlt Hu']|[-> (u1 & -> & Hu1)]];
      destruct (W _ _ Hv) as [[Hlt' Hv']|[E (v1 & -> & Hv1)]]; try lia.
    + eauto.
    + f_equal. eauto.
Qed.

Lemma stateify_Trie_other ws w st news st' :
  plainWord w -> InvA st -> TrieInv ws st -> In w ws ->
  stateify w 0 e dft st = Some (news, st') ->
  InvA st' /\ TrieInv ws st'.
Proof.
  intros Hp HI HT Hin H.
  assert (X : exists a', (IA st' a' /\ walk st' 0 w = Some a') /\ TrieInv ws st').
  { eapply (stateify_ind e dft w
              (fun p a st => (IA st a /\ walk st 0 p = Some a) /\ TrieInv ws st))
      with (p := @nil char) (rest := w) (a := 0%nat) (st := st); [| | | |exact H].
    - intros p c rest a s n Hw [[HIA Hwk] HTs] Hn.
      assert (Hc : plainChar c).
      { unfold plainWord in Hp. rewrite Hw in Hp. apply Forall_app in Hp.
        destruct Hp as [_ Hp]. inversion Hp; assumption. }
      split; [split|exact HTs].
      + eapply IA_follow; eauto.
      + rewrite walk_snoc, Hwk. exact Hn.
    - intros p c rest a s Hw [[HIA Hwk] HTs] Hn.
      assert (Hc : plainChar c).
      { unfold plainWord in Hp. rewrite Hw in Hp. apply Forall_app in Hp.
        destruct Hp as [_ Hp]. inversion Hp; assumption. }
      destruct HIA as (HIs & Hsrc & Hlt).
      split; [split|].
      + apply IA_create; auto.
        split; [assumption|split; assumption].
      + rewrite walk_snoc.
        erewrite walk_Grows; [| |eapply Grows_trans; [apply Grows_snoc|apply Grows_addJump]|exact Hwk].
        * destruct (nth_error_ex _ _ Hlt) as (x & Hx).
          eapply next_addJump_new; eauto.
        * apply invA_nodefault. exact HIs.
      + eapply TrieInv_insert_other; eauto.
    - reflexivity.
    - split; [split|exact HT]; [|reflexivity].
      split; [exact HI|split; [apply srcOK_start|apply InvA_start; exact HI]]. }
  destruct X as (a' & [[(HI' & _) _] HT']). auto.
Qed.

End TrieOther.

(* ------------------------------------------------------------------ *)
(** * The automaton that is built *)

Lemma isIn_In c l : isIn c l = true <-> In c l.
Proof.
  unfold isIn. rewrite existsb_exists. split.
  - intros (x & Hx & E). apply N.eqb_eq in E. subst. exact Hx.
  - intros H. exists c. split; [exact H|apply N.eqb_refl].
Qed.

Lemma lookupJump_map c cs t :
  lookupJump c (map (fun c' => (c', t)) cs) = if isIn c cs then Some t else None.
Proof.
  destruct (isIn c cs) eqn:E.
  - apply lookupJump_map_in, isIn_In, E.
  - apply lookupJump_map_out. intros H. apply isIn_In in H. congruence.
Qed.

Lemma lookupJump_cons c c' t l :
  lookupJump c ((c', t) :: l) = if N.eqb c c' then Some t else lookupJump c l.
Proof.
  unfold lookupJump. simpl. rewrite (N.eqb_sym c' c).
  destruct (N.eqb c c'); reflexivity.
Qed.

Lemma lookupJump_domainEdges c : lookupJump c domainEdges = fbEdge c.
Proof.
  unfold domainEdges, fbEdge. rewrite lookupJump_cons, lookupJump_map. reflexivity.
Qed.

Lemma isIn_NUM_ALPHANUM c : isIn c NUM = true -> isIn c ALPHANUM = true.
Proof.
  intros H. apply isIn_In in H. apply isIn_In.
  unfold NUM in H. simpl in H.
  repeat (destruct H as [<-|H]; [vm_compute; tauto|]). destruct H.
Qed.

Lemma lookupJump_domainJumps c s ds :
  lookupJump c
    (List.concat (map (fun s' => if Nat.eqb s s' then domainEdges else []) ds)) =
  if existsb (Nat.eqb s) ds then fbEdge c else None.
Proof.
  induction ds as [|s' ds IH]; simpl; [reflexivity|].
  rewrite lookupJump_app, IH.
  destruct (Nat.eqb s s'); simpl.
  - rewrite lookupJump_domainEdges. destruct (fbEdge c), (existsb (Nat.eqb s) ds); reflexivity.
  - reflexivity.
Qed.

Lemma fallback_lookup ds s c :
  (forall s', In s' ds -> (20 <= s')%nat) ->
  lookupJump c (fallback ds s) = fbNext (existsb (Nat.eqb s) ds) s c.
Proof.
  intros Hds. unfold fallback. rewrite !lookupJump_app, lookupJump_domainJumps.
  assert (Hsmall : (s < 20)%nat -> existsb (Nat.eqb s) ds = false).
  { intros Hs. destruct (existsb (Nat.eqb s) ds) eqn:E; [|reflexivity].
    apply existsb_exists in E. destruct E as (s' & Hin & E).
    apply Nat.eqb_eq in E. subst s'. apply Hds in Hin. lia. }
  set (b := existsb (Nat.eqb s) ds) in *.
  assert (Hnil : lookupJump c [] = None) by reflexivity.
  destruct s as [|[|[|[|s]]]]; try (rewrite Hsmall by lia); cbn [Nat.eqb fbNext];
    rewrite ?lookupJump_cons, ?lookupJump_app, ?lookupJump_map, ?Hnil,
      ?lookupJump_domainEdges; unfold fbEdge.
  - destruct (isIn c NUM); reflexivity.
  - destruct (N.eqb c HYPHEN); [reflexivity|].
    destruct (isIn c NUM); [reflexivity|]. destruct (isIn c ALPHANUM); reflexivity.
  - destruct (N.eqb c HYPHEN); [reflexivity|]. destruct (isIn c ALPHANUM); reflexivity.
  - destruct (N.eqb c HYPHEN); [reflexivity|].
    destruct (isIn c NUM) eqn:E; [rewrite (isIn_NUM_ALPHANUM _ E); reflexivity|].
    destruct (isIn c ALPHANUM); reflexivity.
  - destruct b; [|reflexivity].
    destruct (N.eqb c HYPHEN); [reflexivity|]. destruct (isIn c ALPHANUM); reflexivity.
Qed.

Lemma stateify_popped e dft w a st news st' m :
  NoDefault st -> WF st -> (a < List.length st)%nat ->
  stateify w a e dft st = Some (news, st') ->
  pop news = Some m ->
  walk st' a w = Some m /\ emit st' m = Some e /\
  (List.length st <= m < List.length st')%nat /\
  exists x, nth_error st' m = Some x /\ jumps x = [].
Proof.
  intros Hd Hw Ha H Hp.
  pose proof (stateify_Ext _ _ _ _ _ _ _ H) as [_ Hnews].
  destruct (stateify_walk _ _ _ _ _ _ _ Hd Hw Ha H) as [_ Hb].
  destruct Hb as (m' & x & Hwk & Hp' & Hx & Ht & Hj).
  { intros ->. discriminate. }
  rewrite Hp in Hp'. injection Hp' as <-.
  split; [exact Hwk|]. split; [unfold emit; rewrite Hx; exact Ht|].
  split; [|eauto].
  apply pop_In in Hp. rewrite Hnews in Hp. apply in_seq in Hp.
  apply nth_error_lt in Hx. lia.
Qed.

Lemma lookupJump_keys c l (word : jsstring) :
  (forall c' t, In (c', t) l -> In c' word) -> ~ In c word ->
  lookupJump c l = None.
Proof.
  intros Hk Hn. destruct (lookupJump c l) as [t|] eqn:E; [|reflexivity].
  apply lookupJump_In in E. apply Hk in E. contradiction.
Qed.

(** Edges that a later [stateify] adds to a state do not hide an edge
    registered afterwards for a character outside the literal. *)
Lemma stateify_keeps_free e dft w a st news st' s x c :
  stateify w a e dft st = Some (news, st') ->
  nth_error st s = Some x -> lookupJump c (jumps x) = None -> ~ In c w ->
  exists x', nth_error st' s = Some x' /\ lookupJump c (jumps x') = None /\
             tag x' = tag x.
Proof.
  intros H Hx Hl Hn. apply stateify_Ext in H. destruct H as [[A _] _].
  destruct (A _ _ Hx) as (x' & Hx' & Ht & _ & more & Hj & Hm).
  exists x'. split; [exact Hx'|]. split; [|exact Ht].
  rewrite Hj, lookupJump_app, Hl.
  eapply lookupJump_keys; [|exact Hn]. intros c' t Hin. apply (Hm _ _ Hin).
Qed.

Lemma Overlay_update st s c t :
  Overlay (fun i => if Nat.eqb i s then [(c, t)] else []) st
          (update st s (addJump c t)).
Proof.
  split; [apply length_update|].
  intros i x Hx. rewrite nth_error_update, Hx.
  destruct (Nat.eqb i s); simpl; [reflexivity|].
  rewrite app_nil_r. destruct x; reflexivity.
Qed.

Lemma withProtocols_Overlay st file ftp http :
  Overlay (protocolEdges (List.length st) file ftp http)
    ((st ++ [mkState [] None (Some T_DOMAIN)]) ++ [mkState [] None (Some T_PROTOCOL)])
    (withProtocols st file ftp http).
Proof.
  unfold withProtocols, protocolEdges. cbv zeta.
  repeat (eapply Overlay_trans; [|apply Overlay_update]).
  apply Overlay_update.
Qed.

Lemma withProtocols_length st file ftp http :
  List.length (withProtocols st file ftp http) = S (S (List.length st)).
Proof.
  destruct (withProtocols_Overlay st file ftp http) as [L _].
  rewrite L, !length_app. simpl. lia.
Qed.

Lemma withProtocols_Ext st file ftp http :
  Ext (fun _ _ t => (List.length st <= t < S (S (List.length st)))%nat)
      (fun tg => tg = Some T_DOMAIN \/ tg = Some T_PROTOCOL)
      st (withProtocols st file ftp http).
Proof.
  unfold withProtocols. cbv zeta.
  repeat (eapply Ext_trans; [|apply Ext_addJump; cbv beta; lia]).
  eapply Ext_trans; apply Ext_snoc; auto.
Qed.

Lemma protocolEdges_s n file ftp http i :
  (i = ftp \/ i = http) ->
  lookupJump (chr "s") (protocolEdges n file ftp http i) = Some n.
Proof.
  unfold protocolEdges. intros [->| ->]; rewrite Nat.eqb_refl.
  - rewrite <- !app_assoc. simpl. reflexivity.
  - destruct (Nat.eqb http ftp); rewrite <- !app_assoc; simpl; reflexivity.
Qed.

Lemma protocolEdges_colon n file ftp http i :
  (i = ftp \/ i = http \/ i = file \/ i = n) ->
  lookupJump COLON (protocolEdges n file ftp http i) = Some (S n).
Proof.
  unfold protocolEdges. intros [->|[->|[->| ->]]]; rewrite ?Nat.eqb_refl.
  - rewrite <- !app_assoc. simpl. reflexivity.
  - destruct (Nat.eqb http ftp); rewrite <- !app_assoc; simpl; reflexivity.
  - destruct (Nat.eqb file ftp), (Nat.eqb file http);
      rewrite <- !app_assoc; simpl; reflexivity.
  - destruct (Nat.eqb n ftp), (Nat.eqb n http), (Nat.eqb n file);
      rewrite <- !app_assoc; simpl; reflexivity.
Qed.

Lemma Overlay_next f st st' s x c t :
  Overlay f st st' -> nth_error st s = Some x ->
  lookupJump c (jumps x) = None -> lookupJump c (f s) = Some t ->
  next st' s c = Some t.
Proof.
  intros [_ H] Hx Hl Hf. unfold next. rewrite (H _ _ Hx). simpl.
  rewrite lookupJump_app, Hl, Hf. reflexivity.
Qed.

Lemma Overlay_emit f st st' s : Overlay f st st' -> emit st' s = emit st s.
Proof.
  intros [L H]. unfold emit. destruct (nth_error st s) as [x|] eqn:Hx.
  - rewrite (H _ _ Hx). reflexivity.
  - apply nth_error_None in Hx. rewrite <- L in Hx.
    apply nth_error_None in Hx. rewrite Hx. reflexivity.
Qed.

(** ** The walks after lines 87 to 103 *)

Lemma protocolEdges_In n file ftp http i c t :
  In (c, t) (protocolEdges n file ftp http i) ->
  ((i = ftp \/ i = http) /\ c = chr "s" /\ t = n) \/
  ((i = ftp \/ i = http \/ i = file \/ i = n) /\ c = COLON /\ t = S n).
Proof.
  unfold protocolEdges. intros H.
  repeat (apply in_app_or in H; destruct H as [H|H]);
    match type of H with
    | In _ (if Nat.eqb ?a ?b then _ else _) =>
        destruct (Nat.eqb_spec a b) as [E|E]; [|destruct H];
        destruct H as [[= <- <-]|[]]; subst; tauto
    end.
Qed.

Section WalksWithProtocols.

Variables (st : Store) (file ftp http : nat).
Hypothesis HI : InvA st.
Hypothesis Hfile : (file < List.length st)%nat.
Hypothesis Hftp : (ftp < List.length st)%nat.
Hypothesis Hhttp : (http < List.length st)%nat.

Let n := List.length st.
Let base := (st ++ [mkState [] None (Some T_DOMAIN)])
              ++ [mkState [] None (Some T_PROTOCOL)].
Let P := withProtocols st file ftp http.

Lemma wp_nth_old s x :
  nth_error st s = Some x ->
  nth_error P s =
  Some (mkState (jumps x ++ protocolEdges n file ftp http s) (d x) (tag x)).
Proof.
  intros Hx. destruct (withProtocols_Overlay st file ftp http) as [_ O].
  apply O. pose proof (nth_error_lt _ _ _ Hx).
  rewrite nth_error_app1 by (rewrite length_app; simpl; lia).
  rewrite nth_error_app1 by assumption. exact Hx.
Qed.

Lemma wp_nth_secure :
  nth_error P n =
  Some (mkState (protocolEdges n file ftp http n) None (Some T_DOMAIN)).
Proof.
  destruct (withProtocols_Overlay st file ftp http) as [_ O].
  unfold P. rewrite (O n (mkState [] None (Some T_DOMAIN))); [reflexivity|].
  rewrite nth_error_app1 by (rewrite length_app; simpl; unfold n; lia).
  rewrite nth_error_snoc. unfold n. rewrite Nat.ltb_irrefl, Nat.eqb_refl.
  reflexivity.
Qed.

Lemma wp_nth_full :
  nth_error P (S n) =
  Some (mkState (protocolEdges n file ftp http (S n)) None (Some T_PROTOCOL)).
Proof.
  destruct (withProtocols_Overlay st file ftp http) as [_ O].
  unfold P.
  rewrite (O (S n) (mkState [] None (Some T_PROTOCOL))); [reflexivity|].
  rewrite nth_error_snoc.
  assert (E : List.length (st ++ [mkState [] None (Some T_DOMAIN)]) = S n)
    by (rewrite length_app; simpl; unfold n; lia).
  rewrite E, Nat.ltb_irrefl, Nat.eqb_refl. reflexivity.
Qed.

(** A walk from the start state after the protocol edges are added is a
    walk of the store before, or a walk to a protocol state followed by
    [s], by the colon, or by both. *)
Lemma walk_withProtocols u : forall m,
  walk P 0 u = Some m ->
  ((m < n)%nat /\ walk st 0 u = Some m) \/
  (m = n /\ exists v, u = v ++ [chr "s"] /\
                      (walk st 0 v = Some ftp \/ walk st 0 v = Some http)) \/
  (m = S n /\ exists v, u = v ++ [COLON] /\
     (walk st 0 v = Some ftp \/ walk st 0 v = Some http \/
      walk st 0 v = Some file \/
      exists v', v = v' ++ [chr "s"] /\
                 (walk st 0 v' = Some ftp \/ walk st 0 v' = Some http))).
Proof.
  pose proof (invA_len _ HI) as H20. fold n in H20.
  induction u as [|c u IH] using rev_ind; intros m.
  - simpl. intros [= <-]. left. split; [lia|reflexivity].
  - rewrite walk_snoc. destruct (walk P 0 u) as [s|] eqn:Eu; [|discriminate].
    intros Hn.
    destruct (IH _ eq_refl) as [[Hs Hw]|[[-> (v & -> & Hv)]|[-> _]]].
    + destruct (nth_error_ex st s Hs) as (x & Hx).
      unfold next in Hn. rewrite (wp_nth_old _ _ Hx) in Hn. cbn [jumps d] in Hn.
      rewrite lookupJump_app in Hn.
      destruct (lookupJump c (jumps x)) as [t|] eqn:El.
      * injection Hn as <-.
        assert (Hnx : next st s c = Some t)
          by (unfold next; rewrite Hx, El; reflexivity).
        left. split; [|rewrite walk_snoc, Hw; exact Hnx].
        apply next_target in Hnx; [fold n in Hnx; lia|exact HI].
      * destruct (lookupJump c (protocolEdges n file ftp http s)) as [t|] eqn:Ep.
        -- injection Hn as <-. apply lookupJump_In in Ep.
           apply protocolEdges_In in Ep.
           destruct Ep as [(Hi & -> & ->)|(Hi & -> & ->)].
           ++ right; left. split; [reflexivity|]. exists u.
              split; [reflexivity|]. destruct Hi as [->| ->]; auto.
           ++ right; right. split; [reflexivity|]. exists u.
              split; [reflexivity|].
              destruct Hi as [->|[->|[->| ->]]]; auto. lia.
        -- rewrite (invA_nodefault _ HI _ _ Hx) in Hn. discriminate.
    + unfold next in Hn. rewrite wp_nth_secure in Hn. cbn [jumps d] in Hn.
      destruct (lookupJump c (protocolEdges n file ftp http n)) as [t|] eqn:Ep;
        [|discriminate].
      injection Hn as <-. apply lookupJump_In in Ep.
      apply protocolEdges_In in Ep.
      destruct Ep as [([E|E] & _)|(_ & -> & ->)]; try (unfold n in E; lia).
      right; right. split; [reflexivity|]. exists (v ++ [chr "s"]).
      split; [reflexivity|]. right; right; right. eauto.
    + exfalso. unfold next in Hn. rewrite wp_nth_full in Hn. cbn [jumps d] in Hn.
      destruct (lookupJump c (protocolEdges n file ftp http (S n))) as [t|] eqn:Ep;
        [|discriminate].
      apply lookupJump_In in Ep. apply protocolEdges_In in Ep.
      unfold n in Ep. destruct Ep as [([E|E] & _)|([E|[E|[E|E]]] & _)]; lia.
Qed.

End WalksWithProtocols.

(* ------------------------------------------------------------------ *)
(** * Facts along the construction *)

Lemma existsb_eqb_In s l : existsb (Nat.eqb s) l = true <-> In s l.
Proof.
  rewrite existsb_exists. split.
  - intros (x & Hx & E). apply Nat.eqb_eq in E. subst. exact Hx.
  - intros H. exists s. split; [exact H|apply Nat.eqb_refl].
Qed.

Lemma st0_length : List.length st0 = 20%nat.
Proof. reflexivity. Qed.

Lemma st0_tags m tc :
  emit st0 m = Some tc ->
  tc <> TOKENS.TLD /\ tc <> TOKENS.LOCALHOST /\ tc <> TOKENS.PROTOCOL /\
  tc <> TOKENS.SYM.
Proof.
  unfold emit. intros H.
  do 20 (destruct m as [|m];
         [simpl in H; try discriminate; injection H as <-;
          repeat split; discriminate|]).
  destruct m; discriminate.
Qed.

Lemma Ext_emit_old R Tg st st' s :
  Ext R Tg st st' -> (s < List.length st)%nat -> emit st' s = emit st s.
Proof.
  intros [A _] Hs. destruct (nth_error_ex _ _ Hs) as (x & Hx).
  destruct (A _ _ Hx) as (x' & Hx' & Ht & _).
  unfold emit. rewrite Hx, Hx'. exact Ht.
Qed.

Lemma Ext_emit_new R (Tg : option TokenClass -> Prop) st st' s :
  Ext R Tg st st' -> (List.length st <= s < List.length st')%nat ->
  Tg (emit st' s).
Proof.
  intros [_ B] [H1 H2]. destruct (nth_error_ex _ _ H2) as (x & Hx).
  unfold emit. rewrite Hx. eapply B; eauto.
Qed.

(** A walk of the extended store that ends in an old state is a walk of
    the old store, when the added edges all lead to new states. *)
Lemma walk_old R Tg st st' :
  Ext R Tg st st' -> NoDefault st' ->
  (forall s c t, R s c t -> (List.length st <= t)%nat) ->
  (0 < List.length st)%nat ->
  forall u m, walk st' 0 u = Some m -> (m < List.length st)%nat ->
              walk st 0 u = Some m.
Proof.
  intros HE Hd HR H0.
  induction u as [|c u IH] using rev_ind; intros m.
  - simpl. auto.
  - rewrite !walk_snoc. destruct (walk st' 0 u) as [s|] eqn:Eu; [|discriminate].
    intros Hn Hm. pose proof (next_lt _ _ _ _ Hn) as Hs.
    destruct (nth_error_ex _ _ Hs) as (x' & Hx').
    pose proof (next_edge _ _ _ _ _ Hd Hx' Hn) as Hin.
    destruct HE as [A B].
    destruct (Nat.lt_ge_cases s (List.length st)) as [Hlt|Hge].
    + rewrite (IH _ eq_refl Hlt).
      destruct (nth_error_ex _ _ Hlt) as (x & Hx).
      destruct (A _ _ Hx) as (y & Hy & _ & _ & more & Hj & Hmore).
      rewrite Hx' in Hy. injection Hy as <-.
      unfold next in Hn |- *. rewrite Hx' in Hn. rewrite Hx.
      rewrite Hj, lookupJump_app in Hn.
      destruct (lookupJump c (jumps x)) as [t|]; [exact Hn|].
      exfalso. rewrite (Hd _ _ Hx') in Hn.
      destruct (lookupJump c more) as [t|] eqn:El; [|discriminate].
      injection Hn as ->. apply lookupJump_In in El.
      apply Hmore, HR in El. lia.
    + exfalso. destruct (B _ _ Hx' Hge) as (_ & _ & Hmore).
      apply Hmore, HR in Hin. lia.
Qed.

Lemma withProtocols_InvA st file ftp http :
  InvA st ->
  (20 <= file < List.length st)%nat -> domTag st file ->
  (20 <= ftp < List.length st)%nat -> domTag st ftp ->
  (20 <= http < List.length st)%nat -> domTag st http ->
  InvA (withProtocols st file ftp http).
Proof.
  intros HI Hf Hft Hp Hpt Hh Hht. pose proof (invA_len _ HI) as H20.
  set (n := List.length st).
  assert (En : n = List.length st) by reflexivity.
  set (s2 := (st ++ [mkState [] None (Some T_DOMAIN)])
               ++ [mkState [] None (Some T_PROTOCOL)]).
  assert (G : Grows st s2).
  { eapply Grows_trans; apply Grows_snoc. }
  assert (HI2 : InvA s2) by (apply InvA_snoc, InvA_snoc, HI).
  assert (L2 : List.length s2 = S (S n)).
  { unfold s2. rewrite !length_app. simpl. fold n. lia. }
  assert (Tn : emit s2 n = Some TOKENS.DOMAIN).
  { unfold emit, s2. rewrite nth_error_app1 by (rewrite length_app; simpl; lia).
    rewrite nth_error_snoc, Nat.ltb_irrefl, Nat.eqb_refl. reflexivity. }
  assert (Tf : emit s2 (S n) = Some TOKENS.PROTOCOL).
  { unfold emit, s2. rewrite nth_error_snoc.
    assert (E : List.length (st ++ [mkState [] None (Some T_DOMAIN)]) = S n)
      by (rewrite length_app; simpl; fold n; lia).
    rewrite E, Nat.ltb_irrefl, Nat.eqb_refl. reflexivity. }
  assert (Es : forall st' s, Grows s2 st' -> (20 <= s < n)%nat -> domTag st s ->
                             EdgeA st' s (chr "s") n).
  { intros st' s G' Hs Ht. right; right; left. repeat split.
    - right. split; [lia|]. eapply domTag_Grows; [|exact Ht].
      eapply Grows_trans; eauto.
    - exact H20.
    - left. eapply Grows_emit; eauto. }
  assert (Ec : forall st' s, Grows s2 st' -> (20 <= s)%nat -> domTag s2 s ->
                             EdgeA st' s COLON (S n)).
  { intros st' s G' Hs Ht. right; right; right. repeat split; auto.
    - eapply domTag_Grows; eauto.
    - eapply Grows_emit; eauto. }
  unfold withProtocols. cbv zeta. fold n. fold s2.
  set (s3 := update s2 ftp (addJump (chr "s") n)).
  set (s4 := update s3 ftp (addJump COLON (S n))).
  set (s5 := update s4 http (addJump (chr "s") n)).
  set (s6 := update s5 http (addJump COLON (S n))).
  set (s7 := update s6 file (addJump COLON (S n))).
  assert (G3 : Grows s2 s3) by apply Grows_addJump.
  assert (G4 : Grows s2 s4) by (eapply Grows_trans; [exact G3|apply Grows_addJump]).
  assert (G5 : Grows s2 s5) by (eapply Grows_trans; [exact G4|apply Grows_addJump]).
  assert (G6 : Grows s2 s6) by (eapply Grows_trans; [exact G5|apply Grows_addJump]).
  assert (G7 : Grows s2 s7) by (eapply Grows_trans; [exact G6|apply Grows_addJump]).
  assert (HI3 : InvA s3).
  { apply InvA_addJump; [exact HI2|lia|]. apply Es; [apply Grows_refl|exact Hp|exact Hpt]. }
  assert (HI4 : InvA s4).
  { apply InvA_addJump; [exact HI3|unfold s3; rewrite length_update; lia|].
    apply Ec; [exact G3|lia|eapply domTag_Grows; eauto]. }
  assert (HI5 : InvA s5).
  { apply InvA_addJump; [exact HI4|unfold s4, s3; rewrite !length_update; lia|].
    apply Es; [exact G4|exact Hh|exact Hht]. }
  assert (HI6 : InvA s6).
  { apply InvA_addJump; [exact HI5|unfold s5, s4, s3; rewrite !length_update; lia|].
    apply Ec; [exact G5|lia|eapply domTag_Grows; eauto]. }
  assert (HI7 : InvA s7).
  { apply InvA_addJump; [exact HI6|unfold s6, s5, s4, s3; rewrite !length_update; lia|].
    apply Ec; [exact G6|lia|eapply domTag_Grows; eauto]. }
  apply InvA_addJump; [exact HI7|unfold s7, s6, s5, s4, s3; rewrite !length_update; lia|].
  apply Ec; [exact G7|exact H20|left; exact Tn].
Qed.

Lemma plainWord_file : plainWord (js "file").
Proof. repeat constructor. Qed.
Lemma plainWord_ftp : plainWord (js "ftp").
Proof. repeat constructor. Qed.
Lemma plainWord_http : plainWord (js "http").
Proof. repeat constructor. Qed.
Lemma plainWord_localhost : plainWord (js "localhost").
Proof. repeat constructor. Qed.

Lemma incl_isIn (small big : list char) :
  forallb (fun c => isIn c big) small = true -> incl small big.
Proof.
  intros H c Hc. rewrite forallb_forall in H. apply isIn_In. auto.
Qed.

Lemma nil_or_not {X} (l : list X) : l = [] \/ l <> [].
Proof. destruct l; [left; reflexivity|right; discriminate]. Qed.

Section AlongTheTrace.

Variable tlds : list jsstring.
Variables (tld : list nat) (st1 : Store) (file : list nat) (st2 : Store)
          (ftp : list nat) (st3 : Store) (http : list nat) (st4 : Store)
          (sfile sftp shttp : nat) (localhost : list nat) (st7 st8 : Store).

Hypothesis tr_tlds : tldStates tlds 0 [] st0 = Some (tld, st1).
Hypothesis tr_file :
  stateify (js "file") 0 T_DOMAIN T_DOMAIN st1 = Some (file, st2).
Hypothesis tr_ftp :
  stateify (js "ftp") 0 T_DOMAIN T_DOMAIN st2 = Some (ftp, st3).
Hypothesis tr_http :
  stateify (js "http") 0 T_DOMAIN T_DOMAIN st3 = Some (http, st4).
Hypothesis tr_pop_file : pop file = Some sfile.
Hypothesis tr_pop_ftp : pop ftp = Some sftp.
Hypothesis tr_pop_http : pop http = Some shttp.
Hypothesis tr_localhost :
  stateify (js "localhost") 0 T_LOCALHOST T_DOMAIN
    (withProtocols st4 sfile sftp shttp) = Some (localhost, st7).
Hypothesis tr_overlay :
  Overlay (fallback (tld ++ file ++ ftp ++ http
                     ++ [List.length st4] ++ localhost)) st7 st8.

Let P := withProtocols st4 sfile sftp shttp.
Let secure := List.length st4.
Let full := S (List.length st4).

Let E1 := proj1 (tldStates_Ext _ _ _ _ _ tr_tlds).
Let E2 := proj1 (stateify_Ext _ _ _ _ _ _ _ tr_file).
Let E3 := proj1 (stateify_Ext _ _ _ _ _ _ _ tr_ftp).
Let E4 := proj1 (stateify_Ext _ _ _ _ _ _ _ tr_http).
Let EP := withProtocols_Ext st4 sfile sftp shttp.
Let E7 := proj1 (stateify_Ext _ _ _ _ _ _ _ tr_localhost).

Lemma tr_len1 : (20 <= List.length st1)%nat.
Proof. pose proof (Ext_length _ _ _ _ E1). rewrite st0_length in *. lia. Qed.
Lemma tr_len2 : (List.length st1 <= List.length st2)%nat.
Proof. exact (Ext_length _ _ _ _ E2). Qed.
Lemma tr_len3 : (List.length st2 <= List.length st3)%nat.
Proof. exact (Ext_length _ _ _ _ E3). Qed.
Lemma tr_len4 : (List.length st3 <= List.length st4)%nat.
Proof. exact (Ext_length _ _ _ _ E4). Qed.
Lemma tr_lenP : List.length P = S (S (List.length st4)).
Proof. apply withProtocols_length. Qed.
Lemma tr_len7 : (List.length P <= List.length st7)%nat.
Proof. exact (Ext_length _ _ _ _ E7). Qed.

Lemma tr_nd1 : NoDefault st1.
Proof. eapply Ext_NoDefault; [exact E1|apply invA_nodefault, InvA_st0]. Qed.
Lemma tr_nd2 : NoDefault st2.
Proof. eapply Ext_NoDefault; [exact E2|exact tr_nd1]. Qed.
Lemma tr_nd3 : NoDefault st3.
Proof. eapply Ext_NoDefault; [exact E3|exact tr_nd2]. Qed.
Lemma tr_nd4 : NoDefault st4.
Proof. eapply Ext_NoDefault; [exact E4|exact tr_nd3]. Qed.
Lemma tr_ndP : NoDefault P.
Proof. eapply Ext_NoDefault; [exact EP|exact tr_nd4]. Qed.
Lemma tr_nd7 : NoDefault st7.
Proof. eapply Ext_NoDefault; [exact E7|exact tr_ndP]. Qed.

Lemma tr_wf1 : WF st1.
Proof.
  eapply Ext_WF; [|exact E1|apply invA_wf, InvA_st0]. cbv beta.
  intros s c t [_ Hb]. lia.
Qed.
Lemma tr_wf2 : WF st2.
Proof. eapply stateify_WF; [exact tr_wf1|exact tr_file]. Qed.
Lemma tr_wf3 : WF st3.
Proof. eapply stateify_WF; [exact tr_wf2|exact tr_ftp]. Qed.
Lemma tr_wf4 : WF st4.
Proof. eapply stateify_WF; [exact tr_wf3|exact tr_http]. Qed.
Lemma tr_wfP : WF P.
Proof.
  eapply Ext_WF; [|exact EP|exact tr_wf4]. cbv beta. intros s c t H.
  rewrite tr_lenP. lia.
Qed.
Lemma tr_wf7 : WF st7.
Proof. eapply stateify_WF; [exact tr_wfP|exact tr_localhost]. Qed.

Lemma tr_G12 : Grows st1 st2. Proof. exact (Ext_Grows _ _ _ _ E2). Qed.
Lemma tr_G23 : Grows st2 st3. Proof. exact (Ext_Grows _ _ _ _ E3). Qed.
Lemma tr_G34 : Grows st3 st4. Proof. exact (Ext_Grows _ _ _ _ E4). Qed.
Lemma tr_G4P : Grows st4 P. Proof. exact (Ext_Grows _ _ _ _ EP). Qed.
Lemma tr_GP7 : Grows P st7. Proof. exact (Ext_Grows _ _ _ _ E7). Qed.
Lemma tr_G47 : Grows st4 st7.
Proof. eapply Grows_trans; [exact tr_G4P|exact tr_GP7]. Qed.
Lemma tr_G17 : Grows st1 st7.
Proof.
  eapply Grows_trans; [exact tr_G12|].
  eapply Grows_trans; [exact tr_G23|].
  eapply Grows_trans; [exact tr_G34|exact tr_G47].
Qed.

(** The whole growth from the store of lines 33 to 63. *)
Lemma tr_ext :
  Ext (fun _ _ t => (20 <= t)%nat)
      (fun tg => tg <> None /\ tg <> Some TOKENS.SYM) st0 st7.
Proof.
  pose proof tr_len1. pose proof tr_len2. pose proof tr_len3.
  pose proof tr_len4. pose proof tr_lenP. pose proof tr_len7.
  assert (T : forall tg : option TokenClass,
             tg = Some T_TLD \/ tg = Some T_DOMAIN \/ tg = Some T_PROTOCOL \/
             tg = Some T_LOCALHOST ->
             tg <> None /\ tg <> Some TOKENS.SYM).
  { intros tg [->|[->|[->| ->]]]; split; discriminate. }
  eapply Ext_trans; [eapply Ext_weaken; [| |exact E1]|]; cbv beta.
  { intros _ _ t [_ Hb]. rewrite st0_length in Hb. lia. }
  { intros tg [->| ->]; split; discriminate. }
  eapply Ext_trans; [eapply Ext_weaken; [| |exact E2]|]; cbv beta.
  { intros _ _ t [_ Hb]. lia. }
  { intros tg [->| ->]; split; discriminate. }
  eapply Ext_trans; [eapply Ext_weaken; [| |exact E3]|]; cbv beta.
  { intros _ _ t [_ Hb]. lia. }
  { intros tg [->| ->]; split; discriminate. }
  eapply Ext_trans; [eapply Ext_weaken; [| |exact E4]|]; cbv beta.
  { intros _ _ t [_ Hb]. lia. }
  { intros tg [->| ->]; split; discriminate. }
  eapply Ext_trans; [eapply Ext_weaken; [| |exact EP]|]; cbv beta.
  { intros _ _ t Hb. lia. }
  { intros tg [->| ->]; split; discriminate. }
  eapply Ext_weaken; [| |exact E7]; cbv beta.
  { intros _ _ t [_ Hb]. fold P in Hb. lia. }
  { intros tg [->| ->]; split; discriminate. }
Qed.

Ltac not_in :=
  let H := fresh in
  intros H; simpl in H;
  repeat (destruct H as [H|H]; [discriminate H|]); destruct H.

Lemma tr_old_P s x :
  nth_error st4 s = Some x ->
  nth_error ((st4 ++ [mkState [] None (Some T_DOMAIN)])
             ++ [mkState [] None (Some T_PROTOCOL)]) s = Some x.
Proof.
  intros Hx. pose proof (nth_error_lt _ _ _ Hx).
  rewrite nth_error_app1 by (rewrite length_app; simpl; lia).
  rewrite nth_error_app1 by assumption. exact Hx.
Qed.

Lemma tr_file_facts :
  walk st7 0 (js "file") = Some sfile /\
  emit st7 sfile = Some TOKENS.DOMAIN /\
  next st7 sfile COLON = Some full /\
  (List.length st1 <= sfile < List.length st2)%nat.
Proof.
  pose proof tr_len1 as L1.
  assert (H0 : (0 < List.length st1)%nat) by lia.
  destruct (stateify_popped _ _ _ _ _ _ _ _ tr_nd1 tr_wf1 H0 tr_file tr_pop_file)
    as (Hw & He & Hb & x2 & Hx2 & Hj2).
  destruct (stateify_keeps_free _ _ _ _ _ _ _ _ _ COLON tr_ftp Hx2)
    as (x3 & Hx3 & Hl3 & _); [rewrite Hj2; reflexivity|not_in|].
  destruct (stateify_keeps_free _ _ _ _ _ _ _ _ _ COLON tr_http Hx3 Hl3)
    as (x4 & Hx4 & Hl4 & _); [not_in|].
  split; [|split; [|split; [|exact Hb]]].
  - eapply walk_Grows; [exact tr_nd2| |exact Hw].
    eapply Grows_trans; [exact tr_G23|].
    eapply Grows_trans; [exact tr_G34|exact tr_G47].
  - eapply Grows_emit; [|exact He].
    eapply Grows_trans; [exact tr_G23|].
    eapply Grows_trans; [exact tr_G34|exact tr_G47].
  - eapply next_Grows; [exact tr_ndP|exact tr_GP7|].
    eapply Overlay_next; [apply withProtocols_Overlay|apply tr_old_P; exact Hx4
                         |exact Hl4|].
    apply protocolEdges_colon. auto.
Qed.

Lemma tr_ftp_facts :
  walk st7 0 (js "ftp") = Some sftp /\
  emit st7 sftp = Some TOKENS.DOMAIN /\
  next st7 sftp (chr "s") = Some secure /\
  next st7 sftp COLON = Some full /\
  (List.length st2 <= sftp < List.length st3)%nat.
Proof.
  pose proof tr_len1 as L1. pose proof tr_len2 as L2.
  assert (H0 : (0 < List.length st2)%nat) by lia.
  destruct (stateify_popped _ _ _ _ _ _ _ _ tr_nd2 tr_wf2 H0 tr_ftp tr_pop_ftp)
    as (Hw & He & Hb & x3 & Hx3 & Hj3).
  destruct (stateify_keeps_free _ _ _ _ _ _ _ _ _ COLON tr_http Hx3)
    as (x4 & Hx4 & Hl4 & _); [rewrite Hj3; reflexivity|not_in|].
  destruct (stateify_keeps_free _ _ _ _ _ _ _ _ _ (chr "s") tr_http Hx3)
    as (x4' & Hx4' & Hl4' & _); [rewrite Hj3; reflexivity|not_in|].
  rewrite Hx4 in Hx4'. injection Hx4' as <-.
  split; [|split; [|split; [|split; [|exact Hb]]]].
  - eapply walk_Grows; [exact tr_nd3| |exact Hw].
    eapply Grows_trans; [exact tr_G34|exact tr_G47].
  - eapply Grows_emit; [|exact He].
    eapply Grows_trans; [exact tr_G34|exact tr_G47].
  - eapply next_Grows; [exact tr_ndP|exact tr_GP7|].
    eapply Overlay_next; [apply withProtocols_Overlay|apply tr_old_P; exact Hx4
                         |exact Hl4'|].
    apply protocolEdges_s. auto.
  - eapply next_Grows; [exact tr_ndP|exact tr_GP7|].
    eapply Overlay_next; [apply withProtocols_Overlay|apply tr_old_P; exact Hx4
                         |exact Hl4|].
    apply protocolEdges_colon. auto.
Qed.

Lemma tr_http_facts :
  walk st7 0 (js "http") = Some shttp /\
  emit st7 shttp = Some TOKENS.DOMAIN /\
  next st7 shttp (chr "s") = Some secure /\
  next st7 shttp COLON = Some full /\
  (List.length st3 <= shttp < List.length st4)%nat.
Proof.
  pose proof tr_len1 as L1. pose proof tr_len2 as L2. pose proof tr_len3 as L3.
  assert (H0 : (0 < List.length st3)%nat) by lia.
  destruct (stateify_popped _ _ _ _ _ _ _ _ tr_nd3 tr_wf3 H0 tr_http tr_pop_http)
    as (Hw & He & Hb & x4 & Hx4 & Hj4).
  split; [|split; [|split; [|split; [|exact Hb]]]].
  - eapply walk_Grows; [exact tr_nd4|exact tr_G47|exact Hw].
  - eapply Grows_emit; [exact tr_G47|exact He].
  - eapply next_Grows; [exact tr_ndP|exact tr_GP7|].
    eapply Overlay_next; [apply withProtocols_Overlay|apply tr_old_P; exact Hx4
                         |rewrite Hj4; reflexivity|].
    apply protocolEdges_s. auto.
  - eapply next_Grows; [exact tr_ndP|exact tr_GP7|].
    eapply Overlay_next; [apply withProtocols_Overlay|apply tr_old_P; exact Hx4
                         |rewrite Hj4; reflexivity|].
    apply protocolEdges_colon. auto.
Qed.

Lemma tr_secure_facts :
  emit st7 secure = Some TOKENS.DOMAIN /\
  next st7 secure COLON = Some full /\
  emit st7 full = Some TOKENS.PROTOCOL.
Proof.
  set (s2 := (st4 ++ [mkState [] None (Some T_DOMAIN)])
             ++ [mkState [] None (Some T_PROTOCOL)]).
  assert (Hs : nth_error s2 secure = Some (mkState [] None (Some T_DOMAIN))).
  { unfold s2, secure. rewrite nth_error_app1 by (rewrite length_app; simpl; lia).
    rewrite nth_error_snoc, Nat.ltb_irrefl, Nat.eqb_refl. reflexivity. }
  assert (Hf : nth_error s2 full = Some (mkState [] None (Some T_PROTOCOL))).
  { unfold s2, full. rewrite nth_error_snoc.
    assert (E : List.length (st4 ++ [mkState [] None (Some T_DOMAIN)])
                = S (List.length st4)) by (rewrite length_app; simpl; lia).
    rewrite E, Nat.ltb_irrefl, Nat.eqb_refl. reflexivity. }
  pose proof (withProtocols_Overlay st4 sfile sftp shttp) as O. fold s2 in O.
  split; [|split].
  - eapply Grows_emit; [exact tr_GP7|].
    unfold P. rewrite (Overlay_emit _ _ _ secure O). unfold emit. rewrite Hs. reflexivity.
  - eapply next_Grows; [exact tr_ndP|exact tr_GP7|].
    eapply Overlay_next; [exact O|exact Hs|reflexivity|].
    apply protocolEdges_colon. auto.
  - eapply Grows_emit; [exact tr_GP7|].
    unfold P. rewrite (Overlay_emit _ _ _ full O). unfold emit. rewrite Hf. reflexivity.
Qed.

Lemma tr_localhost_walk : exists m, walk st7 0 (js "localhost") = Some m.
Proof.
  pose proof tr_lenP as LP.
  assert (H0 : (0 < List.length P)%nat) by lia.
  destruct (stateify_walk _ _ _ _ _ _ _ tr_ndP tr_wfP H0 tr_localhost)
    as [Ha Hb].
  destruct (nil_or_not localhost) as [E|E].
  - destruct (Ha E) as (m & Hm). exists m.
    eapply walk_Grows; [exact tr_ndP|exact tr_GP7|exact Hm].
  - destruct (Hb E) as (m & _ & Hm & _). eauto.
Qed.

Lemma tr_walkable w : In w tlds -> exists m, walk st7 0 w = Some m.
Proof.
  intros Hin.
  assert (H0 : (0 < List.length st0)%nat) by (rewrite st0_length; lia).
  destruct (tldStates_walkable _ _ _ _ _
              (invA_nodefault _ InvA_st0) (invA_wf _ InvA_st0)
              H0 tr_tlds w Hin) as (m & Hm).
  exists m. eapply walk_Grows; [exact tr_nd1|exact tr_G17|exact Hm].
Qed.

Let ds := tld ++ file ++ ftp ++ http ++ [List.length st4] ++ localhost.

Lemma tr_ds_In s :
  In s ds <-> (20 <= s < List.length st7)%nat /\ s <> full.
Proof.
  pose proof tr_len1. pose proof tr_len2. pose proof tr_len3.
  pose proof tr_len4. pose proof tr_lenP. pose proof tr_len7.
  unfold ds, full.
  rewrite (proj2 (tldStates_Ext _ _ _ _ _ tr_tlds)).
  rewrite (proj2 (stateify_Ext _ _ _ _ _ _ _ tr_file)).
  rewrite (proj2 (stateify_Ext _ _ _ _ _ _ _ tr_ftp)).
  rewrite (proj2 (stateify_Ext _ _ _ _ _ _ _ tr_http)).
  rewrite (proj2 (stateify_Ext _ _ _ _ _ _ _ tr_localhost)).
  fold P. rewrite st0_length.
  rewrite !in_app_iff, !in_seq. simpl In. lia.
Qed.

Lemma tr_ds_dom s :
  (s < List.length st7)%nat ->
  existsb (Nat.eqb s) ds = (Nat.leb 20 s && negb (Nat.eqb s full))%bool.
Proof.
  intros Hs. apply eq_true_iff_eq.
  rewrite existsb_eqb_In, tr_ds_In, andb_true_iff, negb_true_iff,
    Nat.leb_le, Nat.eqb_neq. lia.
Qed.

Variable A : Scanner.
Hypothesis tr_states : states A = withDefault st8.

Lemma tr_len8 : List.length st8 = List.length st7.
Proof. exact (proj1 tr_overlay). Qed.

Lemma tr_final_nth s x :
  nth_error st7 s = Some x ->
  nth_error (states A) s =
  Some (mkState (jumps x ++ fallback ds s)
                (if Nat.eqb s 0 then Some (List.length st7) else d x) (tag x)).
Proof.
  intros Hx. pose proof (nth_error_lt _ _ _ Hx) as Hs.
  rewrite tr_states. unfold withDefault.
  rewrite nth_error_update, nth_error_app1 by (rewrite tr_len8; exact Hs).
  rewrite (proj2 tr_overlay _ _ Hx), tr_len8. fold ds.
  destruct (Nat.eqb s 0); reflexivity.
Qed.

Lemma tr_final_sym :
  nth_error (states A) (List.length st7) =
  Some (mkState [] None (Some TOKENS.SYM)).
Proof.
  pose proof tr_len1. pose proof tr_len2. pose proof tr_len3.
  pose proof tr_len4. pose proof tr_lenP. pose proof tr_len7.
  rewrite tr_states. unfold withDefault.
  rewrite nth_error_update_neq by lia.
  rewrite <- tr_len8, nth_error_snoc, Nat.ltb_irrefl, Nat.eqb_refl. reflexivity.
Qed.

Lemma tr_final_length : List.length (states A) = S (List.length st7).
Proof.
  rewrite tr_states. unfold withDefault.
  rewrite length_update, length_app, tr_len8. simpl. lia.
Qed.

Lemma tr_final_next s c :
  (s < List.length st7)%nat ->
  next (states A) s c =
  match next st7 s c with
  | Some t => Some t
  | None =>
      match fbNext (Nat.leb 20 s && negb (Nat.eqb s full)) s c with
      | Some t => Some t
      | None => if Nat.eqb s 0 then Some (List.length st7) else None
      end
  end.
Proof.
  intros Hs. destruct (nth_error_ex _ _ Hs) as (x & Hx).
  unfold next. rewrite (tr_final_nth _ _ Hx), Hx. simpl.
  rewrite lookupJump_app, (tr_nd7 _ _ Hx).
  destruct (lookupJump c (jumps x)); [reflexivity|].
  rewrite fallback_lookup, tr_ds_dom by
    (try exact Hs; intros s' Hin; apply tr_ds_In in Hin; lia).
  destruct (fbNext _ s c); [reflexivity|].
  destruct (Nat.eqb s 0); reflexivity.
Qed.

Lemma tr_final_default :
  exists x, nth_error (states A) 0 = Some x /\ d x = Some (List.length st7).
Proof.
  pose proof tr_len1. pose proof tr_len2. pose proof tr_len3.
  pose proof tr_len4. pose proof tr_lenP. pose proof tr_len7.
  destruct (nth_error_ex st7 0) as (x & Hx); [lia|].
  eexists. split; [apply (tr_final_nth _ _ Hx)|reflexivity].
Qed.

Lemma tr_final_next_sym c : next (states A) (List.length st7) c = None.
Proof. unfold next. rewrite tr_final_sym. reflexivity. Qed.

Lemma tr_final_emit s :
  (s < List.length st7)%nat -> emit (states A) s = emit st7 s.
Proof.
  intros Hs. destruct (nth_error_ex _ _ Hs) as (x & Hx).
  unfold emit. rewrite (tr_final_nth _ _ Hx), Hx. reflexivity.
Qed.

Lemma tr_final_emit_sym : emit (states A) (List.length st7) = Some TOKENS.SYM.
Proof. unfold emit. rewrite tr_final_sym. reflexivity. Qed.

(** Every edge is keyed by a symbol or whitespace character of lines 40
    to 63 or by a character of a literal. *)
Lemma tr_keys s x c t :
  nth_error st7 s = Some x -> In (c, t) (jumps x) ->
  symbolTarget c <> None \/ In c (List.concat tlds) \/
  In c (js "fileftphttplocalhost:s").
Proof.
  assert (K0 : Typed (fun _ _ c _ => symbolTarget c <> None) st0).
  { intros s0 x0 c0 t0 Hx Hin.
    destruct (invA_typed _ InvA_st0 _ _ _ _ Hx Hin)
      as [[_ H]|[(_ & H & _)|[(H & _ & H20 & _)|(H20 & _)]]].
    - congruence.
    - intros Hp. exact (plainChar_WS _ H Hp).
    - pose proof (invA_wf _ InvA_st0 _ _ _ _ Hx Hin) as Hlt.
      rewrite st0_length in Hlt. lia.
    - apply nth_error_lt in Hx. rewrite st0_length in Hx. lia. }
  set (K := fun (_ : nat) (c : char) (_ : nat) =>
              In c (List.concat tlds) \/ In c (js "fileftphttplocalhost:s")).
  set (Any := fun _ : option TokenClass => True).
  assert (X1 : Ext K Any st0 st1).
  { eapply Ext_weaken; [| |exact E1]; cbv beta; unfold K, Any; auto.
    intros _ c0 _ [H _]. auto. }
  assert (X2 : Ext K Any st1 st2).
  { eapply Ext_weaken; [| |exact E2]; cbv beta; unfold K, Any; auto.
    intros _ c0 _ [H _]. right. revert H. apply incl_isIn. reflexivity. }
  assert (X3 : Ext K Any st2 st3).
  { eapply Ext_weaken; [| |exact E3]; cbv beta; unfold K, Any; auto.
    intros _ c0 _ [H _]. right. revert H. apply incl_isIn. reflexivity. }
  assert (X4 : Ext K Any st3 st4).
  { eapply Ext_weaken; [| |exact E4]; cbv beta; unfold K, Any; auto.
    intros _ c0 _ [H _]. right. revert H. apply incl_isIn. reflexivity. }
  assert (XP : Ext K Any st4 P).
  { assert (Ks : forall s0 t0, K s0 (chr "s") t0)
      by (intros; right; apply isIn_In; reflexivity).
    assert (Kc : forall s0 t0, K s0 COLON t0)
      by (intros; right; apply isIn_In; reflexivity).
    unfold P, withProtocols. cbv zeta.
    eapply Ext_trans; [|apply Ext_addJump; apply Kc].
    eapply Ext_trans; [|apply Ext_addJump; apply Kc].
    eapply Ext_trans; [|apply Ext_addJump; apply Kc].
    eapply Ext_trans; [|apply Ext_addJump; apply Ks].
    eapply Ext_trans; [|apply Ext_addJump; apply Kc].
    eapply Ext_trans; [|apply Ext_addJump; apply Ks].
    eapply Ext_trans; apply Ext_snoc; exact I. }
  assert (X7 : Ext K Any P st7).
  { eapply Ext_weaken; [| |exact E7]; cbv beta; unfold K, Any; auto.
    intros _ c0 _ [H _]. right. revert H. apply incl_isIn. reflexivity. }
  assert (E : Ext K Any st0 st7).
  { eapply Ext_trans; [exact X1|]. eapply Ext_trans; [exact X2|].
    eapply Ext_trans; [exact X3|]. eapply Ext_trans; [exact X4|].
    eapply Ext_trans; [exact XP|exact X7]. }
  clear X1 X2 X3 X4 XP X7.
  intros Hx Hin. destruct E as [A0 B0].
  destruct (Nat.lt_ge_cases s (List.length st0)) as [Hlt|Hge].
  - destruct (nth_error_ex _ _ Hlt) as (x0 & Hx0).
    destruct (A0 _ _ Hx0) as (y & Hy & _ & _ & more & Hj & Hmore).
    rewrite Hx in Hy. injection Hy as <-.
    rewrite Hj in Hin. apply in_app_or in Hin. destruct Hin as [Hin|Hin].
    + left. eapply K0; eauto.
    + right. eapply Hmore; eauto.
  - right. destruct (B0 _ _ Hx Hge) as (_ & _ & Hmore). eapply Hmore; eauto.
Qed.

Lemma tr_emit_47 s :
  (s < List.length st4)%nat -> emit st7 s = emit st4 s.
Proof.
  intros Hs. pose proof tr_lenP as LP. unfold P in LP.
  rewrite (Ext_emit_old _ _ _ _ s E7) by lia.
  apply (Ext_emit_old _ _ _ _ s EP). exact Hs.
Qed.

Section Plain.

Hypothesis plain : plainTlds tlds.

Lemma tr_inv1 : InvA st1 /\ TrieInv tlds st1.
Proof.
  apply (tldStates_inv tlds [] [] st0 tld st1 plain InvA_st0 TrieInv_st0 tr_tlds).
Qed.

Lemma tr_inv2 : InvA st2.
Proof.
  pose proof tr_len1.
  eapply (stateify_InvA T_DOMAIN T_DOMAIN T_DOMAIN_ok T_DOMAIN_ok);
    [apply plainWord_file|exact (proj1 tr_inv1)|apply srcOK_start| |exact tr_file].
  lia.
Qed.

Lemma tr_inv3 : InvA st3.
Proof.
  pose proof tr_len1. pose proof tr_len2.
  eapply (stateify_InvA T_DOMAIN T_DOMAIN T_DOMAIN_ok T_DOMAIN_ok);
    [apply plainWord_ftp|exact tr_inv2|apply srcOK_start| |exact tr_ftp].
  lia.
Qed.

Lemma tr_inv4 : InvA st4.
Proof.
  pose proof tr_len1. pose proof tr_len2. pose proof tr_len3.
  eapply (stateify_InvA T_DOMAIN T_DOMAIN T_DOMAIN_ok T_DOMAIN_ok);
    [apply plainWord_http|exact tr_inv3|apply srcOK_start| |exact tr_http].
  lia.
Qed.

Lemma tr_invP : InvA P.
Proof.
  pose proof tr_len1. pose proof tr_len2. pose proof tr_len3. pose proof tr_len4.
  destruct tr_file_facts as (_ & Hf & _ & Hbf).
  destruct tr_ftp_facts as (_ & Hp & _ & _ & Hbp).
  destruct tr_http_facts as (_ & Hh & _ & _ & Hbh).
  rewrite tr_emit_47 in Hf, Hp, Hh by lia.
  apply withProtocols_InvA; try exact tr_inv4; try lia; left; assumption.
Qed.

Lemma tr_inv7 : InvA st7.
Proof.
  pose proof tr_lenP.
  eapply (stateify_InvA T_LOCALHOST T_DOMAIN T_LOCALHOST_ok T_DOMAIN_ok);
    [apply plainWord_localhost|exact tr_invP|apply srcOK_start|
    |exact tr_localhost].
  fold P. lia.
Qed.

Lemma tr_tld_recognised l1 w l2 :
  tlds = l1 ++ w :: l2 -> w <> [] ->
  (forall u, In u l1 -> ~ isPrefix w u) ->
  exists m, walk st7 0 w = Some m /\ emit st7 m = Some TOKENS.TLD.
Proof.
  intros E Hne Hf.
  destruct (tldStates_recognised tlds [] [] st0 tld st1 plain InvA_st0
              TrieInv_st0 tr_tlds l1 w l2 E Hne Hf) as (m & Hw & He).
  exists m. split.
  - eapply walk_Grows; [exact tr_nd1|exact tr_G17|exact Hw].
  - eapply Grows_emit; [exact tr_G17|exact He].
Qed.

(** After the loop over the top-level domains no state gets that tag
    and no edge is added that leads to a state made in the loop. *)
Lemma tr_ext17 :
  Ext (fun _ _ t => (List.length st1 <= t)%nat)
      (fun tg => tg <> Some TOKENS.TLD) st1 st7.
Proof.
  pose proof tr_len1. pose proof tr_len2. pose proof tr_len3.
  pose proof tr_len4. pose proof tr_lenP. pose proof tr_len7.
  eapply Ext_trans; [eapply Ext_weaken; [| |exact E2]|]; cbv beta.
  { intros _ _ t [_ Hb]. lia. }
  { intros tg [->| ->]; discriminate. }
  eapply Ext_trans; [eapply Ext_weaken; [| |exact E3]|]; cbv beta.
  { intros _ _ t [_ Hb]. lia. }
  { intros tg [->| ->]; discriminate. }
  eapply Ext_trans; [eapply Ext_weaken; [| |exact E4]|]; cbv beta.
  { intros _ _ t [_ Hb]. lia. }
  { intros tg [->| ->]; discriminate. }
  eapply Ext_trans; [eapply Ext_weaken; [| |exact EP]|]; cbv beta.
  { intros _ _ t Hb. lia. }
  { intros tg [->| ->]; discriminate. }
  eapply Ext_weaken; [| |exact E7]; cbv beta.
  { intros _ _ t [_ Hb]. fold P in Hb. lia. }
  { intros tg [->| ->]; discriminate. }
Qed.

Lemma tr_tld_only u m :
  walk st7 0 u = Some m -> emit st7 m = Some TOKENS.TLD -> In u tlds.
Proof.
  intros Hw He. pose proof tr_len1 as L1.
  assert (Hm7 : (m < List.length st7)%nat).
  { unfold emit in He. destruct (nth_error st7 m) eqn:E; [|discriminate].
    eapply nth_error_lt; eauto. }
  assert (Hm1 : (m < List.length st1)%nat).
  { destruct (Nat.lt_ge_cases m (List.length st1)) as [|Hge]; [assumption|].
    exfalso. apply (Ext_emit_new _ _ _ _ m tr_ext17); [lia|exact He]. }
  rewrite (Ext_emit_old _ _ _ _ m tr_ext17 Hm1) in He.
  assert (H20 : (20 <= m)%nat).
  { destruct (Nat.lt_ge_cases m 20) as [Hlt|]; [|assumption]. exfalso.
    rewrite (Ext_emit_old _ _ _ _ m E1) in He by (rewrite st0_length; exact Hlt).
    apply st0_tags in He. tauto. }
  eapply (trie_tld _ _ (proj2 tr_inv1)); [|exact H20|exact He].
  eapply walk_old; [exact tr_ext17|exact tr_nd7| |lia|exact Hw|exact Hm1].
  cbv beta. auto.
Qed.

Lemma tr_localhost_keys s c m :
  next st7 s c = Some m -> emit st7 m = Some TOKENS.LOCALHOST ->
  In c (js "localhost").
Proof.
  intros Hn He.
  pose proof tr_len1. pose proof tr_len2. pose proof tr_len3.
  pose proof tr_len4. pose proof tr_lenP as LP. pose proof tr_len7 as L7.
  pose proof tr_wfP as WP.
  unfold P in LP, L7, WP.
  set (Q := withProtocols st4 sfile sftp shttp) in *.
  pose proof (next_lt _ _ _ _ Hn) as Hs.
  destruct (nth_error_ex _ _ Hs) as (x' & Hx').
  pose proof (next_edge _ _ _ _ _ tr_nd7 Hx' Hn) as Hin.
  assert (HmP : (List.length Q <= m)%nat).
  { destruct (Nat.lt_ge_cases m (List.length Q)) as [Hlt|]; [|assumption].
    exfalso. rewrite (Ext_emit_old _ _ _ _ m E7 Hlt) in He.
    destruct (Nat.lt_ge_cases m (List.length st4)) as [Hlt4|Hge4].
    - rewrite (Ext_emit_old _ _ _ _ m EP Hlt4) in He.
      destruct (Nat.lt_ge_cases m 20) as [Hlt0|Hge0].
      + assert (E : emit st4 m = emit st0 m).
        { rewrite <- tr_emit_47 by lia.
          apply (Ext_emit_old _ _ _ _ m tr_ext). rewrite st0_length. exact Hlt0. }
        rewrite E in He. apply st0_tags in He. tauto.
      + assert (X : emit st4 m = Some T_TLD \/ emit st4 m = Some T_DOMAIN).
        { destruct (Nat.lt_ge_cases m (List.length st1)).
          - rewrite (Ext_emit_old _ _ _ _ m E4), (Ext_emit_old _ _ _ _ m E3),
              (Ext_emit_old _ _ _ _ m E2) by lia.
            apply (Ext_emit_new _ _ _ _ m E1). rewrite st0_length. lia.
          - destruct (Nat.lt_ge_cases m (List.length st2)).
            + rewrite (Ext_emit_old _ _ _ _ m E4), (Ext_emit_old _ _ _ _ m E3) by lia.
              right. destruct (Ext_emit_new _ _ _ _ m E2) as [X|X]; [lia|exact X|exact X].
            + destruct (Nat.lt_ge_cases m (List.length st3)).
              * rewrite (Ext_emit_old _ _ _ _ m E4) by lia.
                right. destruct (Ext_emit_new _ _ _ _ m E3) as [X|X]; [lia|exact X|exact X].
              * right. destruct (Ext_emit_new _ _ _ _ m E4) as [X|X]; [lia|exact X|exact X]. }
        rewrite He in X. destruct X; discriminate.
    - destruct (Ext_emit_new _ _ _ _ m EP) as [X|X]; [fold Q; lia| |];
        fold Q in X; rewrite He in X; discriminate. }
  destruct E7 as [A7 B7].
  destruct (Nat.lt_ge_cases s (List.length Q)) as [Hlt|Hge].
  - destruct (nth_error_ex _ _ Hlt) as (x & Hx).
    destruct (A7 _ _ Hx) as (y & Hy & _ & _ & more & Hj & Hmore).
    rewrite Hx' in Hy. injection Hy as <-.
    rewrite Hj in Hin. apply in_app_or in Hin. destruct Hin as [Hin|Hin].
    + pose proof (WP _ _ _ _ Hx Hin). lia.
    + apply Hmore in Hin. tauto.
  - destruct (B7 _ _ Hx' Hge) as (_ & _ & Hmore). apply Hmore in Hin. tauto.
Qed.

(** ** The literals form a trie up to the protocol edges *)

Lemma T_DOMAIN_not_TLD : T_DOMAIN <> TOKENS.TLD.
Proof. discriminate. Qed.

Lemma tr_trie2 : TrieInv (tlds ++ [js "file"]) st2.
Proof.
  apply (stateify_Trie_other T_DOMAIN T_DOMAIN T_DOMAIN_ok T_DOMAIN_ok
           T_DOMAIN_not_TLD T_DOMAIN_not_TLD
           (tlds ++ [js "file"]) (js "file") st1 file st2).
  - apply plainWord_file.
  - exact (proj1 tr_inv1).
  - eapply TrieInv_incl; [|exact (proj2 tr_inv1)].
    intros u Hu. apply in_or_app. auto.
  - apply in_or_app. right. left. reflexivity.
  - exact tr_file.
Qed.

Lemma tr_trie3 : TrieInv (tlds ++ [js "file"; js "ftp"]) st3.
Proof.
  apply (stateify_Trie_other T_DOMAIN T_DOMAIN T_DOMAIN_ok T_DOMAIN_ok
           T_DOMAIN_not_TLD T_DOMAIN_not_TLD
           (tlds ++ [js "file"; js "ftp"]) (js "ftp") st2 ftp st3).
  - apply plainWord_ftp.
  - exact tr_inv2.
  - eapply TrieInv_incl; [|exact tr_trie2].
    intros u Hu. apply in_app_or in Hu. apply in_or_app.
    destruct Hu as [Hu|[<-|[]]]; [left; exact Hu|right; left; reflexivity].
  - apply in_or_app. right. right. left. reflexivity.
  - exact tr_ftp.
Qed.

Lemma tr_trie4 : TrieInv (tlds ++ [js "file"; js "ftp"; js "http"]) st4.
Proof.
  apply (stateify_Trie_other T_DOMAIN T_DOMAIN T_DOMAIN_ok T_DOMAIN_ok
           T_DOMAIN_not_TLD T_DOMAIN_not_TLD
           (tlds ++ [js "file"; js "ftp"; js "http"]) (js "http") st3 http st4).
  - apply plainWord_http.
  - exact tr_inv3.
  - eapply TrieInv_incl; [|exact tr_trie3].
    intros u Hu. apply in_app_or in Hu. apply in_or_app.
    destruct Hu as [Hu|[<-|[<-|[]]]];
      [left; exact Hu|right; left; reflexivity
      |right; right; left; reflexivity].
  - apply in_or_app. right. right. right. left. reflexivity.
  - exact tr_http.
Qed.

(** The protocol states in the store before the protocol edges. *)
Lemma tr_walks4 :
  (walk st4 0 (js "file") = Some sfile /\ (20 <= sfile < List.length st4)%nat) /\
  (walk st4 0 (js "ftp") = Some sftp /\ (20 <= sftp < List.length st4)%nat) /\
  (walk st4 0 (js "http") = Some shttp /\ (20 <= shttp < List.length st4)%nat).
Proof.
  pose proof tr_len1 as L1. pose proof tr_len2 as L2.
  pose proof tr_len3 as L3. pose proof tr_len4 as L4.
  assert (H1 : (0 < List.length st1)%nat) by lia.
  assert (H2 : (0 < List.length st2)%nat) by lia.
  assert (H3 : (0 < List.length st3)%nat) by lia.
  destruct (stateify_popped _ _ _ _ _ _ _ _ tr_nd1 tr_wf1 H1 tr_file tr_pop_file)
    as (Hw1 & _ & Hb1 & _).
  destruct (stateify_popped _ _ _ _ _ _ _ _ tr_nd2 tr_wf2 H2 tr_ftp tr_pop_ftp)
    as (Hw2 & _ & Hb2 & _).
  destruct (stateify_popped _ _ _ _ _ _ _ _ tr_nd3 tr_wf3 H3 tr_http tr_pop_http)
    as (Hw3 & _ & Hb3 & _).
  split; [|split]; (split; [|lia]).
  - eapply walk_Grows; [exact tr_nd2| |exact Hw1].
    eapply Grows_trans; [exact tr_G23|exact tr_G34].
  - eapply walk_Grows; [exact tr_nd3|exact tr_G34|exact Hw2].
  - exact Hw3.
Qed.

Lemma tr_walk_P u m :
  walk P 0 u = Some m ->
  ((m < List.length st4)%nat /\ walk st4 0 u = Some m) \/
  (m = secure /\ (u = js "ftps" \/ u = js "https")) \/
  (m = full /\ In u protocolTexts).
Proof.
  intros Hw.
  destruct tr_walks4 as ((Wf & Bf) & (Wp & Bp) & (Wh & Bh)).
  pose proof (trie_inj _ _ tr_trie4) as Inj.
  assert (If : forall v, walk st4 0 v = Some sfile -> v = js "file").
  { intros v Hv. apply (Inj _ _ _ Hv Wf). lia. }
  assert (Ip : forall v, walk st4 0 v = Some sftp -> v = js "ftp").
  { intros v Hv. apply (Inj _ _ _ Hv Wp). lia. }
  assert (Ih : forall v, walk st4 0 v = Some shttp -> v = js "http").
  { intros v Hv. apply (Inj _ _ _ Hv Wh). lia. }
  destruct (walk_withProtocols st4 sfile sftp shttp tr_inv4
              ltac:(lia) ltac:(lia) ltac:(lia) u m Hw)
    as [H|[(-> & v & -> & Hv)|(-> & v & -> & Hv)]].
  - left. exact H.
  - right; left. split; [reflexivity|].
    destruct Hv as [Hv|Hv]; [apply Ip in Hv|apply Ih in Hv]; subst v; auto.
  - right; right. split; [reflexivity|]. unfold protocolTexts.
    destruct Hv as [Hv|[Hv|[Hv|(v' & -> & [Hv|Hv])]]].
    + apply Ip in Hv. subst v. right; left. reflexivity.
    + apply Ih in Hv. subst v. right; right; left. reflexivity.
    + apply If in Hv. subst v. left. reflexivity.
    + apply Ip in Hv. subst v'. do 3 right. left. reflexivity.
    + apply Ih in Hv. subst v'. do 4 right. left. reflexivity.
Qed.

(** "localhost" gets a state of its own, tagged LOCALHOST and with no
    edge yet, unless a top-level domain begins with it. *)
Lemma tr_localhost_new :
  (forall u, In u tlds -> ~ isPrefix (js "localhost") u) ->
  exists m, walk st7 0 (js "localhost") = Some m /\
            emit st7 m = Some TOKENS.LOCALHOST /\
            forall c, next st7 m c = None.
Proof.
  intros Hno. pose proof tr_lenP as LP. pose proof tr_len1 as L1.
  pose proof tr_len2 as L2. pose proof tr_len3 as L3. pose proof tr_len4 as L4.
  assert (H0 : (0 < List.length P)%nat) by lia.
  assert (Hnone : walk P 0 (js "localhost") = None).
  { destruct (walk P 0 (js "localhost")) as [m|] eqn:Hw; [exfalso|reflexivity].
    destruct (tr_walk_P _ _ Hw) as [[Hm Hw4]|[(_ & [E|E])|(_ & E)]].
    - destruct (walk_srcOK st4 (js "localhost") tr_inv4 plainWord_localhost
                  0%nat m (srcOK_start _) ltac:(lia) Hw4) as [[->|[H20 _]] _].
      + apply walk_zero in Hw4; [discriminate Hw4|exact tr_inv4].
      + destruct (trie_prefix _ _ tr_trie4 _ _ Hw4 H20) as (w & Hin & Hp).
        apply in_app_or in Hin. destruct Hin as [Hin|[<-|[<-|[<-|[]]]]].
        * exact (Hno _ Hin Hp).
        * destruct Hp as (r & E). discriminate E.
        * destruct Hp as (r & E). discriminate E.
        * destruct Hp as (r & E). discriminate E.
    - discriminate E.
    - discriminate E.
    - unfold protocolTexts in E. simpl in E.
      repeat (destruct E as [E|E]; [discriminate E|]). exact E. }
  destruct (stateify_walk _ _ _ _ _ _ _ tr_ndP tr_wfP H0 tr_localhost)
    as [Ha Hb].
  destruct (nil_or_not localhost) as [E|E].
  - destruct (Ha E) as (m & Hm). fold P in Hm. congruence.
  - destruct (Hb E) as (m & x & Hw & _ & Hx & Ht & Hj).
    exists m. split; [exact Hw|]. split.
    + unfold emit. rewrite Hx. exact Ht.
    + intros c. unfold next. rewrite Hx, Hj. simpl. exact (tr_nd7 _ _ Hx).
Qed.

(** Only the schemes followed by the colon lead to the state that
    completes a protocol. *)
Lemma tr_protocol_texts u m :
  walk st7 0 u = Some m -> emit st7 m = Some TOKENS.PROTOCOL ->
  In u protocolTexts.
Proof.
  intros Hw He. pose proof tr_lenP as LP. pose proof tr_len1 as L1.
  pose proof tr_len2 as L2. pose proof tr_len3 as L3. pose proof tr_len4 as L4.
  pose proof tr_len7 as L7.
  unfold P in LP, L7.
  assert (Hm7 : (m < List.length st7)%nat).
  { unfold emit in He. destruct (nth_error st7 m) eqn:E; [|discriminate].
    eapply nth_error_lt; eauto. }
  assert (Hfull : m = full).
  { destruct (Nat.lt_ge_cases m (List.length (withProtocols st4 sfile sftp shttp)))
      as [HltP|HgeP].
    - rewrite (Ext_emit_old _ _ _ _ m E7) in He by exact HltP.
      destruct (Nat.lt_ge_cases m (List.length st4)) as [Hlt4|Hge4].
      + exfalso. rewrite (Ext_emit_old _ _ _ _ m EP) in He by exact Hlt4.
        destruct (Nat.lt_ge_cases m (List.length st3)) as [Hlt3|Hge3].
        * rewrite (Ext_emit_old _ _ _ _ m E4) in He by exact Hlt3.
          destruct (Nat.lt_ge_cases m (List.length st2)) as [Hlt2|Hge2].
          -- rewrite (Ext_emit_old _ _ _ _ m E3) in He by exact Hlt2.
             destruct (Nat.lt_ge_cases m (List.length st1)) as [Hlt1|Hge1].
             ++ rewrite (Ext_emit_old _ _ _ _ m E2) in He by exact Hlt1.
                destruct (Nat.lt_ge_cases m 20) as [Hlt0|Hge0].
                ** rewrite (Ext_emit_old _ _ _ _ m E1) in He
                     by (rewrite st0_length; exact Hlt0).
                   apply st0_tags in He. tauto.
                ** destruct (Ext_emit_new _ _ _ _ m E1) as [X|X];
                     [rewrite st0_length; lia| |]; rewrite He in X; discriminate.
             ++ destruct (Ext_emit_new _ _ _ _ m E2) as [X|X]; [lia| |];
                  rewrite He in X; discriminate.
          -- destruct (Ext_emit_new _ _ _ _ m E3) as [X|X]; [lia| |];
               rewrite He in X; discriminate.
        * destruct (Ext_emit_new _ _ _ _ m E4) as [X|X]; [lia| |];
            rewrite He in X; discriminate.
      + rewrite withProtocols_length in HltP.
        assert (Hc : m = List.length st4 \/ m = S (List.length st4)) by lia.
        destruct Hc as [->| ->]; [exfalso|reflexivity].
        destruct tr_secure_facts as (Hs & _).
        rewrite (Ext_emit_old _ _ _ _ _ E7) in Hs
          by (rewrite withProtocols_length; unfold secure; lia).
        unfold secure in Hs. rewrite Hs in He. discriminate.
    - exfalso. destruct (Ext_emit_new _ _ _ _ m E7) as [X|X]; [lia| |];
        rewrite He in X; discriminate. }
  subst m.
  assert (HwP : walk P 0 u = Some full).
  { eapply (walk_old _ _ _ _ E7 tr_nd7); [| |exact Hw|].
    - cbv beta. intros s c t [_ Hb]. lia.
    - rewrite withProtocols_length. lia.
    - rewrite withProtocols_length. unfold full. lia. }
  destruct (tr_walk_P _ _ HwP) as [[Hm _]|[(E & _)|(_ & E)]].
  - unfold full in Hm. lia.
  - unfold full, secure in E. lia.
  - exact E.
Qed.

End Plain.


End AlongTheTrace.

(** Every scanner that is built has the facts of [Built]. *)
Lemma scanner_Built (tlds : list jsstring) (A : Scanner) :
  scanner tlds = Some A -> Built tlds A.
Proof.
  intros H. apply scanner_Trace in H.
  destruct H as [tld st1 file st2 ftp st3 http st4 sfile sftp shttp localhost
                   st7 st8 Htld Hfile Hftp Hhttp Hpf Hpp Hph Hloc Hov Hst Hstart].
  assert (L7 : (S (S (List.length st4)) <= List.length st7)%nat).
  { rewrite <- (tr_lenP st4 sfile sftp shttp). eapply tr_len7; eauto. }
  assert (L1 : (20 <= List.length st4)%nat).
  { assert (20 <= List.length st1)%nat by (eapply tr_len1; eauto).
    assert (List.length st1 <= List.length st2)%nat by (eapply tr_len2; eauto).
    assert (List.length st2 <= List.length st3)%nat by (eapply tr_len3; eauto).
    assert (List.length st3 <= List.length st4)%nat by (eapply tr_len4; eauto).
    lia. }
  eapply mkBuilt with (M := st7) (full := S (List.length st4))
                      (file := sfile) (ftp := sftp) (http := shttp)
                      (secure := List.length st4).
  - exact Hstart.
  - eapply tr_nd7; eauto.
  - eapply tr_wf7; eauto.
  - eapply tr_ext; eauto.
  - lia.
  - eapply tr_final_length; eauto.
  - eapply tr_final_next; eauto.
  - eapply tr_final_next_sym; eauto.
  - eapply tr_final_emit; eauto.
  - eapply tr_final_emit_sym; eauto.
  - eapply tr_walkable; eauto.
  - edestruct tr_file_facts as (F1 & F2 & F3 & _);
      [exact Htld|exact Hfile|exact Hftp|exact Hhttp|exact Hpf|exact Hloc|]. auto.
  - edestruct tr_ftp_facts as (F1 & F2 & F3 & F4 & _);
      [exact Htld|exact Hfile|exact Hftp|exact Hhttp|exact Hpp|exact Hloc|]. auto.
  - edestruct tr_http_facts as (F1 & F2 & F3 & F4 & _);
      [exact Htld|exact Hfile|exact Hftp|exact Hhttp|exact Hph|exact Hloc|]. auto.
  - edestruct tr_secure_facts as (F1 & F2 & F3);
      [exact Htld|exact Hfile|exact Hftp|exact Hhttp|exact Hloc|]. auto.
  - eapply tr_localhost_walk; eauto.
  - eapply tr_keys; eauto.
  - eapply tr_final_default; eauto.
  - intros plain. split.
    + eapply tr_inv7; eauto.
    + edestruct tr_secure_facts as (F1 & F2 & F3);
      [exact Htld|exact Hfile|exact Hftp|exact Hhttp|exact Hloc|]. exact F3.
    + eapply tr_tld_recognised; eauto.
    + eapply tr_tld_only; eauto.
    + eapply tr_localhost_keys; eauto.
    + eapply tr_localhost_new; eauto.
    + eapply tr_protocol_texts; eauto.
Qed.

Ltac built H :=
  destruct H as [M full file ftp http secure Bstart Bnd Bwf Bext Bfull Blen
                   Bnext Bnextsym Bemit Bemitsym Bwalkable Bfile Bftp Bhttp
                   Bsecure Blocalhost Bkeys Bdefault Bplain].

(* ------------------------------------------------------------------ *)
(** * Progress of the scanner *)

Lemma st0_start_targets c t x :
  nth_error st0 0 = Some x -> In (c, t) (jumps x) ->
  (4 <= t < 20)%nat /\ emit st0 t <> None.
Proof.
  intros Hx Hin. simpl in Hx. injection Hx as <-. simpl in Hin.
  repeat (destruct Hin as [[= <- <-]|Hin]; [split; [lia|discriminate]|]).
  destruct Hin.
Qed.

Lemma Built_start_tag tlds A :
  Built tlds A -> emit (states A) (start A) = None.
Proof.
  intros HB. built HB.
  rename Bstart into Hs, Bext into HE, Bemit into He.
  rewrite Hs. rewrite He by lia.
  rewrite (Ext_emit_old _ _ _ _ 0%nat HE) by (rewrite st0_length; lia).
  reflexivity.
Qed.

Lemma Built_Progress tlds A : Built tlds A -> Progress A.
Proof.
  intros HB c. built HB.
  rename Bstart into Hs, Bnd into Hd, Bwf into Hw, Bext into HE, Bnext into Hn,
    Bemit into He, Bemitsym into Hes.
  assert (H0 : (0 < List.length M)%nat) by lia.
  rewrite Hs, (Hn 0%nat c H0).
  destruct (next M 0 c) as [t|] eqn:En.
  - exists t. split; [reflexivity|].
    destruct (nth_error_ex _ _ H0) as (x' & Hx').
    pose proof (next_edge _ _ _ _ _ Hd Hx' En) as Hin.
    pose proof (Hw _ _ _ _ Hx' Hin) as Ht.
    unfold accepts. rewrite (He _ Ht).
    destruct HE as [A0 B0].
    destruct (nth_error_ex st0 0) as (x & Hx); [rewrite st0_length; lia|].
    destruct (A0 _ _ Hx) as (y & Hy & _ & _ & more & Hj & Hmore).
    rewrite Hx' in Hy. injection Hy as <-.
    rewrite Hj in Hin. apply in_app_or in Hin. destruct Hin as [Hin|Hin].
    + destruct (st0_start_targets _ _ _ Hx Hin) as [Hb Hne].
      destruct (nth_error_ex st0 t) as (z & Hz); [rewrite st0_length; lia|].
      destruct (A0 _ _ Hz) as (z' & Hz' & Htag & _).
      unfold emit in *. rewrite Hz', Htag. rewrite Hz in Hne.
      destruct (tag z); [reflexivity|congruence].
    + apply Hmore in Hin.
      destruct (nth_error_ex _ _ Ht) as (z' & Hz').
      destruct (B0 _ _ Hz') as ((Hne & _) & _); [rewrite st0_length; lia|].
      unfold emit. rewrite Hz'. destruct (tag z'); [reflexivity|congruence].
  - cbn [fbNext Nat.leb andb Nat.eqb].
    destruct (isIn c NUM).
    + exists 1%nat. split; [reflexivity|]. unfold accepts.
      rewrite He by lia.
      rewrite (Ext_emit_old _ _ _ _ 1%nat HE) by (rewrite st0_length; lia).
      reflexivity.
    + exists (List.length M). split; [reflexivity|].
      unfold accepts. rewrite Hes. reflexivity.
Qed.

(* ------------------------------------------------------------------ *)
(** * Cutting a scan into tokens *)

Section TokenCuts.

Variable A : Scanner.

Lemma accepts_emit s : accepts (states A) s = true <-> emit (states A) s <> None.
Proof. unfold accepts. destruct (emit (states A) s); split; congruence. Qed.

Lemma accepts_false s : accepts (states A) s = false <-> emit (states A) s = None.
Proof. unfold accepts. destruct (emit (states A) s); split; congruence. Qed.

(** Reading on after [u] changes nothing when the walk over [u] fails or
    ends in a state with no successor on what follows. *)
Lemma steps_app_stuck (u v : jsstring) :
  forall s,
    (forall m, walk (states A) s u = Some m -> steps (states A) m v = []) ->
    steps (states A) s (u ++ v) = steps (states A) s u.
Proof.
  induction u as [|c u IH]; intros s H; simpl.
  - rewrite (H s eq_refl). destruct v; reflexivity.
  - destruct (next (states A) s c) as [n|] eqn:E; [|reflexivity].
    f_equal. apply IH. intros m Hm. apply H. simpl. rewrite E. exact Hm.
Qed.

(** The scan stops right after [w] when [w] leads to an accepting state
    that has no successor on the next character. *)
Lemma lastAcc_stop (s : nat) (w r : jsstring) (m : nat) :
  walk (states A) s w = Some m -> w <> [] ->
  accepts (states A) m = true ->
  steps (states A) m r = [] ->
  lastAcc (states A) (steps (states A) s (w ++ r)) = Some (List.length w, m).
Proof.
  intros Hw Hne Ha Hr.
  rewrite steps_app_stuck by (intros m' Hm'; congruence).
  destruct (steps_last _ _ _ _ Hw Hne) as (pre & E).
  pose proof (steps_complete _ _ _ _ Hw) as Hl.
  rewrite E in *. rewrite lastAcc_app_acc by exact Ha.
  rewrite length_app in Hl. simpl in Hl.
  f_equal. f_equal. lia.
Qed.

Lemma steps_nil_cases (m : nat) (r : jsstring) :
  (r = [] \/ exists c r', r = c :: r' /\ next (states A) m c = None) ->
  steps (states A) m r = [].
Proof.
  intros [->|(c & r' & -> & H)]; simpl; [reflexivity|]. rewrite H. reflexivity.
Qed.

(** The first token of a scan. *)
Lemma Tokenizes_cons (str w r : jsstring) (m : nat) (TOKEN : TokenClass)
    (tokens : list Token) :
  w <> [] ->
  walk (states A) (start A) w = Some m ->
  emit (states A) m = Some TOKEN ->
  steps (states A) m r = [] ->
  Tokenizes A (skipn (List.length w) str) r tokens ->
  Tokenizes A str (w ++ r)
    (mkToken TOKEN (firstn (List.length w) str) :: tokens).
Proof.
  intros Hne Hw He Hr HT.
  apply Tok_emit with (s := m).
  - destruct w; [congruence|discriminate].
  - apply lastAcc_stop; auto. apply accepts_emit. congruence.
  - exact He.
  - rewrite skipn_app, skipn_all, Nat.sub_diag. exact HT.
Qed.

(** The part of the text a scan has not reached cannot change its
    tokens: a scan of [low1 ++ low2] is a scan of [low1] followed by one
    of [low2] when no walk over an end of [low1] can go on into [low2]. *)
Lemma Tokenizes_app (str2 low2 : jsstring) (t2 : list Token) :
  Tokenizes A str2 low2 t2 ->
  forall str1 low1 t1,
    Tokenizes A str1 low1 t1 ->
    List.length str1 = List.length low1 ->
    (forall q p m, low1 = q ++ p -> p <> [] ->
                   walk (states A) (start A) p = Some m ->
                   steps (states A) m low2 = []) ->
    Tokenizes A (str1 ++ str2) (low1 ++ low2) (t1 ++ t2).
Proof.
  intros H2.
  induction 1 as [str|str lowerStr L s TOKEN tokens Hne HL He HT IH
                 |str lowerStr tokens Hne HL k HT IH]; intros Hlen Hb.
  - destruct str; [exact H2|discriminate].
  - assert (Est : steps (states A) (start A) (lowerStr ++ low2) =
                  steps (states A) (start A) lowerStr).
    { apply steps_app_stuck. intros m Hm. apply (Hb [] lowerStr m); auto. }
    destruct (lastAcc_bounds _ _ _ _ HL) as (HbL & _).
    pose proof (steps_length (states A) (start A) lowerStr) as Hsl.
    assert (HLs : (L <= List.length str)%nat) by lia.
    replace (firstn L str) with (firstn L (str ++ str2))
      by (rewrite firstn_app; replace (L - List.length str)%nat with 0%nat by lia;
          rewrite firstn_O, app_nil_r; reflexivity).
    simpl. apply Tok_emit with (s := s).
    + destruct lowerStr; [congruence|discriminate].
    + rewrite Est. exact HL.
    + exact He.
    + rewrite !skipn_app.
      replace (L - List.length str)%nat with 0%nat by lia.
      replace (L - List.length lowerStr)%nat with 0%nat by lia.
      simpl. apply IH.
      * rewrite !length_skipn. lia.
      * intros q p m Eq Hp Hm. apply (Hb (firstn L lowerStr ++ q) p m); auto.
        rewrite <- app_assoc, <- Eq. symmetry. apply firstn_skipn.
  - assert (Est : steps (states A) (start A) (lowerStr ++ low2) =
                  steps (states A) (start A) lowerStr).
    { apply steps_app_stuck. intros m Hm. apply (Hb [] lowerStr m); auto. }
    pose proof (steps_length (states A) (start A) lowerStr) as Hsl.
    fold k in Hsl.
    apply Tok_skip.
    + destruct lowerStr; [congruence|discriminate].
    + rewrite Est. exact HL.
    + cbv zeta. rewrite Est. fold k. rewrite !skipn_app.
      replace (k - List.length str)%nat with 0%nat by lia.
      replace (k - List.length lowerStr)%nat with 0%nat by lia.
      simpl. apply IH.
      * rewrite !length_skipn. lia.
      * intros q p m Eq Hp Hm. apply (Hb (firstn k lowerStr ++ q) p m); auto.
        rewrite <- app_assoc, <- Eq. symmetry. apply firstn_skipn.
Qed.

(** Two scans over the same working copy cut at the same places and give
    the same classes. *)
Lemma Tokenizes_shape (str1 low : jsstring) (t1 : list Token) :
  Tokenizes A str1 low t1 ->
  forall str2 t2,
    Tokenizes A str2 low t2 ->
    List.length str1 = List.length low ->
    List.length str2 = List.length low ->
    map tokenClass t1 = map tokenClass t2 /\
    map (fun t => List.length (text t)) t1 =
    map (fun t => List.length (text t)) t2.
Proof.
  induction 1 as [str|str lowerStr L s TOKEN tokens Hne HL He HT IH
                 |str lowerStr tokens Hne HL k HT IH];
    intros str2 t2 H2 Hl1 Hl2; inversion H2; subst; try congruence.
  - auto.
  - rewrite HL in H0. injection H0 as <- <-.
    rewrite He in H1. injection H1 as <-.
    destruct (IH _ _ H3) as (IH1 & IH2); [rewrite !length_skipn; lia..|].
    simpl. rewrite IH1, IH2, !length_firstn.
    split; [reflexivity|]. f_equal. lia.
  - apply (IH _ _ H1); rewrite !length_skipn; lia.
Qed.

(** Every token is the longest prefix of what remained that leads to an
    accepting state, and its class is the tag of that state. *)
Lemma Tokenizes_longest (str low : jsstring) (tokens : list Token) :
  Progress A ->
  Tokenizes A str low tokens ->
  List.length str = List.length low ->
  forall before t after,
    tokens = before ++ t :: after ->
    let k := List.length (List.concat (map text before)) in
    let rest := skipn k low in
    let L := List.length (text t) in
    (1 <= L <= List.length rest)%nat /\
    text t = firstn L (skipn k str) /\
    exists s,
      lastAcc (states A) (steps (states A) (start A) rest) = Some (L, s) /\
      walk (states A) (start A) (firstn L rest) = Some s /\
      emit (states A) s = Some (tokenClass t) /\
      forall n s', (L < n <= List.length rest)%nat ->
                   walk (states A) (start A) (firstn n rest) = Some s' ->
                   emit (states A) s' = None.
Proof.
  intros P.
  induction 1 as [str|str lowerStr L s TOKEN tokens Hne HL He HT IH
                 |str lowerStr tokens Hne HL k HT IH]; intros Hlen.
  - intros [|? ?] ? ? E; discriminate E.
  - destruct (lastAcc_bounds _ _ _ _ HL) as (HbL & Hn & Ha & Hk).
    pose proof (steps_length (states A) (start A) lowerStr) as Hsl.
    assert (EL : List.length (firstn L str) = L) by (rewrite length_firstn; lia).
    intros [|b before] t after E; simpl in E; injection E as <- E.
    + cbn [map List.concat List.length skipn text tokenClass]. rewrite EL.
      split; [lia|]. split; [reflexivity|].
      exists s. split; [exact HL|]. split; [|split; [exact He|]].
      * replace L with (S (L - 1)) by lia. apply steps_walk.
        replace (S (L - 1) - 1)%nat with (L - 1)%nat by lia. exact Hn.
      * intros n s' Hn' Hw. apply accepts_false.
        apply (Hk (n - 1)%nat); [lia|].
        apply walk_steps; [lia|]. replace (S (n - 1)) with n by lia. exact Hw.
    + cbn [map List.concat text]. rewrite length_app, EL.
      assert (Hl' : List.length (skipn L str) = List.length (skipn L lowerStr))
        by (rewrite !length_skipn; lia).
      pose proof (IH Hl' before t after E) as X. cbv zeta in X.
      rewrite !skipn_skipn in X.
      rewrite (Nat.add_comm L). exact X.
  - exfalso. destruct (progress_lastAcc A P _ Hne) as (L & s & E).
    congruence.
Qed.

End TokenCuts.

Section TokenCuts2.

Variable A : Scanner.

Lemma lastAcc_nowhere (vis : list nat) :
  Forall (fun n => accepts (states A) n = false) vis ->
  lastAcc (states A) vis = None.
Proof.
  induction 1 as [|n vis Hn _ IH]; simpl; [reflexivity|].
  rewrite IH, Hn. reflexivity.
Qed.

Lemma lastAcc_prepend (pre vis : list nat) (L s : nat) :
  lastAcc (states A) vis = Some (L, s) ->
  lastAcc (states A) (pre ++ vis) = Some (List.length pre + L, s)%nat.
Proof.
  intros H. induction pre as [|x pre IH]; simpl; [exact H|].
  rewrite IH. reflexivity.
Qed.

(** The scan stops after [w] when [w] leads to an accepting state and
    what it visits afterwards accepts nowhere. *)
Lemma lastAcc_back (s : nat) (w r : jsstring) (m : nat) :
  walk (states A) s w = Some m -> w <> [] ->
  accepts (states A) m = true ->
  Forall (fun n => accepts (states A) n = false) (steps (states A) m r) ->
  lastAcc (states A) (steps (states A) s (w ++ r)) = Some (List.length w, m).
Proof.
  intros Hw Hne Ha Hr.
  rewrite (steps_all _ _ _ _ Hw).
  destruct (steps_last _ _ _ _ Hw Hne) as (pre & E).
  pose proof (steps_complete _ _ _ _ Hw) as Hl.
  rewrite E in *. rewrite length_app in Hl. simpl in Hl.
  rewrite <- app_assoc.
  rewrite (lastAcc_prepend pre _ 1 m).
  - f_equal. f_equal. lia.
  - simpl. rewrite (lastAcc_nowhere _ Hr), Ha. reflexivity.
Qed.

Lemma Tokenizes_back (str w r : jsstring) (m : nat) (TOKEN : TokenClass)
    (tokens : list Token) :
  w <> [] ->
  walk (states A) (start A) w = Some m ->
  emit (states A) m = Some TOKEN ->
  Forall (fun n => accepts (states A) n = false) (steps (states A) m r) ->
  Tokenizes A (skipn (List.length w) str) r tokens ->
  Tokenizes A str (w ++ r)
    (mkToken TOKEN (firstn (List.length w) str) :: tokens).
Proof.
  intros Hne Hw He Hr HT.
  apply Tok_emit with (s := m).
  - destruct w; [congruence|discriminate].
  - apply lastAcc_back; auto. apply accepts_emit. congruence.
  - exact He.
  - rewrite skipn_app, skipn_all, Nat.sub_diag. exact HT.
Qed.

End TokenCuts2.

(* ------------------------------------------------------------------ *)
(** * The transitions of the automaton that is built *)

Lemma plainChar_ALPHANUM c : In c ALPHANUM -> plainChar c.
Proof.
  intros H. unfold ALPHANUM in H. simpl in H.
  repeat (destruct H as [<-|H]; [reflexivity|]). destruct H.
Qed.

Lemma plainChar_HYPHEN : plainChar HYPHEN.
Proof. reflexivity. Qed.

Lemma fbEdge_cases c t :
  fbEdge c = Some t ->
  (c = HYPHEN /\ t = 3%nat) \/ (In c ALPHANUM /\ t = 2%nat).
Proof.
  unfold fbEdge. destruct (N.eqb_spec c HYPHEN) as [ -> | _ ].
  - intros [= <-]. auto.
  - destruct (isIn c ALPHANUM) eqn:E; [|discriminate].
    intros [= <-]. right. split; [apply isIn_In; exact E|reflexivity].
Qed.

Lemma fbEdge_alnum c : In c ALPHANUM -> fbEdge c = Some 2%nat.
Proof.
  intros H. unfold fbEdge.
  destruct (N.eqb_spec c HYPHEN) as [ -> | _ ].
  - exfalso. revert H. unfold ALPHANUM. simpl. intros H.
    repeat (destruct H as [H|H]; [discriminate H|]). destruct H.
  - apply isIn_In in H. rewrite H. reflexivity.
Qed.

Lemma fbEdge_hyphen : fbEdge HYPHEN = Some 3%nat.
Proof. reflexivity. Qed.

Section Final.

Variables (tlds : list jsstring) (A : Scanner) (M : Store).
Variables (full file ftp http secure : nat).

Hypothesis Bstart : start A = 0%nat.
Hypothesis Bnd : NoDefault M.
Hypothesis Bwf : WF M.
Hypothesis Bext :
  Ext (fun _ _ t => (20 <= t)%nat)
      (fun tg => tg <> None /\ tg <> Some TOKENS.SYM) st0 M.
Hypothesis Bfull : (20 <= full < List.length M)%nat.
Hypothesis Bnext : forall s c, (s < List.length M)%nat ->
  next (states A) s c =
  match next M s c with
  | Some t => Some t
  | None =>
      match fbNext (Nat.leb 20 s && negb (Nat.eqb s full)) s c with
      | Some t => Some t
      | None => if Nat.eqb s 0 then Some (List.length M) else None
      end
  end.
Hypothesis Bnextsym : forall c, next (states A) (List.length M) c = None.
Hypothesis Bemit : forall s, (s < List.length M)%nat ->
                             emit (states A) s = emit M s.
Hypothesis Bemitsym : emit (states A) (List.length M) = Some TOKENS.SYM.
Hypothesis Blen : List.length (states A) = S (List.length M).
Hypothesis Bkeys : forall s x c t,
  nth_error M s = Some x -> In (c, t) (jumps x) ->
  symbolTarget c <> None \/ In c (List.concat tlds) \/
  In c (js "fileftphttplocalhost:s").
Hypothesis Bdefault : exists x, nth_error (states A) 0 = Some x /\
                                d x = Some (List.length M).
Hypothesis Bfile : walk M 0 (js "file") = Some file /\
                   emit M file = Some TOKENS.DOMAIN /\
                   next M file COLON = Some full.
Hypothesis Bftp : walk M 0 (js "ftp") = Some ftp /\
                  emit M ftp = Some TOKENS.DOMAIN /\
                  next M ftp (chr "s") = Some secure /\
                  next M ftp COLON = Some full.
Hypothesis Bhttp : walk M 0 (js "http") = Some http /\
                   emit M http = Some TOKENS.DOMAIN /\
                   next M http (chr "s") = Some secure /\
                   next M http COLON = Some full.
Hypothesis Bsecure : emit M secure = Some TOKENS.DOMAIN /\
                     next M secure COLON = Some full.
Hypothesis Bwalkable : forall w, In w tlds -> exists m, walk M 0 w = Some m.

Lemma fin_len20 : (20 <= List.length M)%nat.
Proof. lia. Qed.

Lemma fin_emit_old s : (s < 20)%nat -> emit (states A) s = emit st0 s.
Proof.
  intros Hs. rewrite Bemit by lia.
  apply (Ext_emit_old _ _ _ _ s Bext). rewrite st0_length. exact Hs.
Qed.

Lemma fin_next_M s c t : next M s c = Some t -> next (states A) s c = Some t.
Proof.
  intros H. rewrite Bnext by (eapply next_lt; eauto). rewrite H. reflexivity.
Qed.

Lemma fin_walk_M w : forall s m, walk M s w = Some m -> walk (states A) s w = Some m.
Proof.
  induction w as [|c w IH]; intros s m; simpl; [auto|].
  destruct (next M s c) as [n|] eqn:E; [|discriminate].
  rewrite (fin_next_M _ _ _ E). apply IH.
Qed.

(** The symbol, whitespace and newline edges of the start state. *)
Lemma fin_next_symbol_M c t :
  symbolTarget c = Some t -> next M 0 c = Some t.
Proof.
  intros H.
  eapply next_Grows; [apply invA_nodefault, InvA_st0|eapply Ext_Grows; exact Bext|].
  unfold next. unfold symbolTarget in H.
  destruct (nth_error st0 0) as [x|]; [|discriminate]. rewrite H. reflexivity.
Qed.

Lemma fin_next_symbol c t :
  symbolTarget c = Some t -> next (states A) 0 c = Some t.
Proof. intros H. apply fin_next_M, fin_next_symbol_M, H. Qed.

(** A state of the final store is one of [M] or the catch-all state. *)
Lemma fin_state_cases s :
  (s < List.length (states A))%nat ->
  (s < List.length M)%nat \/ s = List.length M.
Proof. rewrite Blen. lia. Qed.

Lemma fin_emit_lt s tc :
  emit (states A) s = Some tc -> tc <> TOKENS.SYM -> (s < List.length M)%nat.
Proof.
  intros He Hne.
  assert (Hs : (s < List.length (states A))%nat).
  { unfold emit in He. destruct (nth_error (states A) s) eqn:E; [|discriminate].
    eapply nth_error_lt; eauto. }
  destruct (fin_state_cases _ Hs) as [ | -> ]; [assumption|].
  rewrite Bemitsym in He. congruence.
Qed.

Lemma fin_next_lt s c t :
  next (states A) s c = Some t -> (s < List.length M)%nat.
Proof.
  intros H. pose proof (next_lt _ _ _ _ H) as Hs.
  destruct (fin_state_cases _ Hs) as [ | -> ]; [assumption|].
  rewrite Bnextsym in H. discriminate.
Qed.

(** The targets of the fall-back edges. *)
Lemma fbNext_target b s c t :
  fbNext b s c = Some t -> (t = 1 \/ t = 2 \/ t = 3)%nat.
Proof.
  unfold fbNext, fbEdge.
  destruct s as [|[|[|[|s]]]]; try destruct b;
    repeat match goal with
           | |- context [if ?x then _ else _] => destruct x
           end; intros [= <-]; auto.
Qed.


Lemma st0_targets s x c t :
  nth_error st0 s = Some x -> In (c, t) (jumps x) -> (4 <= t < 20)%nat.
Proof.
  intros Hx Hin.
  assert (F : forallb (fun x => forallb (fun ct => Nat.leb 4 (snd ct) &&
                                                   Nat.ltb (snd ct) 20)
                                        (jumps x)) st0 = true)
    by (vm_compute; reflexivity).
  rewrite forallb_forall in F. apply nth_error_In in Hx.
  specialize (F _ Hx). rewrite forallb_forall in F. specialize (F _ Hin).
  apply andb_prop in F. destruct F as [F1 F2].
  apply Nat.leb_le in F1. apply Nat.ltb_lt in F2. simpl in F1, F2. lia.
Qed.

(** The edges of [M] lead to states from 4 on. *)
Lemma fin_M_target s c t : next M s c = Some t -> (4 <= t)%nat.
Proof.
  intros Hn. pose proof (next_lt _ _ _ _ Hn) as Hs.
  destruct (nth_error_ex _ _ Hs) as (x & Hx).
  pose proof (next_edge _ _ _ _ _ Bnd Hx Hn) as Hin.
  destruct Bext as [E1 E2].
  destruct (Nat.lt_ge_cases s (List.length st0)) as [Hlt|Hge].
  - destruct (nth_error_ex _ _ Hlt) as (x0 & Hx0).
    destruct (E1 _ _ Hx0) as (x' & Hx' & _ & _ & more & Hj & Hm).
    rewrite Hx in Hx'. injection Hx' as <-. rewrite Hj in Hin.
    apply in_app_or in Hin. destruct Hin as [Hin|Hin].
    + apply (st0_targets _ _ _ _ Hx0) in Hin. lia.
    + apply Hm in Hin. lia.
  - destruct (E2 _ _ Hx Hge) as (_ & _ & Hm). apply Hm in Hin. lia.
Qed.

(** No edge leads back to the start state. *)
Lemma fin_next_nonzero s c t : next (states A) s c = Some t -> t <> 0%nat.
Proof.
  intros Hn. pose proof (fin_next_lt _ _ _ Hn) as Hs.
  rewrite Bnext in Hn by exact Hs.
  destruct (next M s c) as [t'|] eqn:En.
  - injection Hn as ->. apply fin_M_target in En. lia.
  - destruct (fbNext _ s c) as [t'|] eqn:Ef.
    + injection Hn as ->. apply fbNext_target in Ef. lia.
    + destruct (Nat.eqb s 0); [|discriminate]. injection Hn as <-. lia.
Qed.

Lemma fin_walk_zero w : forall s, walk (states A) s w = Some 0%nat -> w = [].
Proof.
  induction w as [|c w IH] using rev_ind; intros s H; [reflexivity|].
  exfalso. rewrite walk_app in H.
  destruct (walk (states A) s w) as [m|]; [|discriminate].
  simpl in H. destruct (next (states A) m c) as [t|] eqn:E; [|discriminate].
  injection H as ->. exact (fin_next_nonzero _ _ _ E eq_refl).
Qed.

Lemma fin_walk_nonzero w m :
  walk (states A) 0 w = Some m -> w <> [] -> m <> 0%nat.
Proof. intros H Hne ->. apply fin_walk_zero in H. contradiction. Qed.

(** The catch-all state has no successor, so it ends every scan. *)
Lemma fin_steps_sym r : steps (states A) (List.length M) r = [].
Proof. destruct r as [|c r]; simpl; [reflexivity|]. rewrite Bnextsym. reflexivity. Qed.

(** A character the start state has no edge for goes to the catch-all
    state. *)
Lemma fin_next_default x c :
  nth_error (states A) 0 = Some x -> lookupJump c (jumps x) = None ->
  next (states A) 0 c = Some (List.length M).
Proof.
  intros Hx Hl. destruct Bdefault as (x' & Hx' & Hd).
  rewrite Hx in Hx'. injection Hx' as <-.
  unfold next. rewrite Hx, Hl. exact Hd.
Qed.

Lemma fbNext_outside b s c :
  ~ In c ALPHANUM -> c <> HYPHEN -> fbNext b s c = None.
Proof.
  intros Ha Hh.
  assert (E1 : isIn c ALPHANUM = false).
  { destruct (isIn c ALPHANUM) eqn:E; [|reflexivity].
    apply isIn_In in E. contradiction. }
  assert (E2 : isIn c NUM = false).
  { destruct (isIn c NUM) eqn:E; [|reflexivity]. exfalso. apply Ha.
    apply isIn_In in E. revert E. apply incl_isIn. reflexivity. }
  assert (E3 : N.eqb c HYPHEN = false) by (apply N.eqb_neq; exact Hh).
  unfold fbNext, fbEdge. rewrite E1, E2, E3.
  destruct s as [|[|[|[|s]]]]; try reflexivity. destruct b; reflexivity.
Qed.

(** No edge of [M] is labelled with a character outside the alphabet. *)
Lemma fin_M_outside s c : outside tlds c -> next M s c = None.
Proof.
  intros (Hs & Ht & Ha & Hh). destruct (next M s c) as [t|] eqn:En; [|reflexivity].
  exfalso. pose proof (next_lt _ _ _ _ En) as Hlt.
  destruct (nth_error_ex _ _ Hlt) as (x & Hx).
  pose proof (next_edge _ _ _ _ _ Bnd Hx En) as Hin.
  destruct (Bkeys _ _ _ _ Hx Hin) as [H|[H|H]]; [contradiction..|].
  assert (In c ALPHANUM \/ c = COLON).
  { simpl in H. unfold ALPHANUM. simpl.
    repeat (destruct H as [<-|H]; [tauto|]). destruct H. }
  destruct H0 as [H0| ->]; [contradiction|]. discriminate Hs.
Qed.

Lemma fin_next_outside_start c :
  outside tlds c -> next (states A) 0 c = Some (List.length M).
Proof.
  intros H. rewrite Bnext by lia. rewrite (fin_M_outside _ _ H).
  destruct H as (_ & _ & Ha & Hh). rewrite fbNext_outside by assumption.
  reflexivity.
Qed.

Lemma fin_next_outside s c :
  outside tlds c -> s <> 0%nat -> next (states A) s c = None.
Proof.
  intros H Hs. destruct (next (states A) s c) as [t|] eqn:En; [|reflexivity].
  exfalso. pose proof (fin_next_lt _ _ _ En) as Hlt.
  rewrite Bnext in En by exact Hlt. rewrite (fin_M_outside _ _ H) in En.
  destruct H as (_ & _ & Ha & Hh). rewrite fbNext_outside in En by assumption.
  destruct (Nat.eqb_spec s 0); [contradiction|discriminate].
Qed.

(** No edge of [M] is labelled with the hyphen unless a top-level domain
    contains one. *)
Lemma fin_M_hyphen s :
  (forall w, In w tlds -> ~ In HYPHEN w) -> next M s HYPHEN = None.
Proof.
  intros Hno. destruct (next M s HYPHEN) as [t|] eqn:En; [|reflexivity].
  exfalso. pose proof (next_lt _ _ _ _ En) as Hlt.
  destruct (nth_error_ex _ _ Hlt) as (x & Hx).
  pose proof (next_edge _ _ _ _ _ Bnd Hx En) as Hin.
  destruct (Bkeys _ _ _ _ Hx Hin) as [H|[H|H]].
  - apply H. reflexivity.
  - apply in_concat in H. destruct H as (w & Hw & Hc). exact (Hno _ Hw Hc).
  - simpl in H. repeat (destruct H as [H|H]; [discriminate H|]). destruct H.
Qed.

(** The hyphen then leads from the start state to the catch-all state and
    from every other state to the hyphen state or nowhere. *)
Lemma fin_next_hyphen_any s t :
  (forall w, In w tlds -> ~ In HYPHEN w) ->
  next (states A) s HYPHEN = Some t ->
  (s = 0%nat /\ t = List.length M) \/ (s <> 0%nat /\ t = 3%nat).
Proof.
  intros Hno Hn. pose proof (fin_next_lt _ _ _ Hn) as Hlt.
  rewrite Bnext in Hn by exact Hlt. rewrite (fin_M_hyphen _ Hno) in Hn.
  destruct (fbNext _ s HYPHEN) as [t'|] eqn:Ef.
  - injection Hn as ->. right.
    destruct s as [|[|[|[|s]]]]; cbn in Ef; try discriminate;
      try (injection Ef as <-; split; [lia|reflexivity]).
    destruct (_ && _)%bool; [|discriminate].
    injection Ef as <-. split; [lia|reflexivity].
  - destruct (Nat.eqb_spec s 0) as [->|_]; [|discriminate].
    injection Hn as <-. left. auto.
Qed.

Lemma fin_emit_3 : emit (states A) 3 = None.
Proof. rewrite fin_emit_old by lia. reflexivity. Qed.

Section PlainFinal.

Hypothesis Hplain : plainTlds tlds.
Hypothesis Bplain : plainTlds tlds -> PlainFacts tlds M full.

Let PF := Bplain Hplain.

Lemma fin_inv : InvA M.
Proof. exact (pf_inv _ _ _ PF). Qed.

Lemma fin_edge s c t : next M s c = Some t -> EdgeA M s c t.
Proof.
  intros H. pose proof (next_lt _ _ _ _ H) as Hs.
  destruct (nth_error_ex _ _ Hs) as (x & Hx).
  eapply (invA_typed _ fin_inv); [exact Hx|]. eapply next_edge; eauto.
Qed.

Lemma fin_domTag s : (s < List.length M)%nat -> domTag (states A) s <-> domTag M s.
Proof. intros Hs. unfold domTag. rewrite Bemit by exact Hs. tauto. Qed.

Lemma fin_domLike_lt s : domLike A s -> (s < List.length M)%nat.
Proof.
  intros [_ [H|[H|H]]]; eapply fin_emit_lt; eauto; discriminate.
Qed.

Lemma fin_domLike_not_full s : domLike A s -> s <> full.
Proof.
  intros H ->. pose proof (fin_domLike_lt _ H) as Hlt. destruct H as [_ H].
  apply fin_domTag in H; [|exact Hlt].
  destruct H as [H|[H|H]]; rewrite (pf_full _ _ _ PF) in H; discriminate.
Qed.

(** No edge of [M] leaves the states 1, 2, 3 and 5 to 19. *)
Lemma fin_no_edge s c :
  (1 <= s < 20)%nat -> s <> 4%nat -> next M s c = None.
Proof.
  intros Hs H4. destruct (next M s c) as [t|] eqn:E; [|reflexivity].
  exfalso. destruct (fin_edge _ _ _ E)
    as [[H _]|[[H _]|[([H|[H _]] & _)|(H & _)]]]; lia.
Qed.

(** The successors of the states 1 to 19 are those of the fall-back
    edges, and the whitespace state loops on whitespace. *)
Lemma fin_next_small s c :
  (1 <= s < 20)%nat -> s <> 4%nat ->
  next (states A) s c = fbNext false s c.
Proof.
  intros Hs H4. rewrite Bnext by lia. rewrite fin_no_edge by assumption.
  replace (Nat.leb 20 s) with false by (symmetry; apply Nat.leb_gt; lia).
  cbn [andb]. destruct (fbNext false s c); [reflexivity|].
  destruct (Nat.eqb_spec s 0); [lia|reflexivity].
Qed.

Lemma fin_next_leaf s c : (5 <= s < 20)%nat -> next (states A) s c = None.
Proof.
  intros Hs. rewrite fin_next_small by lia.
  do 5 (destruct s as [|s]; [lia|]). reflexivity.
Qed.

Lemma fin_next_ws c :
  next (states A) 4 c = if isIn c WHITESPACE then Some 4%nat else None.
Proof.
  rewrite Bnext by lia.
  destruct (isIn c WHITESPACE) eqn:E.
  - assert (H : next M 4 c = Some 4%nat).
    { eapply next_Grows; [apply invA_nodefault, InvA_st0
                         |eapply Ext_Grows; exact Bext|].
      apply isIn_In in E. simpl in E.
      repeat (destruct E as [<-|E]; [reflexivity|]). destruct E. }
    rewrite H. reflexivity.
  - destruct (next M 4 c) as [t|] eqn:En.
    + exfalso. destruct (fin_edge _ _ _ En)
        as [[H _]|[(_ & H & _)|[([H|[H _]] & _)|(H & _)]]]; try lia.
      apply isIn_In in H. congruence.
    + reflexivity.
Qed.

(** The successors of a state inside a domain label. *)
Lemma fin_next_dom s c t :
  domLike A s -> next (states A) s c = Some t ->
  (plainChar c /\ (domLike A t \/ (c = HYPHEN /\ t = 3%nat))) \/
  (c = COLON /\ emit (states A) t = Some TOKENS.PROTOCOL).
Proof.
  intros Hd Hn. pose proof (fin_domLike_lt _ Hd) as Hs.
  pose proof (fin_domLike_not_full _ Hd) as Hf.
  destruct Hd as [Hr Ht].
  rewrite Bnext in Hn by exact Hs.
  destruct (next M s c) as [t'|] eqn:En.
  - injection Hn as ->. pose proof (next_WF _ _ _ _ Bnd Bwf En) as Hlt.
    destruct (fin_edge _ _ _ En)
      as [[H _]|[[H _]|[(_ & Hc & H20 & Hdt)|(_ & _ & Hc & H20 & Hp)]]];
      try lia.
    + left. split; [exact Hc|]. left. split; [right; exact H20|].
      apply fin_domTag; assumption.
    + right. split; [exact Hc|]. rewrite Bemit by exact Hlt. exact Hp.
  - destruct (fbNext _ s c) as [t'|] eqn:Ef.
    + injection Hn as ->. left.
      assert (X : fbEdge c = Some t).
      { destruct Hr as [ -> | H20 ]; [exact Ef|].
        do 20 (destruct s as [|s]; [lia|]).
        cbn [fbNext] in Ef. destruct (_ && _)%bool; [exact Ef|discriminate]. }
      destruct (fbEdge_cases _ _ X) as [ [-> ->] | [Hc ->] ].
      * split; [apply plainChar_HYPHEN|]. right. auto.
      * split; [apply plainChar_ALPHANUM; exact Hc|]. left.
        split; [left; reflexivity|]. left. rewrite fin_emit_old by lia. reflexivity.
    + destruct (Nat.eqb_spec s 0) as [ -> | _ ]; [|discriminate].
      destruct Hr; lia.
Qed.

Lemma fin_dom_fb s :
  domLike A s ->
  fbNext (Nat.leb 20 s && negb (Nat.eqb s full)) s = fun c => fbEdge c.
Proof.
  intros Hd. pose proof (fin_domLike_not_full _ Hd) as Hf.
  destruct Hd as [ [ -> | H20 ] _ ]; [reflexivity|].
  replace (Nat.leb 20 s) with true by (symmetry; apply Nat.leb_le; exact H20).
  replace (Nat.eqb s full) with false by (symmetry; apply Nat.eqb_neq; exact Hf).
  do 20 (destruct s as [|s]; [lia|]). reflexivity.
Qed.

Lemma fin_next_dom_alnum s c :
  domLike A s -> In c ALPHANUM ->
  exists t, next (states A) s c = Some t /\ domLike A t.
Proof.
  intros Hd Hc. pose proof (fin_domLike_lt _ Hd) as Hs.
  assert (Hex : exists t, next (states A) s c = Some t).
  { rewrite Bnext by exact Hs. destruct (next M s c); [eauto|].
    rewrite (fin_dom_fb _ Hd), (fbEdge_alnum _ Hc). eauto. }
  destruct Hex as (t & Ht). exists t. split; [exact Ht|].
  destruct (fin_next_dom _ _ _ Hd Ht) as [ [_ [H | [-> _] ] ] | [-> _] ].
  - exact H.
  - exfalso. revert Hc. unfold ALPHANUM. simpl. intros H.
    repeat (destruct H as [H|H]; [discriminate H|]). destruct H.
  - exfalso. apply plainChar_ALPHANUM in Hc. exact (plainChar_COLON Hc).
Qed.

Lemma fin_next_dom_hyphen s :
  domLike A s ->
  exists t, next (states A) s HYPHEN = Some t /\ (t = 3%nat \/ domLike A t).
Proof.
  intros Hd. pose proof (fin_domLike_lt _ Hd) as Hs.
  assert (Hex : exists t, next (states A) s HYPHEN = Some t).
  { rewrite Bnext by exact Hs. destruct (next M s HYPHEN); [eauto|].
    rewrite (fin_dom_fb _ Hd), fbEdge_hyphen. eauto. }
  destruct Hex as (t & Ht). exists t. split; [exact Ht|].
  destruct (fin_next_dom _ _ _ Hd Ht) as [ [_ [H | [_ ->] ] ] | [H _] ]; auto.
  discriminate H.
Qed.

(** A symbol or whitespace character other than the colon ends a domain
    label. *)
Lemma fin_next_dom_stop s c :
  domLike A s -> ~ plainChar c -> c <> COLON -> next (states A) s c = None.
Proof.
  intros Hd Hc Hcol. destruct (next (states A) s c) as [t|] eqn:E; [|reflexivity].
  destruct (fin_next_dom _ _ _ Hd E) as [[H _]|[H _]]; contradiction.
Qed.

(** The hyphen state. *)
Lemma fin_next_hyphen c : next (states A) 3 c = fbEdge c.
Proof. rewrite fin_next_small by lia. reflexivity. Qed.

Lemma fin_domLike_2 : domLike A 2.
Proof.
  split; [left; reflexivity|]. left. rewrite fin_emit_old by lia. reflexivity.
Qed.

(** The successors of the start state. *)
Lemma fin_next_start c t :
  next (states A) 0 c = Some t ->
  symbolTarget c = Some t \/
  (plainChar c /\ domLike A t) \/
  (plainChar c /\ In c NUM /\ t = 1%nat) \/
  (plainChar c /\ t = List.length M /\ next M 0 c = None).
Proof.
  intros Hn. rewrite Bnext in Hn by lia.
  destruct (next M 0 c) as [t'|] eqn:En.
  - injection Hn as ->. pose proof (next_WF _ _ _ _ Bnd Bwf En) as Hlt.
    destruct (fin_edge _ _ _ En)
      as [[_ H]|[[H _]|[(_ & Hc & H20 & Hdt)|(H & _)]]]; try lia.
    + auto.
    + right; left. split; [exact Hc|]. split; [right; exact H20|].
      apply fin_domTag; assumption.
  - assert (Hc : plainChar c).
    { unfold plainChar. destruct (symbolTarget c) as [t'|] eqn:Es; [|reflexivity].
      apply fin_next_symbol_M in Es. congruence. }
    cbn [fbNext Nat.eqb] in Hn. destruct (isIn c NUM) eqn:Ec.
    + injection Hn as <-. right; right; left.
      split; [exact Hc|]. split; [apply isIn_In; exact Ec|reflexivity].
    + injection Hn as <-. right; right; right. auto.
Qed.

(** A state made for a literal is reached along the edges of [M] only. *)
Lemma fin_walk_back w : forall m,
  walk (states A) 0 w = Some m -> (20 <= m < List.length M)%nat ->
  walk M 0 w = Some m.
Proof.
  induction w as [|c w IH] using rev_ind; intros m H Hm.
  - simpl in H. injection H as <-. lia.
  - rewrite walk_app in H. rewrite walk_app.
    destruct (walk (states A) 0 w) as [s|] eqn:Ew; [|discriminate].
    simpl in H. destruct (next (states A) s c) as [t|] eqn:E; [|discriminate].
    injection H as ->. pose proof (fin_next_lt _ _ _ E) as Hs.
    rewrite Bnext in E by exact Hs.
    destruct (next M s c) as [t'|] eqn:En.
    + injection E as ->.
      assert (Hsrc : s = 0%nat \/ (20 <= s)%nat).
      { destruct (fin_edge _ _ _ En)
          as [[H _]|[(_ & _ & H)|[([H|[H _]] & _)|(H & _)]]]; try lia. }
      destruct Hsrc as [ -> | H20 ].
      * apply fin_walk_zero in Ew. subst w. simpl. rewrite En. reflexivity.
      * rewrite (IH _ eq_refl) by lia. simpl. rewrite En. reflexivity.
    + exfalso. destruct (fbNext _ s c) as [t'|] eqn:Ef.
      * injection E as ->. apply fbNext_target in Ef. lia.
      * destruct (Nat.eqb s 0); [|discriminate]. injection E as <-. lia.
Qed.

(** A walk that ends in a state tagged as a top-level domain spells one. *)
Lemma fin_tld_only u m :
  walk (states A) 0 u = Some m -> emit (states A) m = Some TOKENS.TLD ->
  In u tlds.
Proof.
  intros Hw He.
  assert (Hlt : (m < List.length M)%nat) by (eapply fin_emit_lt; eauto; discriminate).
  assert (H20 : (20 <= m)%nat).
  { destruct (Nat.le_gt_cases 20 m) as [|Hm]; [assumption|exfalso].
    rewrite fin_emit_old in He by exact Hm.
    do 20 (destruct m as [|m]; [discriminate He|]). lia. }
  rewrite Bemit in He by exact Hlt.
  eapply (pf_tld_only _ _ _ PF); [|exact He]. apply fin_walk_back; [exact Hw|lia].
Qed.

(** A configured literal is recognised when no earlier literal extends it. *)
Lemma fin_tld w :
  recognised tlds w ->
  exists m, walk (states A) 0 w = Some m /\
            emit (states A) m = Some TOKENS.TLD.
Proof.
  intros (Hne & l1 & l2 & E & Hp).
  destruct (pf_tld _ _ _ PF l1 w l2 E Hne Hp) as (m & Hw & He).
  exists m. split; [apply fin_walk_M; exact Hw|].
  rewrite Bemit; [exact He|].
  unfold emit in He. destruct (nth_error M m) eqn:X; [|discriminate].
  eapply nth_error_lt; eauto.
Qed.

(** Letters and digits keep the scan inside a domain label. *)
Lemma fin_walk_dom w : forall s,
  domLike A s -> alnumWord w ->
  exists t, walk (states A) s w = Some t /\ domLike A t.
Proof.
  induction w as [|c w IH]; intros s Hd Hw.
  - exists s. auto.
  - inversion Hw as [|? ? Hc Hw']; subst.
    destruct (fin_next_dom_alnum _ _ Hd Hc) as (t & Ht & Hdt).
    destruct (IH _ Hdt Hw') as (m & Hm & Hdm).
    exists m. simpl. rewrite Ht. auto.
Qed.


Lemma fbNext_false_big s c : (4 <= s)%nat -> fbNext false s c = None.
Proof. intros H. do 4 (destruct s as [|s]; [lia|]). reflexivity. Qed.

(** The state that completes a protocol has no successor. *)
Lemma fin_next_full c : next (states A) full c = None.
Proof.
  rewrite Bnext by lia.
  destruct (next M full c) as [t|] eqn:En.
  - exfalso. pose proof (pf_full _ _ _ PF) as Hf.
    destruct (fin_edge _ _ _ En)
      as [[H _]|[[H _]|[([H|[_ H]] & _)|(_ & H & _)]]]; try lia;
      destruct H as [H|[H|H]]; congruence.
  - replace (Nat.eqb full full) with true by (symmetry; apply Nat.eqb_refl).
    rewrite andb_false_r. rewrite fbNext_false_big by lia.
    destruct (Nat.eqb_spec full 0); [lia|reflexivity].
Qed.

Lemma fin_emit_full : emit (states A) full = Some TOKENS.PROTOCOL.
Proof. rewrite Bemit by lia. exact (pf_full _ _ _ PF). Qed.

(** Only the colon leads to a state tagged as a protocol. *)
Lemma fin_protocol_colon s c t :
  next (states A) s c = Some t ->
  emit (states A) t = Some TOKENS.PROTOCOL -> c = COLON /\ s <> 0%nat.
Proof.
  intros Hn He. pose proof (fin_next_lt _ _ _ Hn) as Hs.
  assert (Hlt : (t < List.length M)%nat) by (eapply fin_emit_lt; eauto; discriminate).
  rewrite Bnext in Hn by exact Hs.
  destruct (next M s c) as [t'|] eqn:En.
  - injection Hn as ->. rewrite Bemit in He by exact Hlt.
    destruct (fin_edge _ _ _ En)
      as [[_ H]|[(_ & _ & H)|[(_ & _ & _ & H)|(H & _ & H' & _)]]].
    + exfalso. pose proof (symbolTarget_range _ _ H) as Hr.
      rewrite (Ext_emit_old _ _ _ _ t Bext) in He by (rewrite st0_length; lia).
      apply st0_tags in He. tauto.
    + exfalso. subst t.
      rewrite (Ext_emit_old _ _ _ _ 4%nat Bext) in He by (rewrite st0_length; lia).
      discriminate He.
    + exfalso. destruct H as [H|[H|H]]; congruence.
    + split; [exact H'|lia].
  - exfalso. destruct (fbNext _ s c) as [t'|] eqn:Ef.
    + injection Hn as ->. apply fbNext_target in Ef.
      rewrite fin_emit_old in He by lia.
      destruct Ef as [->|[->| ->]]; discriminate He.
    + destruct (Nat.eqb s 0); [|discriminate]. injection Hn as <-. lia.
Qed.

(** Only a character of "localhost" leads to a state tagged LOCALHOST. *)
Lemma fin_localhost s c t :
  next (states A) s c = Some t ->
  emit (states A) t = Some TOKENS.LOCALHOST -> In c (js "localhost").
Proof.
  intros Hn He. pose proof (fin_next_lt _ _ _ Hn) as Hs.
  assert (Hlt : (t < List.length M)%nat) by (eapply fin_emit_lt; eauto; discriminate).
  rewrite Bnext in Hn by exact Hs.
  destruct (next M s c) as [t'|] eqn:En.
  - injection Hn as ->. rewrite Bemit in He by exact Hlt.
    eapply (pf_localhost _ _ _ PF); eauto.
  - exfalso. destruct (fbNext _ s c) as [t'|] eqn:Ef.
    + injection Hn as ->. apply fbNext_target in Ef.
      rewrite fin_emit_old in He by lia.
      destruct Ef as [->|[->| ->]]; discriminate He.
    + destruct (Nat.eqb s 0); [|discriminate]. injection Hn as <-. lia.
Qed.

(** A state reached from the start state along the edges of [M] over a
    word of letters is inside a domain label. *)
Lemma fin_M_walk_dom w : forall s m,
  srcOK M s -> w <> [] -> plainWord w -> walk M s w = Some m ->
  domLike A m.
Proof.
  induction w as [|c w IH]; intros s m Hs Hne Hp Hw; [congruence|].
  simpl in Hw. destruct (next M s c) as [t|] eqn:En; [|discriminate].
  inversion Hp as [|? ? Hc Hp']; subst.
  pose proof (next_WF _ _ _ _ Bnd Bwf En) as Hlt.
  assert (Ht : (20 <= t)%nat /\ domTag M t).
  { destruct (fin_edge _ _ _ En)
      as [[_ H]|[(_ & H & _)|[(_ & _ & H)|(_ & _ & H & _)]]].
    - congruence.
    - exfalso. apply plainChar_WS in H; auto.
    - exact H.
    - subst c. exfalso. exact (plainChar_COLON Hc). }
  destruct w as [|c' w].
  - simpl in Hw. injection Hw as <-. split; [right; tauto|].
    apply fin_domTag; tauto.
  - apply (IH t m); auto; [right; exact Ht|discriminate].
Qed.

(** The schemes lead to states tagged as domain labels, and the colon
    leads on from them to the state that completes a protocol. *)
Lemma fin_schemes_M w :
  In w schemes ->
  w <> [] /\ plainWord w /\
  exists m, walk M 0 w = Some m /\ emit M m = Some TOKENS.DOMAIN /\
            next M m COLON = Some full.
Proof.
  destruct Bfile as (F1 & F2 & F3). destruct Bftp as (P1 & P2 & P3 & P4).
  destruct Bhttp as (H1 & H2 & H3 & H4). destruct Bsecure as (S1 & S2).
  assert (Y : forall u m, walk M 0 u = Some m ->
                          next M m (chr "s") = Some secure ->
                          walk M 0 (u ++ js "s") = Some secure).
  { intros u m Hw Hn. rewrite walk_app, Hw.
    change (match next M m (chr "s") with
            | Some n => Some n
            | None => None
            end = Some secure).
    rewrite Hn. reflexivity. }
  intros [<-|[<-|[<-|[<-|[<-|[]]]]]];
    (split; [discriminate|]); (split; [repeat constructor|]).
  - exists file. auto.
  - exists ftp. auto.
  - exists http. auto.
  - exists secure. split; [exact (Y _ _ P1 P3)|auto].
  - exists secure. split; [exact (Y _ _ H1 H3)|auto].
Qed.

Lemma fin_schemes w :
  In w schemes ->
  exists m, walk (states A) 0 w = Some m /\ domLike A m /\
            emit (states A) m = Some TOKENS.DOMAIN /\
            next (states A) m COLON = Some full.
Proof.
  intros Hin. destruct (fin_schemes_M _ Hin) as (Hne & Hp & m & Hw & He & Hn).
  exists m. split; [apply fin_walk_M; exact Hw|].
  split; [eapply fin_M_walk_dom; eauto; left; reflexivity|].
  split; [rewrite Bemit by (eapply next_lt; eauto); exact He|].
  apply fin_next_M; exact Hn.
Qed.

(** The first letter of a top-level domain leads from the start state to
    a state inside a domain label; so does [f]. *)
Lemma fin_start_tld c :
  startsTld tlds c ->
  exists t, next (states A) 0 c = Some t /\ domLike A t.
Proof.
  intros (w & Hw). destruct (Bwalkable _ Hw) as (m & Hm).
  simpl in Hm. destruct (next M 0 c) as [t|] eqn:En; [|discriminate].
  exists t. split; [apply fin_next_M; exact En|].
  apply (fin_M_walk_dom [c] 0%nat t); [left; reflexivity|discriminate| |].
  - constructor; [|constructor].
    pose proof (proj1 (Forall_forall _ _) Hplain _ Hw) as Hpw.
    inversion Hpw; assumption.
  - simpl. rewrite En. reflexivity.
Qed.

Lemma fin_start_scheme c w :
  In (c :: w) schemes ->
  exists t, next (states A) 0 c = Some t /\ domLike A t.
Proof.
  intros Hin. destruct (fin_schemes_M _ Hin) as (_ & Hp & m & Hm & _).
  simpl in Hm. destruct (next M 0 c) as [t|] eqn:En; [|discriminate].
  exists t. split; [apply fin_next_M; exact En|].
  apply (fin_M_walk_dom [c] 0%nat t); [left; reflexivity|discriminate| |].
  - constructor; [|constructor]. inversion Hp; assumption.
  - simpl. rewrite En. reflexivity.
Qed.

(** ** Tokens of the automaton that is built *)

Lemma fin_steps_leaf t r : (5 <= t < 20)%nat -> steps (states A) t r = [].
Proof.
  intros H. destruct r as [|c r]; simpl; [reflexivity|].
  rewrite fin_next_leaf by exact H. reflexivity.
Qed.

(** A symbol is a token of its own. *)
Lemma fin_tok_symbol str c r t TOK tokens :
  symbolTarget c = Some t -> (5 <= t)%nat -> emit st0 t = Some TOK ->
  Tokenizes A (skipn 1 str) r tokens ->
  Tokenizes A str (c :: r) (mkToken TOK (firstn 1 str) :: tokens).
Proof.
  intros Hs Ht He HT. pose proof (symbolTarget_range _ _ Hs) as Hr.
  apply (Tokenizes_cons A str [c] r t TOK tokens); auto.
  - discriminate.
  - rewrite Bstart. simpl. rewrite (fin_next_symbol _ _ Hs). reflexivity.
  - rewrite fin_emit_old by lia. exact He.
  - apply fin_steps_leaf. lia.
Qed.

(** A symbol other than the colon ends a domain label. *)
Lemma fin_steps_dom_stop m r :
  domLike A m ->
  (r = [] \/ exists c r', r = c :: r' /\ ~ plainChar c /\ c <> COLON) ->
  steps (states A) m r = [].
Proof.
  intros Hd [->|(c & r' & -> & Hc & Hcol)]; simpl; [reflexivity|].
  rewrite fin_next_dom_stop by assumption. reflexivity.
Qed.

Lemma fin_tok_dom str w r m TOK tokens :
  w <> [] -> walk (states A) 0 w = Some m -> domLike A m ->
  emit (states A) m = Some TOK ->
  (r = [] \/ exists c r', r = c :: r' /\ ~ plainChar c /\ c <> COLON) ->
  Tokenizes A (skipn (List.length w) str) r tokens ->
  Tokenizes A str (w ++ r)
    (mkToken TOK (firstn (List.length w) str) :: tokens).
Proof.
  intros Hne Hw Hd He Hr HT.
  apply (Tokenizes_cons A str w r m TOK tokens); auto.
  - rewrite Bstart. exact Hw.
  - apply fin_steps_dom_stop; assumption.
Qed.

(** A scheme followed by a colon is a protocol token. *)
Lemma fin_walk_scheme w :
  In w schemes -> walk (states A) 0 (w ++ [COLON]) = Some full.
Proof.
  intros Hin. destruct (fin_schemes _ Hin) as (m & Hw & _ & _ & Hn).
  rewrite walk_app, Hw. simpl. rewrite Hn. reflexivity.
Qed.

Lemma fin_tok_protocol str w r tokens :
  In w schemes ->
  Tokenizes A (skipn (S (List.length w)) str) r tokens ->
  Tokenizes A str (w ++ COLON :: r)
    (mkToken TOKENS.PROTOCOL (firstn (S (List.length w)) str) :: tokens).
Proof.
  intros Hin HT.
  replace (w ++ COLON :: r) with ((w ++ [COLON]) ++ r)
    by (rewrite <- app_assoc; reflexivity).
  replace (S (List.length w)) with (List.length (w ++ [COLON])) in *
    by (rewrite length_app; simpl; lia).
  apply (Tokenizes_cons A str (w ++ [COLON]) r full); auto.
  - destruct w; discriminate.
  - rewrite Bstart. apply fin_walk_scheme. exact Hin.
  - apply fin_emit_full.
  - destruct r as [|c r]; simpl; [reflexivity|]. rewrite fin_next_full. reflexivity.
Qed.

(** A scheme without its colon is a domain label. *)
Lemma fin_tok_scheme str w r tokens :
  In w schemes ->
  (r = [] \/ exists c r', r = c :: r' /\ ~ plainChar c /\ c <> COLON) ->
  Tokenizes A (skipn (List.length w) str) r tokens ->
  Tokenizes A str (w ++ r)
    (mkToken TOKENS.DOMAIN (firstn (List.length w) str) :: tokens).
Proof.
  intros Hin Hr HT. destruct (fin_schemes _ Hin) as (m & Hw & Hd & He & _).
  apply (fin_tok_dom str w r m); auto.
  destruct (fin_schemes_M _ Hin) as (Hne & _). exact Hne.
Qed.

(** A walk that ends in a state tagged as a protocol ends with a colon. *)
Lemma fin_walk_protocol u s :
  walk (states A) 0 u = Some s ->
  emit (states A) s = Some TOKENS.PROTOCOL ->
  exists w, u = w ++ [COLON] /\ w <> [].
Proof.
  intros Hw He. destruct u as [|c u] using rev_ind.
  - simpl in Hw. injection Hw as <-. rewrite fin_emit_old in He by lia.
    discriminate He.
  - clear IHu. rewrite walk_app in Hw.
    destruct (walk (states A) 0 u) as [m|] eqn:Hu; [|discriminate].
    simpl in Hw. destruct (next (states A) m c) as [t|] eqn:En; [|discriminate].
    injection Hw as ->.
    destruct (fin_protocol_colon _ _ _ En He) as (-> & Hm).
    exists u. split; [reflexivity|]. intros ->. simpl in Hu. congruence.
Qed.

(** The state a label ends in is tagged DOMAIN unless the label is a
    top-level domain or ends like "localhost". *)
Lemma fin_dom_tag u c m :
  walk (states A) 0 (u ++ [c]) = Some m -> domLike A m ->
  ~ In (u ++ [c]) tlds -> ~ In c (js "localhost") ->
  emit (states A) m = Some TOKENS.DOMAIN.
Proof.
  intros Hw [_ [H|[H|H]]] Ht Hl; [exact H| |].
  - exfalso. apply Ht. eapply fin_tld_only; eauto.
  - exfalso. apply Hl. rewrite walk_app in Hw.
    destruct (walk (states A) 0 u) as [s|]; [|discriminate].
    simpl in Hw. destruct (next (states A) s c) as [t|] eqn:En; [|discriminate].
    injection Hw as ->. eapply fin_localhost; eauto.
Qed.

(** A label that starts with the first letter of a literal. *)
Lemma fin_walk_label c w :
  (startsTld tlds c \/ exists v, In (c :: v) schemes) -> alnumWord w ->
  exists m, walk (states A) 0 (c :: w) = Some m /\ domLike A m.
Proof.
  intros Hc Hw.
  assert (X : exists t, next (states A) 0 c = Some t /\ domLike A t).
  { destruct Hc as [Hc|(v & Hv)];
      [apply fin_start_tld; exact Hc|eapply fin_start_scheme; exact Hv]. }
  destruct X as (t & Ht & Hd).
  destruct (fin_walk_dom _ _ Hd Hw) as (m & Hm & Hdm).
  exists m. simpl. rewrite Ht. auto.
Qed.

(** Only whitespace leads to the whitespace state, and only from the
    start state and the whitespace state. *)
Lemma symbolTarget_WS c : symbolTarget c = Some 4%nat <-> In c WHITESPACE.
Proof.
  split.
  - unfold symbolTarget. intros H. apply lookupJump_In in H. simpl in H.
    repeat (destruct H as [E|H]; [inversion E; simpl; tauto|]).
    destruct H.
  - intros H. simpl in H.
    repeat (destruct H as [<-|H]; [reflexivity|]). destruct H.
Qed.

Lemma fin_next_to_ws s c : next (states A) s c = Some 4%nat -> In c WHITESPACE.
Proof.
  intros Hn. pose proof (fin_next_lt _ _ _ Hn) as Hs.
  rewrite Bnext in Hn by exact Hs.
  destruct (next M s c) as [t'|] eqn:En.
  - injection Hn as ->.
    destruct (fin_edge _ _ _ En)
      as [[_ H]|[(_ & H & _)|[(_ & _ & H & _)|(_ & _ & _ & H & _)]]]; try lia.
    + apply symbolTarget_WS. exact H.
    + exact H.
  - exfalso. destruct (fbNext _ s c) as [t'|] eqn:Ef.
    + injection Hn as ->. apply fbNext_target in Ef. lia.
    + destruct (Nat.eqb s 0); [|discriminate]. injection Hn as Hn. lia.
Qed.

Lemma fin_next_on_ws s c t :
  next (states A) s c = Some t -> In c WHITESPACE ->
  (s = 0%nat \/ s = 4%nat) /\ t = 4%nat.
Proof.
  intros Hn Hc. pose proof (fin_next_lt _ _ _ Hn) as Hs.
  rewrite Bnext in Hn by exact Hs.
  assert (Hnp : ~ plainChar c) by (apply plainChar_WS; exact Hc).
  destruct (next M s c) as [t'|] eqn:En.
  - injection Hn as ->.
    destruct (fin_edge _ _ _ En)
      as [[H1 H]|[(H1 & _ & H)|[(_ & H & _)|(_ & _ & H & _)]]].
    + apply symbolTarget_WS in Hc. split; [auto|congruence].
    + auto.
    + contradiction.
    + subst c. simpl in Hc.
      repeat (destruct Hc as [Hc|Hc]; [discriminate Hc|]). destruct Hc.
  - exfalso. apply symbolTarget_WS in Hc.
    destruct (Nat.eq_dec s 0) as [->|Hs0].
    + rewrite (fin_next_symbol_M _ _ Hc) in En. discriminate.
    + assert (Ha : ~ In c ALPHANUM)
        by (intros Ha; apply Hnp, plainChar_ALPHANUM, Ha).
      assert (Hh : c <> HYPHEN) by (intros ->; discriminate Hc).
      rewrite fbNext_outside in Hn by assumption.
      destruct (Nat.eqb_spec s 0); [contradiction|discriminate].
Qed.

(** A run of whitespace leads to the whitespace state. *)
Lemma fin_walk_ws ws :
  ws <> [] -> Forall (fun c => In c WHITESPACE) ws ->
  walk (states A) 0 ws = Some 4%nat.
Proof.
  intros Hne Hws. destruct ws as [|c ws]; [congruence|].
  inversion Hws as [|? ? Hc Hws']; subst.
  simpl. rewrite (fin_next_symbol c 4) by (apply symbolTarget_WS; exact Hc).
  clear Hne Hws Hc. induction Hws' as [|c' ws Hc _ IH]; simpl; [reflexivity|].
  rewrite fin_next_ws. apply isIn_In in Hc. rewrite Hc. exact IH.
Qed.

Lemma fin_emit_ws : emit (states A) 4 = Some TOKENS.WS.
Proof. rewrite fin_emit_old by lia. reflexivity. Qed.

Lemma last_suffix (q p : jsstring) (c : char) l :
  l = q ++ p -> p <> [] -> (exists l', l = l' ++ [c]) ->
  exists p', p = p' ++ [c].
Proof.
  intros E Hp (l' & El). destruct (exists_last Hp) as (p' & c' & ->).
  exists p'. f_equal. f_equal.
  rewrite El, app_assoc in E. apply app_inj_tail in E. symmetry. tauto.
Qed.

(** Every maximal run of whitespace is one token, whatever is around
    it. *)
Lemma fin_split_ws str1 low1 t1 ws str2 low2 t2 :
  Tokenizes A str1 low1 t1 -> List.length str1 = List.length low1 ->
  Tokenizes A str2 low2 t2 ->
  ws <> [] -> Forall (fun c => In c WHITESPACE) ws ->
  (low1 = [] \/ exists q c, low1 = q ++ [c] /\ ~ In c WHITESPACE) ->
  (low2 = [] \/ exists c r, low2 = c :: r /\ ~ In c WHITESPACE) ->
  Tokenizes A (str1 ++ ws ++ str2) (low1 ++ ws ++ low2)
    (t1 ++ mkToken TOKENS.WS ws :: t2).
Proof.
  intros H1 Hl H2 Hne Hws Hb1 Hb2.
  apply (Tokenizes_app A (ws ++ str2) (ws ++ low2) _) with (str1 := str1); auto.
  - replace ws with (firstn (List.length ws) (ws ++ str2)) at 3
      by (rewrite firstn_app, Nat.sub_diag, firstn_all, firstn_O, app_nil_r;
          reflexivity).
    apply (Tokenizes_cons A (ws ++ str2) ws low2 4%nat); auto.
    + rewrite Bstart. apply fin_walk_ws; assumption.
    + apply fin_emit_ws.
    + destruct Hb2 as [->|(c & r & -> & Hc)]; simpl; [reflexivity|].
      rewrite fin_next_ws.
      destruct (isIn c WHITESPACE) eqn:E; [|reflexivity].
      apply isIn_In in E. contradiction.
    + rewrite skipn_app, skipn_all, Nat.sub_diag. exact H2.
  - intros q p m Eq Hp Hm. rewrite Bstart in Hm.
    destruct ws as [|c ws]; [congruence|]. inversion Hws as [|? ? Hc _]; subst.
    simpl. destruct (next (states A) m c) as [t|] eqn:En; [|reflexivity].
    exfalso. destruct (fin_next_on_ws _ _ _ En Hc) as ([Hm0|Hm4] & _).
    + exact (fin_walk_nonzero _ _ Hm Hp Hm0).
    + destruct Hb1 as [E|(q' & c' & E & Hc')].
      * destruct q; destruct p; try discriminate E; congruence.
      * destruct (last_suffix q p c' _ eq_refl Hp) as (p' & ->);
          [exists q'; exact E|].
        rewrite walk_app in Hm.
        destruct (walk (states A) 0 p') as [s|]; [|discriminate].
        simpl in Hm. destruct (next (states A) s c') as [t'|] eqn:En'; [|discriminate].
        injection Hm as ->. rewrite Hm4 in En'. apply fin_next_to_ws in En'. contradiction.
Qed.

(** No state but the start state has a successor on a symbol other than
    the colon and whitespace. *)
Lemma fin_next_symbol_stop s c :
  ~ plainChar c -> c <> COLON -> ~ In c WHITESPACE -> s <> 0%nat ->
  next (states A) s c = None.
Proof.
  intros Hc Hcol Hws Hs. destruct (next (states A) s c) as [t|] eqn:Hn; [|reflexivity].
  exfalso. pose proof (fin_next_lt _ _ _ Hn) as Hlt.
  rewrite Bnext in Hn by exact Hlt.
  destruct (next M s c) as [t'|] eqn:En.
  - destruct (fin_edge _ _ _ En)
      as [[H _]|[(_ & H & _)|[(_ & H & _)|(_ & _ & H & _)]]]; auto.
  - assert (Ha : ~ In c ALPHANUM)
      by (intros Ha; apply Hc, plainChar_ALPHANUM, Ha).
    assert (Hh : c <> HYPHEN) by (intros ->; apply Hc, plainChar_HYPHEN).
    rewrite fbNext_outside in Hn by assumption.
    destruct (Nat.eqb_spec s 0); [contradiction|discriminate].
Qed.

(** Such a symbol is a token of its own wherever it stands. *)
Lemma fin_split_symbol str1 low1 t1 c t TOK str2 low2 t2 :
  Tokenizes A str1 low1 t1 -> List.length str1 = List.length low1 ->
  Tokenizes A str2 low2 t2 ->
  symbolTarget c = Some t -> (5 <= t)%nat -> c <> COLON ->
  emit st0 t = Some TOK ->
  Tokenizes A (str1 ++ c :: str2) (low1 ++ c :: low2)
    (t1 ++ mkToken TOK [c] :: t2).
Proof.
  intros H1 Hl H2 Hs Ht Hcol He.
  apply (Tokenizes_app A (c :: str2) (c :: low2) _) with (str1 := str1); auto.
  - apply (fin_tok_symbol (c :: str2) c low2 t TOK t2); auto.
  - intros q p m Eq Hp Hm. rewrite Bstart in Hm. simpl.
    rewrite fin_next_symbol_stop; auto.
    + unfold plainChar. congruence.
    + intros Hw. apply symbolTarget_WS in Hw. rewrite Hw in Hs.
      injection Hs as <-. lia.
    + eapply fin_walk_nonzero; eauto.
Qed.

(** Without a hyphen in any top-level domain, a walk from the start state
    that ends with a hyphen in an accepting state is the hyphen alone, and
    the state is the catch-all state. *)
Lemma fin_walk_hyphen u s tc :
  (forall w, In w tlds -> ~ In HYPHEN w) ->
  walk (states A) 0 (u ++ [HYPHEN]) = Some s ->
  emit (states A) s = Some tc -> u = [] /\ tc = TOKENS.SYM.
Proof.
  intros Hno Hw He. rewrite walk_app in Hw.
  destruct (walk (states A) 0 u) as [m|] eqn:Hu; [|discriminate].
  simpl in Hw. destruct (next (states A) m HYPHEN) as [t|] eqn:En; [|discriminate].
  injection Hw as ->.
  destruct (fin_next_hyphen_any _ _ Hno En) as [[-> ->]|[_ ->]].
  - apply fin_walk_zero in Hu. rewrite Bemitsym in He. injection He as <-. auto.
  - rewrite fin_emit_3 in He. discriminate.
Qed.

(** The hyphen leads from inside a label to a state that does not accept,
    so that a scan that stops there goes back to the label's end. *)
Lemma fin_tok_dom_hyphen str w r m TOK tokens :
  (forall w, In w tlds -> ~ In HYPHEN w) ->
  w <> [] -> walk (states A) 0 w = Some m -> domLike A m ->
  emit (states A) m = Some TOK ->
  (r = [] \/ exists c r', r = c :: r' /\ ~ plainChar c) ->
  Tokenizes A (skipn (List.length w) str) (HYPHEN :: r) tokens ->
  Tokenizes A str (w ++ HYPHEN :: r)
    (mkToken TOK (firstn (List.length w) str) :: tokens).
Proof.
  intros Hno Hne Hw Hd He Hr HT.
  apply (Tokenizes_back A str w (HYPHEN :: r) m TOK tokens); auto.
  - rewrite Bstart. exact Hw.
  - simpl. destruct (fin_next_dom_hyphen _ Hd) as (t & Ht & _). rewrite Ht.
    destruct (fin_next_hyphen_any _ _ Hno Ht) as [[-> _]|[_ ->]].
    + exfalso. destruct Hd as [[H|H] _]; lia.
    + constructor; [apply accepts_false, fin_emit_3|].
      destruct Hr as [->|(c & r' & -> & Hc)]; simpl; [constructor|].
      rewrite fin_next_hyphen.
      destruct (fbEdge c) as [t|] eqn:E; [|constructor].
      exfalso. apply Hc. destruct (fbEdge_cases _ _ E) as [[-> _]|[Ha _]];
        [apply plainChar_HYPHEN|apply plainChar_ALPHANUM; exact Ha].
Qed.

(** A hyphen at the start of a token is a token of its own. *)
Lemma fin_tok_hyphen str r tokens :
  (forall w, In w tlds -> ~ In HYPHEN w) ->
  Tokenizes A (skipn 1 str) r tokens ->
  Tokenizes A str (HYPHEN :: r) (mkToken TOKENS.SYM (firstn 1 str) :: tokens).
Proof.
  intros Hno HT.
  apply (Tokenizes_cons A str [HYPHEN] r (List.length M)); auto.
  - discriminate.
  - rewrite Bstart. simpl. rewrite Bnext by lia. rewrite (fin_M_hyphen _ Hno).
    reflexivity.
  - apply fin_steps_sym.
Qed.

(** A hyphen inside a label, followed by a letter or digit, leaves the
    scan inside the label. *)
Lemma fin_walk_hyphenated s c w :
  domLike A s -> alnumWord (c :: w) ->
  exists m, walk (states A) s (HYPHEN :: c :: w) = Some m /\ domLike A m.
Proof.
  intros Hd Hw. inversion Hw as [|? ? Hc Hw']; subst.
  destruct (fin_next_dom_hyphen _ Hd) as (t & Ht & [->|Hdt]).
  - destruct (fin_walk_dom w 2%nat fin_domLike_2 Hw') as (m & Hm & Hdm).
    exists m. cbn [walk]. rewrite Ht, fin_next_hyphen, (fbEdge_alnum _ Hc).
    auto.
  - destruct (fin_walk_dom (c :: w) t Hdt Hw) as (m & Hm & Hdm).
    exists m. cbn [walk]. rewrite Ht. auto.
Qed.

(** A run of whitespace at the start of a token. *)
Lemma fin_tok_ws str ws r tokens :
  ws <> [] -> Forall (fun c => In c WHITESPACE) ws ->
  (r = [] \/ exists c r', r = c :: r' /\ ~ In c WHITESPACE) ->
  Tokenizes A (skipn (List.length ws) str) r tokens ->
  Tokenizes A str (ws ++ r)
    (mkToken TOKENS.WS (firstn (List.length ws) str) :: tokens).
Proof.
  intros Hne Hws Hr HT.
  apply (Tokenizes_cons A str ws r 4%nat); auto.
  - rewrite Bstart. apply fin_walk_ws; assumption.
  - apply fin_emit_ws.
  - destruct Hr as [->|(c & r' & -> & Hc)]; simpl; [reflexivity|].
    rewrite fin_next_ws.
    destruct (isIn c WHITESPACE) eqn:E; [|reflexivity].
    apply isIn_In in E. contradiction.
Qed.

(** ** Numbers *)

Lemma NUM_ALPHANUM c : In c NUM -> In c ALPHANUM.
Proof. apply incl_isIn. reflexivity. Qed.

Lemma fin_M_digit s c :
  (forall w, In w tlds -> forall d, In d w -> ~ In d NUM) ->
  In c NUM -> next M s c = None.
Proof.
  intros Hnd Hc. destruct (next M s c) as [t|] eqn:En; [|reflexivity].
  exfalso. pose proof (next_lt _ _ _ _ En) as Hlt.
  destruct (nth_error_ex _ _ Hlt) as (x & Hx).
  pose proof (next_edge _ _ _ _ _ Bnd Hx En) as Hin.
  destruct (Bkeys _ _ _ _ Hx Hin) as [H|[H|H]].
  - apply H. apply plainChar_ALPHANUM, NUM_ALPHANUM, Hc.
  - apply in_concat in H. destruct H as (w & Hw & Hcw). exact (Hnd _ Hw _ Hcw Hc).
  - simpl in H, Hc.
    repeat (destruct H as [<-|H];
            [repeat (destruct Hc as [Hc|Hc]; [discriminate Hc|]); exact Hc|]).
    exact H.
Qed.

Lemma fin_emit_num : emit (states A) 1 = Some TOKENS.NUM.
Proof. rewrite fin_emit_old by lia. reflexivity. Qed.

Lemma fin_emit_domain : emit (states A) 2 = Some TOKENS.DOMAIN.
Proof. rewrite fin_emit_old by lia. reflexivity. Qed.

Lemma fin_next_num c : next (states A) 1 c = fbNext false 1 c.
Proof. apply fin_next_small; lia. Qed.

Lemma fin_next_domain c : next (states A) 2 c = fbEdge c.
Proof. rewrite fin_next_small by lia. reflexivity. Qed.

Lemma fbNext_num_digit c : In c NUM -> fbNext false 1 c = Some 1%nat.
Proof.
  intros Hc. cbn [fbNext].
  assert (Hh : N.eqb c HYPHEN = false).
  { apply N.eqb_neq. intros ->. simpl in Hc.
    repeat (destruct Hc as [Hc|Hc]; [discriminate Hc|]). exact Hc. }
  apply isIn_In in Hc. rewrite Hh, Hc. reflexivity.
Qed.

Lemma fbNext_num_letter c :
  In c ALPHANUM -> ~ In c NUM -> fbNext false 1 c = Some 2%nat.
Proof.
  intros Ha Hn. cbn [fbNext].
  assert (Hh : N.eqb c HYPHEN = false).
  { apply N.eqb_neq. intros ->. simpl in Ha.
    repeat (destruct Ha as [Ha|Ha]; [discriminate Ha|]). exact Ha. }
  assert (Hd : isIn c NUM = false).
  { destruct (isIn c NUM) eqn:E; [|reflexivity]. apply isIn_In in E.
    contradiction. }
  apply isIn_In in Ha. rewrite Hh, Hd, Ha. reflexivity.
Qed.

(** A word of digits leads from the start state to the number state. *)
Lemma fin_walk_digits ds :
  (forall w, In w tlds -> forall d, In d w -> ~ In d NUM) ->
  ds <> [] -> digits ds -> walk (states A) 0 ds = Some 1%nat.
Proof.
  intros Hnd Hne Hds. destruct ds as [|c ds]; [congruence|].
  inversion Hds as [|? ? Hc Hds']; subst. simpl.
  rewrite Bnext by lia. rewrite (fin_M_digit _ _ Hnd Hc).
  cbn [fbNext]. apply isIn_In in Hc. rewrite Hc.
  clear Hne Hds Hc. induction Hds' as [|d ds Hd _ IH]; simpl; [reflexivity|].
  rewrite fin_next_num, (fbNext_num_digit _ Hd). exact IH.
Qed.

(** Letters and digits keep the scan in the DOMAIN state. *)
Lemma fin_walk_domain w :
  alnumWord w -> walk (states A) 2 w = Some 2%nat.
Proof.
  induction 1 as [|c w Hc _ IH]; simpl; [reflexivity|].
  rewrite fin_next_domain, (fbEdge_alnum _ Hc). exact IH.
Qed.

(** A number is a NUM token. *)
Lemma fin_tok_digits str ds r tokens :
  (forall w, In w tlds -> forall d, In d w -> ~ In d NUM) ->
  ds <> [] -> digits ds ->
  (r = [] \/ exists c r', r = c :: r' /\ ~ In c ALPHANUM /\ c <> HYPHEN) ->
  Tokenizes A (skipn (List.length ds) str) r tokens ->
  Tokenizes A str (ds ++ r)
    (mkToken TOKENS.NUM (firstn (List.length ds) str) :: tokens).
Proof.
  intros Hnd Hne Hds Hr HT.
  apply (Tokenizes_cons A str ds r 1%nat); auto.
  - rewrite Bstart. apply fin_walk_digits; assumption.
  - apply fin_emit_num.
  - destruct Hr as [->|(c & r' & -> & Ha & Hh)]; simpl; [reflexivity|].
    rewrite fin_next_num, fbNext_outside by assumption. reflexivity.
Qed.

(** A number followed by a letter is a DOMAIN token with what follows. *)
Lemma fin_tok_digits_letter str ds c w :
  (forall w, In w tlds -> forall d, In d w -> ~ In d NUM) ->
  ds <> [] -> digits ds -> In c ALPHANUM -> ~ In c NUM -> alnumWord w ->
  Tokenizes A str (ds ++ c :: w)
    [mkToken TOKENS.DOMAIN (firstn (List.length (ds ++ c :: w)) str)].
Proof.
  intros Hnd Hne Hds Hc Hcn Hw.
  rewrite <- (app_nil_r (ds ++ c :: w)) at 1.
  apply (Tokenizes_cons A str (ds ++ c :: w) [] 2%nat); auto.
  - destruct ds; discriminate.
  - rewrite Bstart, walk_app, (fin_walk_digits _ Hnd Hne Hds). simpl.
    rewrite fin_next_num, (fbNext_num_letter _ Hc Hcn).
    apply fin_walk_domain. exact Hw.
  - apply fin_emit_domain.
  - constructor.
Qed.

(** ** Labels *)

(** Inside a label, after a hyphen or not. *)
Lemma fin_walk_labelChars w : forall s,
  (s = 3%nat \/ domLike A s) -> labelChars w ->
  exists m, walk (states A) s w = Some m /\ (m = 3%nat \/ domLike A m) /\
            (forall u c, w = u ++ [c] -> In c ALPHANUM -> domLike A m).
Proof.
  induction w as [|c w IH]; intros s Hs Hw.
  - exists s. split; [reflexivity|]. split; [exact Hs|].
    intros u c E. destruct u; discriminate E.
  - inversion Hw as [|? ? Hc Hw']; subst.
    assert (X : exists t, next (states A) s c = Some t /\
                          (t = 3%nat \/ domLike A t) /\
                          (In c ALPHANUM -> domLike A t)).
    { destruct Hc as [Hc| ->].
      - destruct Hs as [->|Hd].
        + exists 2%nat. rewrite fin_next_hyphen, (fbEdge_alnum _ Hc).
          split; [reflexivity|]. split; [right|intros _]; apply fin_domLike_2.
        + destruct (fin_next_dom_alnum _ _ Hd Hc) as (t & Ht & Hdt).
          exists t. auto.
      - destruct Hs as [->|Hd].
        + exists 3%nat. rewrite fin_next_hyphen. split; [reflexivity|].
          split; [left; reflexivity|].
          intros H. exfalso. simpl in H.
          repeat (destruct H as [H|H]; [discriminate H|]). exact H.
        + destruct (fin_next_dom_hyphen _ Hd) as (t & Ht & Hdt).
          exists t. split; [exact Ht|]. split; [exact Hdt|].
          intros H. exfalso. simpl in H.
          repeat (destruct H as [H|H]; [discriminate H|]). exact H. }
    destruct X as (t & Ht & Hst & Hal).
    destruct (IH t Hst Hw') as (m & Hm & Hsm & Hlast).
    exists m. simpl. rewrite Ht. split; [exact Hm|]. split; [exact Hsm|].
    intros u c' E Hc'. destruct u as [|a u].
    + simpl in E. injection E as -> ->. simpl in Hm. injection Hm as <-.
      apply Hal. exact Hc'.
    + simpl in E. injection E as -> ->. eapply Hlast; eauto.
Qed.

(** A label that begins with the first letter of a literal and ends with
    a letter or digit leads to a state inside a label. *)
Lemma fin_walk_whole_label c u z :
  (startsTld tlds c \/ exists v, In (c :: v) schemes) ->
  labelChars (u ++ [z]) -> In z ALPHANUM ->
  exists m, walk (states A) 0 (c :: u ++ [z]) = Some m /\ domLike A m.
Proof.
  intros Hc Hw Hz.
  destruct (fin_walk_label c [] Hc) as (t & Ht & Hd); [constructor|].
  simpl in Ht. destruct (next (states A) 0 c) as [t'|] eqn:En; [|discriminate].
  injection Ht as ->.
  destruct (fin_walk_labelChars (u ++ [z]) t (or_intror Hd) Hw)
    as (m & Hm & _ & Hlast).
  exists m. simpl. rewrite En. split; [exact Hm|]. eapply Hlast; eauto.
Qed.

(** ** Hyphens at the end of a label *)

Lemma fin_steps_hyphens m n :
  (forall w, In w tlds -> ~ In HYPHEN w) -> domLike A m ->
  steps (states A) m (hyphens n) = repeat 3%nat n.
Proof.
  intros Hno Hd. destruct n as [|n]; [reflexivity|]. simpl.
  destruct (fin_next_dom_hyphen _ Hd) as (t & Ht & _). rewrite Ht.
  destruct (fin_next_hyphen_any _ _ Hno Ht) as [[-> _]|[_ ->]].
  - exfalso. destruct Hd as [[H|H] _]; lia.
  - f_equal. induction n as [|n IH]; simpl; [reflexivity|].
    rewrite fin_next_hyphen, fbEdge_hyphen. f_equal. exact IH.
Qed.

Lemma fin_tok_hyphens str n :
  (forall w, In w tlds -> ~ In HYPHEN w) ->
  List.length str = n ->
  Tokenizes A str (hyphens n)
    (map (fun c => mkToken TOKENS.SYM [c]) str).
Proof.
  intros Hno. revert str. induction n as [|n IH]; intros str Hl.
  - destruct str; [constructor|discriminate].
  - destruct str as [|c str]; [discriminate|]. simpl.
    apply (fin_tok_hyphen (c :: str) (hyphens n)); auto.
Qed.

(** ** "localhost" and the protocols *)

Lemma fin_tok_localhost str r tokens :
  (forall u, In u tlds -> ~ isPrefix (js "localhost") u) ->
  (r = [] \/ exists c r', r = c :: r' /\ ~ In c ALPHANUM /\ c <> HYPHEN) ->
  Tokenizes A (skipn 9 str) r tokens ->
  Tokenizes A str (js "localhost" ++ r)
    (mkToken TOKENS.LOCALHOST (firstn 9 str) :: tokens).
Proof.
  intros Hno Hr HT.
  destruct (pf_localhost_new _ _ _ PF Hno) as (m & Hw & He & Hn).
  assert (Hlt : (m < List.length M)%nat).
  { unfold emit in He. destruct (nth_error M m) eqn:E; [|discriminate].
    eapply nth_error_lt; eauto. }
  apply (Tokenizes_cons A str (js "localhost") r m); auto.
  - discriminate.
  - rewrite Bstart. apply fin_walk_M. exact Hw.
  - rewrite Bemit by exact Hlt. exact He.
  - destruct Hr as [->|(c & r' & -> & Ha & Hh)]; simpl; [reflexivity|].
    rewrite Bnext by exact Hlt. rewrite Hn, fbNext_outside by assumption.
    destruct (Nat.eqb_spec m 0) as [->|_]; [|reflexivity].
    exfalso. rewrite <- Bemit, fin_emit_old in He by lia. discriminate He.
Qed.

Lemma fin_protocol_texts u s :
  walk (states A) 0 u = Some s ->
  emit (states A) s = Some TOKENS.PROTOCOL -> In u protocolTexts.
Proof.
  intros Hw He.
  assert (Hlt : (s < List.length M)%nat)
    by (eapply fin_emit_lt; eauto; discriminate).
  assert (H20 : (20 <= s)%nat).
  { destruct (Nat.le_gt_cases 20 s) as [|Hs]; [assumption|exfalso].
    rewrite fin_emit_old in He by exact Hs. apply st0_tags in He. tauto. }
  rewrite Bemit in He by exact Hlt.
  eapply (pf_protocol_texts _ _ _ PF); [|exact He].
  apply fin_walk_back; [exact Hw|lia].
Qed.

(** ** The kinds of states a scan can be in *)

Lemma fbNext_plain b s c t : fbNext b s c = Some t -> plainChar c.
Proof.
  intros H.
  assert (X : c = HYPHEN \/ In c ALPHANUM).
  { unfold fbNext, fbEdge in H.
    destruct (N.eqb_spec c HYPHEN) as [->|_]; [left; reflexivity|right].
    destruct (isIn c ALPHANUM) eqn:Ea; [apply isIn_In; exact Ea|].
    destruct (isIn c NUM) eqn:En.
    - apply NUM_ALPHANUM. apply isIn_In. exact En.
    - destruct s as [|[|[|[|s]]]]; try discriminate H.
      destruct b; discriminate H. }
  destruct X as [->|X]; [apply plainChar_HYPHEN|apply plainChar_ALPHANUM, X].
Qed.

Lemma st0_symbol_tags s tc :
  (5 <= s < 20)%nat -> emit st0 s = Some tc ->
  ~ labelClass tc /\ tc <> TOKENS.WS /\ tc <> TOKENS.PROTOCOL.
Proof.
  intros Hs He. do 5 (destruct s as [|s]; [lia|]).
  do 15 (destruct s as [|s];
         [simpl in He; injection He as <-;
          split; [intros [X|[X|[X|X]]]; discriminate X
                 |split; discriminate]|]).
  lia.
Qed.

(** A walk from the start state over at least one character ends in a
    state with no successor after one character, in the whitespace state
    after whitespace only, inside a label after characters that are no
    symbols, or in the state that completes a protocol after such
    characters and a colon. *)
Lemma fin_walk_kinds u : forall s,
  walk (states A) 0 u = Some s -> u <> [] ->
  (((5 <= s < 20)%nat \/ s = List.length M) /\ List.length u = 1%nat) \/
  (s = 4%nat /\ Forall (fun c => In c WHITESPACE) u) \/
  (((1 <= s <= 3)%nat \/ domLike A s) /\ Forall plainChar u) \/
  (s = full /\ exists v, u = v ++ [COLON] /\ Forall plainChar v).
Proof.
  induction u as [|c u IH] using rev_ind; intros s Hw Hne; [congruence|].
  clear Hne. rewrite walk_app in Hw.
  destruct (walk (states A) 0 u) as [s'|] eqn:Hu; [|discriminate].
  simpl in Hw. destruct (next (states A) s' c) as [t|] eqn:Hn; [|discriminate].
  injection Hw as ->.
  destruct (nil_or_not u) as [->|Hne].
  - simpl in Hu. injection Hu as <-.
    destruct (fin_next_start _ _ Hn) as [H | [ [Hc Hd] | [ (Hc & _ & ->) | (Hc & -> & _) ] ] ].
    + pose proof (symbolTarget_range _ _ H) as Hr.
      destruct (Nat.eq_dec s 4) as [->|H4].
      * right; left. split; [reflexivity|].
        constructor; [apply symbolTarget_WS; exact H|constructor].
      * left. split; [left; lia|reflexivity].
    + right; right; left. split; [right; exact Hd|]. repeat constructor. exact Hc.
    + right; right; left. split; [left; lia|]. repeat constructor. exact Hc.
    + left. split; [right; reflexivity|reflexivity].
  - destruct (IH _ eq_refl Hne) as [ [ [Hl | ->] _] | [ [-> Hws] | [ [Hlab Hp] | [-> _] ] ] ].
    + rewrite fin_next_leaf in Hn by exact Hl. discriminate.
    + rewrite Bnextsym in Hn. discriminate.
    + rewrite fin_next_ws in Hn.
      destruct (isIn c WHITESPACE) eqn:E; [|discriminate].
      injection Hn as <-. right; left. split; [reflexivity|].
      apply Forall_app. split; [exact Hws|].
      constructor; [apply isIn_In; exact E|constructor].
    + assert (Hs' : (s' < List.length M)%nat).
      { destruct Hlab as [H|H]; [lia|apply fin_domLike_lt; exact H]. }
      assert (Hs0 : s' <> 0%nat).
      { destruct Hlab as [H|[[H|H] _]]; lia. }
      pose proof Hn as Hn'. rewrite Bnext in Hn' by exact Hs'.
      destruct (next M s' c) as [t|] eqn:En.
      * injection Hn' as ->.
        pose proof (next_WF _ _ _ _ Bnd Bwf En) as Hlt.
        destruct (fin_edge _ _ _ En)
          as [[H _]|[[H _]|[(_ & Hc & H20 & Hdt)|(_ & _ & Hc & H20 & Hpt)]]].
        -- contradiction.
        -- exfalso. subst s'. destruct Hlab as [H|[[H|H] _]]; lia.
        -- right; right; left. split.
           ++ right. split; [right; exact H20|].
              apply fin_domTag; assumption.
           ++ apply Forall_app. split; [exact Hp|repeat constructor; exact Hc].
        -- right; right; right. subst c.
           assert (Hwf : walk (states A) 0 (u ++ [COLON]) = Some s)
             by (rewrite walk_app, Hu; simpl; rewrite Hn; reflexivity).
           assert (HwM : walk M 0 (u ++ [COLON]) = Some s)
             by (apply fin_walk_back; [exact Hwf|lia]).
           pose proof (pf_protocol_texts _ _ _ PF _ _ HwM Hpt) as Hin.
           assert (Hfull : walk M 0 (u ++ [COLON]) = Some full).
           { assert (X : exists w, In w schemes /\ u ++ [COLON] = w ++ [COLON]).
             { unfold protocolTexts in Hin. simpl in Hin.
               destruct Hin as [E|[E|[E|[E|[E|[]]]]]]; rewrite <- E.
               - exists (js "file"). split; [left; reflexivity|reflexivity].
               - exists (js "ftp"). split; [right; left; reflexivity|reflexivity].
               - exists (js "http").
                 split; [do 2 right; left; reflexivity|reflexivity].
               - exists (js "ftps").
                 split; [do 3 right; left; reflexivity|reflexivity].
               - exists (js "https").
                 split; [do 4 right; left; reflexivity|reflexivity]. }
             destruct X as (w & Hw & ->).
             destruct (fin_schemes_M _ Hw) as (_ & _ & m & Hm & _ & Hc).
             rewrite walk_app, Hm. simpl. rewrite Hc. reflexivity. }
           rewrite HwM in Hfull. injection Hfull as ->.
           split; [reflexivity|]. exists u. split; [reflexivity|exact Hp].
      * destruct (fbNext _ s' c) as [t|] eqn:Ef.
        -- injection Hn' as ->. right; right; left.
           split; [left; apply fbNext_target in Ef; lia|].
           apply Forall_app. split; [exact Hp|].
           repeat constructor. eapply fbNext_plain; eauto.
        -- destruct (Nat.eqb_spec s' 0); [contradiction|discriminate].
    + rewrite fin_next_full in Hn. discriminate.
Qed.

(** The shape of the text that leads to an accepting state, by the class
    of the state. *)
Lemma fin_text_shape u s tc :
  walk (states A) 0 u = Some s -> u <> [] ->
  emit (states A) s = Some tc ->
  (labelClass tc /\ Forall plainChar u) \/
  (tc = TOKENS.WS /\ Forall (fun c => In c WHITESPACE) u) \/
  (tc = TOKENS.PROTOCOL /\ exists v, u = v ++ [COLON] /\ Forall plainChar v) \/
  (~ labelClass tc /\ tc <> TOKENS.WS /\ tc <> TOKENS.PROTOCOL /\
   List.length u = 1%nat).
Proof.
  intros Hw Hne He.
  destruct (fin_walk_kinds _ _ Hw Hne)
    as [ [ [Hl | ->] Hlen] | [ [-> Hws] | [ [Hlab Hp] | [-> Hv] ] ] ].
  - right; right; right. rewrite fin_emit_old in He by lia.
    destruct (st0_symbol_tags _ _ Hl He) as (H1 & H2 & H3). auto.
  - right; right; right. rewrite Bemitsym in He. injection He as <-.
    split; [intros [X|[X|[X|X]]]; discriminate X|].
    split; [discriminate|]. split; [discriminate|exact Hlen].
  - right; left. rewrite fin_emit_ws in He. injection He as <-. auto.
  - left. split; [|exact Hp].
    destruct Hlab as [H|[_ [H|[H|H]]]].
    + assert (X : s = 1%nat \/ s = 2%nat \/ s = 3%nat) by lia.
      destruct X as [->|[->| ->]].
      * rewrite fin_emit_num in He. injection He as <-.
        right; right; right. reflexivity.
      * rewrite fin_emit_domain in He. injection He as <-. left. reflexivity.
      * rewrite fin_emit_3 in He. discriminate.
    + rewrite H in He. injection He as <-. left. reflexivity.
    + rewrite H in He. injection He as <-. right; left. reflexivity.
    + rewrite H in He. injection He as <-. right; right; left. reflexivity.
  - right; right; left. rewrite fin_emit_full in He. injection He as <-. auto.
Qed.

End PlainFinal.

(** A character the start state has no edge for is a token of its own at
    the start of a token. *)
Lemma fin_tok_default str x c r tokens :
  nth_error (states A) 0 = Some x -> lookupJump c (jumps x) = None ->
  Tokenizes A (skipn 1 str) r tokens ->
  Tokenizes A str (c :: r) (mkToken TOKENS.SYM (firstn 1 str) :: tokens).
Proof.
  intros Hx Hl HT.
  apply (Tokenizes_cons A str [c] r (List.length M)); auto.
  - discriminate.
  - rewrite Bstart. simpl. rewrite (fin_next_default _ _ Hx Hl). reflexivity.
  - apply fin_steps_sym.
Qed.

(** A character outside the alphabet is a token of its own wherever it
    stands. *)
Lemma fin_split_outside str1 low1 t1 ch c str2 low2 t2 :
  Tokenizes A str1 low1 t1 -> List.length str1 = List.length low1 ->
  Tokenizes A str2 low2 t2 ->
  outside tlds c ->
  Tokenizes A (str1 ++ ch :: str2) (low1 ++ c :: low2)
    (t1 ++ mkToken TOKENS.SYM [ch] :: t2).
Proof.
  intros H1 Hl H2 Ho.
  apply (Tokenizes_app A (ch :: str2) (c :: low2) _) with (str1 := str1); auto.
  - apply (Tokenizes_cons A (ch :: str2) [c] low2 (List.length M)); auto.
    + discriminate.
    + rewrite Bstart. simpl. rewrite (fin_next_outside_start _ Ho). reflexivity.
    + apply fin_steps_sym.
  - intros q p m Eq Hp Hm. rewrite Bstart in Hm. simpl.
    rewrite fin_next_outside; auto. eapply fin_walk_nonzero; eauto.
Qed.

End Final.

(* ------------------------------------------------------------------ *)
(** * What a scanner that was built does with a text *)

Ltac from_built HB lem :=
  built HB; eapply lem; eauto.

Section BuiltTokens.

Variables (tlds : list jsstring) (A : Scanner).
Hypothesis HB : Built tlds A.

Lemma B_start : start A = 0%nat.
Proof. built HB. exact Bstart. Qed.

Lemma B_tok_default str x c r tokens :
  nth_error (states A) 0 = Some x -> lookupJump c (jumps x) = None ->
  Tokenizes A (skipn 1 str) r tokens ->
  Tokenizes A str (c :: r) (mkToken TOKENS.SYM (firstn 1 str) :: tokens).
Proof. intros. from_built HB fin_tok_default. Qed.

Lemma B_split_outside str1 low1 t1 ch c str2 low2 t2 :
  Tokenizes A str1 low1 t1 -> List.length str1 = List.length low1 ->
  Tokenizes A str2 low2 t2 ->
  outside tlds c ->
  Tokenizes A (str1 ++ ch :: str2) (low1 ++ c :: low2)
    (t1 ++ mkToken TOKENS.SYM [ch] :: t2).
Proof. intros. from_built HB fin_split_outside. Qed.

Lemma B_walk_nonzero w m :
  walk (states A) 0 w = Some m -> w <> [] -> m <> 0%nat.
Proof. intros. from_built HB fin_walk_nonzero. Qed.

Section PlainBuilt.

Hypothesis Hplain : plainTlds tlds.

Lemma B_tok_symbol str c r t TOK tokens :
  symbolTarget c = Some t -> (5 <= t)%nat -> emit st0 t = Some TOK ->
  Tokenizes A (skipn 1 str) r tokens ->
  Tokenizes A str (c :: r) (mkToken TOK (firstn 1 str) :: tokens).
Proof. intros. from_built HB fin_tok_symbol. Qed.

Lemma B_tok_dom str w r m TOK tokens :
  w <> [] -> walk (states A) 0 w = Some m -> domLike A m ->
  emit (states A) m = Some TOK ->
  (r = [] \/ exists c r', r = c :: r' /\ ~ plainChar c /\ c <> COLON) ->
  Tokenizes A (skipn (List.length w) str) r tokens ->
  Tokenizes A str (w ++ r)
    (mkToken TOK (firstn (List.length w) str) :: tokens).
Proof. intros. from_built HB fin_tok_dom. Qed.

Lemma B_tok_protocol str w r tokens :
  In w schemes ->
  Tokenizes A (skipn (S (List.length w)) str) r tokens ->
  Tokenizes A str (w ++ COLON :: r)
    (mkToken TOKENS.PROTOCOL (firstn (S (List.length w)) str) :: tokens).
Proof. intros. from_built HB fin_tok_protocol. Qed.

Lemma B_tok_scheme str w r tokens :
  In w schemes ->
  (r = [] \/ exists c r', r = c :: r' /\ ~ plainChar c /\ c <> COLON) ->
  Tokenizes A (skipn (List.length w) str) r tokens ->
  Tokenizes A str (w ++ r)
    (mkToken TOKENS.DOMAIN (firstn (List.length w) str) :: tokens).
Proof. intros. from_built HB fin_tok_scheme. Qed.

Lemma B_walk_protocol u s :
  walk (states A) 0 u = Some s ->
  emit (states A) s = Some TOKENS.PROTOCOL ->
  exists w, u = w ++ [COLON] /\ w <> [].
Proof. intros. from_built HB fin_walk_protocol. Qed.

Lemma B_dom_tag u c m :
  walk (states A) 0 (u ++ [c]) = Some m -> domLike A m ->
  ~ In (u ++ [c]) tlds -> ~ In c (js "localhost") ->
  emit (states A) m = Some TOKENS.DOMAIN.
Proof. intros. from_built HB fin_dom_tag. Qed.

Lemma B_walk_label c w :
  (startsTld tlds c \/ exists v, In (c :: v) schemes) -> alnumWord w ->
  exists m, walk (states A) 0 (c :: w) = Some m /\ domLike A m.
Proof. intros. from_built HB fin_walk_label. Qed.

Lemma B_tld w :
  recognised tlds w ->
  exists m, walk (states A) 0 w = Some m /\
            emit (states A) m = Some TOKENS.TLD.
Proof. intros. from_built HB fin_tld. Qed.

Lemma B_tld_only u m :
  walk (states A) 0 u = Some m -> emit (states A) m = Some TOKENS.TLD ->
  In u tlds.
Proof. intros. from_built HB fin_tld_only. Qed.

Lemma B_split_ws str1 low1 t1 ws str2 low2 t2 :
  Tokenizes A str1 low1 t1 -> List.length str1 = List.length low1 ->
  Tokenizes A str2 low2 t2 ->
  ws <> [] -> Forall (fun c => In c WHITESPACE) ws ->
  (low1 = [] \/ exists q c, low1 = q ++ [c] /\ ~ In c WHITESPACE) ->
  (low2 = [] \/ exists c r, low2 = c :: r /\ ~ In c WHITESPACE) ->
  Tokenizes A (str1 ++ ws ++ str2) (low1 ++ ws ++ low2)
    (t1 ++ mkToken TOKENS.WS ws :: t2).
Proof. intros. from_built HB fin_split_ws. Qed.

Lemma B_split_symbol str1 low1 t1 c t TOK str2 low2 t2 :
  Tokenizes A str1 low1 t1 -> List.length str1 = List.length low1 ->
  Tokenizes A str2 low2 t2 ->
  symbolTarget c = Some t -> (5 <= t)%nat -> c <> COLON ->
  emit st0 t = Some TOK ->
  Tokenizes A (str1 ++ c :: str2) (low1 ++ c :: low2)
    (t1 ++ mkToken TOK [c] :: t2).
Proof. intros. from_built HB fin_split_symbol. Qed.

Lemma B_walk_hyphen u s tc :
  (forall w, In w tlds -> ~ In HYPHEN w) ->
  walk (states A) 0 (u ++ [HYPHEN]) = Some s ->
  emit (states A) s = Some tc -> u = [] /\ tc = TOKENS.SYM.
Proof. intros. from_built HB fin_walk_hyphen. Qed.

Lemma B_tok_dom_hyphen str w r m TOK tokens :
  (forall w, In w tlds -> ~ In HYPHEN w) ->
  w <> [] -> walk (states A) 0 w = Some m -> domLike A m ->
  emit (states A) m = Some TOK ->
  (r = [] \/ exists c r', r = c :: r' /\ ~ plainChar c) ->
  Tokenizes A (skipn (List.length w) str) (HYPHEN :: r) tokens ->
  Tokenizes A str (w ++ HYPHEN :: r)
    (mkToken TOK (firstn (List.length w) str) :: tokens).
Proof. intros. from_built HB fin_tok_dom_hyphen. Qed.

Lemma B_tok_hyphen str r tokens :
  (forall w, In w tlds -> ~ In HYPHEN w) ->
  Tokenizes A (skipn 1 str) r tokens ->
  Tokenizes A str (HYPHEN :: r) (mkToken TOKENS.SYM (firstn 1 str) :: tokens).
Proof. intros. from_built HB fin_tok_hyphen. Qed.

Lemma B_hyphen_state :
  exists h, emit (states A) h = None /\
            forall s, domLike A s ->
                      (forall w, In w tlds -> ~ In HYPHEN w) ->
                      next (states A) s HYPHEN = Some h.
Proof.
  exists 3%nat. built HB. split.
  - eapply fin_emit_3; eauto.
  - intros s Hd Hno.
    assert (X : exists t, next (states A) s HYPHEN = Some t /\
                          (t = 3%nat \/ domLike A t))
      by (eapply fin_next_dom_hyphen; eauto).
    destruct X as (t & Ht & _). rewrite Ht. f_equal.
    assert (Y : (s = 0%nat /\ t = List.length M) \/ (s <> 0%nat /\ t = 3%nat))
      by (eapply fin_next_hyphen_any; eauto).
    destruct Y as [[-> _]|[_ ->]]; [|reflexivity].
    destruct Hd as [[H|H] _]; lia.
Qed.

Lemma B_walk_hyphenated s c w :
  domLike A s -> alnumWord (c :: w) ->
  exists m, walk (states A) s (HYPHEN :: c :: w) = Some m /\ domLike A m.
Proof. intros. from_built HB fin_walk_hyphenated. Qed.

Lemma B_tok_ws str ws r tokens :
  ws <> [] -> Forall (fun c => In c WHITESPACE) ws ->
  (r = [] \/ exists c r', r = c :: r' /\ ~ In c WHITESPACE) ->
  Tokenizes A (skipn (List.length ws) str) r tokens ->
  Tokenizes A str (ws ++ r)
    (mkToken TOKENS.WS (firstn (List.length ws) str) :: tokens).
Proof. intros. from_built HB fin_tok_ws. Qed.

Lemma B_tok_digits str ds r tokens :
  (forall w, In w tlds -> forall d, In d w -> ~ In d NUM) ->
  ds <> [] -> digits ds ->
  (r = [] \/ exists c r', r = c :: r' /\ ~ In c ALPHANUM /\ c <> HYPHEN) ->
  Tokenizes A (skipn (List.length ds) str) r tokens ->
  Tokenizes A str (ds ++ r)
    (mkToken TOKENS.NUM (firstn (List.length ds) str) :: tokens).
Proof. intros. from_built HB fin_tok_digits. Qed.

Lemma B_tok_digits_letter str ds c w :
  (forall w, In w tlds -> forall d, In d w -> ~ In d NUM) ->
  ds <> [] -> digits ds -> In c ALPHANUM -> ~ In c NUM -> alnumWord w ->
  Tokenizes A str (ds ++ c :: w)
    [mkToken TOKENS.DOMAIN (firstn (List.length (ds ++ c :: w)) str)].
Proof. intros. from_built HB fin_tok_digits_letter. Qed.

Lemma B_walk_whole_label c u z :
  (startsTld tlds c \/ exists v, In (c :: v) schemes) ->
  labelChars (u ++ [z]) -> In z ALPHANUM ->
  exists m, walk (states A) 0 (c :: u ++ [z]) = Some m /\ domLike A m.
Proof. intros. from_built HB fin_walk_whole_label. Qed.

Lemma B_steps_hyphens m n :
  (forall w, In w tlds -> ~ In HYPHEN w) -> domLike A m ->
  steps (states A) m (hyphens n) = repeat 3%nat n.
Proof. intros. from_built HB fin_steps_hyphens. Qed.

Lemma B_tok_hyphens str n :
  (forall w, In w tlds -> ~ In HYPHEN w) ->
  List.length str = n ->
  Tokenizes A str (hyphens n)
    (map (fun c => mkToken TOKENS.SYM [c]) str).
Proof. intros. from_built HB fin_tok_hyphens. Qed.

Lemma B_emit_3 : emit (states A) 3 = None.
Proof. from_built HB fin_emit_3. Qed.

Lemma B_tok_localhost str r tokens :
  (forall u, In u tlds -> ~ isPrefix (js "localhost") u) ->
  (r = [] \/ exists c r', r = c :: r' /\ ~ In c ALPHANUM /\ c <> HYPHEN) ->
  Tokenizes A (skipn 9 str) r tokens ->
  Tokenizes A str (js "localhost" ++ r)
    (mkToken TOKENS.LOCALHOST (firstn 9 str) :: tokens).
Proof. intros. from_built HB fin_tok_localhost. Qed.

Lemma B_protocol_texts u s :
  walk (states A) 0 u = Some s ->
  emit (states A) s = Some TOKENS.PROTOCOL -> In u protocolTexts.
Proof. intros. from_built HB fin_protocol_texts. Qed.

Lemma B_text_shape u s tc :
  walk (states A) 0 u = Some s -> u <> [] ->
  emit (states A) s = Some tc ->
  (labelClass tc /\ Forall plainChar u) \/
  (tc = TOKENS.WS /\ Forall (fun c => In c WHITESPACE) u) \/
  (tc = TOKENS.PROTOCOL /\ exists v, u = v ++ [COLON] /\ Forall plainChar v) \/
  (~ labelClass tc /\ tc <> TOKENS.WS /\ tc <> TOKENS.PROTOCOL /\
   List.length u = 1%nat).
Proof. intros. from_built HB fin_text_shape. Qed.

End PlainBuilt.

End BuiltTokens.

(* ------------------------------------------------------------------ *)
(** * The working copy *)

Lemma lowerAZ_app (u v : jsstring) : lowerAZ (u ++ v) = lowerAZ u ++ lowerAZ v.
Proof. apply map_app. Qed.

Lemma lowerAZ_firstn (n : nat) (s : jsstring) :
  lowerAZ (firstn n s) = firstn n (lowerAZ s).
Proof. symmetry. apply firstn_map. Qed.

Lemma lowerAZ_skipn (n : nat) (s : jsstring) :
  lowerAZ (skipn n s) = skipn n (lowerAZ s).
Proof. symmetry. apply skipn_map. Qed.

Lemma toLowerAZ_cases (c : char) :
  ((65 <= c <= 90)%N /\ toLowerAZ c = (c + 32)%N) \/
  (~ (65 <= c <= 90)%N /\ toLowerAZ c = c).
Proof.
  unfold toLowerAZ.
  destruct (N.leb_spec 65 c); destruct (N.leb_spec c 90); simpl;
    [left|right|right|right]; split; auto; lia.
Qed.

(** A character that is no lower-case letter is only the image of
    itself. *)
Lemma toLowerAZ_fixed (c y : char) :
  toLowerAZ c = y -> ~ (97 <= y <= 122)%N -> c = y.
Proof.
  intros E Hy. destruct (toLowerAZ_cases c) as [[Hc E']|[_ E']];
    rewrite E' in E; [lia|exact E].
Qed.

Lemma toLowerAZ_small (c : char) : (c < 65)%N -> toLowerAZ c = c.
Proof.
  intros H. destruct (toLowerAZ_cases c) as [[Hc _]|[_ E]]; [lia|exact E].
Qed.

Lemma toLowerAZ_WS (c : char) : In (toLowerAZ c) WHITESPACE <-> In c WHITESPACE.
Proof.
  split; intros H.
  - assert (E : c = toLowerAZ c).
    { apply toLowerAZ_fixed; [reflexivity|]. simpl in H.
      repeat (destruct H as [<-|H]; [lia|]). destruct H. }
    rewrite E. exact H.
  - rewrite toLowerAZ_small; [exact H|]. simpl in H.
    repeat (destruct H as [<-|H]; [lia|]). destruct H.
Qed.

Lemma lowerAZ_WS (ws : jsstring) :
  Forall (fun c => In c WHITESPACE) ws -> lowerAZ ws = ws.
Proof.
  induction 1 as [|c ws Hc _ IH]; simpl; [reflexivity|].
  rewrite IH. f_equal. apply toLowerAZ_small. simpl in Hc.
  repeat (destruct Hc as [<-|Hc]; [lia|]). destruct Hc.
Qed.

Lemma lowerAZ_snoc_inv (l w : jsstring) (y : char) :
  lowerAZ l = w ++ [y] ->
  exists x c, l = x ++ [c] /\ lowerAZ x = w /\ toLowerAZ c = y.
Proof.
  intros E. unfold lowerAZ in E. apply map_eq_app in E.
  destruct E as (x & r & -> & Hx & Hr).
  destruct r as [|c [|? ?]]; try discriminate Hr.
  injection Hr as Hc. exists x, c. auto.
Qed.

Lemma lowerAZ_snoc (l x : jsstring) (c : char) :
  l = x ++ [c] -> lowerAZ l = lowerAZ x ++ [toLowerAZ c].
Proof. intros ->. apply lowerAZ_app. Qed.

Section RunTokens.

Variables (tlds : list jsstring) (A : Scanner).
Hypothesis HB : Built tlds A.

Lemma run_iff (str : jsstring) (tokens : list Token) :
  run A str = Returns tokens <-> Tokenizes A str (lowerAZ str) tokens.
Proof.
  split.
  - apply runFuel_sound.
  - apply run_Tokenizes. exact (Built_Progress _ _ HB).
Qed.

Lemma run_returns (str : jsstring) : exists tokens, run A str = Returns tokens.
Proof.
  apply runFuel_enough; [exact (Built_Progress _ _ HB)|apply le_n].
Qed.

Lemma run_nil : run A [] = Returns [].
Proof. apply run_iff. constructor. Qed.

(** A one-character text is one token. *)
Lemma run_single (c : char) : exists tc, run A [c] = Returns [mkToken tc [c]].
Proof.
  destruct (run_returns [c]) as (tokens & Hr).
  pose proof (proj1 (run_iff _ _) Hr) as HT.
  pose proof (Tokenizes_tiles A _ _ _ (Built_Progress _ _ HB) HT
                (eq_sym (length_lowerAZ _))) as Ht.
  pose proof (Tokenizes_nonempty A _ _ _ HT (eq_sym (length_lowerAZ _))) as Hn.
  destruct tokens as [|[tc tx] tokens]; [discriminate Ht|].
  inversion Hn as [|? ? Hn1 Hn2]; subst. simpl in *.
  destruct tx as [|c' tx]; [congruence|].
  injection Ht as -> Ht. apply app_eq_nil in Ht. destruct Ht as [-> Ht].
  destruct tokens as [|t' tokens].
  - exists tc. exact Hr.
  - exfalso. inversion Hn2 as [|? ? Hn3 _]; subst. simpl in Ht.
    apply app_eq_nil in Ht. destruct Ht as [Ht _]. contradiction.
Qed.

End RunTokens.

Section TokenWalks.

Variables (tlds : list jsstring) (A : Scanner).
Hypothesis HB : Built tlds A.

(** The text of a token, lower-cased, leads from the start state to a
    state tagged with the token's class. *)
Lemma run_token_walk (str : jsstring) (tokens : list Token) (t : Token) :
  run A str = Returns tokens -> In t tokens ->
  exists s, walk (states A) 0 (lowerAZ (text t)) = Some s /\
            emit (states A) s = Some (tokenClass t).
Proof.
  intros Hr Hin. apply in_split in Hin. destruct Hin as (before & after & E).
  apply (run_iff _ _ HB) in Hr.
  destruct (Tokenizes_longest A _ _ _ (Built_Progress _ _ HB) Hr
              (eq_sym (length_lowerAZ _)) before t after E)
    as (_ & Ht & s & _ & Hw & He & _).
  exists s. split; [|exact He].
  rewrite (B_start _ _ HB) in Hw.
  assert (E' : lowerAZ (text t) =
               firstn (List.length (text t))
                 (skipn (List.length (List.concat (map text before)))
                    (lowerAZ str))).
  { rewrite Ht at 1. rewrite lowerAZ_firstn, lowerAZ_skipn. reflexivity. }
  rewrite E'. exact Hw.
Qed.

End TokenWalks.

(* ------------------------------------------------------------------ *)
(** * Some texts *)

Lemma alnumWord_js (s : string) :
  forallb (fun c => isIn c ALPHANUM) (js s) = true -> alnumWord (js s).
Proof.
  intros H. apply Forall_forall. intros c Hc.
  rewrite forallb_forall in H. apply isIn_In. auto.
Qed.

Lemma symbol_stops (c : char) (r : jsstring) t :
  symbolTarget c = Some t -> c <> COLON ->
  c :: r = [] \/ exists c' r', c :: r = c' :: r' /\ ~ plainChar c' /\ c' <> COLON.
Proof.
  intros H Hc. right. exists c, r. split; [reflexivity|]. split; [|exact Hc].
  unfold plainChar. congruence.
Qed.

Section Examples.

Variables (tlds : list jsstring) (A : Scanner).
Hypothesis HB : Built tlds A.
Hypothesis Hplain : plainTlds tlds.

(** A top-level domain at the end of the text. *)
Lemma tok_tld_end (str w : jsstring) :
  recognised tlds w ->
  Tokenizes A str w [mkToken TOKENS.TLD (firstn (List.length w) str)].
Proof.
  intros Hr. destruct (B_tld _ _ HB Hplain _ Hr) as (m & Hw & He).
  rewrite <- (app_nil_r w) at 1.
  apply (Tokenizes_cons A str w [] m); auto.
  - destruct Hr; assumption.
  - rewrite (B_start _ _ HB). exact Hw.
  - constructor.
Qed.

Lemma tokens_example_com (str : jsstring) :
  startsTld tlds (chr "e") -> ~ In (js "example") tlds ->
  recognised tlds (js "com") ->
  Tokenizes A str (js "example.com")
    [mkToken TOKENS.DOMAIN (firstn 7 str);
     mkToken TOKENS.DOT (firstn 1 (skipn 7 str));
     mkToken TOKENS.TLD (firstn 3 (skipn 1 (skipn 7 str)))].
Proof.
  intros He Hn Hc.
  destruct (B_walk_label _ _ HB Hplain (chr "e") (js "xample")) as (m & Hw & Hd).
  { left. exact He. }
  { apply alnumWord_js. reflexivity. }
  assert (Ht : emit (states A) m = Some TOKENS.DOMAIN).
  { apply (B_dom_tag _ _ HB Hplain (js "exampl") (chr "e") m); auto.
    simpl. intros H. repeat (destruct H as [H|H]; [discriminate H|]). exact H. }
  apply (B_tok_dom _ _ HB Hplain str (js "example") (js ".com") m); auto.
  - discriminate.
  - eapply symbol_stops; [reflexivity|discriminate].
  - eapply (B_tok_symbol _ _ HB Hplain _ (chr ".") (js "com"));
      [reflexivity|simpl; lia|reflexivity|].
    apply tok_tld_end. exact Hc.
Qed.

Lemma tokens_scheme_slashes (str w : jsstring) :
  In w schemes ->
  Tokenizes A str (w ++ js "://")
    [mkToken TOKENS.PROTOCOL (firstn (S (List.length w)) str);
     mkToken TOKENS.SLASH (firstn 1 (skipn (S (List.length w)) str));
     mkToken TOKENS.SLASH
       (firstn 1 (skipn 1 (skipn (S (List.length w)) str)))].
Proof.
  intros Hw.
  apply (B_tok_protocol _ _ HB Hplain str w (js "//")); auto.
  eapply (B_tok_symbol _ _ HB Hplain _ (chr "/") (js "/"));
    [reflexivity|simpl; lia|reflexivity|].
  eapply (B_tok_symbol _ _ HB Hplain _ (chr "/") []);
    [reflexivity|simpl; lia|reflexivity|].
  constructor.
Qed.

Lemma tokens_scheme_alone (str w : jsstring) :
  In w schemes ->
  Tokenizes A str w [mkToken TOKENS.DOMAIN (firstn (List.length w) str)].
Proof.
  intros Hw. rewrite <- (app_nil_r w) at 1.
  apply (B_tok_scheme _ _ HB Hplain str w []); auto. constructor.
Qed.

Section NoHyphen.

Hypothesis Hno : forall w, In w tlds -> ~ In HYPHEN w.

Lemma tokens_foo_bar_com (str : jsstring) :
  recognised tlds (js "com") ->
  Tokenizes A str (js "foo-bar.com")
    [mkToken TOKENS.DOMAIN (firstn 7 str);
     mkToken TOKENS.DOT (firstn 1 (skipn 7 str));
     mkToken TOKENS.TLD (firstn 3 (skipn 1 (skipn 7 str)))].
Proof.
  intros Hc.
  destruct (B_walk_label _ _ HB Hplain (chr "f") (js "oo")) as (m1 & Hw1 & Hd1).
  { right. exists (js "ile"). left. reflexivity. }
  { apply alnumWord_js. reflexivity. }
  destruct (B_walk_hyphenated _ _ HB Hplain m1 (chr "b") (js "ar") Hd1)
    as (m & Hw & Hd).
  { apply (alnumWord_js "bar"). reflexivity. }
  assert (Hwalk : walk (states A) 0 (js "foo-bar") = Some m).
  { change (js "foo-bar") with (js "foo" ++ HYPHEN :: chr "b" :: js "ar").
    rewrite walk_app.
    change (walk (states A) 0 (js "foo"))
      with (walk (states A) 0 (chr "f" :: js "oo")).
    rewrite Hw1. exact Hw. }
  assert (Ht : emit (states A) m = Some TOKENS.DOMAIN).
  { apply (B_dom_tag _ _ HB Hplain (js "foo-ba") (chr "r") m); auto.
    - intros Hin. apply (Hno _ Hin). simpl. tauto.
    - simpl. intros H. repeat (destruct H as [H|H]; [discriminate H|]). exact H. }
  apply (B_tok_dom _ _ HB Hplain str (js "foo-bar") (js ".com") m); auto.
  - discriminate.
  - eapply symbol_stops; [reflexivity|discriminate].
  - eapply (B_tok_symbol _ _ HB Hplain _ (chr ".") (js "com"));
      [reflexivity|simpl; lia|reflexivity|].
    apply tok_tld_end. exact Hc.
Qed.

(** "foo" followed by a hyphen and then by nothing or by a space. *)
Lemma tokens_foo_hyphen :
  exists tc,
    (tc = TOKENS.DOMAIN \/ tc = TOKENS.TLD \/ tc = TOKENS.LOCALHOST) /\
    (forall str,
       Tokenizes A str (js "foo-")
         [mkToken tc (firstn 3 str);
          mkToken TOKENS.SYM (firstn 1 (skipn 3 str))]) /\
    (forall str,
       Tokenizes A str (js "foo- ")
         [mkToken tc (firstn 3 str);
          mkToken TOKENS.SYM (firstn 1 (skipn 3 str));
          mkToken TOKENS.WS (firstn 1 (skipn 1 (skipn 3 str)))]).
Proof.
  destruct (B_walk_label _ _ HB Hplain (chr "f") (js "oo")) as (m & Hw & Hd).
  { right. exists (js "ile"). left. reflexivity. }
  { apply alnumWord_js. reflexivity. }
  assert (X : exists tc, emit (states A) m = Some tc /\
              (tc = TOKENS.DOMAIN \/ tc = TOKENS.TLD \/ tc = TOKENS.LOCALHOST)).
  { destruct Hd as [_ [H|[H|H]]]; eexists; split; eauto. }
  destruct X as (tc & He & Htc). exists tc. split; [exact Htc|]. split.
  - intros str.
    apply (B_tok_dom_hyphen _ _ HB Hplain str (js "foo") [] m); auto.
    + discriminate.
    + apply (B_tok_hyphen _ _ HB); auto. constructor.
  - intros str.
    apply (B_tok_dom_hyphen _ _ HB Hplain str (js "foo") (js " ") m); auto.
    + discriminate.
    + right. exists 32%N, []. split; [reflexivity|]. apply plainChar_WS.
      simpl. tauto.
    + apply (B_tok_hyphen _ _ HB); auto.
      apply (B_tok_ws _ _ HB Hplain _ [32%N] []); auto.
      * discriminate.
      * constructor; [simpl; tauto|constructor].
      * constructor.
Qed.

End NoHyphen.

End Examples.

(* ------------------------------------------------------------------ *)
(** * The properties of the scanner *)

Lemma sample_built : scanner sampleTlds = Some sampleScanner.
Proof. vm_compute. reflexivity. Qed.

Lemma bare_built : scanner [] = Some bareScanner.
Proof. vm_compute. reflexivity. Qed.

Lemma sample_plain : plainTlds sampleTlds.
Proof. repeat constructor. Qed.

(** C1.  For every input string the tokens returned by [run] tile it:
    the scan returns, and the texts of the tokens, concatenated in order,
    are the input string itself. *)
Theorem run_tiles_input (tlds : list jsstring) (A : Scanner) (str : jsstring) :
  scanner tlds = Some A ->
  exists tokens,
    run A str = Returns tokens /\ List.concat (map text tokens) = str.
Proof.
  intros H. apply scanner_Built, Built_Progress in H.
  destruct (runFuel_enough A (List.length str) str H (le_n _)) as (tokens & Hr).
  exists tokens. split; [exact Hr|].
  eapply Tokenizes_tiles; [exact H|eapply runFuel_sound; exact Hr|].
  symmetry. apply length_lowerAZ.
Qed.

Lemma run_tiles_input_witness :
  exists tokens,
    run sampleScanner (js "Visit https://foo-bar.com now") = Returns tokens /\
    List.concat (map text tokens) = js "Visit https://foo-bar.com now".
Proof.
  exact (run_tiles_input sampleTlds sampleScanner
           (js "Visit https://foo-bar.com now") sample_built).
Defined.

(** C10.  The start state has no accept tag and every token [run] emits
    has a text of at least one character. *)
Theorem tokens_nonempty (tlds : list jsstring) (A : Scanner) (str : jsstring)
    (tokens : list Token) :
  scanner tlds = Some A ->
  run A str = Returns tokens ->
  emit (states A) (start A) = None /\
  Forall (fun t => (1 <= List.length (text t))%nat) tokens.
Proof.
  intros H Hr. split.
  - eapply Built_start_tag, scanner_Built, H.
  - apply runFuel_sound in Hr.
    apply Tokenizes_nonempty in Hr; [|symmetry; apply length_lowerAZ].
    eapply Forall_impl; [|exact Hr]. cbv beta.
    intros t Ht. destruct (text t); [congruence|simpl; lia].
Qed.

Lemma sample_run_foo :
  run sampleScanner (js "foo- bar") =
  Returns [mkToken TOKENS.DOMAIN (js "foo"); mkToken TOKENS.SYM (js "-");
           mkToken TOKENS.WS (js " "); mkToken TOKENS.DOMAIN (js "bar")].
Proof. vm_compute. reflexivity. Qed.

Lemma tokens_nonempty_witness :
  emit (states sampleScanner) (start sampleScanner) = None /\
  Forall (fun t => (1 <= List.length (text t))%nat)
    [mkToken TOKENS.DOMAIN (js "foo"); mkToken TOKENS.SYM (js "-");
     mkToken TOKENS.WS (js " "); mkToken TOKENS.DOMAIN (js "bar")].
Proof.
  exact (tokens_nonempty sampleTlds sampleScanner (js "foo- bar") _
           sample_built sample_run_foo).
Defined.

(** C3, as the code has it.  The start state has a default transition to
    the accepting catch-all state, which has no successor; [run] returns
    for every input, one round per character being enough; and every round
    of the outer loop ends, after the roll-back, at least one character
    further than it started.  The roll-back gives back fewer characters
    than the round has read, and that is the only bound there is on it. *)
Theorem scan_terminates (tlds : list jsstring) (A : Scanner) (str : jsstring) :
  scanner tlds = Some A ->
  (exists x sym,
     nth_error (states A) (start A) = Some x /\ d x = Some sym /\
     emit (states A) sym = Some TOKENS.SYM /\
     forall c, next (states A) sym c = None) /\
  (forall fuel, (List.length str <= fuel)%nat ->
     exists tokens, runFuel A fuel str = Returns tokens) /\
  (forall cur, (0 <= cur < Z.of_nat (List.length str))%Z ->
     let v := round A str cur in
     (0 <= sinceAccepts v)%Z /\
     (cur + 1 <= cursor v - sinceAccepts v)%Z /\
     (sinceAccepts v < cursor v - cur)%Z /\
     (cursor v <= Z.of_nat (List.length str))%Z).
Proof.
  intros H. apply scanner_Built in H. pose proof (Built_Progress _ _ H) as P.
  split; [|split].
  - built H. destruct Bdefault as (x & Hx & Hd).
    exists x, (List.length M). rewrite Bstart. auto.
  - intros fuel Hf. apply runFuel_enough; assumption.
  - intros cur Hc. unfold round.
    assert (Hlen : Z.of_nat (List.length str) =
                   Z.of_nat (List.length (lowerAZ str)))
      by (rewrite length_lowerAZ; reflexivity).
    pose proof (round_spec A (lowerAZ str) _ cur Hlen (proj1 Hc)) as R.
    cbv zeta in R |- *.
    set (v := inner A _ _ _ _) in *.
    set (vis := steps (states A) (start A) (skipn (Z.to_nat cur) (lowerAZ str))) in *.
    assert (Hne : skipn (Z.to_nat cur) (lowerAZ str) <> []).
    { apply skipn_nonempty with (len := Z.of_nat (List.length str)); auto. }
    destruct (progress_lastAcc A P _ Hne) as (L & s & E). fold vis in E.
    rewrite E in R. destruct R as (R0 & R1 & _ & R2 & _).
    destruct (lastAcc_bounds A _ _ _ E) as (Hb & _).
    pose proof (steps_length (states A) (start A)
                  (skipn (Z.to_nat cur) (lowerAZ str))) as HL.
    fold vis in HL. rewrite length_skipn, length_lowerAZ in HL.
    repeat split; lia.
Qed.

Lemma scan_terminates_witness :
  (exists x sym,
     nth_error (states sampleScanner) (start sampleScanner) = Some x /\
     d x = Some sym /\
     emit (states sampleScanner) sym = Some TOKENS.SYM /\
     forall c, next (states sampleScanner) sym c = None) /\
  (forall fuel, (List.length (js "a--b") <= fuel)%nat ->
     exists tokens, runFuel sampleScanner fuel (js "a--b") = Returns tokens) /\
  (forall cur, (0 <= cur < Z.of_nat (List.length (js "a--b")))%Z ->
     let v := round sampleScanner (js "a--b") cur in
     (0 <= sinceAccepts v)%Z /\
     (cur + 1 <= cursor v - sinceAccepts v)%Z /\
     (sinceAccepts v < cursor v - cur)%Z /\
     (cursor v <= Z.of_nat (List.length (js "a--b")))%Z).
Proof.
  exact (scan_terminates sampleTlds sampleScanner (js "a--b") sample_built).
Defined.

(** C3, as stated, fails: after "a" the scanner reads ten hyphens without
    meeting an accepting state and gives all ten back, although the longest
    configured literal ("localhost") has nine characters. *)
Lemma rollback_exceeds_longest_literal :
  ~ (forall tlds A str cur,
       scanner tlds = Some A ->
       (0 <= cur < Z.of_nat (List.length str))%Z ->
       (rollback A str cur <= Z.of_nat (longestLiteral tlds))%Z).
Proof.
  intros H.
  specialize (H sampleTlds sampleScanner (js "a" ++ hyphens 10) 0%Z sample_built).
  assert (E : rollback sampleScanner (js "a" ++ hyphens 10) 0 = 10%Z)
    by (vm_compute; reflexivity).
  assert (E' : longestLiteral sampleTlds = 9%nat) by (vm_compute; reflexivity).
  rewrite E, E' in H. simpl in H. lia.
Qed.

Lemma tldStates_skip_empty (l1 l2 : list jsstring) :
  forall s ds st,
    tldStates (l1 ++ [] :: l2) s ds st = tldStates (l1 ++ l2) s ds st.
Proof.
  induction l1 as [|w l1 IH]; intros s ds st.
  - simpl. unfold bind, ret. rewrite app_nil_r. reflexivity.
  - simpl. unfold bind.
    destruct (stateify w s T_TLD T_DOMAIN st) as [[news st1]|]; [|reflexivity].
    apply IH.
Qed.

Lemma scanner_skip_empty (l1 l2 : list jsstring) :
  scanner (l1 ++ [] :: l2) = scanner (l1 ++ l2).
Proof.
  rewrite !scanner_unfold.
  assert (E : wire (l1 ++ [] :: l2) named0 st0 = wire (l1 ++ l2) named0 st0).
  { unfold wire.
    match goal with
    | |- bind ?m ?k st0 = bind ?m' ?k' st0 =>
        change (match m st0 with Some (a, st') => k a st' | None => None end =
                match m' st0 with Some (a, st') => k' a st' | None => None end)
    end.
    rewrite tldStates_skip_empty. reflexivity. }
  rewrite E. reflexivity.
Qed.

(** C9, as the code has it.  The construction validates nothing: it
    succeeds on an empty list of top-level domains, and an empty literal
    anywhere in the list is skipped, the scanner being the one built
    without it. *)
Theorem construction_unchecked :
  scanner [] = Some bareScanner /\
  forall l1 l2 : list jsstring, scanner (l1 ++ [] :: l2) = scanner (l1 ++ l2).
Proof.
  split; [exact bare_built|exact scanner_skip_empty].
Qed.

(** C9, as stated, fails: building from the empty list, and from a list
    holding only the empty literal, returns a scanner. *)
Lemma construction_does_not_fail_fast :
  scanner [] <> None /\ scanner [[]] <> None.
Proof.
  split.
  - rewrite bare_built. discriminate.
  - assert (E : scanner [[]] = Some bareScanner) by (vm_compute; reflexivity).
    rewrite E. discriminate.
Qed.

(** ** The sample configuration *)

Lemma sample_Built : Built sampleTlds sampleScanner.
Proof. apply scanner_Built. exact sample_built. Qed.

Lemma sample_starts_e : startsTld sampleTlds (chr "e").
Proof. exists (js "du"). do 5 right. left. reflexivity. Qed.

Lemma sample_no_example : ~ In (js "example") sampleTlds.
Proof.
  intros H. simpl in H.
  repeat (destruct H as [H|H]; [discriminate H|]). exact H.
Qed.

Lemma sample_com : recognised sampleTlds (js "com").
Proof.
  split; [discriminate|].
  exists (map js ["ac"; "biz"; "co"]%string),
         (map js ["de"; "edu"; "gov"; "io"; "jp"; "net"; "org"; "ru"; "tv";
                  "uk"; "vn"]%string).
  split; [reflexivity|].
  intros u [<-|[<-|[<-|[]]]] [r E]; discriminate E.
Qed.

Lemma sample_no_hyphen : forall w, In w sampleTlds -> ~ In HYPHEN w.
Proof.
  intros w H. simpl in H.
  repeat (destruct H as [<-|H];
          [intros X; simpl in X;
           repeat (destruct X as [X|X]; [discriminate X|]); exact X|]).
  destruct H.
Qed.

(** C2.  Every token of a scan is the longest prefix of what remained of
    the text that leads from the start state to an accepting state: the
    round that starts where the earlier tokens end rolls the cursor back
    to just after the last accepting state it visited, the token's class is
    the tag of that state, and no longer prefix leads to an accepting
    state.  With "com" a recognised top-level domain, "example.com" gives a
    domain label "example", a dot and the top-level domain "com". *)
Theorem longest_match (tlds : list jsstring) (A : Scanner) :
  scanner tlds = Some A ->
  (forall str tokens before t after,
     run A str = Returns tokens -> tokens = before ++ t :: after ->
     let k := List.length (List.concat (map text before)) in
     let rest := skipn k (lowerAZ str) in
     let L := List.length (text t) in
     let v := round A str (Z.of_nat k) in
     (1 <= L <= List.length rest)%nat /\
     text t = firstn L (skipn k str) /\
     exists s,
       latestAccepting v = Some s /\
       (0 <= sinceAccepts v)%Z /\
       (cursor v - sinceAccepts v = Z.of_nat k + Z.of_nat L)%Z /\
       walk (states A) (start A) (firstn L rest) = Some s /\
       emit (states A) s = Some (tokenClass t) /\
       forall n s', (L < n <= List.length rest)%nat ->
                    walk (states A) (start A) (firstn n rest) = Some s' ->
                    emit (states A) s' = None) /\
  (plainTlds tlds -> startsTld tlds (chr "e") ->
   ~ In (js "example") tlds -> recognised tlds (js "com") ->
   run A (js "example.com") =
   Returns [mkToken TOKENS.DOMAIN (js "example"); mkToken TOKENS.DOT (js ".");
            mkToken TOKENS.TLD (js "com")]).
Proof.
  intros H. apply scanner_Built in H. split.
  - intros str tokens before t after Hr E. cbv zeta.
    apply (run_iff _ _ H) in Hr.
    destruct (Tokenizes_longest A _ _ _ (Built_Progress _ _ H) Hr
                (eq_sym (length_lowerAZ _)) before t after E)
      as (Hb & Ht & s & HL & Hw & He & Hmax).
    split; [exact Hb|]. split; [exact Ht|]. exists s.
    assert (Hlen : Z.of_nat (List.length str) =
                   Z.of_nat (List.length (lowerAZ str)))
      by (rewrite length_lowerAZ; reflexivity).
    pose proof (round_spec A (lowerAZ str) _
                  (Z.of_nat (List.length (List.concat (map text before))))
                  Hlen (Nat2Z.is_nonneg _)) as R.
    cbv zeta in R. rewrite Nat2Z.id, HL in R.
    destruct R as (R0 & _ & R1 & R2 & _).
    unfold round. repeat split; assumption.
  - intros Hp He Hn Hc. apply (run_iff _ _ H).
    exact (tokens_example_com _ _ H Hp (js "example.com") He Hn Hc).
Qed.

Lemma longest_match_witness :
  run sampleScanner (js "example.com") =
  Returns [mkToken TOKENS.DOMAIN (js "example"); mkToken TOKENS.DOT (js ".");
           mkToken TOKENS.TLD (js "com")].
Proof.
  exact (proj2 (longest_match sampleTlds sampleScanner sample_built)
           sample_plain sample_starts_e sample_no_example sample_com).
Defined.

(** C8.  Two texts that differ only in the case of ASCII letters give the
    same classes and the same token lengths, each with its own characters:
    the scan reads a copy in which the letters A to Z, and nothing else,
    are replaced by their lower-case forms, and takes the texts from the
    original.  "ExAmple.COM" gives "ExAmple", "." and "COM" with the
    classes of "example.com". *)
Theorem case_changes_only_texts (tlds : list jsstring) (A : Scanner) :
  scanner tlds = Some A ->
  (forall s1 s2 t1 t2,
     lowerAZ s1 = lowerAZ s2 ->
     run A s1 = Returns t1 -> run A s2 = Returns t2 ->
     map tokenClass t1 = map tokenClass t2 /\
     map (fun t => List.length (text t)) t1 =
     map (fun t => List.length (text t)) t2 /\
     List.concat (map text t1) = s1 /\ List.concat (map text t2) = s2) /\
  (forall str,
     List.length (lowerAZ str) = List.length str /\
     forall i c, nth_error str i = Some c ->
       nth_error (lowerAZ str) i =
       Some (if ((65 <=? c) && (c <=? 90))%N then (c + 32)%N else c)) /\
  (plainTlds tlds -> startsTld tlds (chr "e") ->
   ~ In (js "example") tlds -> recognised tlds (js "com") ->
   run A (js "ExAmple.COM") =
   Returns [mkToken TOKENS.DOMAIN (js "ExAmple"); mkToken TOKENS.DOT (js ".");
            mkToken TOKENS.TLD (js "COM")]).
Proof.
  intros H. apply scanner_Built in H.
  pose proof (Built_Progress _ _ H) as P. split; [|split].
  - intros s1 s2 t1 t2 E H1 H2.
    apply (run_iff _ _ H) in H1, H2.
    assert (L1 : List.length s1 = List.length (lowerAZ s1))
      by (symmetry; apply length_lowerAZ).
    assert (L2 : List.length s2 = List.length (lowerAZ s2))
      by (symmetry; apply length_lowerAZ).
    split; [|split; [|split]].
    + rewrite <- E in H2.
      eapply (Tokenizes_shape A _ _ _ H1 _ _ H2); congruence.
    + rewrite <- E in H2.
      eapply (Tokenizes_shape A _ _ _ H1 _ _ H2); congruence.
    + eapply Tokenizes_tiles; eauto.
    + eapply Tokenizes_tiles; eauto.
  - intros str. split; [apply length_lowerAZ|].
    intros i c Hi. unfold lowerAZ. rewrite nth_error_map, Hi. reflexivity.
  - intros Hp He Hn Hc. apply (run_iff _ _ H).
    exact (tokens_example_com _ _ H Hp (js "ExAmple.COM") He Hn Hc).
Qed.

Lemma case_changes_only_texts_witness :
  run sampleScanner (js "ExAmple.COM") =
  Returns [mkToken TOKENS.DOMAIN (js "ExAmple"); mkToken TOKENS.DOT (js ".");
           mkToken TOKENS.TLD (js "COM")].
Proof.
  exact (proj2 (proj2 (case_changes_only_texts sampleTlds sampleScanner
                         sample_built))
           sample_plain sample_starts_e sample_no_example sample_com).
Defined.

Lemma schemes_lower (w : jsstring) : In w schemes -> lowerAZ w = w.
Proof. intros [<-|[<-|[<-|[<-|[<-|[]]]]]]; reflexivity. Qed.

(** C5.  With no symbol or whitespace character in a top-level domain: the
    text of every PROTOCOL token ends with the colon, after at least one
    other character; each of "file", "ftp", "http", "ftps" and "https"
    followed by "://" gives one PROTOCOL token that ends with the colon and
    two SLASH tokens, and on its own it gives a DOMAIN token. *)
Theorem protocol_needs_colon (tlds : list jsstring) (A : Scanner) :
  scanner tlds = Some A -> plainTlds tlds ->
  (forall str tokens t,
     run A str = Returns tokens -> In t tokens ->
     tokenClass t = TOKENS.PROTOCOL ->
     exists w, w <> [] /\ text t = w ++ [COLON]) /\
  (forall w, In w schemes ->
     run A (w ++ js "://") =
     Returns [mkToken TOKENS.PROTOCOL (w ++ js ":");
              mkToken TOKENS.SLASH (js "/"); mkToken TOKENS.SLASH (js "/")] /\
     run A w = Returns [mkToken TOKENS.DOMAIN w]).
Proof.
  intros H Hp. apply scanner_Built in H. split.
  - intros str tokens t Hr Hin Hc.
    destruct (run_token_walk _ _ H _ _ _ Hr Hin) as (s & Hw & He).
    rewrite Hc in He.
    destruct (B_walk_protocol _ _ H Hp _ _ Hw He) as (w & E & Hne).
    destruct (lowerAZ_snoc_inv _ _ _ E) as (x & c & Ex & Hx & Hcol).
    exists x. split.
    + intros ->. apply Hne. symmetry. exact Hx.
    + rewrite Ex. f_equal. f_equal.
      apply (toLowerAZ_fixed c COLON Hcol). vm_compute. intros [X _]. apply X.
      reflexivity.
  - intros w Hw. split.
    + apply (run_iff _ _ H).
      rewrite lowerAZ_app, (schemes_lower _ Hw).
      pose proof (tokens_scheme_slashes _ _ H Hp (w ++ js "://") w Hw) as T.
      destruct Hw as [<-|[<-|[<-|[<-|[<-|[]]]]]]; exact T.
    + apply (run_iff _ _ H). rewrite (schemes_lower _ Hw).
      pose proof (tokens_scheme_alone _ _ H Hp w w Hw) as T.
      rewrite firstn_all in T. exact T.
Qed.

Lemma protocol_needs_colon_witness :
  run sampleScanner (js "https://") =
  Returns [mkToken TOKENS.PROTOCOL (js "https:");
           mkToken TOKENS.SLASH (js "/"); mkToken TOKENS.SLASH (js "/")] /\
  run sampleScanner (js "http") = Returns [mkToken TOKENS.DOMAIN (js "http")].
Proof.
  split.
  - refine (proj1 (proj2 (protocol_needs_colon sampleTlds sampleScanner
                            sample_built sample_plain) (js "https") _)).
    do 4 right. left. reflexivity.
  - refine (proj2 (proj2 (protocol_needs_colon sampleTlds sampleScanner
                            sample_built sample_plain) (js "http") _)).
    do 2 right. left. reflexivity.
Defined.

Lemma last_not_WS (pre : jsstring) :
  (pre = [] \/ exists q c, pre = q ++ [c] /\ ~ In c WHITESPACE) ->
  lowerAZ pre = [] \/
  exists q c, lowerAZ pre = q ++ [c] /\ ~ In c WHITESPACE.
Proof.
  intros [->|(q & c & -> & Hc)]; [left; reflexivity|right].
  exists (lowerAZ q), (toLowerAZ c). split; [apply lowerAZ_app|].
  rewrite toLowerAZ_WS. exact Hc.
Qed.

Lemma first_not_WS (post : jsstring) :
  (post = [] \/ exists c r, post = c :: r /\ ~ In c WHITESPACE) ->
  lowerAZ post = [] \/
  exists c r, lowerAZ post = c :: r /\ ~ In c WHITESPACE.
Proof.
  intros [->|(c & r & -> & Hc)]; [left; reflexivity|right].
  exists (toLowerAZ c), (lowerAZ r). split; [reflexivity|].
  rewrite toLowerAZ_WS. exact Hc.
Qed.

(** C6.  With no symbol or whitespace character in a top-level domain: a
    maximal run of the whitespace characters other than the newline is one
    WS token, whatever is before and after it, and every newline is an NL
    token of its own; the tokens of the text are those of what is before,
    that token, and those of what is after.  "a   b" has one WS token for
    the three spaces, and "a\nb" has an NL token. *)
Theorem whitespace_runs (tlds : list jsstring) (A : Scanner) :
  scanner tlds = Some A -> plainTlds tlds ->
  (forall pre ws post t1 t2,
     run A pre = Returns t1 -> run A post = Returns t2 ->
     ws <> [] -> Forall (fun c => In c WHITESPACE) ws ->
     (pre = [] \/ exists q c, pre = q ++ [c] /\ ~ In c WHITESPACE) ->
     (post = [] \/ exists c r, post = c :: r /\ ~ In c WHITESPACE) ->
     run A (pre ++ ws ++ post) =
     Returns (t1 ++ mkToken TOKENS.WS ws :: t2)) /\
  (forall pre post t1 t2,
     run A pre = Returns t1 -> run A post = Returns t2 ->
     run A (pre ++ NEWLINE :: post) =
     Returns (t1 ++ mkToken TOKENS.NL [NEWLINE] :: t2)) /\
  (exists ta tb,
     run A (js "a   b") =
     Returns [mkToken ta (js "a"); mkToken TOKENS.WS (js "   ");
              mkToken tb (js "b")] /\
     run A (js "a" ++ NEWLINE :: js "b") =
     Returns [mkToken ta (js "a"); mkToken TOKENS.NL [NEWLINE];
              mkToken tb (js "b")]).
Proof.
  intros H Hp. apply scanner_Built in H.
  assert (W : forall pre ws post t1 t2,
     run A pre = Returns t1 -> run A post = Returns t2 ->
     ws <> [] -> Forall (fun c => In c WHITESPACE) ws ->
     (pre = [] \/ exists q c, pre = q ++ [c] /\ ~ In c WHITESPACE) ->
     (post = [] \/ exists c r, post = c :: r /\ ~ In c WHITESPACE) ->
     run A (pre ++ ws ++ post) =
     Returns (t1 ++ mkToken TOKENS.WS ws :: t2)).
  { intros pre ws post t1 t2 H1 H2 Hne Hws Hb1 Hb2.
    apply (run_iff _ _ H) in H1, H2. apply (run_iff _ _ H).
    rewrite !lowerAZ_app, (lowerAZ_WS _ Hws).
    apply (B_split_ws _ _ H Hp); auto.
    - symmetry. apply length_lowerAZ.
    - apply last_not_WS. exact Hb1.
    - apply first_not_WS. exact Hb2. }
  assert (N : forall pre post t1 t2,
     run A pre = Returns t1 -> run A post = Returns t2 ->
     run A (pre ++ NEWLINE :: post) =
     Returns (t1 ++ mkToken TOKENS.NL [NEWLINE] :: t2)).
  { intros pre post t1 t2 H1 H2.
    apply (run_iff _ _ H) in H1, H2. apply (run_iff _ _ H).
    rewrite lowerAZ_app.
    change (lowerAZ (NEWLINE :: post)) with (NEWLINE :: lowerAZ post).
    apply (B_split_symbol _ _ H Hp pre (lowerAZ pre) t1 NEWLINE 19%nat
             TOKENS.NL post (lowerAZ post) t2); auto.
    - symmetry. apply length_lowerAZ.
    - lia.
    - discriminate. }
  split; [exact W|]. split; [exact N|].
  destruct (run_single _ _ H (chr "a")) as (ta & Ha).
  destruct (run_single _ _ H (chr "b")) as (tb & Hb).
  exists ta, tb. split.
  - apply (W (js "a") (js "   ") (js "b") _ _ Ha Hb).
    + discriminate.
    + repeat constructor.
    + right. exists [], (chr "a"). split; [reflexivity|].
      simpl. intros X. repeat (destruct X as [X|X]; [discriminate X|]). exact X.
    + right. exists (chr "b"), []. split; [reflexivity|].
      simpl. intros X. repeat (destruct X as [X|X]; [discriminate X|]). exact X.
  - apply (N (js "a") (js "b") _ _ Ha Hb).
Qed.

Lemma whitespace_runs_witness :
  exists ta tb,
    run sampleScanner (js "a   b") =
    Returns [mkToken ta (js "a"); mkToken TOKENS.WS (js "   ");
             mkToken tb (js "b")] /\
    run sampleScanner (js "a" ++ NEWLINE :: js "b") =
    Returns [mkToken ta (js "a"); mkToken TOKENS.NL [NEWLINE];
             mkToken tb (js "b")].
Proof.
  exact (proj2 (proj2 (whitespace_runs sampleTlds sampleScanner sample_built
                         sample_plain))).
Defined.

(** C7, as the code has it.  With no symbol, whitespace character or
    hyphen in a top-level domain: from inside a label the hyphen leads to a
    state with no accept tag; the only token that ends with a hyphen is the
    SYM token that is the hyphen alone; "foo-bar.com" keeps its hyphen
    inside the DOMAIN token; and "foo-", at the end of the text or before
    a space, gives "foo" and then the hyphen as a SYM token. *)
Theorem hyphen_tokens (tlds : list jsstring) (A : Scanner) :
  scanner tlds = Some A -> plainTlds tlds ->
  (forall w, In w tlds -> ~ In HYPHEN w) ->
  (exists h, emit (states A) h = None /\
             forall s, domLike A s -> next (states A) s HYPHEN = Some h) /\
  (forall str tokens t w,
     run A str = Returns tokens -> In t tokens ->
     text t = w ++ [HYPHEN] -> t = mkToken TOKENS.SYM [HYPHEN]) /\
  (recognised tlds (js "com") ->
   run A (js "foo-bar.com") =
   Returns [mkToken TOKENS.DOMAIN (js "foo-bar"); mkToken TOKENS.DOT (js ".");
            mkToken TOKENS.TLD (js "com")]) /\
  (exists tc,
     (tc = TOKENS.DOMAIN \/ tc = TOKENS.TLD \/ tc = TOKENS.LOCALHOST) /\
     run A (js "foo-") =
     Returns [mkToken tc (js "foo"); mkToken TOKENS.SYM (js "-")] /\
     run A (js "foo- ") =
     Returns [mkToken tc (js "foo"); mkToken TOKENS.SYM (js "-");
              mkToken TOKENS.WS (js " ")]).
Proof.
  intros H Hp Hno. apply scanner_Built in H. split; [|split; [|split]].
  - destruct (B_hyphen_state _ _ H Hp) as (h & Hh & Hs).
    exists h. split; [exact Hh|]. intros s Hd. apply Hs; assumption.
  - intros str tokens t w Hr Hin Ht.
    destruct (run_token_walk _ _ H _ _ _ Hr Hin) as (s & Hw & He).
    rewrite Ht, lowerAZ_app in Hw.
    change (lowerAZ [HYPHEN]) with [HYPHEN] in Hw.
    destruct (B_walk_hyphen _ _ H _ _ _ Hno Hw He) as (Hnil & Hc).
    destruct t as [tc tx]. simpl in *. subst tc tx.
    destruct w; [reflexivity|discriminate Hnil].
  - intros Hc. apply (run_iff _ _ H).
    exact (tokens_foo_bar_com _ _ H Hp Hno (js "foo-bar.com") Hc).
  - destruct (tokens_foo_hyphen _ _ H Hp Hno) as (tc & Htc & T1 & T2).
    exists tc. split; [exact Htc|]. split; apply (run_iff _ _ H).
    + exact (T1 (js "foo-")).
    + exact (T2 (js "foo- ")).
Qed.

Lemma hyphen_tokens_witness :
  run sampleScanner (js "foo-bar.com") =
  Returns [mkToken TOKENS.DOMAIN (js "foo-bar"); mkToken TOKENS.DOT (js ".");
           mkToken TOKENS.TLD (js "com")].
Proof.
  exact (proj1 (proj2 (proj2 (hyphen_tokens sampleTlds sampleScanner
                                sample_built sample_plain sample_no_hyphen)))
           sample_com).
Defined.

Lemma punycode_built : scanner punycodeTlds = Some punycodeScanner.
Proof. vm_compute. reflexivity. Qed.

Lemma punycode_run_xn :
  run punycodeScanner (js "xn-") = Returns [mkToken TOKENS.DOMAIN (js "xn-")].
Proof. vm_compute. reflexivity. Qed.

(** C7, as stated, fails: line 68 tags every state made inside a top-level
    domain as a domain label, also the states reached by its hyphens.  With
    the top-level domain "xn--p1ai" in the list, the text "xn-" is one
    DOMAIN token: a label that ends with a hyphen. *)
Lemma label_token_ends_with_hyphen :
  ~ (forall tlds A str tokens t w,
       scanner tlds = Some A -> run A str = Returns tokens ->
       In t tokens -> tokenClass t = TOKENS.DOMAIN -> w <> [] ->
       text t <> w ++ [HYPHEN]).
Proof.
  intros H.
  apply (H punycodeTlds punycodeScanner (js "xn-") _
           (mkToken TOKENS.DOMAIN (js "xn-")) (js "xn") punycode_built
           punycode_run_xn).
  - left. reflexivity.
  - reflexivity.
  - discriminate.
  - reflexivity.
Qed.

(** C4, as the code has it.  A scan raises no error and returns for every
    text, and the empty text has no tokens.  A character for which the
    start state has no edge of its own is a one-character SYM token when
    a token starts with it; and a character outside the alphabet is a
    one-character SYM token wherever it stands, the tokens of the text
    being those of what is before it, that token, and those of what is
    after it. *)
Theorem scan_never_fails (tlds : list jsstring) (A : Scanner) :
  scanner tlds = Some A ->
  (forall str, run A str <> Throws /\ exists tokens, run A str = Returns tokens) /\
  run A [] = Returns [] /\
  (forall x c rest,
     nth_error (states A) (start A) = Some x ->
     lookupJump (toLowerAZ c) (jumps x) = None ->
     exists tokens,
       run A rest = Returns tokens /\
       run A (c :: rest) = Returns (mkToken TOKENS.SYM [c] :: tokens)) /\
  (forall pre c post t1 t2,
     outside tlds (toLowerAZ c) ->
     run A pre = Returns t1 -> run A post = Returns t2 ->
     run A (pre ++ c :: post) =
     Returns (t1 ++ mkToken TOKENS.SYM [c] :: t2)).
Proof.
  intros H. apply scanner_Built in H. split; [|split; [|split]].
  - intros str. split; [apply runFuel_never_throws|apply (run_returns _ _ H)].
  - apply (run_nil _ _ H).
  - intros x c rest Hx Hl. destruct (run_returns _ _ H rest) as (tokens & Hr).
    exists tokens. split; [exact Hr|].
    apply (run_iff _ _ H) in Hr. apply (run_iff _ _ H).
    rewrite (B_start _ _ H) in Hx.
    exact (B_tok_default _ _ H (c :: rest) x (toLowerAZ c) (lowerAZ rest)
             tokens Hx Hl Hr).
  - intros pre c post t1 t2 Ho H1 H2.
    apply (run_iff _ _ H) in H1, H2. apply (run_iff _ _ H).
    rewrite lowerAZ_app.
    apply (B_split_outside _ _ H pre (lowerAZ pre) t1 c (toLowerAZ c)
             post (lowerAZ post) t2); auto.
    symmetry. apply length_lowerAZ.
Qed.

Lemma sample_outside : outside sampleTlds (toLowerAZ 1076%N).
Proof.
  repeat split.
  - intros X. simpl in X.
    repeat (destruct X as [X|X]; [discriminate X|]). exact X.
  - intros X. simpl in X.
    repeat (destruct X as [X|X]; [discriminate X|]). exact X.
  - discriminate.
Qed.

Lemma sample_run_a : run sampleScanner (js "a") = Returns [mkToken TOKENS.DOMAIN (js "a")].
Proof. vm_compute. reflexivity. Qed.

Lemma sample_run_b_dot :
  run sampleScanner (js "b.") =
  Returns [mkToken TOKENS.DOMAIN (js "b"); mkToken TOKENS.DOT (js ".")].
Proof. vm_compute. reflexivity. Qed.

Lemma scan_never_fails_witness :
  run sampleScanner (js "a" ++ 1076%N :: js "b.") =
  Returns [mkToken TOKENS.DOMAIN (js "a"); mkToken TOKENS.SYM [1076%N];
           mkToken TOKENS.DOMAIN (js "b"); mkToken TOKENS.DOT (js ".")].
Proof.
  exact (proj2 (proj2 (proj2 (scan_never_fails sampleTlds sampleScanner
                                sample_built)))
           (js "a") 1076%N (js "b.") _ _ sample_outside
           sample_run_a sample_run_b_dot).
Defined.

Lemma sample_run_a_b :
  run sampleScanner (js "a-b") = Returns [mkToken TOKENS.DOMAIN (js "a-b")].
Proof. vm_compute. reflexivity. Qed.

(** C4, as stated, fails: the start state has no edge for the hyphen, yet
    the hyphen of "a-b" is inside the DOMAIN token and no SYM token is
    made for it. *)
Lemma hyphen_is_not_a_symbol_token :
  ~ (forall tlds A str tokens x c,
       scanner tlds = Some A -> run A str = Returns tokens ->
       nth_error (states A) (start A) = Some x ->
       lookupJump (toLowerAZ c) (jumps x) = None ->
       In c str -> In (mkToken TOKENS.SYM [c]) tokens).
Proof.
  intros H.
  assert (E : exists x,
             nth_error (states sampleScanner) (start sampleScanner) = Some x /\
             lookupJump (toLowerAZ HYPHEN) (jumps x) = None).
  { eexists. split; [vm_compute; reflexivity|vm_compute; reflexivity]. }
  destruct E as (x & Hx & Hl).
  specialize (H sampleTlds sampleScanner (js "a-b") _ x HYPHEN sample_built
                sample_run_a_b Hx Hl).
  destruct H as [H|[]].
  - right. left. reflexivity.
  - discriminate H.
Qed.

(* ------------------------------------------------------------------ *)
(** * Further properties of the scanning loop *)

Lemma tokens_le_text (tokens : list Token) :
  Forall (fun t => text t <> []) tokens ->
  (List.length tokens <= List.length (List.concat (map text tokens)))%nat.
Proof.
  induction 1 as [|t tokens Ht _ IH]; simpl; [lia|].
  rewrite length_app. destruct (text t); [congruence|]. simpl. lia.
Qed.

Lemma Tokenizes_retext (A : Scanner) (f : char -> char) str low tokens :
  Tokenizes A str low tokens ->
  Tokenizes A (map f str) low (map (retext f) tokens).
Proof.
  induction 1 as [str|str lowerStr L s TOKEN tokens Hne HL He HT IH
                 |str lowerStr tokens Hne HL k HT IH].
  - constructor.
  - simpl. unfold retext at 1. cbn [tokenClass text].
    rewrite <- firstn_map. apply Tok_emit with (s := s); auto.
    rewrite skipn_map. exact IH.
  - apply Tok_skip; auto. cbv zeta. fold k. rewrite skipn_map. exact IH.
Qed.

Lemma toLowerAZ_idem (c : char) : toLowerAZ (toLowerAZ c) = toLowerAZ c.
Proof.
  destruct (toLowerAZ_cases c) as [[Hc E]|[_ E]]; rewrite E; [|exact E].
  destruct (toLowerAZ_cases (c + 32)%N) as [[H _]|[_ E']]; [lia|exact E'].
Qed.

Lemma lowerAZ_idem (s : jsstring) : lowerAZ (lowerAZ s) = lowerAZ s.
Proof.
  unfold lowerAZ. rewrite map_map. apply map_ext. apply toLowerAZ_idem.
Qed.

(** X4.  Every token scans to itself: the scan of the text of a token
    that a scan has made returns that one token. *)
Theorem token_scans_to_itself (tlds : list jsstring) (A : Scanner)
    (str : jsstring) (tokens : list Token) (t : Token) :
  scanner tlds = Some A ->
  run A str = Returns tokens -> In t tokens ->
  run A (text t) = Returns [t].
Proof.
  intros H Hr Hin. apply scanner_Built in H.
  destruct (run_token_walk _ _ H _ _ _ Hr Hin) as (s & Hw & He).
  assert (Hne : text t <> []).
  { apply (run_iff _ _ H) in Hr.
    apply Tokenizes_nonempty in Hr; [|symmetry; apply length_lowerAZ].
    rewrite Forall_forall in Hr. apply Hr. exact Hin. }
  apply (run_iff _ _ H).
  pose proof (Tokenizes_cons A (text t) (lowerAZ (text t)) [] s
                (tokenClass t) []) as T.
  rewrite app_nil_r, length_lowerAZ, firstn_all in T.
  destruct t as [tc tx]. apply T.
  - simpl in *. destruct tx; [congruence|discriminate].
  - rewrite (B_start _ _ H). exact Hw.
  - exact He.
  - reflexivity.
  - rewrite skipn_all. constructor.
Qed.

Lemma token_scans_to_itself_witness :
  run sampleScanner (js "https:") =
  Returns [mkToken TOKENS.PROTOCOL (js "https:")].
Proof.
  apply (token_scans_to_itself sampleTlds sampleScanner (js "https://")
           [mkToken TOKENS.PROTOCOL (js "https:");
            mkToken TOKENS.SLASH (js "/"); mkToken TOKENS.SLASH (js "/")]
           (mkToken TOKENS.PROTOCOL (js "https:")) sample_built).
  - vm_compute. reflexivity.
  - left. reflexivity.
Defined.

(** X5.  A scan makes at most as many tokens as the text has characters. *)
Theorem tokens_at_most_characters (tlds : list jsstring) (A : Scanner)
    (str : jsstring) (tokens : list Token) :
  scanner tlds = Some A -> run A str = Returns tokens ->
  (List.length tokens <= List.length str)%nat.
Proof.
  intros H Hr. apply scanner_Built in H. apply (run_iff _ _ H) in Hr.
  pose proof (Tokenizes_tiles A _ _ _ (Built_Progress _ _ H) Hr
                (eq_sym (length_lowerAZ _))) as Ht.
  pose proof (Tokenizes_nonempty A _ _ _ Hr (eq_sym (length_lowerAZ _))) as Hn.
  apply (f_equal (@List.length char)) in Ht. rewrite <- Ht.
  apply tokens_le_text. exact Hn.
Qed.

Lemma tokens_at_most_characters_witness :
  (List.length [mkToken TOKENS.DOMAIN (js "foo"); mkToken TOKENS.SYM (js "-");
                mkToken TOKENS.WS (js " "); mkToken TOKENS.DOMAIN (js "bar")]
   <= List.length (js "foo- bar"))%nat.
Proof.
  apply (tokens_at_most_characters sampleTlds sampleScanner (js "foo- bar") _
           sample_built).
  vm_compute. reflexivity.
Defined.

(** X9.  Lower-casing commutes with scanning: the scan of the working copy
    of a text returns the tokens of the text with their texts
    lower-cased. *)
Theorem scan_of_lower_case (tlds : list jsstring) (A : Scanner)
    (str : jsstring) (tokens : list Token) :
  scanner tlds = Some A -> run A str = Returns tokens ->
  run A (lowerAZ str) = Returns (map (retext toLowerAZ) tokens).
Proof.
  intros H Hr. apply scanner_Built in H. apply (run_iff _ _ H) in Hr.
  apply (run_iff _ _ H). rewrite lowerAZ_idem.
  apply (Tokenizes_retext A toLowerAZ). exact Hr.
Qed.

Lemma scan_of_lower_case_witness :
  run sampleScanner (lowerAZ (js "ExAmple.COM")) =
  Returns (map (retext toLowerAZ)
             [mkToken TOKENS.DOMAIN (js "ExAmple"); mkToken TOKENS.DOT (js ".");
              mkToken TOKENS.TLD (js "COM")]).
Proof.
  apply (scan_of_lower_case sampleTlds sampleScanner (js "ExAmple.COM") _
           sample_built).
  vm_compute. reflexivity.
Defined.

(* ------------------------------------------------------------------ *)
(** * Further properties of the automaton *)

Lemma symbolTable_target c TOK :
  In (c, TOK) symbolTable ->
  exists t, symbolTarget c = Some t /\ (5 <= t)%nat /\ emit st0 t = Some TOK /\
            toLowerAZ c = c.
Proof.
  intros H. simpl in H.
  repeat (destruct H as [[= <- <-]|H];
          [eexists; split; [reflexivity|];
           split; [simpl; lia|split; reflexivity]|]).
  destruct H.
Qed.

Lemma toLowerAZ_alnum (c : char) : In c ALPHANUM -> toLowerAZ c = c.
Proof.
  intros Hc. destruct (toLowerAZ_cases c) as [[Hr _]|[_ E]]; [|exact E].
  exfalso. simpl in Hc.
  repeat (destruct Hc as [<-|Hc]; [lia|]). exact Hc.
Qed.

Lemma lowerAZ_alnum (w : jsstring) : alnumWord w -> lowerAZ w = w.
Proof.
  induction 1 as [|c w Hc _ IH]; simpl; [reflexivity|].
  rewrite IH, (toLowerAZ_alnum _ Hc). reflexivity.
Qed.

Lemma lowerAZ_label (w : jsstring) : labelChars w -> lowerAZ w = w.
Proof.
  induction 1 as [|c w Hc _ IH]; simpl; [reflexivity|].
  rewrite IH. destruct Hc as [Hc| ->];
    [rewrite (toLowerAZ_alnum _ Hc)|]; reflexivity.
Qed.

Lemma digits_alnum (w : jsstring) : digits w -> alnumWord w.
Proof.
  intros H. eapply Forall_impl; [|exact H]. intros c. apply NUM_ALPHANUM.
Qed.

Lemma lowerAZ_digits (w : jsstring) : digits w -> lowerAZ w = w.
Proof. intros H. apply lowerAZ_alnum, digits_alnum, H. Qed.

Lemma lowerAZ_hyphens (n : nat) : lowerAZ (hyphens n) = hyphens n.
Proof.
  induction n as [|n IH]; [reflexivity|].
  change (lowerAZ (hyphens (S n))) with (HYPHEN :: lowerAZ (hyphens n)).
  rewrite IH. reflexivity.
Qed.

(** X7.  With no symbol or whitespace character in a top-level domain:
    each symbol of lines 40 to 59 is a one-character token of its class
    whenever a token begins with it, and each of them but the colon is
    such a token wherever it stands, the tokens of the text being those of
    what is before it, that token, and those of what is after it. *)
Theorem symbols_are_tokens (tlds : list jsstring) (A : Scanner)
    (c : char) (TOK : TokenClass) :
  scanner tlds = Some A -> plainTlds tlds -> In (c, TOK) symbolTable ->
  (forall rest tokens,
     run A rest = Returns tokens ->
     run A (c :: rest) = Returns (mkToken TOK [c] :: tokens)) /\
  (c <> COLON ->
   forall pre post t1 t2,
     run A pre = Returns t1 -> run A post = Returns t2 ->
     run A (pre ++ c :: post) = Returns (t1 ++ mkToken TOK [c] :: t2)).
Proof.
  intros H Hp Hin. apply scanner_Built in H.
  destruct (symbolTable_target _ _ Hin) as (t & Hs & Ht & He & Hl). split.
  - intros rest tokens Hr. apply (run_iff _ _ H) in Hr. apply (run_iff _ _ H).
    cbn [lowerAZ map]. rewrite Hl.
    exact (B_tok_symbol _ _ H Hp (c :: rest) c (lowerAZ rest) t TOK tokens
             Hs Ht He Hr).
  - intros Hc pre post t1 t2 H1 H2.
    apply (run_iff _ _ H) in H1, H2. apply (run_iff _ _ H).
    rewrite lowerAZ_app. cbn [lowerAZ map]. rewrite Hl.
    apply (B_split_symbol _ _ H Hp pre (lowerAZ pre) t1 c t TOK post
             (lowerAZ post) t2); auto.
    symmetry. apply length_lowerAZ.
Qed.

Lemma symbols_are_tokens_witness :
  run sampleScanner (js "a" ++ chr "@" :: js "b.") =
  Returns ([mkToken TOKENS.DOMAIN (js "a")] ++
           mkToken TOKENS.AT [chr "@"] ::
           [mkToken TOKENS.DOMAIN (js "b"); mkToken TOKENS.DOT (js ".")]).
Proof.
  refine (proj2 (symbols_are_tokens sampleTlds sampleScanner (chr "@")
                   TOKENS.AT sample_built sample_plain _) _
            (js "a") (js "b.") _ _ sample_run_a sample_run_b_dot).
  - left. reflexivity.
  - discriminate.
Defined.

Lemma first_not_alnum (r : jsstring) :
  (r = [] \/ exists c r', r = c :: r' /\ ~ In (toLowerAZ c) ALPHANUM /\
                          c <> HYPHEN) ->
  lowerAZ r = [] \/
  exists c r', lowerAZ r = c :: r' /\ ~ In c ALPHANUM /\ c <> HYPHEN.
Proof.
  intros [->|(c & r' & -> & Ha & Hh)]; [left; reflexivity|right].
  exists (toLowerAZ c), (lowerAZ r'). split; [reflexivity|]. split; [exact Ha|].
  intros E. apply Hh. apply (toLowerAZ_fixed c HYPHEN E). vm_compute.
  intros [X _]. apply X. reflexivity.
Qed.

(** X6.  With no symbol, whitespace character or digit in a top-level
    domain: a number, at the end of the text or before a character that is
    no letter, digit or hyphen, is one NUM token; a number followed by
    letters and digits that begin with a letter is one DOMAIN token. *)
Theorem numbers_are_tokens (tlds : list jsstring) (A : Scanner)
    (ds : jsstring) :
  scanner tlds = Some A -> plainTlds tlds ->
  (forall w, In w tlds -> forall d, In d w -> ~ In d NUM) ->
  ds <> [] -> digits ds ->
  (forall r tokens,
     (r = [] \/ exists c r', r = c :: r' /\ ~ In (toLowerAZ c) ALPHANUM /\
                             c <> HYPHEN) ->
     run A r = Returns tokens ->
     run A (ds ++ r) = Returns (mkToken TOKENS.NUM ds :: tokens)) /\
  (forall c w,
     In c ALPHANUM -> ~ In c NUM -> alnumWord w ->
     run A (ds ++ c :: w) = Returns [mkToken TOKENS.DOMAIN (ds ++ c :: w)]).
Proof.
  intros H Hp Hnd Hne Hds. apply scanner_Built in H. split.
  - intros r tokens Hr Hrun.
    apply (run_iff _ _ H) in Hrun. apply (run_iff _ _ H).
    rewrite lowerAZ_app, (lowerAZ_digits _ Hds).
    pose proof (B_tok_digits _ _ H Hp (ds ++ r) ds (lowerAZ r) tokens Hnd Hne
                  Hds (first_not_alnum _ Hr)) as T.
    rewrite firstn_app, Nat.sub_diag, firstn_all, firstn_O, app_nil_r in T.
    apply T. rewrite skipn_app, skipn_all, Nat.sub_diag. exact Hrun.
  - intros c w Hc Hcn Hw. apply (run_iff _ _ H).
    assert (Hall : alnumWord (ds ++ c :: w)).
    { apply Forall_app. split; [apply digits_alnum; exact Hds|].
      constructor; assumption. }
    rewrite (lowerAZ_alnum _ Hall).
    pose proof (B_tok_digits_letter _ _ H Hp (ds ++ c :: w) ds c w Hnd Hne Hds
                  Hc Hcn Hw) as T.
    rewrite firstn_all in T. exact T.
Qed.

Lemma sample_no_digit :
  forall w, In w sampleTlds -> forall d, In d w -> ~ In d NUM.
Proof.
  intros w H d Hd X.
  assert (Y : In d (List.concat sampleTlds))
    by (apply in_concat; exists w; auto).
  clear H Hd. simpl in X.
  repeat (destruct X as [<-|X];
          [simpl in Y; repeat (destruct Y as [Y|Y]; [discriminate Y|]);
           exact Y|]).
  exact X.
Qed.

Lemma numbers_are_tokens_witness :
  run sampleScanner (js "2024" ++ js ".") =
  Returns [mkToken TOKENS.NUM (js "2024"); mkToken TOKENS.DOT (js ".")] /\
  run sampleScanner (js "2024" ++ chr "a" :: js "b1") =
  Returns [mkToken TOKENS.DOMAIN (js "2024" ++ chr "a" :: js "b1")].
Proof.
  assert (Hne : js "2024" <> []) by discriminate.
  assert (Hds : digits (js "2024")).
  { apply Forall_forall. intros c Hc. apply isIn_In. revert c Hc.
    apply Forall_forall. repeat constructor. }
  destruct (numbers_are_tokens sampleTlds sampleScanner (js "2024")
              sample_built sample_plain sample_no_digit Hne Hds) as [N1 N2].
  split.
  - apply N1.
    + right. exists (chr "."), []. split; [reflexivity|]. split; [|discriminate].
      simpl. intros X. repeat (destruct X as [X|X]; [discriminate X|]). exact X.
    + vm_compute. reflexivity.
  - apply N2.
    + apply isIn_In. reflexivity.
    + simpl. intros X. repeat (destruct X as [X|X]; [discriminate X|]). exact X.
    + apply (alnumWord_js "b1"). reflexivity.
Defined.

(* ------------------------------------------------------------------ *)
(** * Labels and the hyphens after them *)

Lemma domLike_tag (A : Scanner) (m : nat) :
  domLike A m ->
  exists tc, emit (states A) m = Some tc /\
             (tc = TOKENS.DOMAIN \/ tc = TOKENS.TLD \/ tc = TOKENS.LOCALHOST).
Proof. intros [_ [H|[H|H]]]; eexists; split; eauto. Qed.

Lemma labelChars_check (w : jsstring) :
  forallb (fun c => isIn c ALPHANUM || N.eqb c HYPHEN) w = true ->
  labelChars w.
Proof.
  intros H. apply Forall_forall. intros c Hc.
  rewrite forallb_forall in H. specialize (H _ Hc).
  apply orb_prop in H. destruct H as [H|H].
  - left. apply isIn_In. exact H.
  - right. apply N.eqb_eq. exact H.
Qed.

Lemma alnumWord_check (w : jsstring) :
  forallb (fun c => isIn c ALPHANUM) w = true -> alnumWord w.
Proof.
  intros H. apply Forall_forall. intros c Hc.
  rewrite forallb_forall in H. apply isIn_In. auto.
Qed.

(** X10.  With no symbol or whitespace character in a top-level domain: a
    word of lower-case letters, digits and hyphens that begins with the
    first letter of a top-level domain or of a scheme and ends with a
    letter or digit is one token; its class is DOMAIN, TLD or LOCALHOST,
    and TLD only if the word is a top-level domain of the list. *)
Theorem label_is_one_token (tlds : list jsstring) (A : Scanner)
    (c : char) (w : jsstring) :
  scanner tlds = Some A -> plainTlds tlds ->
  (startsTld tlds c \/ exists v, In (c :: v) schemes) ->
  In c ALPHANUM -> labelChars w -> In (last w c) ALPHANUM ->
  exists tc,
    run A (c :: w) = Returns [mkToken tc (c :: w)] /\
    (tc = TOKENS.DOMAIN \/ (tc = TOKENS.TLD /\ In (c :: w) tlds) \/
     tc = TOKENS.LOCALHOST).
Proof.
  intros H Hp Hc Hca Hw Hl. apply scanner_Built in H.
  assert (X : exists m, walk (states A) 0 (c :: w) = Some m /\ domLike A m).
  { destruct (nil_or_not w) as [->|Hne].
    - apply (B_walk_label _ _ H Hp c []); [exact Hc|constructor].
    - destruct (exists_last Hne) as (u & z & ->). rewrite last_last in Hl.
      apply (B_walk_whole_label _ _ H Hp c u z); assumption. }
  destruct X as (m & Hm & Hd).
  destruct (domLike_tag _ _ Hd) as (tc & He & Htc).
  exists tc. split.
  - apply (run_iff _ _ H).
    assert (El : lowerAZ (c :: w) = c :: w).
    { apply lowerAZ_label. constructor; [left; exact Hca|exact Hw]. }
    rewrite El.
    pose proof (Tokenizes_cons A (c :: w) (c :: w) [] m tc []) as T.
    rewrite app_nil_r, firstn_all in T. apply T.
    + discriminate.
    + rewrite (B_start _ _ H). exact Hm.
    + exact He.
    + reflexivity.
    + rewrite skipn_all. constructor.
  - destruct Htc as [->|[->| ->]]; auto.
    right; left. split; [reflexivity|].
    apply (B_tld_only _ _ H Hp _ _ Hm He).
Qed.

Lemma label_is_one_token_witness :
  exists tc,
    run sampleScanner (chr "f" :: js "oo-bar") =
    Returns [mkToken tc (chr "f" :: js "oo-bar")] /\
    (tc = TOKENS.DOMAIN \/
     (tc = TOKENS.TLD /\ In (chr "f" :: js "oo-bar") sampleTlds) \/
     tc = TOKENS.LOCALHOST).
Proof.
  apply (label_is_one_token sampleTlds sampleScanner (chr "f") (js "oo-bar")
           sample_built sample_plain).
  - right. exists (js "ile"). left. reflexivity.
  - apply isIn_In. reflexivity.
  - apply labelChars_check. reflexivity.
  - apply isIn_In. reflexivity.
Defined.

(** X8.  With no symbol, whitespace character or hyphen in a top-level
    domain: after a word of letters and digits that begins with the first
    letter of a top-level domain or of a scheme, [n] hyphens at the end of
    the text are [n] SYM tokens after the token of the word, and the round
    that reads the word reads all the hyphens and gives all [n] back. *)
Theorem hyphens_after_a_label (tlds : list jsstring) (A : Scanner)
    (c : char) (w : jsstring) (n : nat) :
  scanner tlds = Some A -> plainTlds tlds ->
  (forall u, In u tlds -> ~ In HYPHEN u) ->
  (startsTld tlds c \/ exists v, In (c :: v) schemes) ->
  alnumWord (c :: w) ->
  (exists tc,
     run A ((c :: w) ++ hyphens n) =
     Returns (mkToken tc (c :: w) ::
              repeat (mkToken TOKENS.SYM [HYPHEN]) n)) /\
  rollback A ((c :: w) ++ hyphens n) 0 = Z.of_nat n.
Proof.
  intros H Hp Hno Hc Hw. apply scanner_Built in H.
  inversion Hw as [|? ? Hca Hw']; subst.
  destruct (B_walk_label _ _ H Hp c w Hc Hw') as (m & Hm & Hd).
  destruct (domLike_tag _ _ Hd) as (tc & He & _).
  pose proof (B_steps_hyphens _ _ H Hp m n Hno Hd) as Hs.
  assert (Hacc : Forall (fun k => accepts (states A) k = false)
                   (steps (states A) m (hyphens n))).
  { rewrite Hs. apply Forall_forall. intros k Hk. apply repeat_spec in Hk.
    subst k. apply accepts_false. apply (B_emit_3 _ _ H). }
  assert (El : lowerAZ ((c :: w) ++ hyphens n) = (c :: w) ++ hyphens n).
  { rewrite lowerAZ_app, (lowerAZ_alnum _ Hw), lowerAZ_hyphens. reflexivity. }
  split.
  - exists tc. apply (run_iff _ _ H). rewrite El.
    pose proof (Tokenizes_back A ((c :: w) ++ hyphens n) (c :: w) (hyphens n)
                  m tc (repeat (mkToken TOKENS.SYM [HYPHEN]) n)) as T.
    rewrite firstn_app, Nat.sub_diag, firstn_all, firstn_O, app_nil_r in T.
    apply T.
    + discriminate.
    + rewrite (B_start _ _ H). exact Hm.
    + exact He.
    + exact Hacc.
    + rewrite skipn_app, skipn_all, Nat.sub_diag. simpl.
      pose proof (B_tok_hyphens _ _ H (hyphens n) n Hno (repeat_length _ _))
        as T'.
      unfold hyphens in T' at 3. rewrite map_repeat in T'. exact T'.
  - unfold rollback, round. rewrite El.
    pose proof (round_spec A ((c :: w) ++ hyphens n) _ 0%Z eq_refl
                  (Z.le_refl 0)) as R.
    cbv zeta in R. change (Z.to_nat 0) with 0%nat in R. cbn [skipn] in R.
    rewrite (B_start _ _ H) in R.
    rewrite (lastAcc_back A 0 (c :: w) (hyphens n) m) in R; auto;
      [|discriminate|apply accepts_emit; congruence].
    destruct R as (_ & R & _). rewrite (B_start _ _ H). rewrite R.
    rewrite (steps_all _ _ _ _ Hm), length_app, Hs,
      (steps_complete _ _ _ _ Hm), repeat_length.
    lia.
Qed.

Lemma hyphens_after_a_label_witness :
  (exists tc,
     run sampleScanner ((chr "a" :: js "b") ++ hyphens 12) =
     Returns (mkToken tc (chr "a" :: js "b") ::
              repeat (mkToken TOKENS.SYM [HYPHEN]) 12)) /\
  rollback sampleScanner ((chr "a" :: js "b") ++ hyphens 12) 0 = Z.of_nat 12.
Proof.
  apply (hyphens_after_a_label sampleTlds sampleScanner (chr "a") (js "b") 12
           sample_built sample_plain sample_no_hyphen).
  - left. exists (js "c"). left. reflexivity.
  - apply alnumWord_check. reflexivity.
Defined.

(** X13.  With no symbol or whitespace character in a top-level domain and
    no top-level domain that begins with "localhost": "localhost", in any
    case of its letters, at the end of the text or before a character that
    is no letter, digit or hyphen, is one LOCALHOST token. *)
Theorem localhost_is_a_token (tlds : list jsstring) (A : Scanner)
    (str r : jsstring) (tokens : list Token) :
  scanner tlds = Some A -> plainTlds tlds ->
  (forall u, In u tlds -> ~ isPrefix (js "localhost") u) ->
  lowerAZ str = js "localhost" ->
  (r = [] \/ exists c r', r = c :: r' /\ ~ In (toLowerAZ c) ALPHANUM /\
                          c <> HYPHEN) ->
  run A r = Returns tokens ->
  run A (str ++ r) = Returns (mkToken TOKENS.LOCALHOST str :: tokens).
Proof.
  intros H Hp Hno Hl Hr Hrun. apply scanner_Built in H.
  apply (run_iff _ _ H) in Hrun. apply (run_iff _ _ H).
  rewrite lowerAZ_app, Hl.
  assert (Hlen : List.length str = 9%nat).
  { rewrite <- (length_lowerAZ str), Hl. reflexivity. }
  pose proof (B_tok_localhost _ _ H Hp (str ++ r) (lowerAZ r) tokens Hno
                (first_not_alnum _ Hr)) as T.
  rewrite <- Hlen in T.
  rewrite firstn_app, Nat.sub_diag, firstn_all, firstn_O, app_nil_r in T.
  apply T. rewrite skipn_app, skipn_all, Nat.sub_diag. exact Hrun.
Qed.

Lemma sample_no_localhost :
  forall u, In u sampleTlds -> ~ isPrefix (js "localhost") u.
Proof.
  intros u H (r & E). simpl in H.
  repeat (destruct H as [<-|H]; [discriminate E|]). exact H.
Qed.

Lemma localhost_is_a_token_witness :
  run sampleScanner (js "LocalHost" ++ js ":8080") =
  Returns [mkToken TOKENS.LOCALHOST (js "LocalHost");
           mkToken TOKENS.COLON (js ":"); mkToken TOKENS.NUM (js "8080")].
Proof.
  apply (localhost_is_a_token sampleTlds sampleScanner (js "LocalHost")
           (js ":8080") _ sample_built sample_plain sample_no_localhost).
  - reflexivity.
  - right. exists (chr ":"), (js "8080"). split; [reflexivity|].
    split; [|discriminate].
    intros X. apply isIn_In in X. discriminate X.
  - vm_compute. reflexivity.
Defined.

(** X14.  With no symbol or whitespace character in a top-level domain:
    the text of a PROTOCOL token is, up to the case of its letters, one of
    "file:", "ftp:", "http:", "ftps:" and "https:". *)
Theorem protocol_tokens_are_schemes (tlds : list jsstring) (A : Scanner)
    (str : jsstring) (tokens : list Token) (t : Token) :
  scanner tlds = Some A -> plainTlds tlds ->
  run A str = Returns tokens -> In t tokens ->
  tokenClass t = TOKENS.PROTOCOL ->
  In (lowerAZ (text t)) protocolTexts.
Proof.
  intros H Hp Hr Hin Hc. apply scanner_Built in H.
  destruct (run_token_walk _ _ H _ _ _ Hr Hin) as (s & Hw & He).
  rewrite Hc in He. exact (B_protocol_texts _ _ H Hp _ _ Hw He).
Qed.

Lemma protocol_tokens_are_schemes_witness :
  In (lowerAZ (text (mkToken TOKENS.PROTOCOL (js "HTTPS:")))) protocolTexts.
Proof.
  apply (protocol_tokens_are_schemes sampleTlds sampleScanner
           (js "HTTPS://")
           [mkToken TOKENS.PROTOCOL (js "HTTPS:");
            mkToken TOKENS.SLASH (js "/"); mkToken TOKENS.SLASH (js "/")]
           _ sample_built sample_plain).
  - vm_compute. reflexivity.
  - left. reflexivity.
  - reflexivity.
Defined.

(* ------------------------------------------------------------------ *)
(** * The order of the top-level domains *)

Section Reinsertion.

Variables endToken defaultToken : TokenClass.

(** A word that can already be walked adds nothing. *)
Lemma stateify_noop (word : jsstring) :
  forall state st m,
    walk st state word = Some m ->
    stateify word state endToken defaultToken st = Some ([], st).
Proof.
  induction word as [|c rest IH]; intros state st m; cbn [stateify walk].
  - intros _. reflexivity.
  - destruct (next st state c) as [n|]; [|discriminate]. apply IH.
Qed.

End Reinsertion.

Lemma walk_prefix st s (w r : jsstring) m :
  walk st s (w ++ r) = Some m -> exists m', walk st s w = Some m'.
Proof.
  rewrite walk_app. destruct (walk st s w) as [m'|]; [eauto|discriminate].
Qed.

Lemma st0_nodefault : NoDefault st0.
Proof. exact (invA_nodefault _ InvA_st0). Qed.

Lemma st0_wf : WF st0.
Proof. exact (invA_wf _ InvA_st0). Qed.

(** After the loop over the top-level domains every prefix of one of them
    can be walked from the start state. *)
Lemma tldStates_prefix_walkable tlds ds st1 u w :
  tldStates tlds 0 [] st0 = Some (ds, st1) ->
  In u tlds -> isPrefix w u -> exists m, walk st1 0 w = Some m.
Proof.
  intros H Hu (r & ->).
  destruct (tldStates_walkable _ _ _ _ _ st0_nodefault st0_wf
              ltac:(rewrite st0_length; lia) H _ Hu) as (m & Hm).
  eapply walk_prefix; eauto.
Qed.

(** X2.  When a top-level domain begins with "file", "ftp" or "http", the
    word is already there when its protocol states are made, none is
    made, the state taken from the end of the empty list is undefined, and
    the construction throws. *)
Theorem protocol_prefix_breaks_construction (tlds : list jsstring)
    (p u : jsstring) :
  In p (map js ["file"; "ftp"; "http"]%string) ->
  In u tlds -> isPrefix p u ->
  scanner tlds = None.
Proof.
  intros Hp Hu Hpre.
  destruct (scanner tlds) as [A|] eqn:E; [exfalso|reflexivity].
  apply scanner_Trace in E.
  destruct E as [tld st1 file st2 ftp st3 http st4 sfile sftp shttp localhost
                   st7 st8 Htld Hfile Hftp Hhttp Hpf Hpp Hph Hloc Hov Hst Hstart].
  destruct (tldStates_prefix_walkable _ _ _ _ _ Htld Hu Hpre) as (m & Hm).
  pose proof (proj1 (tldStates_Ext _ _ _ _ _ Htld)) as E1.
  pose proof (proj1 (stateify_Ext _ _ _ _ _ _ _ Hfile)) as E2.
  pose proof (proj1 (stateify_Ext _ _ _ _ _ _ _ Hftp)) as E3.
  pose proof (Ext_NoDefault _ _ _ _ E1 st0_nodefault) as N1.
  pose proof (Ext_NoDefault _ _ _ _ E2 N1) as N2.
  pose proof (walk_Grows _ _ p N1 (Ext_Grows _ _ _ _ E2) _ _ Hm) as Hm2.
  pose proof (walk_Grows _ _ p N2 (Ext_Grows _ _ _ _ E3) _ _ Hm2) as Hm3.
  destruct Hp as [<-|[<-|[<-|[]]]].
  - rewrite (stateify_noop _ _ _ _ _ _ Hm) in Hfile.
    injection Hfile as <- _. discriminate Hpf.
  - rewrite (stateify_noop _ _ _ _ _ _ Hm2) in Hftp.
    injection Hftp as <- _. discriminate Hpp.
  - rewrite (stateify_noop _ _ _ _ _ _ Hm3) in Hhttp.
    injection Hhttp as <- _. discriminate Hph.
Qed.

Lemma protocol_prefix_breaks_construction_witness :
  scanner (map js ["com"; "ftp"; "net"]%string) = None.
Proof.
  apply (protocol_prefix_breaks_construction _ (js "ftp") (js "ftp")).
  - right. left. reflexivity.
  - right. left. reflexivity.
  - exists []. reflexivity.
Defined.

(** ** Alphabetical order *)

Lemma lexleb_prefix (u w : jsstring) :
  lexleb u w = true -> isPrefix w u -> u = w.
Proof.
  revert u. induction w as [|b w IH]; intros u Hle (r & E).
  - destruct u; [reflexivity|discriminate Hle].
  - destruct u as [|a u]; [discriminate E|].
    simpl in E. injection E as -> ->. simpl in Hle.
    rewrite N.ltb_irrefl, N.eqb_refl in Hle.
    f_equal. apply IH; [exact Hle|]. exists r. reflexivity.
Qed.

Lemma alphabetical_before (l1 l2 : list jsstring) (w : jsstring) :
  alphabetical (l1 ++ w :: l2) ->
  forall u, In u l1 -> lexleb u w = true.
Proof.
  induction l1 as [|a l1 IH]; intros H u Hu; [destruct Hu|].
  cbn [app alphabetical] in H. destruct H as [Ha H].
  destruct Hu as [<-|Hu].
  - rewrite Forall_forall in Ha. apply Ha. apply in_or_app. right. left.
    reflexivity.
  - apply IH; assumption.
Qed.

Lemma in_split_first (w : jsstring) (l : list jsstring) :
  In w l -> exists l1 l2, l = l1 ++ w :: l2 /\ ~ In w l1.
Proof.
  induction l as [|a l IH]; intros H; [destruct H|].
  destruct (list_eq_dec N.eq_dec a w) as [->|Hne].
  - exists [], l. split; [reflexivity|intros []].
  - destruct H as [H|H]; [contradiction|].
    destruct (IH H) as (l1 & l2 & -> & Hn).
    exists (a :: l1), l2. split; [reflexivity|].
    intros [X|X]; [contradiction|exact (Hn X)].
Qed.

Lemma alphabetical_recognised (tlds : list jsstring) (w : jsstring) :
  alphabetical tlds -> In w tlds -> w <> [] -> recognised tlds w.
Proof.
  intros Ha Hin Hne. split; [exact Hne|].
  destruct (in_split_first _ _ Hin) as (l1 & l2 & -> & Hn).
  exists l1, l2. split; [reflexivity|].
  intros u Hu Hp. apply Hn.
  rewrite <- (lexleb_prefix u w); [exact Hu| |exact Hp].
  eapply alphabetical_before; eauto.
Qed.

(** X3.  With no symbol or whitespace character in a top-level domain and
    the list in alphabetical order: for every entry that is not empty, has
    no capital letter and is not the word "localhost" (line 106 inserts
    that word once more, with another tag), the walk of the entry from the
    start state ends in a state tagged TLD, and every text that is the
    entry up to the case of its letters is one TLD token. *)
Theorem alphabetical_tlds_are_tokens (tlds : list jsstring) (A : Scanner)
    (w : jsstring) :
  scanner tlds = Some A -> plainTlds tlds -> alphabetical tlds ->
  In w tlds -> w <> [] -> lowerAZ w = w -> w <> js "localhost" ->
  (exists m, walk (states A) (start A) w = Some m /\
             emit (states A) m = Some TOKENS.TLD) /\
  (forall str, lowerAZ str = w ->
               run A str = Returns [mkToken TOKENS.TLD str]).
Proof.
  intros H Hp Ha Hin Hne Hlow _. apply scanner_Built in H.
  pose proof (alphabetical_recognised _ _ Ha Hin Hne) as Hr. split.
  - rewrite (B_start _ _ H). exact (B_tld _ _ H Hp _ Hr).
  - intros str Hl. apply (run_iff _ _ H). rewrite Hl.
    pose proof (tok_tld_end _ _ H Hp str w Hr) as T.
    rewrite <- Hl, length_lowerAZ, firstn_all in T. rewrite <- Hl. exact T.
Qed.

Lemma sample_alphabetical : alphabetical sampleTlds.
Proof. cbn [sampleTlds map alphabetical]. repeat split; repeat constructor. Qed.

Lemma alphabetical_tlds_are_tokens_witness :
  (exists m, walk (states sampleScanner) (start sampleScanner) (js "org")
             = Some m /\
             emit (states sampleScanner) m = Some TOKENS.TLD) /\
  run sampleScanner (js "ORG") = Returns [mkToken TOKENS.TLD (js "ORG")].
Proof.
  assert (Hin : In (js "org") sampleTlds) by (do 10 right; left; reflexivity).
  assert (Hne : js "org" <> []) by discriminate.
  assert (Hlo : js "org" <> js "localhost") by discriminate.
  destruct (alphabetical_tlds_are_tokens sampleTlds sampleScanner (js "org")
              sample_built sample_plain sample_alphabetical Hin Hne eq_refl Hlo)
    as [W R].
  split; [exact W|]. apply R. reflexivity.
Defined.

(* ------------------------------------------------------------------ *)
(** * The shape of the tokens *)

Lemma Forall_lowerAZ (Q : char -> Prop) (s : jsstring) :
  Forall Q (lowerAZ s) -> Forall (fun c => Q (toLowerAZ c)) s.
Proof.
  induction s as [|c s IH]; intros H; [constructor|].
  inversion H; subst. constructor; auto.
Qed.

(** X11.  With no symbol or whitespace character in a top-level domain,
    every token of a scan has one of four shapes: a DOMAIN, TLD, LOCALHOST
    or NUM token holds no symbol of lines 40 to 59 and no whitespace; a WS
    token holds only the whitespace characters of line 17; a PROTOCOL
    token is such a word followed by the colon; and a token of any other
    class has exactly one character. *)
Theorem token_shapes (tlds : list jsstring) (A : Scanner)
    (str : jsstring) (tokens : list Token) (t : Token) :
  scanner tlds = Some A -> plainTlds tlds ->
  run A str = Returns tokens -> In t tokens ->
  (labelClass (tokenClass t) /\
   Forall (fun c => plainChar (toLowerAZ c)) (text t)) \/
  (tokenClass t = TOKENS.WS /\
   Forall (fun c => In c WHITESPACE) (text t)) \/
  (tokenClass t = TOKENS.PROTOCOL /\
   exists v, text t = v ++ [COLON] /\
             Forall (fun c => plainChar (toLowerAZ c)) v) \/
  (~ labelClass (tokenClass t) /\ tokenClass t <> TOKENS.WS /\
   tokenClass t <> TOKENS.PROTOCOL /\ List.length (text t) = 1%nat).
Proof.
  intros H Hp Hr Hin. apply scanner_Built in H.
  destruct (run_token_walk _ _ H _ _ _ Hr Hin) as (s & Hw & He).
  assert (Hne : lowerAZ (text t) <> []).
  { apply (run_iff _ _ H) in Hr.
    apply Tokenizes_nonempty in Hr; [|symmetry; apply length_lowerAZ].
    rewrite Forall_forall in Hr. specialize (Hr _ Hin).
    destruct (text t); [congruence|discriminate]. }
  destruct (B_text_shape _ _ H Hp _ _ _ Hw Hne He)
    as [[Hc Hf]|[[Hc Hf]|[[Hc (v & Ev & Hf)]|(H1 & H2 & H3 & Hl)]]].
  - left. split; [exact Hc|]. apply Forall_lowerAZ. exact Hf.
  - right; left. split; [exact Hc|]. apply Forall_lowerAZ in Hf.
    eapply Forall_impl; [|exact Hf]. intros c. apply toLowerAZ_WS.
  - right; right; left. split; [exact Hc|].
    destruct (lowerAZ_snoc_inv _ _ _ Ev) as (x & c & Ex & Hx & Hcol).
    exists x. split.
    + rewrite Ex. f_equal. f_equal.
      apply (toLowerAZ_fixed c COLON Hcol). vm_compute. intros [X _]. apply X.
      reflexivity.
    + rewrite <- Hx in Hf. apply Forall_lowerAZ. exact Hf.
  - right; right; right. rewrite length_lowerAZ in Hl. auto.
Qed.

Lemma token_shapes_witness :
  (labelClass TOKENS.DOMAIN /\
   Forall (fun c => plainChar (toLowerAZ c)) (js "FOO")) \/
  (TOKENS.DOMAIN = TOKENS.WS /\
   Forall (fun c => In c WHITESPACE) (js "FOO")) \/
  (TOKENS.DOMAIN = TOKENS.PROTOCOL /\
   exists v, js "FOO" = v ++ [COLON] /\
             Forall (fun c => plainChar (toLowerAZ c)) v) \/
  (~ labelClass TOKENS.DOMAIN /\ TOKENS.DOMAIN <> TOKENS.WS /\
   TOKENS.DOMAIN <> TOKENS.PROTOCOL /\ List.length (js "FOO") = 1%nat).
Proof.
  apply (token_shapes sampleTlds sampleScanner (js "FOO- bar")
           [mkToken TOKENS.DOMAIN (js "FOO"); mkToken TOKENS.SYM (js "-");
            mkToken TOKENS.WS (js " "); mkToken TOKENS.DOMAIN (js "bar")]
           (mkToken TOKENS.DOMAIN (js "FOO")) sample_built sample_plain).
  - vm_compute. reflexivity.
  - left. reflexivity.
Defined.

(* ------------------------------------------------------------------ *)
(** * When the construction succeeds *)

Lemma on_ok s c t st :
  (s < List.length st)%nat ->
  on s c t st = Some (tt, update st s (addJump c t)).
Proof.
  intros H. unfold on. destruct (nth_error_ex _ _ H) as (x & ->). reflexivity.
Qed.

Lemma onEach_ok cs : forall s t st,
  (s < List.length st)%nat ->
  exists st', onEach s cs t st = Some (tt, st') /\
              List.length st' = List.length st.
Proof.
  induction cs as [|c cs IH]; intros s t st H; cbn [onEach].
  - exists st. split; reflexivity.
  - unfold bind. rewrite (on_ok _ _ _ _ H).
    destruct (IH s t (update st s (addJump c t))) as (st' & E & L);
      [rewrite length_update; exact H|].
    exists st'. split; [exact E|]. rewrite L. apply length_update.
Qed.

Lemma domainJumps_ok ds n : forall st,
  Forall (fun s => (s < List.length st)%nat) ds ->
  exists st', domainJumps ds n st = Some (tt, st') /\
              List.length st' = List.length st.
Proof.
  induction ds as [|s ds IH]; intros st H; cbn [domainJumps].
  - exists st. split; reflexivity.
  - inversion H as [|? ? Hs Hds]; subst.
    unfold bind. rewrite (on_ok _ _ _ _ Hs).
    destruct (onEach_ok ALPHANUM s (S_DOMAIN n)
                (update st s (addJump HYPHEN (S_DOMAIN_HYPHEN n))))
      as (st1 & E1 & L1); [rewrite length_update; exact Hs|].
    rewrite E1. rewrite length_update in L1.
    destruct (IH st1) as (st' & E & L).
    { eapply Forall_impl; [|exact Hds]. cbv beta. intros a Ha. lia. }
    exists st'. split; [exact E|lia].
Qed.

Lemma stateify_ok e dft w : forall state st,
  NoDefault st -> WF st -> (state < List.length st)%nat ->
  exists news st', stateify w state e dft st = Some (news, st').
Proof.
  induction w as [|c rest IH]; intros state st Hd Hw Hs; cbn [stateify].
  - eexists _, _. reflexivity.
  - destruct (next st state c) as [n|] eqn:En.
    + apply IH; auto. eapply next_WF; eauto.
    + unfold bind, makeState.
      rewrite on_ok by (rewrite length_app; simpl; lia).
      set (st2 := update _ state _).
      destruct (IH (List.length st) st2) as (news & st' & E).
      * apply NoDefault_addJump, NoDefault_snoc, Hd.
      * apply WF_addJump; [apply WF_snoc, Hw|rewrite length_app; simpl; lia].
      * unfold st2. rewrite length_update, length_app. simpl. lia.
      * rewrite E. eexists _, _. reflexivity.
Qed.

Lemma tldStates_ok tlds : forall ds st,
  NoDefault st -> WF st -> (0 < List.length st)%nat ->
  exists ds' st', tldStates tlds 0 ds st = Some (ds', st').
Proof.
  induction tlds as [|w tlds IH]; intros ds st Hd Hw Hl; cbn [tldStates].
  - eexists _, _. reflexivity.
  - unfold bind.
    destruct (stateify_ok T_TLD T_DOMAIN w 0 st Hd Hw Hl) as (news & st1 & E).
    rewrite E. apply IH.
    + eapply Ext_NoDefault; [exact (proj1 (stateify_Ext _ _ _ _ _ _ _ E))|exact Hd].
    + eapply stateify_WF; eauto.
    + pose proof (Ext_length _ _ _ _ (proj1 (stateify_Ext _ _ _ _ _ _ _ E))). lia.
Qed.

Lemma pop_nonempty l : l <> [] -> exists m, pop l = Some m.
Proof.
  induction l as [|a l IH]; intros H; [congruence|].
  destruct l as [|b l]; [exists a; reflexivity|].
  rewrite pop_cons by discriminate. apply IH. discriminate.
Qed.

Lemma seq_bound a k s : In s (seq a k) -> (a <= s < a + k)%nat.
Proof. apply in_seq. Qed.

Lemma setD_ok s t st :
  (s < List.length st)%nat ->
  setD s t st = Some (tt, update st s (setDefault t)).
Proof.
  intros H. unfold setD. destruct (nth_error_ex _ _ H) as (x & ->). reflexivity.
Qed.

Lemma fresh_literal ws st w e dft news st' :
  InvA st -> TrieInv ws st -> plainWord w -> w <> [] ->
  (forall u, In u ws -> ~ isPrefix w u) ->
  stateify w 0 e dft st = Some (news, st') ->
  exists m, pop news = Some m /\ (List.length st <= m < List.length st')%nat.
Proof.
  intros HI HT Hp Hne Hno H.
  pose proof (invA_len _ HI) as L.
  assert (H0 : (0 < List.length st)%nat) by lia.
  destruct (stateify_walk _ _ _ _ _ _ _ (invA_nodefault _ HI) (invA_wf _ HI)
              H0 H) as [Ha _].
  destruct (nil_or_not news) as [E|E].
  - exfalso. destruct (Ha E) as (m & Hm).
    destruct (walk_srcOK st w HI Hp 0%nat m (srcOK_start _) H0 Hm)
      as [[->|[H20 _]] _].
    + apply walk_zero in Hm; [contradiction|exact HI].
    + destruct (trie_prefix _ _ HT _ _ Hm H20) as (u & Hu & Hpre).
      exact (Hno _ Hu Hpre).
  - destruct (pop_nonempty _ E) as (m & Hm). exists m. split; [exact Hm|].
    destruct (stateify_popped _ _ _ _ _ _ _ _ (invA_nodefault _ HI)
                (invA_wf _ HI) H0 H Hm) as (_ & _ & Hb & _).
    exact Hb.
Qed.

Lemma wire_ok (tlds : list jsstring) :
  plainTlds tlds ->
  (forall u p, In u tlds -> In p (map js ["file"; "ftp"; "http"]%string) ->
               ~ isPrefix p u) ->
  exists st, wire tlds named0 st0 = Some (tt, st).
Proof.
  intros Hp Hno. unfold wire. cbn [S_START S_NUM S_DOMAIN S_DOMAIN_HYPHEN S_WS named0].
  destruct (tldStates_ok tlds [] st0 st0_nodefault st0_wf
              ltac:(rewrite st0_length; lia)) as (ds & st1 & H1).
  unfold bind at 1. rewrite H1. cbn beta iota.
  destruct (tldStates_inv tlds [] [] st0 ds st1 Hp InvA_st0 TrieInv_st0 H1)
    as [I1 T1]. cbn [app] in T1.
  destruct (tldStates_Ext _ _ _ _ _ H1) as [X1 D1]. cbn [app] in D1.
  (* file *)
  pose proof (invA_len _ I1) as L1.
  assert (Z1 : (0 < List.length st1)%nat) by lia.
  destruct (stateify_ok T_DOMAIN T_DOMAIN (js "file") 0 st1
              (invA_nodefault _ I1) (invA_wf _ I1) Z1) as (file & st2 & H2).
  unfold bind at 1. rewrite H2. cbn beta iota.
  destruct (stateify_Trie_other T_DOMAIN T_DOMAIN T_DOMAIN_ok T_DOMAIN_ok
              T_DOMAIN_not_TLD T_DOMAIN_not_TLD (tlds ++ [js "file"])
              (js "file") st1 file st2 plainWord_file I1) as [I2 T2];
    [eapply TrieInv_incl; [|exact T1]; intros u Hu; apply in_or_app; auto
    |apply in_or_app; right; left; reflexivity|exact H2|].
  assert (Nf : forall u, In u tlds -> ~ isPrefix (js "file") u).
  { intros u Hu. apply (Hno u _ Hu). left. reflexivity. }
  assert (Ef : js "file" <> []) by discriminate.
  destruct (fresh_literal tlds st1 (js "file") _ _ _ _ I1 T1 plainWord_file
              Ef Nf H2) as (sfile & Pf & Bf).
  destruct (stateify_Ext _ _ _ _ _ _ _ H2) as [X2 D2].
  pose proof (invA_len _ I2) as L2.
  assert (Z2 : (0 < List.length st2)%nat) by lia.
  (* ftp *)
  destruct (stateify_ok T_DOMAIN T_DOMAIN (js "ftp") 0 st2
              (invA_nodefault _ I2) (invA_wf _ I2) Z2) as (ftp & st3 & H3).
  unfold bind at 1. rewrite H3. cbn beta iota.
  destruct (stateify_Trie_other T_DOMAIN T_DOMAIN T_DOMAIN_ok T_DOMAIN_ok
              T_DOMAIN_not_TLD T_DOMAIN_not_TLD (tlds ++ [js "file"; js "ftp"])
              (js "ftp") st2 ftp st3 plainWord_ftp I2) as [I3 T3];
    [eapply TrieInv_incl; [|exact T2]; intros u Hu; apply in_app_or in Hu;
     apply in_or_app; destruct Hu as [Hu|[<-|[]]];
     [left; exact Hu|right; left; reflexivity]
    |apply in_or_app; right; right; left; reflexivity|exact H3|].
  assert (Np : forall u, In u (tlds ++ [js "file"]) -> ~ isPrefix (js "ftp") u).
  { intros u Hu. apply in_app_or in Hu. destruct Hu as [Hu|[<-|[]]].
    - apply (Hno u _ Hu). right. left. reflexivity.
    - intros (r & E). discriminate E. }
  assert (Ep : js "ftp" <> []) by discriminate.
  destruct (fresh_literal _ st2 (js "ftp") _ _ _ _ I2 T2 plainWord_ftp
              Ep Np H3) as (sftp & Pp & Bp).
  destruct (stateify_Ext _ _ _ _ _ _ _ H3) as [X3 D3].
  pose proof (invA_len _ I3) as L3.
  assert (Z3 : (0 < List.length st3)%nat) by lia.
  (* http *)
  destruct (stateify_ok T_DOMAIN T_DOMAIN (js "http") 0 st3
              (invA_nodefault _ I3) (invA_wf _ I3) Z3) as (http & st4 & H4).
  unfold bind at 1. rewrite H4. cbn beta iota.
  assert (Nh : forall u, In u (tlds ++ [js "file"; js "ftp"]) ->
                         ~ isPrefix (js "http") u).
  { intros u Hu. apply in_app_or in Hu. destruct Hu as [Hu|[<-|[<-|[]]]].
    - apply (Hno u _ Hu). right. right. left. reflexivity.
    - intros (r & E). discriminate E.
    - intros (r & E). discriminate E. }
  assert (Eh : js "http" <> []) by discriminate.
  destruct (fresh_literal _ st3 (js "http") _ _ _ _ I3 T3 plainWord_http
              Eh Nh H4) as (shttp & Ph & Bh).
  destruct (stateify_Ext _ _ _ _ _ _ _ H4) as [X4 D4].
  pose proof (Ext_length _ _ _ _ X4) as L4.
  pose proof (Ext_NoDefault _ _ _ _ X4 (invA_nodefault _ I3)) as N4.
  pose proof (stateify_WF _ _ _ _ _ _ _ (invA_wf _ I3) H4) as W4.
  (* the secure and the full state, and the protocol edges *)
  cbv zeta. rewrite Pf, Pp, Ph. cbn [theState].
  unfold bind at 1. unfold makeState at 1. cbn beta iota.
  unfold bind at 1. unfold makeState at 1. cbn beta iota.
  assert (Lb : forall (a b : CharacterState),
             List.length ((st4 ++ [a]) ++ [b]) = S (S (List.length st4)))
    by (intros; rewrite !length_app; simpl; lia).
  assert (La : forall (a : CharacterState),
             List.length (st4 ++ [a]) = S (List.length st4))
    by (intros; rewrite !length_app; simpl; lia).
  rewrite La.
  (* ftp *)
  unfold bind at 1. unfold bind at 1. unfold ret at 1. cbn beta iota.
  unfold bind at 1. rewrite on_ok by (rewrite ?length_update, Lb; lia).
  cbn beta iota. rewrite on_ok by (rewrite ?length_update, Lb; lia).
  cbn beta iota.
  (* http *)
  unfold bind at 1. unfold bind at 1. unfold ret at 1. cbn beta iota.
  unfold bind at 1. rewrite on_ok by (rewrite ?length_update, Lb; lia).
  cbn beta iota. rewrite on_ok by (rewrite ?length_update, Lb; lia).
  cbn beta iota.
  (* file *)
  unfold bind at 1. unfold bind at 1. unfold ret at 1. cbn beta iota.
  rewrite on_ok by (rewrite ?length_update, Lb; lia).
  cbn beta iota.
  (* secure *)
  unfold bind at 1. rewrite on_ok by (rewrite ?length_update, Lb; lia).
  cbn beta iota.
  change (update _ (List.length st4) (addJump COLON (S (List.length st4))))
    with (withProtocols st4 sfile sftp shttp).
  set (P := withProtocols st4 sfile sftp shttp).
  pose proof (withProtocols_Ext st4 sfile sftp shttp) as XP. fold P in XP.
  pose proof (withProtocols_length st4 sfile sftp shttp) as LP. fold P in LP.
  pose proof (Ext_NoDefault _ _ _ _ XP N4) as NP.
  assert (WP : WF P).
  { eapply Ext_WF; [|exact XP|exact W4]. cbv beta. intros s c t Hb. lia. }
  assert (ZP : (0 < List.length P)%nat) by lia.
  destruct (stateify_ok T_LOCALHOST T_DOMAIN (js "localhost") 0 P NP WP ZP)
    as (loc & st7 & H7).
  unfold bind at 1. rewrite H7. cbn beta iota.
  destruct (stateify_Ext _ _ _ _ _ _ _ H7) as [X7 D7].
  pose proof (Ext_length _ _ _ _ X7) as L7.
  (* the fall-back edges *)
  destruct (onEach_ok NUM 0 1 st7 ltac:(lia)) as (sa & Ea & La').
  unfold bind at 1. rewrite Ea. cbn beta iota.
  unfold bind at 1. rewrite on_ok by lia. cbn beta iota.
  destruct (onEach_ok NUM 1 1 (update sa 1 (addJump HYPHEN 3)))
    as (sb & Eb & Lb'); [rewrite length_update; lia|].
  rewrite length_update in Lb'.
  unfold bind at 1. rewrite Eb. cbn beta iota.
  destruct (onEach_ok ALPHANUM 1 2 sb ltac:(lia)) as (sc & Ec & Lc).
  unfold bind at 1. rewrite Ec. cbn beta iota.
  unfold bind at 1. rewrite on_ok by lia. cbn beta iota.
  destruct (onEach_ok ALPHANUM 2 2 (update sc 2 (addJump HYPHEN 3)))
    as (sd & Ed & Ld); [rewrite length_update; lia|].
  rewrite length_update in Ld.
  unfold bind at 1. rewrite Ed. cbn beta iota.
  destruct (domainJumps_ok
              (((((ds ++ file) ++ ftp) ++ http) ++ [List.length st4]) ++ loc)
              named0 sd) as (se & Ee & Le).
  { rewrite D1, D2, D3, D4, D7. rewrite st0_length.
    repeat (apply Forall_app; split);
      try (apply Forall_forall; intros s Hs; apply in_seq in Hs; lia).
    constructor; [lia|constructor]. }
  unfold bind at 1. rewrite Ee. cbn beta iota.
  unfold bind at 1. rewrite on_ok by lia. cbn beta iota.
  destruct (onEach_ok NUM 3 2 (update se 3 (addJump HYPHEN 3)))
    as (sf & Ef' & Lf); [rewrite length_update; lia|].
  rewrite length_update in Lf.
  unfold bind at 1. rewrite Ef'. cbn beta iota.
  destruct (onEach_ok ALPHANUM 3 2 sf ltac:(lia)) as (sg & Eg & Lg).
  unfold bind at 1. rewrite Eg. cbn beta iota.
  unfold bind at 1. unfold makeState at 1. cbn beta iota.
  rewrite setD_ok by (rewrite length_app; simpl; lia).
  eexists. reflexivity.
Qed.

(** X12.  With no symbol or whitespace character in a top-level domain and
    no top-level domain that begins with "file", "ftp" or "http", the
    construction throws nowhere: it returns a scanner. *)
Theorem construction_succeeds (tlds : list jsstring) :
  plainTlds tlds ->
  (forall u p, In u tlds -> In p (map js ["file"; "ftp"; "http"]%string) ->
               ~ isPrefix p u) ->
  exists A, scanner tlds = Some A.
Proof.
  intros Hp Hno. rewrite scanner_unfold.
  destruct (wire_ok tlds Hp Hno) as (st & ->). eexists. reflexivity.
Qed.

Lemma sample_no_protocol_prefix :
  forall u p, In u sampleTlds ->
              In p (map js ["file"; "ftp"; "http"]%string) -> ~ isPrefix p u.
Proof.
  intros u p Hu Hp (r & E). simpl in Hu, Hp.
  destruct Hp as [<-|[<-|[<-|[]]]];
    repeat (destruct Hu as [<-|Hu]; [discriminate E|]); exact Hu.
Qed.

Lemma construction_succeeds_witness : exists A, scanner sampleTlds = Some A.
Proof.
  exact (construction_succeeds sampleTlds sample_plain
           sample_no_protocol_prefix).
Defined.
